(** * RIVET bigraded linear algebra: a shallow embedding

    The development follows the C++ sources

    - [math/phat_mod/include/phat/representations/vector_heap_mod.h]
      (lazy-heap columns, [vector_heap_mod] and [vector_heap_perm]),
    - [math/map_matrix.cpp] (sorted linked-list columns, [MapMatrix_Base],
      [MapMatrix], [MapMatrix_Perm], [MapMatrix_RowPriority_Perm]),
    - [math/bigraded_matrix.cpp] ([BigradedMatrix::kernel]).

    Part I holds the definitions, Part II the lemmas and theorems. *)

From Stdlib Require Import ZArith List Lia Bool Permutation Sorted String Arith.
From stdpp Require Import base tactics option list.
Import ListNotations.
Local Open Scope Z_scope.

(* ===================================================================== *)
(** * Part I: definitions *)
(* ===================================================================== *)

(** ** Outcomes of an operation

    An operation of the C++ code either returns, throws a
    [std::runtime_error], indexes a [std::vector] past its end (undefined
    behaviour), or loops for ever. *)

Inductive fault : Type :=
  | runtime_error (what : string)
  | OutOfBounds
  | NonTermination.

Inductive result (A : Type) : Type :=
  | Ok (a : A)
  | Fail (f : fault).
Arguments Ok {A} a.
Arguments Fail {A} f.

Definition bind {A B : Type} (r : result A) (k : A -> result B) : result B :=
  match r with
  | Ok a => k a
  | Fail f => Fail f
  end.

Notation "'do' x <- e ; k" := (bind e (fun x => k))
  (at level 10, x name, e at level 100, k at level 200).
Notation "'do' ' p <- e ; k" := (bind e (fun p => k))
  (at level 10, p pattern, e at level 100, k at level 200).

(** [v[i]] and [v[i] = x] on a [std::vector]. *)
Definition vget {A : Type} (v : list A) (i : nat) : result A :=
  match v !! i with
  | Some a => Ok a
  | None => Fail OutOfBounds
  end.

Definition vset {A : Type} (v : list A) (i : nat) (x : A) : result (list A) :=
  if decide (i < length v)%nat then Ok (<[i:=x]> v) else Fail OutOfBounds.

(** The same with a signed index, as in [lows[l]]. *)
Definition vgetZ {A : Type} (v : list A) (i : Z) : result A :=
  if decide (i < 0) then Fail OutOfBounds else vget v (Z.to_nat i).

Definition vsetZ {A : Type} (v : list A) (i : Z) (x : A) : result (list A) :=
  if decide (i < 0) then Fail OutOfBounds else vset v (Z.to_nat i) x.

(** An [unsigned] converted to [int], as in [return lowest;] of a function
    that returns [int], or in [low_col[l] = j]: values below [2^31] are
    kept, the others come out negative ([u - 2^32] for the 32-bit values
    that an [unsigned] holds). *)
Definition int_of_unsigned (u : nat) : Z :=
  if decide (Z.of_nat u < 2 ^ 31) then Z.of_nat u
  else Z.of_nat u mod 2 ^ 32 - 2 ^ 32.

(** ** Columns of the lazy-heap store

    [typedef int64_t index; typedef std::vector<index> column;] *)

Abbreviation index := Z (only parsing).
Abbreviation column := (list Z) (only parsing).

(** [std::is_heap] with [operator<]: no element is larger than its parent. *)
Definition parent (i : nat) : nat := ((i - 1) / 2)%nat.

Definition is_heap (l : column) : Prop :=
  forall i x p, (0 < i)%nat -> l !! i = Some x -> l !! parent i = Some p -> x <= p.

Definition is_heapb (l : column) : bool :=
  forallb (fun i => Z.leb (nth i l 0) (nth (parent i) l 0)) (seq 1 (length l - 1)).

(** The three heap algorithms of [<algorithm>], as functions on the whole
    range [begin(), end()). *)
Class HeapOps : Type := {
  make_heap : column -> column;
  push_heap : column -> column;
  pop_heap : column -> column
}.

(** What the C++ standard promises of them: each permutes the range;
    [make_heap] leaves a heap; [push_heap] extends the heap [first, last-1)
    by the last element; [pop_heap] moves the first element to the back
    and leaves a heap in front of it. *)
Class HeapLaws (ops : HeapOps) : Prop := {
  make_heap_perm : forall l, Permutation (make_heap l) l;
  make_heap_heap : forall l, is_heap (make_heap l);
  push_heap_perm : forall l v, is_heap l -> Permutation (push_heap (l ++ [v])) (l ++ [v]);
  push_heap_heap : forall l v, is_heap l -> is_heap (push_heap (l ++ [v]));
  pop_heap_back : forall x l, is_heap (x :: l) ->
    exists l', pop_heap (x :: l) = l' ++ [x] /\ Permutation l' l /\ is_heap l';
  pop_heap_length : forall l, length (pop_heap l) = length l
}.

(** Logical content of a column: the indices of odd multiplicity. *)
Definition occ (x : index) (col : column) : nat := count_occ Z.eq_dec col x.

Definition odd_in (x : index) (col : column) : bool := Nat.odd (occ x col).

Definition same_content (c1 c2 : column) : Prop :=
  forall x, odd_in x c1 = odd_in x c2.

Definition logical (col : column) : list index :=
  nodup Z.eq_dec (List.filter (fun x => odd_in x col) col).

(** Largest index of odd multiplicity, [-1] when there is none. *)
Definition largest_odd (col : column) : index :=
  match logical col with
  | [] => -1
  | x :: xs => fold_right Z.max x xs
  end.

Section VectorHeapMod.
Context {ops : HeapOps}.

(** [std::pop_heap( col.begin(), col.end() ); col.pop_back();] *)
Definition pop_heap_pop_back (col : column) : column :=
  removelast (pop_heap col).

(** [col.push_back( x ); std::push_heap( col.begin(), col.end() );] *)
Definition push_back_push_heap (col : column) (x : index) : column :=
  push_heap (col ++ [x]).

(** The [while] loop of [_pop_max_index]; every round removes two
    elements, so [fuel = length col] rounds are never used up. *)
Fixpoint pop_max_loop (fuel : nat) (col : column) (max_element : index)
  : index * column :=
  match col with
  | [] => (max_element, col)
  | x :: _ =>
    if decide (x = max_element) then
      match fuel with
      | O => (max_element, col)
      | S fuel' =>
        let col1 := pop_heap_pop_back col in
        match col1 with
        | [] => (-1, col1)
        | y :: _ => pop_max_loop fuel' (pop_heap_pop_back col1) y
        end
      end
    else (max_element, col)
  end.

(** [index _pop_max_index( column& col )]: the returned index and the
    column as it is left. *)
Definition _pop_max_index (col : column) : index * column :=
  match col with
  | [] => (-1, col)
  | x :: _ => pop_max_loop (length col) (pop_heap_pop_back col) x
  end.

(** The [while( max_index != -1 )] loop of [_prune]. *)
Fixpoint prune_loop (fuel : nat) (col temp_col : column) (max_index : index)
  : column * column :=
  if decide (max_index = -1) then (col, temp_col)
  else
    match fuel with
    | O => (col, temp_col)
    | S fuel' =>
      let temp_col' := temp_col ++ [max_index] in
      let '(max_index', col') := _pop_max_index col in
      prune_loop fuel' col' temp_col' max_index'
    end.

(** [_prune] on the column itself: [temp_col] is cleared first, so the
    thread-local buffer carries nothing from one operation to the next
    and is kept local here. *)
Definition prune_col (col : column) : column :=
  let '(max_index, col1) := _pop_max_index col in
  let '(_, temp_col) := prune_loop (length col) col1 [] max_index in
  make_heap (rev temp_col).

(** [_get_max_index] on the column itself (the column is mutated through
    the [const_cast]). *)
Definition get_max_index_col (col : column) : index * column :=
  let '(max_element, col1) := _pop_max_index col in
  (max_element, push_back_push_heap col1 max_element).

Definition get_max_index_finalized_col (col : column) : index :=
  match col with
  | [] => -1
  | x :: _ => x
  end.

(** The [for] loop of [_add_to]: every raw entry of the source is pushed
    on the target. *)
Definition push_all (src tgt : column) : column :=
  fold_left push_back_push_heap src tgt.

(** *** The matrix: [std::vector<column> matrix] and
    [std::vector<index> inserts_since_last_prune]. *)
Record vector_heap_mod : Type := {
  matrix : list column;
  inserts_since_last_prune : list index
}.

Definition _get_num_cols (m : vector_heap_mod) : index :=
  Z.of_nat (length (matrix m)).

Definition _set_num_cols (nr_of_columns : nat) (m : vector_heap_mod)
  : vector_heap_mod :=
  {| matrix := take nr_of_columns (matrix m)
               ++ replicate (nr_of_columns - length (matrix m)) [];
     inserts_since_last_prune := replicate nr_of_columns 0 |}.

Definition set_column (idx : nat) (col : column) (m : vector_heap_mod)
  : result vector_heap_mod :=
  do cols <- vset (matrix m) idx col ;
  Ok {| matrix := cols;
        inserts_since_last_prune := inserts_since_last_prune m |}.

Definition set_inserts (idx : nat) (n : index) (m : vector_heap_mod)
  : result vector_heap_mod :=
  do ins <- vset (inserts_since_last_prune m) idx n ;
  Ok {| matrix := matrix m; inserts_since_last_prune := ins |}.

Definition _prune (idx : nat) (m : vector_heap_mod) : result vector_heap_mod :=
  do col <- vget (matrix m) idx ;
  do m1 <- set_column idx (prune_col col) m ;
  set_inserts idx 0 m1.

Definition _pop_max_index_at (idx : nat) (m : vector_heap_mod)
  : result (index * vector_heap_mod) :=
  do col <- vget (matrix m) idx ;
  let '(max_element, col') := _pop_max_index col in
  do m' <- set_column idx col' m ;
  Ok (max_element, m').

Definition _set_col (idx : nat) (col : column) (m : vector_heap_mod)
  : result vector_heap_mod :=
  set_column idx (make_heap col) m.

(** No sorting, no bound on [row]: the class does not know the number
    of rows. *)
Definition _set_entry (row : index) (col : nat) (m : vector_heap_mod)
  : result vector_heap_mod :=
  do c <- vget (matrix m) col ;
  set_column col (c ++ [row]) m.

Definition _append_col (col : column) (m : vector_heap_mod) : vector_heap_mod :=
  {| matrix := matrix m ++ [col];
     inserts_since_last_prune := inserts_since_last_prune m ++ [0] |}.

(** [_move_col(index source, index target)] *)
Definition _move_col (source target : nat) (m : vector_heap_mod)
  : result vector_heap_mod :=
  if decide (source = target) then Ok m
  else
    do _ <- vget (matrix m) target ;
    do src <- vget (matrix m) source ;
    do m1 <- set_column target src m ;
    set_column source [] m1.

(** [_move_col(column& col, index idx)] where [col] is column [j] of
    another matrix: returns that matrix with its column emptied, and
    this one. *)
Definition _move_col_from (other : vector_heap_mod) (j idx : nat)
  (m : vector_heap_mod) : result (vector_heap_mod * vector_heap_mod) :=
  do col <- vget (matrix other) j ;
  do m1 <- set_column idx col m ;
  do other' <- set_column j [] other ;
  do m2 <- set_inserts idx 0 m1 ;
  Ok (other', m2).

Definition _get_max_index (idx : nat) (m : vector_heap_mod)
  : result (index * vector_heap_mod) :=
  do col <- vget (matrix m) idx ;
  let '(max_element, col') := get_max_index_col col in
  do m' <- set_column idx col' m ;
  Ok (max_element, m').

Definition _is_empty (idx : nat) (m : vector_heap_mod)
  : result (bool * vector_heap_mod) :=
  do '(max_element, m') <- _get_max_index idx m ;
  Ok (bool_decide (max_element = -1), m').

Definition _get_max_index_finalized (idx : nat) (m : vector_heap_mod)
  : result index :=
  do col <- vget (matrix m) idx ;
  Ok (get_max_index_finalized_col col).

Definition _push_index (col_idx : nat) (entry : index) (m : vector_heap_mod)
  : result vector_heap_mod :=
  do col <- vget (matrix m) col_idx ;
  set_column col_idx (push_back_push_heap col entry) m.

Definition _remove_max (idx : nat) (m : vector_heap_mod)
  : result (index * vector_heap_mod) :=
  _pop_max_index_at idx m.

Definition _clear (idx : nat) (m : vector_heap_mod) : result vector_heap_mod :=
  set_column idx [] m.

(** The tail shared by [_add_to] and [_add_to_popped]: the counter is
    advanced by [added] and the column pruned when more than half of it
    was inserted since the last pruning. *)
Definition count_inserts_and_prune (target : nat) (added : index)
  (m : vector_heap_mod) : result vector_heap_mod :=
  do n <- vget (inserts_since_last_prune m) target ;
  do m1 <- set_inserts target (n + added) m ;
  do tgt <- vget (matrix m1) target ;
  if decide (2 * (n + added) > Z.of_nat (length tgt))
  then _prune target m1
  else Ok m1.

(** [_add_to( source, target )].  With [source = target] and a non-empty
    column the loop bound [matrix[source].size()] grows with every
    push. *)
Definition _add_to (source target : nat) (m : vector_heap_mod)
  : result vector_heap_mod :=
  do src <- vget (matrix m) source ;
  do tgt <- vget (matrix m) target ;
  if decide (source = target /\ src <> []) then Fail NonTermination
  else
    do m1 <- set_column target (push_all src tgt) m ;
    count_inserts_and_prune target (Z.of_nat (length src)) m1.

(** [_add_to( other, source, target )] *)
Definition _add_to_other (other : vector_heap_mod) (source target : nat)
  (m : vector_heap_mod) : result vector_heap_mod :=
  do src <- vget (matrix other) source ;
  do tgt <- vget (matrix m) target ;
  do m1 <- set_column target (push_all src tgt) m ;
  count_inserts_and_prune target (Z.of_nat (length src)) m1.

(** [_add_to_popped( source, target )]: the loop starts at index 1.
    [matrix[source].size()-1] is computed in [size_t] and added to an
    [int64_t], which for an empty source subtracts one. *)
Definition _add_to_popped (source target : nat) (m : vector_heap_mod)
  : result vector_heap_mod :=
  do src <- vget (matrix m) source ;
  do tgt <- vget (matrix m) target ;
  if decide (source = target /\ (1 < length src)%nat) then Fail NonTermination
  else
    do m1 <- set_column target (push_all (drop 1 src) tgt) m ;
    count_inserts_and_prune target (Z.of_nat (length src) - 1) m1.

Definition _heapify_col (idx : nat) (m : vector_heap_mod)
  : result vector_heap_mod :=
  do col <- vget (matrix m) idx ;
  set_column idx (make_heap col) m.

Definition _finalize (idx : nat) (m : vector_heap_mod) : result vector_heap_mod :=
  _prune idx m.

End VectorHeapMod.

(** ** A reference implementation of the heap algorithms

    The C++ standard fixes the contract of [std::make_heap],
    [std::push_heap] and [std::pop_heap], not the layout they produce.
    The theorems below hold for every implementation with [HeapLaws]; to
    run the model on concrete inputs the following one is used.  It keeps
    every heap sorted in descending order, which is a heap order. *)

Fixpoint insert_desc (x : Z) (l : list Z) : list Z :=
  match l with
  | [] => [x]
  | y :: t => if y <? x then x :: l else y :: insert_desc x t
  end.

Definition sort_desc (l : list Z) : list Z := fold_right insert_desc [] l.

Definition descending (l : list Z) : Prop :=
  StronglySorted (fun a b => b <= a) l.

#[export] Instance reference_heap : HeapOps := {|
  make_heap := sort_desc;
  push_heap := sort_desc;
  pop_heap := fun l =>
    match l with
    | [] => []
    | x :: t => sort_desc t ++ [x]
    end
|}.

(** ** Predicates used in the statements *)

(** [p] is the pivot ("low") of a column: the largest index of odd
    multiplicity, [-1] when there is none. *)
Definition is_pivot_of (col : list Z) (p : Z) : Prop :=
  ((exists x, odd_in x col = true) ->
     odd_in p col = true /\ forall x, odd_in x col = true -> x <= p)
  /\ ((forall x, odd_in x col = false) -> p = -1).

(** A finalized column: heap order, no repeated entry. *)
Definition finalized (col : list Z) : Prop := is_heap col /\ List.NoDup col.

(** Row indices are non-negative. *)
Definition row_indices (col : list Z) : Prop := Forall (fun x => 0 <= x) col.

(** What [_pop_max_index] returns on the multiset [S]: the result [m]
    and the column [col'] it leaves. *)
Definition pop_spec (S : column) (m : index) (col' : column) : Prop :=
  is_heap col' /\
  (((forall x, odd_in x S = false) /\ m = -1 /\ col' = [])
   \/ (odd_in m S = true /\ (forall x, odd_in x S = true -> x <= m)
       /\ Permutation col' (List.filter (fun x => x <? m) S))).

(** A matrix with column [idx], or counter [idx], replaced. *)
Definition with_column (idx : nat) (col : list Z) (m : vector_heap_mod)
  : vector_heap_mod :=
  {| matrix := <[idx:=col]> (matrix m);
     inserts_since_last_prune := inserts_since_last_prune m |}.

Definition with_inserts (idx : nat) (n : Z) (m : vector_heap_mod)
  : vector_heap_mod :=
  {| matrix := matrix m;
     inserts_since_last_prune := <[idx:=n]> (inserts_since_last_prune m) |}.

(** The two vectors of a [vector_heap_mod] have one entry per column. *)
Definition wf_matrix (m : vector_heap_mod) : Prop :=
  length (inserts_since_last_prune m) = length (matrix m).

(** [n] successive pivot queries on column [idx]: the values returned and
    the matrix left. *)
Fixpoint pivot_calls {ops : HeapOps} (n : nat) (idx : nat) (m : vector_heap_mod)
  : result (list Z * vector_heap_mod) :=
  match n with
  | O => Ok ([], m)
  | S n' =>
    do '(p, m1) <- _get_max_index idx m ;
    do '(ps, m2) <- pivot_calls n' idx m1 ;
    Ok (p :: ps, m2)
  end.

(** The scenario S4 of the specification, on a fresh one-column matrix. *)
Definition scenario_S4 {ops : HeapOps} : result Z :=
  let m0 := _set_num_cols 1 {| matrix := []; inserts_since_last_prune := [] |} in
  do m1 <- _set_entry 5 0 m0 ;
  do m2 <- _set_entry 3 0 m1 ;
  do m3 <- _set_entry 5 0 m2 ;
  do m4 <- _heapify_col 0 m3 ;
  do m5 <- _finalize 0 m4 ;
  _get_max_index_finalized 0 m5.

(** ** [vector_heap_perm]: lazy-heap columns with implicitly permuted rows

    Only the parts that do not compare through [perm] are needed below:
    the constructor, the inherited [_set_entry] and [_swap_rows]. *)

Module vector_heap_perm.

Record t : Type := {
  base : vector_heap_mod;
  perm : list nat;
  mrep : list nat
}.

(** [vector_heap_perm(unsigned rows, unsigned cols)] *)
Definition make (rows cols : nat) : t :=
  {| base := _set_num_cols cols {| matrix := []; inserts_since_last_prune := [] |};
     perm := seq 0 rows;
     mrep := seq 0 rows |}.

Definition _get_num_rows (m : t) : Z := Z.of_nat (length (perm m)).

(** [_set_entry] is inherited from [vector_heap_mod]. *)
Definition _set_entry (row : Z) (col : nat) (m : t) : result t :=
  do b <- _set_entry row col (base m) ;
  Ok {| base := b; perm := perm m; mrep := mrep m |}.

Definition _swap_rows (idx : nat) (m : t) : result t :=
  do a <- vget (mrep m) idx ;
  do b <- vget (mrep m) (idx + 1) ;
  do perm1 <- vset (perm m) a (idx + 1)%nat ;
  do perm2 <- vset perm1 b idx ;
  do mrep1 <- vset (mrep m) idx b ;
  do mrep2 <- vset mrep1 (idx + 1) a ;
  Ok {| base := base m; perm := perm2; mrep := mrep2 |}.

Fixpoint swap_rows_seq (idxs : list nat) (m : t) : result t :=
  match idxs with
  | [] => Ok m
  | i :: rest => do m' <- _swap_rows i m ; swap_rows_seq rest m'
  end.

End vector_heap_perm.

(** ** The sorted linked-list store of [map_matrix.cpp]

    A column is a [NULL]-terminated chain of [MapMatrixNode]s; it is
    modelled by the list of its row indices in chain order.  Every node is
    allocated by the operation that links it, so chains are finite and do
    not share nodes. *)

Module MapMatrix_Base.

Record t : Type := {
  columns : list (list nat);
  num_rows : nat
}.

(** [MapMatrix_Base(unsigned rows, unsigned cols)] *)
Definition make (rows cols : nat) : t :=
  {| columns := replicate cols []; num_rows := rows |}.

(** [MapMatrix_Base(unsigned size)], the identity matrix *)
Definition identity (size : nat) : t :=
  {| columns := map (fun i => [i]) (seq 0 size); num_rows := size |}.

Definition width (m : t) : nat := length (columns m).
Definition height (m : t) : nat := num_rows m.

Definition set_columns (j : nat) (col : list nat) (m : t) : t :=
  {| columns := <[j:=col]> (columns m); num_rows := num_rows m |}.

(** The [while(current->get_next() != NULL)] loop of [set]; [rest] is the
    chain after [current]. *)
Fixpoint set_traverse (i : nat) (rest : list nat) : list nat :=
  match rest with
  | [] => [i]
  | next :: rest' =>
    if decide (next = i) then rest
    else if decide (next < i)%nat then i :: rest
    else next :: set_traverse i rest'
  end.

Definition set_chain (i : nat) (col : list nat) : list nat :=
  match col with
  | [] => [i]
  | current :: rest =>
    if decide (current = i) then col
    else if decide (current < i)%nat then i :: col
    else current :: set_traverse i rest
  end.

Definition set (i j : nat) (m : t) : result t :=
  if decide (length (columns m) <= j)%nat
  then Fail (runtime_error "attempting to set column past end of matrix")
  else if decide (num_rows m <= i)%nat
  then Fail (runtime_error "attempting to set row past end of matrix")
  else
    do col <- vget (columns m) j ;
    Ok (set_columns j (set_chain i col) m).

Fixpoint clear_traverse (i : nat) (rest : list nat) : list nat :=
  match rest with
  | [] => []
  | next :: rest' =>
    if decide (next < i)%nat then rest
    else if decide (next = i) then rest'
    else next :: clear_traverse i rest'
  end.

Definition clear_chain (i : nat) (col : list nat) : list nat :=
  match col with
  | [] => []
  | current :: rest =>
    if decide (current < i)%nat then col
    else if decide (current = i) then rest
    else current :: clear_traverse i rest
  end.

Definition clear (i j : nat) (m : t) : result t :=
  if decide (length (columns m) <= j)%nat
  then Fail (runtime_error "attempting to clear entry in a column past end of matrix")
  else if decide (num_rows m <= i)%nat
  then Fail (runtime_error "attempting to clear entry in a row row past end of matrix")
  else
    do col <- vget (columns m) j ;
    Ok (set_columns j (clear_chain i col) m).

Fixpoint entry_chain (i : nat) (np : list nat) : bool :=
  match np with
  | [] => false
  | row :: next =>
    if decide (row < i)%nat then false
    else if decide (row = i) then true
    else entry_chain i next
  end.

Definition entry (i j : nat) (m : t) : result bool :=
  if decide (length (columns m) <= j)%nat
  then Fail (runtime_error "attempting to check entry in a column past end of matrix")
  else if decide (num_rows m <= i)%nat
  then Fail (runtime_error "attempting to check entry in a row row past end of matrix")
  else
    do col <- vget (columns m) j ;
    Ok (entry_chain i col).

(** [add_column]: column [k] is walked with [khandle].  The chain of
    column [k] is [front ++ rest], [khandle] is the last node of [front]
    and is [NULL] when [front] is empty. *)
Fixpoint add_walk (row : nat) (front rest : list nat) : list nat * list nat :=
  match rest with
  | [] => (front ++ [row], [])
  | next :: rest' =>
    if decide (next = row) then (front, rest')
    else if decide (next < row)%nat then (front, row :: rest)
    else add_walk row (front ++ [next]) rest'
  end.

Definition add_row_step (st : list nat * list nat) (row : nat)
  : list nat * list nat :=
  let '(front, rest) := st in
  match front, rest with
  | [], [] => ([row], [])
  | [], first :: rest' =>
    if decide (first = row) then ([], rest')
    else if decide (first < row)%nat then ([row], rest)
    else add_walk row [first] rest'
  | _ :: _, _ => add_walk row front rest
  end.

Definition add_chain (colj colk : list nat) : list nat :=
  let '(front, rest) := fold_left add_row_step colj ([], colk) in
  front ++ rest.

Definition add_column (j k : nat) (m : t) : result t :=
  if decide (length (columns m) <= j \/ length (columns m) <= k)%nat
  then Fail (runtime_error "attempting to access column past end of matrix")
  else if decide (j = k)
  then Fail (runtime_error "adding a column to itself")
  else
    do colj <- vget (columns m) j ;
    do colk <- vget (columns m) k ;
    Ok (set_columns k (add_chain colj colk) m).

End MapMatrix_Base.

(** [MapMatrix]: the column-sparse matrix; [set], [entry] and
    [add_column] forward to the base class. *)
Module MapMatrix.

(** [int low(unsigned j)]: [-1] for an empty column, else the row of the
    first node, an [unsigned] returned as [int]. *)
Definition low (j : nat) (m : MapMatrix_Base.t) : result Z :=
  if decide (length (MapMatrix_Base.columns m) <= j)%nat
  then Fail (runtime_error "attempting to check low number of a column past end of matrix")
  else
    do col <- vget (MapMatrix_Base.columns m) j ;
    match col with
    | [] => Ok (-1)
    | row :: _ => Ok (int_of_unsigned row)
    end.

End MapMatrix.

(** [MapMatrix_RowPriority_Perm]: the chains of the base class are the
    rows of the matrix; [perm] and [mrep] permute its columns. *)
Module MapMatrix_RowPriority_Perm.

Record t : Type := {
  store : MapMatrix_Base.t;
  perm : list nat;
  mrep : list nat
}.

(** [MapMatrix_RowPriority_Perm(unsigned size)] *)
Definition identity (size : nat) : t :=
  {| store := MapMatrix_Base.identity size;
     perm := seq 0 size;
     mrep := seq 0 size |}.

Definition width (m : t) : nat := MapMatrix_Base.height (store m).
Definition height (m : t) : nat := MapMatrix_Base.width (store m).

Definition entry (i j : nat) (m : t) : result bool :=
  do c <- vget (mrep m) j ;
  MapMatrix_Base.entry c i (store m).

Definition add_row (j k : nat) (m : t) : result t :=
  do s <- MapMatrix_Base.add_column j k (store m) ;
  Ok {| store := s; perm := perm m; mrep := mrep m |}.

End MapMatrix_RowPriority_Perm.

(** [MapMatrix_Perm]: column-sparse matrix with permuted rows. *)
Module MapMatrix_Perm.

Record t : Type := {
  store : MapMatrix_Base.t;
  perm : list nat;
  mrep : list nat;
  low_col : list Z;
  col_perm : list nat
}.

(** [MapMatrix_Perm(unsigned rows, unsigned cols)] *)
Definition make (rows cols : nat) : t :=
  {| store := MapMatrix_Base.make rows cols;
     perm := seq 0 rows;
     mrep := seq 0 rows;
     low_col := replicate rows (-1);
     col_perm := seq 0 cols |}.

Definition with_store (s : MapMatrix_Base.t) (m : t) : t :=
  {| store := s; perm := perm m; mrep := mrep m;
     low_col := low_col m; col_perm := col_perm m |}.

Definition with_low_col (lc : list Z) (m : t) : t :=
  {| store := store m; perm := perm m; mrep := mrep m;
     low_col := lc; col_perm := col_perm m |}.

Definition set (i j : nat) (m : t) : result t :=
  do r <- vget (mrep m) i ;
  do s <- MapMatrix_Base.set r j (store m) ;
  Ok (with_store s m).

Definition entry (i j : nat) (m : t) : result bool :=
  do r <- vget (mrep m) i ;
  MapMatrix_Base.entry r j (store m).

(** The scan of [low] over the nodes after the first. *)
Fixpoint low_scan (perm : list nat) (lowest : nat) (current : list nat)
  : result nat :=
  match current with
  | [] => Ok lowest
  | row :: next =>
    do p <- vget perm row ;
    low_scan perm (if decide (lowest < p)%nat then p else lowest) next
  end.

(** [int low(unsigned j)]: [unsigned lowest] is returned as [int]. *)
Definition low (j : nat) (m : t) : result Z :=
  if decide (length (MapMatrix_Base.columns (store m)) <= j)%nat
  then Fail (runtime_error "attempting to check low number of a column past end of matrix")
  else
    do col <- vget (MapMatrix_Base.columns (store m)) j ;
    match col with
    | [] => Ok (-1)
    | row :: next =>
      do p <- vget (perm m) row ;
      do lowest <- low_scan (perm m) p next ;
      Ok (int_of_unsigned lowest)
    end.

Definition swap_rows (i : nat) (m : t) : result t :=
  do a <- vget (mrep m) i ;
  do b <- vget (mrep m) (i + 1) ;
  do temp <- vget (perm m) a ;
  do pb <- vget (perm m) b ;
  do perm1 <- vset (perm m) a pb ;
  do perm2 <- vset perm1 b temp ;
  do mrep1 <- vset (mrep m) i b ;
  do mrep2 <- vset mrep1 (i + 1) a ;
  Ok {| store := store m; perm := perm2; mrep := mrep2;
        low_col := low_col m; col_perm := col_perm m |}.

Fixpoint swap_rows_seq (idxs : list nat) (m : t) : result t :=
  match idxs with
  | [] => Ok m
  | i :: rest => do m' <- swap_rows i m ; swap_rows_seq rest m'
  end.

(** The [while] loop of [decompose_RU] for column [j]; [fuel] bounds the
    number of column additions. *)
Fixpoint reduce_column (fuel : nat) (j : nat)
    (m : t) (U : MapMatrix_RowPriority_Perm.t)
  : result (t * MapMatrix_RowPriority_Perm.t) :=
  do l <- low j m ;
  if decide (l >= 0) then
    do lc <- vgetZ (low_col m) l ;
    if decide (lc >= 0) then
      match fuel with
      | O => Fail NonTermination
      | S fuel' =>
        let c := Z.to_nat lc in
        do s <- MapMatrix_Base.add_column c j (store m) ;
        do U' <- MapMatrix_RowPriority_Perm.add_row j c U ;
        reduce_column fuel' j (with_store s m) U'
      end
    else Ok (m, U)
  else Ok (m, U).

(** The body of the [for] loop over the columns. *)
Definition decompose_step (fuel : nat)
    (st : result (t * MapMatrix_RowPriority_Perm.t)) (j : nat)
  : result (t * MapMatrix_RowPriority_Perm.t) :=
  do '(m, U) <- st ;
  do '(m1, U1) <- reduce_column fuel j m U ;
  do l <- low j m1 ;
  if decide (l >= 0) then
    do lc <- vsetZ (low_col m1) l (int_of_unsigned j) ;
    Ok (with_low_col lc m1, U1)
  else Ok (m1, U1).

(** [decompose_RU]: the matrix as it is left, and [U]. *)
Definition decompose_RU (fuel : nat) (m : t)
  : result (t * MapMatrix_RowPriority_Perm.t) :=
  let U := MapMatrix_RowPriority_Perm.identity
             (length (MapMatrix_Base.columns (store m))) in
  fold_left (decompose_step fuel)
            (seq 0 (length (MapMatrix_Base.columns (store m))))
            (Ok (m, U)).

End MapMatrix_Perm.

(** ** Matrices mod 2, for the statements *)

(** Sum mod 2 of [f 0], ..., [f (n-1)]. *)
Definition xor_sum (n : nat) (f : nat -> bool) : bool :=
  fold_right xorb false (map f (seq 0 n)).

(** Observable entries; [false] stands for an entry that cannot be read. *)
Definition perm_entry (m : MapMatrix_Perm.t) (i j : nat) : bool :=
  match MapMatrix_Perm.entry i j m with
  | Ok b => b
  | Fail _ => false
  end.

Definition row_priority_entry (u : MapMatrix_RowPriority_Perm.t) (i j : nat) : bool :=
  match MapMatrix_RowPriority_Perm.entry i j u with
  | Ok b => b
  | Fail _ => false
  end.

(** Entry [(i, j)] of the product [A * U] mod 2, [A] with [n] columns. *)
Definition product_entry (n : nat) (a : MapMatrix_Perm.t)
    (u : MapMatrix_RowPriority_Perm.t) (i j : nat) : bool :=
  xor_sum n (fun k => perm_entry a i k && row_priority_entry u k j).

(** [perm] and [mrep] are inverse of each other on [0 .. rows-1]. *)
Definition perm_consistent (rows : nat) (perm mrep : list nat) : Prop :=
  length perm = rows /\ length mrep = rows /\
  forall i, (i < rows)%nat ->
    exists a, mrep !! i = Some a /\ perm !! a = Some i.

(** Strictly descending chains, and the sum mod 2 of a chain with one
    row ([toggle]) as the specification of one round of [add_column]. *)
Definition sdesc (l : list nat) : Prop :=
  StronglySorted (fun a b => (b < a)%nat) l.

Fixpoint toggle (row : nat) (l : list nat) : list nat :=
  match l with
  | [] => [row]
  | h :: t =>
    if decide (h = row) then t
    else if decide (h < row)%nat then row :: l
    else h :: toggle row t
  end.

(** Raw entry [(r, j)] of a vector of chains: is row [r] in chain [j]? *)
Definition chain_entry (cols : list (list nat)) (r j : nat) : bool :=
  match cols !! j with
  | Some col => MapMatrix_Base.entry_chain r col
  | None => false
  end.

(** [orig = red * u] on raw entries: [red] holds the columns of the
    reduced matrix, [u] the rows of [U], both with [n] chains. *)
Definition raw_product (n : nat) (orig red u : list (list nat)) : Prop :=
  forall r x, (x < n)%nat ->
    chain_entry orig r x
    = xor_sum n (fun k => chain_entry red r k && chain_entry u x k).

(** What [low] returns for a chain under the row permutation [perm]:
    [-1] for an empty chain, else the largest permuted row [a] of the
    chain, as an [int]. *)
Definition low_spec (perm : list nat) (col : list nat) (l : Z) : Prop :=
  (col = [] /\ l = -1)
  \/ (exists a, l = int_of_unsigned a /\ exists r, In r col /\ perm !! r = Some a
      /\ forall r', In r' col -> exists p, perm !! r' = Some p /\ (p <= a)%nat).

(** A permuted matrix as the constructor and [set] build it: sorted chains
    of rows below [num_rows], [perm] and [mrep] inverse of each other,
    and no column recorded in [low_col] yet. *)
Definition sorted_chains (bound : nat) (cols : list (list nat)) : Prop :=
  Forall (fun col => sdesc col /\ Forall (fun r => (r < bound)%nat) col) cols.

Definition wf_perm_matrix (m : MapMatrix_Perm.t) : Prop :=
  let rows := MapMatrix_Base.num_rows (MapMatrix_Perm.store m) in
  sorted_chains rows (MapMatrix_Base.columns (MapMatrix_Perm.store m))
  /\ perm_consistent rows (MapMatrix_Perm.perm m) (MapMatrix_Perm.mrep m)
  /\ perm_consistent rows (MapMatrix_Perm.mrep m) (MapMatrix_Perm.perm m)
  /\ MapMatrix_Perm.low_col m = replicate rows (-1).

(** The state of [decompose_RU] before column [bound] is treated: the
    chains stay sorted, [low_col] records only treated columns, each with
    its low, and the original matrix is the product of the current one
    with [U]. *)
Record ru_inv (n rows : nat) (orig : list (list nat)) (perm mrep : list nat)
    (bound : nat) (m : MapMatrix_Perm.t) (U : MapMatrix_RowPriority_Perm.t)
  : Prop := {
  ri_rows : MapMatrix_Base.num_rows (MapMatrix_Perm.store m) = rows;
  ri_cols : length (MapMatrix_Base.columns (MapMatrix_Perm.store m)) = n;
  ri_sorted : sorted_chains rows (MapMatrix_Base.columns (MapMatrix_Perm.store m));
  ri_perm : MapMatrix_Perm.perm m = perm;
  ri_mrep : MapMatrix_Perm.mrep m = mrep;
  ri_low_len : length (MapMatrix_Perm.low_col m) = rows;
  ri_low : forall l c, MapMatrix_Perm.low_col m !! l = Some c -> 0 <= c ->
             (Z.to_nat c < bound)%nat
             /\ MapMatrix_Perm.low (Z.to_nat c) m = Ok (Z.of_nat l);
  ri_u_rows : MapMatrix_Base.num_rows (MapMatrix_RowPriority_Perm.store U) = n;
  ri_u_cols : length (MapMatrix_Base.columns (MapMatrix_RowPriority_Perm.store U)) = n;
  ri_u_sorted : Forall sdesc (MapMatrix_Base.columns (MapMatrix_RowPriority_Perm.store U));
  ri_u_mrep : MapMatrix_RowPriority_Perm.mrep U = seq 0 n;
  ri_product : raw_product n orig
                 (MapMatrix_Base.columns (MapMatrix_Perm.store m))
                 (MapMatrix_Base.columns (MapMatrix_RowPriority_Perm.store U))
}.

(** A 2 x 3 matrix with columns [{1}], [{0,1}], [{0}], built with [set]. *)
Definition RU_example : result MapMatrix_Perm.t :=
  do m1 <- MapMatrix_Perm.set 1 0 (MapMatrix_Perm.make 2 3) ;
  do m2 <- MapMatrix_Perm.set 0 1 m1 ;
  do m3 <- MapMatrix_Perm.set 1 1 m2 ;
  MapMatrix_Perm.set 0 2 m3.

(** The matrix that [RU_example] evaluates to. *)
Definition RU_example_matrix : MapMatrix_Perm.t :=
  {| MapMatrix_Perm.store :=
       {| MapMatrix_Base.columns := [[1]; [1; 0]; [0]]%nat;
          MapMatrix_Base.num_rows := 2 |};
     MapMatrix_Perm.perm := [0; 1]%nat;
     MapMatrix_Perm.mrep := [0; 1]%nat;
     MapMatrix_Perm.low_col := [-1; -1];
     MapMatrix_Perm.col_perm := [0; 1; 2]%nat |}.

(** ** The bigraded matrices of [bigraded_matrix.cpp]

    [BigradedMatrix::kernel] and [kernel_one_bigrade] and the constructor
    from a [BigradedMatrixLex] are in the sources; the classes they use
    are declared in headers that are not ([map_matrix.h] in its lazy-heap
    version, [index_matrix.h], [bigraded_matrix.h]). *)

Module LazyHeap.

(** Modelled from the spec: the lazy-heap [MapMatrix] used by
    [bigraded_matrix.cpp] ([map_matrix.h] and its implementation are
    missing; [map_matrix.cpp] holds the older linked-list classes).  It is
    the sparse column store of section 4.1 of the specification: a
    [vector_heap_mod] together with [num_rows], whose operations forward
    to the operations of [vector_heap_mod] of the same meaning
    ([low_finalized] is [pivot_finalized], [remove_low] is [remove_pivot],
    [add_column] is [add_to], [add_column_popped] is [add_to_popped]);
    [append_col] and [move_col] from another matrix move the column and
    leave the source column empty. *)
Module MapMatrix.

Record t : Type := {
  cols : vector_heap_mod;
  num_rows : nat
}.

Definition with_cols (c : vector_heap_mod) (m : t) : t :=
  {| cols := c; num_rows := num_rows m |}.

(** [MapMatrix(rows, cols)]: the zero matrix *)
Definition make (rows ncols : nat) : t :=
  {| cols := _set_num_cols ncols {| matrix := []; inserts_since_last_prune := [] |};
     num_rows := rows |}.

(** [MapMatrix(size)]: the identity matrix *)
Definition identity (size : nat) : t :=
  {| cols := {| matrix := map (fun i => [Z.of_nat i]) (seq 0 size);
                inserts_since_last_prune := replicate size 0 |};
     num_rows := size |}.

Definition width (m : t) : nat := length (matrix (cols m)).
Definition height (m : t) : nat := num_rows m.

Definition low_finalized (j : nat) (m : t) : result Z :=
  _get_max_index_finalized j (cols m).

Definition remove_low {ops : HeapOps} (j : nat) (m : t) : result (Z * t) :=
  do '(l, c) <- _remove_max j (cols m) ;
  Ok (l, with_cols c m).

Definition add_column {ops : HeapOps} (c j : nat) (m : t) : result t :=
  do v <- _add_to c j (cols m) ;
  Ok (with_cols v m).

Definition add_column_popped {ops : HeapOps} (c j : nat) (m : t) : result t :=
  do v <- _add_to_popped c j (cols m) ;
  Ok (with_cols v m).

Definition push_index {ops : HeapOps} (j : nat) (l : Z) (m : t) : result t :=
  do v <- _push_index j l (cols m) ;
  Ok (with_cols v m).

Definition finalize {ops : HeapOps} (j : nat) (m : t) : result t :=
  do v <- _finalize j (cols m) ;
  Ok (with_cols v m).

(** [append_col(other, j)]: column [j] of [other] goes to the back of this
    matrix and is left empty in [other]; returns [other] and this matrix. *)
Definition append_col (other : t) (j : nat) (m : t) : result (t * t) :=
  do col <- vget (matrix (cols other)) j ;
  do o <- _clear j (cols other) ;
  Ok (with_cols o other, with_cols (_append_col col (cols m)) m).

(** [move_col(other, j, idx)] *)
Definition move_col (other : t) (j idx : nat) (m : t) : result (t * t) :=
  do '(o, c) <- _move_col_from (cols other) j idx (cols m) ;
  Ok (with_cols o other, with_cols c m).

End MapMatrix.

(** Modelled from the spec: [IndexMatrix] ([index_matrix.h] is missing),
    section 3 and 4.3 of the specification: an [H x W] table of signed
    column indices with [get], [set] and [start_index(y,x)], which is
    [ind[y][x-1]+1] when [x>0], else the last entry of row [y-1] plus one
    when [y>0], else [0].  For the lex layout the table is read with the
    roles of [x] and [y] exchanged.  Fresh entries are taken to be 0; the
    code below writes every entry before it reads it. *)
Module IndexMatrix.

Record t : Type := {
  num_rows : nat;
  num_cols : nat;
  ind : list (list Z)
}.

Definition make (rows ncols : nat) : t :=
  {| num_rows := rows; num_cols := ncols;
     ind := replicate rows (replicate ncols 0) |}.

Definition height (m : t) : nat := num_rows m.
Definition width (m : t) : nat := num_cols m.

Definition get (y x : nat) (m : t) : result Z :=
  do row <- vget (ind m) y ;
  vget row x.

Definition set (y x : nat) (v : Z) (m : t) : result t :=
  do row <- vget (ind m) y ;
  do row' <- vset row x v ;
  do d <- vset (ind m) y row' ;
  Ok {| num_rows := num_rows m; num_cols := num_cols m; ind := d |}.

Definition start_index (y x : nat) (m : t) : result Z :=
  if decide (0 < x)%nat then
    do v <- get y (x - 1) m ; Ok (v + 1)
  else if decide (0 < y)%nat then
    do v <- get (y - 1) (num_cols m - 1) m ; Ok (v + 1)
  else Ok 0.

(** [IndexMatrixLex::start_index] *)
Definition start_index_lex (y x : nat) (m : t) : result Z :=
  if decide (0 < y)%nat then
    do v <- get (y - 1) x m ; Ok (v + 1)
  else if decide (0 < x)%nat then
    do v <- get (num_rows m - 1) (x - 1) m ; Ok (v + 1)
  else Ok 0.

End IndexMatrix.

(** An [int] used as an [unsigned] column index. *)
Definition to_index (j : Z) : result nat :=
  if decide (j < 0) then Fail OutOfBounds else Ok (Z.to_nat j).

(** [BigradedMatrixLex] and [BigradedMatrix] have the same members, a
    matrix and an index matrix; they differ in the layout of the columns. *)
Record BigradedMatrixLex : Type := {
  lex_mat : MapMatrix.t;
  lex_ind : IndexMatrix.t
}.

Record BigradedMatrix : Type := {
  mat : MapMatrix.t;
  ind : IndexMatrix.t
}.

(** The constructor [BigradedMatrix(BigradedMatrixLex& lex_mat)]. *)

(** [for (int j = first_col; j <= last_col; j++) { mat.move_col(lex_mat.mat, j,
    current_index); current_index++; }] *)
Definition move_columns (first_col last_col : Z)
    (st : MapMatrix.t * MapMatrix.t * Z) : result (MapMatrix.t * MapMatrix.t * Z) :=
  fold_left
    (fun (acc : result (MapMatrix.t * MapMatrix.t * Z)) (j : Z) =>
       do '(src, dst, current_index) <- acc ;
       do ji <- to_index j ;
       do ci <- to_index current_index ;
       do '(src', dst') <- MapMatrix.move_col src ji ci dst ;
       Ok (src', dst', current_index + 1))
    (seqZ first_col (last_col - first_col + 1))
    (Ok st).

Definition from_lex_step (lex_index : IndexMatrix.t)
    (acc : result (MapMatrix.t * MapMatrix.t * IndexMatrix.t * Z)) (yx : nat * nat)
  : result (MapMatrix.t * MapMatrix.t * IndexMatrix.t * Z) :=
  let '(y, x) := yx in
  do '(src, dst, dst_ind, current_index) <- acc ;
  do first_col <- IndexMatrix.start_index_lex y x lex_index ;
  do last_col <- IndexMatrix.get y x lex_index ;
  do '(src', dst', current_index') <-
     move_columns first_col last_col (src, dst, current_index) ;
  do dst_ind' <- IndexMatrix.set y x (current_index' - 1) dst_ind ;
  Ok (src', dst', dst_ind', current_index').

(** The bigrades in colex order ([y] outer, [x] inner), as pairs [(y, x)]. *)
Definition colex_order (h w : nat) : list (nat * nat) :=
  flat_map (fun y => map (fun x => (y, x)) (seq 0 w)) (seq 0 h).

(** The bigrades in lex order ([x] outer, [y] inner), as pairs [(y, x)]. *)
Definition lex_order (h w : nat) : list (nat * nat) :=
  flat_map (fun x => map (fun y => (y, x)) (seq 0 h)) (seq 0 w).

Definition from_lex (lex : BigradedMatrixLex) : result BigradedMatrix :=
  let h := IndexMatrix.height (lex_ind lex) in
  let w := IndexMatrix.width (lex_ind lex) in
  let dst := MapMatrix.make (MapMatrix.height (lex_mat lex))
                            (MapMatrix.width (lex_mat lex)) in
  do '(_, dst', dst_ind, _) <-
     fold_left (from_lex_step (lex_ind lex)) (colex_order h w)
               (Ok (lex_mat lex, dst, IndexMatrix.make h w, 0)) ;
  Ok {| mat := dst'; ind := dst_ind |}.

(** The state that [kernel_one_bigrade] works on: [this->mat], the slave
    [reduction_matrix], [ker_lex] and [lows]. *)
Record kernel_state : Type := {
  ks_mat : MapMatrix.t;
  ks_slave : MapMatrix.t;
  ks_ker : BigradedMatrixLex;
  ks_lows : list Z
}.

(** [l != -1 && lows[l] != -1 && lows[l] < j] *)
Definition low_is_taken (lows : list Z) (l j : Z) : result bool :=
  if decide (l = -1) then Ok false
  else
    do c <- vgetZ lows l ;
    Ok (bool_decide (c <> -1 /\ c < j)).

(** The [while] loop of [kernel_one_bigrade]; [fuel] bounds the number of
    column additions. *)
Fixpoint reduce_loop {ops : HeapOps} (fuel : nat) (j : Z) (lows : list Z)
    (m slave : MapMatrix.t) (l : Z) : result (MapMatrix.t * MapMatrix.t * Z) :=
  do taken <- low_is_taken lows l j ;
  if taken then
    match fuel with
    | O => Fail NonTermination
    | S fuel' =>
      do c <- vgetZ lows l ;
      do ci <- to_index c ;
      do ji <- to_index j ;
      do m1 <- MapMatrix.add_column_popped ci ji m ;
      do slave1 <- MapMatrix.add_column ci ji slave ;
      do '(l1, m2) <- MapMatrix.remove_low ji m1 ;
      reduce_loop fuel' j lows m2 slave1 l1
    end
  else Ok (m, slave, l).

(** [ker_lex.mat.append_col(slave, j)] *)
Definition append_to_kernel (j : nat) (slave : MapMatrix.t) (ker : BigradedMatrixLex)
  : result (MapMatrix.t * BigradedMatrixLex) :=
  do '(slave', kmat) <- MapMatrix.append_col slave j (lex_mat ker) ;
  Ok (slave', {| lex_mat := kmat; lex_ind := lex_ind ker |}).

(** The body of the [for] loop over the columns [j]. *)
Definition kernel_column {ops : HeapOps} (fuel : nat) (first_col_curr_bigrade : Z)
    (acc : result kernel_state) (j : Z) : result kernel_state :=
  do st <- acc ;
  do ji <- to_index j ;
  do l <- MapMatrix.low_finalized ji (ks_mat st) ;
  do changing_column <- low_is_taken (ks_lows st) l j ;
  do m0 <- (if changing_column
            then do '(_, m) <- MapMatrix.remove_low ji (ks_mat st) ; Ok m
            else Ok (ks_mat st)) ;
  do '(m1, slave1, l1) <- reduce_loop fuel j (ks_lows st) m0 (ks_slave st) l ;
  if decide (l1 <> -1) then
    do lows' <- vsetZ (ks_lows st) l1 j ;
    do m2 <- (if changing_column
              then do m <- MapMatrix.push_index ji l1 m1 ; MapMatrix.finalize ji m
              else Ok m1) ;
    Ok {| ks_mat := m2; ks_slave := slave1; ks_ker := ks_ker st; ks_lows := lows' |}
  else if changing_column then
    do slave2 <- MapMatrix.finalize ji slave1 ;
    do '(slave3, ker') <- append_to_kernel ji slave2 (ks_ker st) ;
    Ok {| ks_mat := m1; ks_slave := slave3; ks_ker := ker'; ks_lows := ks_lows st |}
  else if decide (j >= first_col_curr_bigrade) then
    do '(slave3, ker') <- append_to_kernel ji slave1 (ks_ker st) ;
    Ok {| ks_mat := m1; ks_slave := slave3; ks_ker := ker'; ks_lows := ks_lows st |}
  else
    Ok {| ks_mat := m1; ks_slave := slave1; ks_ker := ks_ker st; ks_lows := ks_lows st |}.

(** [kernel_one_bigrade(slave, ker_lex, curr_x, curr_y, lows)], reading the
    index matrix [index] of [this]. *)
Definition kernel_one_bigrade {ops : HeapOps} (fuel : nat) (index : IndexMatrix.t)
    (acc : result kernel_state) (yx : nat * nat) : result kernel_state :=
  let '(curr_y, curr_x) := yx in
  do st <- acc ;
  do first_col <- IndexMatrix.start_index curr_y 0 index ;
  do first_col_curr_bigrade <- IndexMatrix.start_index curr_y curr_x index ;
  do last_col <- IndexMatrix.get curr_y curr_x index ;
  do st' <- fold_left (kernel_column fuel first_col_curr_bigrade)
                      (seqZ first_col (last_col - first_col + 1)) (Ok st) ;
  do kind <- IndexMatrix.set curr_y curr_x
               (Z.of_nat (MapMatrix.width (lex_mat (ks_ker st'))) - 1)
               (lex_ind (ks_ker st')) ;
  Ok {| ks_mat := ks_mat st'; ks_slave := ks_slave st';
        ks_ker := {| lex_mat := lex_mat (ks_ker st'); lex_ind := kind |};
        ks_lows := ks_lows st' |}.

(** [BigradedMatrix::kernel()]: the matrix as the call leaves it (it is
    reduced in place) and the kernel returned. *)
Definition kernel {ops : HeapOps} (fuel : nat) (M : BigradedMatrix)
  : result (BigradedMatrix * BigradedMatrix) :=
  let h := IndexMatrix.height (ind M) in
  let w := IndexMatrix.width (ind M) in
  let ker_lex := {| lex_mat := MapMatrix.make (MapMatrix.width (mat M)) 0;
                    lex_ind := IndexMatrix.make h w |} in
  let reduction_matrix := MapMatrix.identity (MapMatrix.width (mat M)) in
  let lows := replicate (MapMatrix.height (mat M)) (-1) in
  do st <- fold_left (kernel_one_bigrade fuel (ind M)) (lex_order h w)
             (Ok {| ks_mat := mat M; ks_slave := reduction_matrix;
                    ks_ker := ker_lex; ks_lows := lows |}) ;
  do K <- from_lex (ks_ker st) ;
  Ok ({| mat := ks_mat st; ind := ind M |}, K).

End LazyHeap.

(** The matrix of scenario S2: rows [1 1 0], [1 1 0], [0 0 0], its three
    columns at bigrade (0,0); the columns are finalized heaps. *)
Definition scenario_S2 : LazyHeap.BigradedMatrix :=
  {| LazyHeap.mat :=
       {| LazyHeap.MapMatrix.cols :=
            {| matrix := [[1; 0]; [1; 0]; []];
               inserts_since_last_prune := [0; 0; 0] |};
          LazyHeap.MapMatrix.num_rows := 3 |};
     LazyHeap.ind :=
       {| LazyHeap.IndexMatrix.num_rows := 1;
          LazyHeap.IndexMatrix.num_cols := 1;
          LazyHeap.IndexMatrix.ind := [[2]] |} |}.

(** What [kernel] makes of [scenario_S2]: the input as it is left, and
    the kernel. *)
Definition scenario_S2_reduced : LazyHeap.BigradedMatrix :=
  {| LazyHeap.mat :=
       {| LazyHeap.MapMatrix.cols :=
            {| matrix := [[1; 0]; []; []];
               inserts_since_last_prune := [0; 1; 0] |};
          LazyHeap.MapMatrix.num_rows := 3 |};
     LazyHeap.ind := LazyHeap.ind scenario_S2 |}.

Definition scenario_S2_kernel_matrix : LazyHeap.BigradedMatrix :=
  {| LazyHeap.mat :=
       {| LazyHeap.MapMatrix.cols :=
            {| matrix := [[1; 0]; [2]];
               inserts_since_last_prune := [0; 0] |};
          LazyHeap.MapMatrix.num_rows := 3 |};
     LazyHeap.ind :=
       {| LazyHeap.IndexMatrix.num_rows := 1;
          LazyHeap.IndexMatrix.num_cols := 1;
          LazyHeap.IndexMatrix.ind := [[1]] |} |}.

(** ** Linear algebra mod 2 on lazy-heap columns, for the kernel *)

Definition column_at (M : list (list Z)) (i : nat) : list Z :=
  default [] (M !! i).

(** Row [r] of the product of the matrix with columns [M] and the column
    [v]: the sum mod 2 of the columns of [M] that [v] selects. *)
Definition mat_vec (M : list (list Z)) (v : list Z) (r : Z) : bool :=
  xor_sum (length M) (fun i => odd_in (Z.of_nat i) v && odd_in r (column_at M i)).

(** [M * K = 0]: every column of [K] selects columns of [M] that sum to
    zero. *)
Definition product_is_zero (M K : list (list Z)) : Prop :=
  forall k r, (k < length K)%nat -> mat_vec M (column_at K k) r = false.

(** The columns of [K] are linearly independent mod 2: a combination that
    takes at least one column has a non-zero row. *)
Definition linearly_independent (K : list (list Z)) : Prop :=
  forall coeff : nat -> bool,
    (exists k, (k < length K)%nat /\ coeff k = true) ->
    exists r, xor_sum (length K) (fun k => coeff k && odd_in r (column_at K k)) = true.

(** All entries of a column lie in [0, bound). *)
Definition entries_below (bound : Z) (col : list Z) : Prop :=
  Forall (fun e => 0 <= e < bound) col.

(** The pivot that was popped from a column, as a column. *)
Definition popped (l : Z) : list Z := if decide (l = -1) then [] else [l].

(** ** Invariants of the bigraded reduction

    [M0] holds the columns of the matrix before [kernel] is called,
    [hrows] its number of rows, [V] the columns visited so far. *)
Record kernel_inv (M0 : list (list Z)) (hrows : nat) (V : Z -> Prop)
    (st : LazyHeap.kernel_state) : Prop := {
  ki_mat_wf : wf_matrix (LazyHeap.MapMatrix.cols (LazyHeap.ks_mat st));
  ki_mat_len : length (matrix (LazyHeap.MapMatrix.cols (LazyHeap.ks_mat st))) = length M0;
  (* the columns of the matrix are finalized *)
  ki_mat_cols : forall j col,
    matrix (LazyHeap.MapMatrix.cols (LazyHeap.ks_mat st)) !! j = Some col ->
    finalized col /\ entries_below (Z.of_nat hrows) col;
  ki_slave_wf : wf_matrix (LazyHeap.MapMatrix.cols (LazyHeap.ks_slave st));
  ki_slave_len : length (matrix (LazyHeap.MapMatrix.cols (LazyHeap.ks_slave st))) = length M0;
  (* column j of the slave is empty (moved to the kernel) or led by j *)
  ki_slave_cols : forall j col,
    matrix (LazyHeap.MapMatrix.cols (LazyHeap.ks_slave st)) !! j = Some col ->
    is_heap col /\ Forall (fun e => 0 <= e <= Z.of_nat j) col
    /\ (col = [] \/ odd_in (Z.of_nat j) col = true);
  (* every column of the matrix is M0 times the column of the slave *)
  ki_product : forall j cm cs,
    matrix (LazyHeap.MapMatrix.cols (LazyHeap.ks_mat st)) !! j = Some cm ->
    matrix (LazyHeap.MapMatrix.cols (LazyHeap.ks_slave st)) !! j = Some cs ->
    forall r, odd_in r cm = mat_vec M0 cs r;
  ki_lows_len : length (LazyHeap.ks_lows st) = hrows;
  (* lows[l] = c says that column c has pivot l *)
  ki_lows : forall l c, LazyHeap.ks_lows st !! l = Some c -> c <> -1 ->
    0 <= c /\ exists rest,
      matrix (LazyHeap.MapMatrix.cols (LazyHeap.ks_mat st)) !! Z.to_nat c
      = Some (Z.of_nat l :: rest);
  ki_ker_wf : wf_matrix (LazyHeap.MapMatrix.cols (LazyHeap.lex_mat (LazyHeap.ks_ker st)));
  (* the kernel columns: in the kernel of M0, led by distinct columns
     that have left the slave *)
  ki_ker_cols : forall col,
    In col (matrix (LazyHeap.MapMatrix.cols (LazyHeap.lex_mat (LazyHeap.ks_ker st)))) ->
    0 <= largest_odd col
    /\ entries_below (Z.of_nat (length M0)) col
    /\ (forall r, mat_vec M0 col r = false)
    /\ matrix (LazyHeap.MapMatrix.cols (LazyHeap.ks_slave st)) !! Z.to_nat (largest_odd col)
       = Some [];
  ki_ker_leads : List.NoDup
    (map largest_odd
         (matrix (LazyHeap.MapMatrix.cols (LazyHeap.lex_mat (LazyHeap.ks_ker st)))));
  (* columns not visited yet are as at the start *)
  ki_untouched : forall j, (j < length M0)%nat -> ~ V (Z.of_nat j) ->
    matrix (LazyHeap.MapMatrix.cols (LazyHeap.ks_slave st)) !! j = Some [Z.of_nat j]
}.

(** The state inside the [while] loop for column [ji]: [l] has been popped
    from column [ji] of the matrix, whose entries are all below [l]; the
    other columns are as in [mat0] and [slave0]. *)
Definition reduce_inv (M0 : list (list Z)) (hrows ji : nat)
    (mat0 slave0 : list (list Z)) (m slave : LazyHeap.MapMatrix.t) (l : Z) : Prop :=
  exists cm cs,
    matrix (LazyHeap.MapMatrix.cols m) = <[ji:=cm]> mat0
    /\ matrix (LazyHeap.MapMatrix.cols slave) = <[ji:=cs]> slave0
    /\ wf_matrix (LazyHeap.MapMatrix.cols m)
    /\ wf_matrix (LazyHeap.MapMatrix.cols slave)
    /\ is_heap cm /\ entries_below l cm
    /\ -1 <= l < Z.of_nat hrows
    /\ is_heap cs /\ Forall (fun e => 0 <= e <= Z.of_nat ji) cs
    /\ odd_in (Z.of_nat ji) cs = true
    /\ forall r, mat_vec M0 cs r = odd_in r (cm ++ popped l).

(** ** Index matrices *)

(** Colex order on bigrades, written as pairs [(y, x)]. *)
Definition colex_lt (p q : nat * nat) : Prop :=
  (fst p < fst q)%nat \/ (fst p = fst q /\ (snd p < snd q)%nat).

Definition colex_le (p q : nat * nat) : Prop :=
  (fst p < fst q)%nat \/ (fst p = fst q /\ (snd p <= snd q)%nat).

(** Lex order on bigrades. *)
Definition lex_lt (p q : nat * nat) : Prop :=
  (snd p < snd q)%nat \/ (snd p = snd q /\ (fst p < fst q)%nat).

(** The table has [num_rows] rows of [num_cols] entries. *)
Definition index_shape (idx : LazyHeap.IndexMatrix.t) : Prop :=
  length (LazyHeap.IndexMatrix.ind idx) = LazyHeap.IndexMatrix.num_rows idx
  /\ Forall (fun row => length row = LazyHeap.IndexMatrix.num_cols idx)
            (LazyHeap.IndexMatrix.ind idx).

(** The index matrix of a bigraded matrix with [n] columns in colex
    layout: entries name columns (or are [-1]) and do not decrease along
    the colex traversal. *)
Record wf_index (n : nat) (idx : LazyHeap.IndexMatrix.t) : Prop := {
  wi_shape : index_shape idx;
  wi_range : forall y x v, LazyHeap.IndexMatrix.get y x idx = Ok v ->
               -1 <= v < Z.of_nat n;
  wi_mono : forall y x y' x' v v',
    LazyHeap.IndexMatrix.get y x idx = Ok v ->
    LazyHeap.IndexMatrix.get y' x' idx = Ok v' ->
    colex_le (y, x) (y', x') -> v <= v'
}.

(** The columns that [kernel_one_bigrade] has gone through when the
    bigrades of [P] have been treated. *)
Definition visited (idx : LazyHeap.IndexMatrix.t) (P : list (nat * nat)) (j : Z) : Prop :=
  exists y x first_col last_col,
    In (y, x) P
    /\ LazyHeap.IndexMatrix.start_index y 0 idx = Ok first_col
    /\ LazyHeap.IndexMatrix.get y x idx = Ok last_col
    /\ first_col <= j <= last_col.

(** A bigraded matrix as the data model has it: finalized columns of row
    indices, one insert counter per column, and an index matrix in colex
    layout. *)
Record wf_bigraded (M : LazyHeap.BigradedMatrix) : Prop := {
  wb_matrix : wf_matrix (LazyHeap.MapMatrix.cols (LazyHeap.mat M));
  wb_columns : forall j col,
    matrix (LazyHeap.MapMatrix.cols (LazyHeap.mat M)) !! j = Some col ->
    finalized col
    /\ entries_below (Z.of_nat (LazyHeap.MapMatrix.height (LazyHeap.mat M))) col;
  wb_index : wf_index (LazyHeap.MapMatrix.width (LazyHeap.mat M)) (LazyHeap.ind M)
}.

(** ** The lex layout of the kernel *)

(** The first column after the bigrades whose last columns are [ts]. *)
Definition next_index (ts : list Z) : Z :=
  match last ts with
  | Some v => v + 1
  | None => 0
  end.

(** The columns [start_index(y,x) .. get(y,x)] of a bigrade in a
    lex-layout index matrix. *)
Definition bigrade_columns (kind : LazyHeap.IndexMatrix.t) (yx : nat * nat) : list Z :=
  match LazyHeap.IndexMatrix.start_index_lex (fst yx) (snd yx) kind,
        LazyHeap.IndexMatrix.get (fst yx) (snd yx) kind with
  | Ok first_col, Ok last_col => seqZ first_col (last_col - first_col + 1)
  | _, _ => []
  end.

(** The index matrix of [ker_lex] when the first bigrades in lex order
    have been treated: [ts] lists their entries, [t] is the number of
    kernel columns. *)
Record lex_values (h w : nat) (kind : LazyHeap.IndexMatrix.t) (ts : list Z) (t : Z)
  : Prop := {
  lv_get : forall i y x v,
    LazyHeap.lex_order h w !! i = Some (y, x) -> ts !! i = Some v ->
    LazyHeap.IndexMatrix.get y x kind = Ok v;
  lv_mono : forall i j vi vj, (i <= j)%nat ->
    ts !! i = Some vi -> ts !! j = Some vj -> vi <= vj;
  lv_range : forall i v, ts !! i = Some v -> -1 <= v <= t - 1;
  lv_next : next_index ts = t
}.

(** The columns of [kc] with the indices [js], in this order. *)
Definition moved_columns (kc : list (list Z)) (js : list Z) : list (list Z) :=
  map (fun j => column_at kc (Z.to_nat j)) js.

(** The state of the constructor from a lex layout when the columns
    [done] of the source [kc] have been moved: they fill the first slots
    of the destination, and the other source columns are still there. *)
Record from_lex_inv (kc : list (list Z)) (done : list Z)
    (src dst : LazyHeap.MapMatrix.t) (current_index : Z) : Prop := {
  fl_src_len : length (matrix (LazyHeap.MapMatrix.cols src)) = length kc;
  fl_src : forall j, 0 <= j -> ~ In j done ->
    matrix (LazyHeap.MapMatrix.cols src) !! Z.to_nat j = kc !! Z.to_nat j;
  fl_dst : matrix (LazyHeap.MapMatrix.cols dst)
           = moved_columns kc done ++ replicate (length kc - length done) [];
  fl_dst_wf : wf_matrix (LazyHeap.MapMatrix.cols dst);
  fl_cur : current_index = Z.of_nat (length done)
}.

(** ** Further operations of [vector_heap_mod] *)

(** A column built by successive calls [_set_entry(row, col)]. *)
Definition set_entries {ops : HeapOps} (rows : list Z) (col : nat) (m : vector_heap_mod)
  : result vector_heap_mod :=
  fold_left (fun acc row => do m' <- acc ; _set_entry row col m') rows (Ok m).

(** Strictly descending lists of indices: the order in which [_prune]
    pops the entries of a column. *)
Definition strictly_descending (l : list Z) : Prop :=
  StronglySorted (fun a b => b < a) l.

(** [_reindex_column(idx, new_row_indices)]: a cleared copy of the buffer
    takes [new_row_indices[e]] for every raw entry [e] of the column, in
    order, and is swapped into the column.  Heap order is not restored. *)
Definition reindex_entries (new_row_indices : list Z) (col : list Z) : result (list Z) :=
  fold_left
    (fun (acc : result (list Z)) (e : Z) =>
       do temp_col <- acc ;
       do v <- vgetZ new_row_indices e ;
       Ok (temp_col ++ [v]))
    col (Ok []).

Definition _reindex_column (idx : nat) (new_row_indices : list Z) (m : vector_heap_mod)
  : result vector_heap_mod :=
  do col <- vget (matrix m) idx ;
  do temp_col <- reindex_entries new_row_indices col ;
  set_column idx temp_col m.

(** *** The functions for sorted columns

    [std::sort] leaves the ascending rearrangement of the range, which is
    unique for integers; it is computed here by insertion. *)
Fixpoint insert_asc (x : Z) (l : list Z) : list Z :=
  match l with
  | [] => [x]
  | y :: t => if x <=? y then x :: l else y :: insert_asc x t
  end.

Definition sort_asc (l : list Z) : list Z := fold_right insert_asc [] l.

Definition _sort_col (idx : nat) (m : vector_heap_mod) : result vector_heap_mod :=
  do col <- vget (matrix m) idx ;
  set_column idx (sort_asc col) m.

(** [std::set_symmetric_difference] on two ranges, as the standard
    describes it: the ranges are merged, an element that heads both is
    dropped from both. *)
Fixpoint set_symmetric_difference (l1 l2 : list Z) : list Z :=
  match l1 with
  | [] => l2
  | a :: l1' =>
    (fix inner (l2 : list Z) : list Z :=
       match l2 with
       | [] => l1
       | b :: l2' =>
         if a <? b then a :: set_symmetric_difference l1' l2
         else if b <? a then b :: inner l2'
         else set_symmetric_difference l1' l2'
       end) l2
  end.

(** [_add_to_sorted(source, target)] with the thread-local buffer
    [temp_col] made explicit: the buffer is grown to the sum of the two
    sizes if it is shorter, the symmetric difference is written over its
    front and the rest erased, then it is swapped with the target column.
    Returns the matrix and the buffer as they are left. *)
Definition _add_to_sorted (source target : nat) (temp_col : list Z) (m : vector_heap_mod)
  : result (vector_heap_mod * list Z) :=
  do source_col <- vget (matrix m) source ;
  do target_col <- vget (matrix m) target ;
  let new_size := (length source_col + length target_col)%nat in
  let temp_col1 :=
    if decide (length temp_col < new_size)%nat
    then temp_col ++ replicate (new_size - length temp_col) 0
    else temp_col in
  let diff := set_symmetric_difference target_col source_col in
  let written := diff ++ drop (length diff) temp_col1 in
  let temp_col2 := take (length diff) written in
  do m' <- set_column target temp_col2 m ;
  Ok (m', target_col).

(** [std::lower_bound] on [first, first + count): the loop halves
    [count]; [fuel] bounds its rounds. *)
Fixpoint lower_bound_loop (fuel : nat) (col : list Z) (first count : nat) (value : Z)
  : nat :=
  match fuel with
  | O => first
  | S fuel' =>
    if decide (0 < count)%nat then
      let step := (count / 2)%nat in
      let it := (first + step)%nat in
      match col !! it with
      | Some x =>
        if decide (x < value)
        then lower_bound_loop fuel' col (S it) (count - (step + 1)) value
        else lower_bound_loop fuel' col first step value
      | None => first
      end
    else first
  end.

(** [std::binary_search]: [first = lower_bound(...)], then
    [!(first == last) && !(value < *first)]. *)
Definition binary_search (col : list Z) (value : Z) : bool :=
  let first := lower_bound_loop (length col) col 0 (length col) value in
  match col !! first with
  | Some x => negb (bool_decide (value < x))
  | None => false
  end.

Definition _is_in_matrix_sorted (row : Z) (col : nat) (m : vector_heap_mod)
  : result bool :=
  do c <- vget (matrix m) col ;
  Ok (binary_search c row).

Definition _get_max_index_sorted (idx : nat) (m : vector_heap_mod) : result Z :=
  do c <- vget (matrix m) idx ;
  match last c with
  | None => Ok (-1)
  | Some x => Ok x
  end.

(** Ascending order, with and without repeated entries. *)
Definition ascending (l : list Z) : Prop := StronglySorted Z.le l.
Definition strictly_ascending (l : list Z) : Prop := StronglySorted Z.lt l.

(** ** Further members of [vector_heap_perm] *)

Module vector_heap_perm_ops.

(** The loop of [_set_perm]: [mrep[perm[i]] = i] for every [i]. *)
Definition set_perm_loop (row_order : list nat) (mrep0 : list nat) : result (list nat) :=
  fold_left
    (fun (acc : result (list nat)) (i : nat) =>
       do mrep <- acc ;
       do p <- vget row_order i ;
       vset mrep p i)
    (seq 0 (length row_order)) (Ok mrep0).

(** [_set_perm(row_order)]; [mrep] is taken to be sized already, as the
    comment in the source says. *)
Definition _set_perm (row_order : list nat) (m : vector_heap_perm.t)
  : result vector_heap_perm.t :=
  do mrep' <- set_perm_loop row_order (vector_heap_perm.mrep m) ;
  Ok {| vector_heap_perm.base := vector_heap_perm.base m;
        vector_heap_perm.perm := row_order;
        vector_heap_perm.mrep := mrep' |}.

(** [_is_in_matrix(row, col)]:
    [std::count(matrix[col].begin(), matrix[col].end(), mrep[row]) % 2] *)
Definition _is_in_matrix (row : Z) (col : nat) (m : vector_heap_perm.t) : result bool :=
  do c <- vget (matrix (vector_heap_perm.base m)) col ;
  do r <- vgetZ (vector_heap_perm.mrep m) row ;
  Ok (Nat.odd (count_occ Z.eq_dec c (Z.of_nat r))).

(** [_swap_columns(a, b)]: [matrix[a].swap(matrix[b])] *)
Definition _swap_columns (a b : nat) (m : vector_heap_perm.t) : result vector_heap_perm.t :=
  do ca <- vget (matrix (vector_heap_perm.base m)) a ;
  do cb <- vget (matrix (vector_heap_perm.base m)) b ;
  do b1 <- set_column a cb (vector_heap_perm.base m) ;
  do b2 <- set_column b ca b1 ;
  Ok {| vector_heap_perm.base := b2;
        vector_heap_perm.perm := vector_heap_perm.perm m;
        vector_heap_perm.mrep := vector_heap_perm.mrep m |}.

End vector_heap_perm_ops.

(** A 5 x 2 store with sorted chains, for the examples. *)
Definition example_store : MapMatrix_Base.t :=
  {| MapMatrix_Base.columns := [[4; 2; 0]; [3; 2]]%nat;
     MapMatrix_Base.num_rows := 5 |}.

(** ** Further invariants of [decompose_RU] *)

(** Every column before [bound] whose low is not negative is recorded
    in [low_col] under its low. *)
Definition lows_recorded (bound : nat) (m : MapMatrix_Perm.t) : Prop :=
  forall c l, (c < bound)%nat -> MapMatrix_Perm.low c m = Ok l -> 0 <= l ->
    MapMatrix_Perm.low_col m !! Z.to_nat l = Some (Z.of_nat c).

(** Row [c] of [U] holds [c] and otherwise only columns after [c]. *)
Definition unit_upper_rows (n : nat) (U : MapMatrix_RowPriority_Perm.t) : Prop :=
  forall c, (c < n)%nat ->
    exists row,
      MapMatrix_Base.columns (MapMatrix_RowPriority_Perm.store U) !! c = Some row
      /\ sdesc row /\ In c row /\ forall x, In x row -> (c <= x < n)%nat.

(** ** Further members of [MapMatrix] and [MapMatrix_Perm] *)

Module MapMatrix_ops.

(** [col_is_empty(j)]: [columns[j] == NULL], without a check of [j]. *)
Definition col_is_empty (j : nat) (m : MapMatrix_Base.t) : result bool :=
  do col <- vget (MapMatrix_Base.columns m) j ;
  Ok (bool_decide (col = [])).

(** [add_column(MapMatrix* other, j, k)], [other] being another matrix:
    the loop is the one of [MapMatrix_Base::add_column]. *)
Definition add_column_from (other : MapMatrix_Base.t) (j k : nat) (m : MapMatrix_Base.t)
  : result MapMatrix_Base.t :=
  if decide (length (MapMatrix_Base.columns other) <= j
             \/ length (MapMatrix_Base.columns m) <= k)%nat
  then Fail (runtime_error "attempting to access column(s) past end of matrix")
  else
    do colj <- vget (MapMatrix_Base.columns other) j ;
    do colk <- vget (MapMatrix_Base.columns m) k ;
    Ok (MapMatrix_Base.set_columns k (MapMatrix_Base.add_chain colj colk) m).

(** The [while] loop of [col_reduce] for column [j]; [fuel] bounds the
    number of column additions. *)
Fixpoint col_reduce_column (fuel : nat) (j : nat) (lows : list Z) (m : MapMatrix_Base.t)
  : result MapMatrix_Base.t :=
  do l <- MapMatrix.low j m ;
  if decide (l >= 0) then
    do lc <- vgetZ lows l ;
    if decide (lc >= 0) then
      match fuel with
      | O => Fail NonTermination
      | S fuel' =>
        do m' <- MapMatrix_Base.add_column (Z.to_nat lc) j m ;
        col_reduce_column fuel' j lows m'
      end
    else Ok m
  else Ok m.

(** The body of the [for] loop of [col_reduce]. *)
Definition col_reduce_step (fuel : nat) (st : result (MapMatrix_Base.t * list Z)) (j : nat)
  : result (MapMatrix_Base.t * list Z) :=
  do '(m, lows) <- st ;
  do m1 <- col_reduce_column fuel j lows m ;
  do l <- MapMatrix.low j m1 ;
  if decide (l >= 0) then
    do lows' <- vsetZ lows l (int_of_unsigned j) ;
    Ok (m1, lows')
  else Ok (m1, lows).

(** [col_reduce()]: the matrix as it is left, with the local [lows]. *)
Definition col_reduce (fuel : nat) (m : MapMatrix_Base.t)
  : result (MapMatrix_Base.t * list Z) :=
  fold_left (col_reduce_step fuel)
            (seq 0 (length (MapMatrix_Base.columns m)))
            (Ok (m, replicate (MapMatrix_Base.num_rows m) (-1))).

End MapMatrix_ops.

Module MapMatrix_Perm_ops.

(** The loop of [find_low(l)].  [low(j) == l] compares an [int] with an
    [unsigned]: the [int] is converted, so [-1] reads as [2^32 - 1]. *)
Fixpoint find_low_loop (l : Z) (js : list nat) (m : MapMatrix_Perm.t) : result Z :=
  match js with
  | [] => Ok (-1)
  | j :: rest =>
    do lj <- MapMatrix_Perm.low j m ;
    if decide (lj mod 2 ^ 32 = l) then Ok (Z.of_nat j)
    else find_low_loop l rest m
  end.

Definition find_low (l : Z) (m : MapMatrix_Perm.t) : result Z :=
  find_low_loop l (seq 0 (length (MapMatrix_Base.columns (MapMatrix_Perm.store m)))) m.

(** [swap_columns(j)]: columns [j] and [j+1] and their entries of
    [col_perm] are exchanged; nothing is checked. *)
Definition swap_columns (j : nat) (m : MapMatrix_Perm.t) : result MapMatrix_Perm.t :=
  let cols := MapMatrix_Base.columns (MapMatrix_Perm.store m) in
  do temp <- vget cols j ;
  do next <- vget cols (j + 1) ;
  do cols1 <- vset cols j next ;
  do cols2 <- vset cols1 (j + 1) temp ;
  do a <- vget (MapMatrix_Perm.col_perm m) j ;
  do b <- vget (MapMatrix_Perm.col_perm m) (j + 1) ;
  do cp1 <- vset (MapMatrix_Perm.col_perm m) j b ;
  do cp2 <- vset cp1 (j + 1) a ;
  Ok {| MapMatrix_Perm.store :=
          {| MapMatrix_Base.columns := cols2;
             MapMatrix_Base.num_rows := MapMatrix_Base.num_rows (MapMatrix_Perm.store m) |};
        MapMatrix_Perm.perm := MapMatrix_Perm.perm m;
        MapMatrix_Perm.mrep := MapMatrix_Perm.mrep m;
        MapMatrix_Perm.low_col := MapMatrix_Perm.low_col m;
        MapMatrix_Perm.col_perm := cp2 |}.

End MapMatrix_Perm_ops.

(** The state of [col_reduce] before column [bound] is treated. *)
Record col_reduce_inv (n rows bound : nat) (m : MapMatrix_Base.t) (lows : list Z)
  : Prop := {
  cr_rows : MapMatrix_Base.num_rows m = rows;
  cr_cols : length (MapMatrix_Base.columns m) = n;
  cr_sorted : sorted_chains rows (MapMatrix_Base.columns m);
  cr_lows_len : length lows = rows;
  cr_lows : forall l c, lows !! l = Some c -> 0 <= c ->
              (Z.to_nat c < bound)%nat /\ MapMatrix.low (Z.to_nat c) m = Ok (Z.of_nat l);
  cr_recorded : forall c l, (c < bound)%nat -> MapMatrix.low c m = Ok l -> 0 <= l ->
                  lows !! Z.to_nat l = Some (Z.of_nat c)
}.

(** [MapMatrix_Perm(unsigned size)]: the identity matrix.  The
    initializer list does not mention [col_perm], which is left empty. *)
Definition MapMatrix_Perm_identity (size : nat) : MapMatrix_Perm.t :=
  {| MapMatrix_Perm.store := MapMatrix_Base.identity size;
     MapMatrix_Perm.perm := seq 0 size;
     MapMatrix_Perm.mrep := seq 0 size;
     MapMatrix_Perm.low_col := replicate size (-1);
     MapMatrix_Perm.col_perm := [] |}.

(** The remaining members of [MapMatrix_RowPriority_Perm]. *)
Module MapMatrix_RowPriority_Perm_ops.

(** [set(i, j)]: [MapMatrix_Base::set(mrep[j], i)] *)
Definition set (i j : nat) (m : MapMatrix_RowPriority_Perm.t)
  : result MapMatrix_RowPriority_Perm.t :=
  do c <- vget (MapMatrix_RowPriority_Perm.mrep m) j ;
  do s <- MapMatrix_Base.set c i (MapMatrix_RowPriority_Perm.store m) ;
  Ok {| MapMatrix_RowPriority_Perm.store := s;
        MapMatrix_RowPriority_Perm.perm := MapMatrix_RowPriority_Perm.perm m;
        MapMatrix_RowPriority_Perm.mrep := MapMatrix_RowPriority_Perm.mrep m |}.

(** [clear(i, j)]: [MapMatrix_Base::clear(mrep[j], i)] *)
Definition clear (i j : nat) (m : MapMatrix_RowPriority_Perm.t)
  : result MapMatrix_RowPriority_Perm.t :=
  do c <- vget (MapMatrix_RowPriority_Perm.mrep m) j ;
  do s <- MapMatrix_Base.clear c i (MapMatrix_RowPriority_Perm.store m) ;
  Ok {| MapMatrix_RowPriority_Perm.store := s;
        MapMatrix_RowPriority_Perm.perm := MapMatrix_RowPriority_Perm.perm m;
        MapMatrix_RowPriority_Perm.mrep := MapMatrix_RowPriority_Perm.mrep m |}.

(** [swap_rows(i)]: the chains [i] and [i+1] are exchanged. *)
Definition swap_rows (i : nat) (m : MapMatrix_RowPriority_Perm.t)
  : result MapMatrix_RowPriority_Perm.t :=
  let cols := MapMatrix_Base.columns (MapMatrix_RowPriority_Perm.store m) in
  do temp <- vget cols i ;
  do next <- vget cols (i + 1) ;
  do cols1 <- vset cols i next ;
  do cols2 <- vset cols1 (i + 1) temp ;
  Ok {| MapMatrix_RowPriority_Perm.store :=
          {| MapMatrix_Base.columns := cols2;
             MapMatrix_Base.num_rows :=
               MapMatrix_Base.num_rows (MapMatrix_RowPriority_Perm.store m) |};
        MapMatrix_RowPriority_Perm.perm := MapMatrix_RowPriority_Perm.perm m;
        MapMatrix_RowPriority_Perm.mrep := MapMatrix_RowPriority_Perm.mrep m |}.

(** [swap_columns(j)]: only [perm] and [mrep] change. *)
Definition swap_columns (j : nat) (m : MapMatrix_RowPriority_Perm.t)
  : result MapMatrix_RowPriority_Perm.t :=
  do a <- vget (MapMatrix_RowPriority_Perm.mrep m) j ;
  do b <- vget (MapMatrix_RowPriority_Perm.mrep m) (j + 1) ;
  do temp <- vget (MapMatrix_RowPriority_Perm.perm m) a ;
  do pb <- vget (MapMatrix_RowPriority_Perm.perm m) b ;
  do perm1 <- vset (MapMatrix_RowPriority_Perm.perm m) a pb ;
  do perm2 <- vset perm1 b temp ;
  do mrep1 <- vset (MapMatrix_RowPriority_Perm.mrep m) j b ;
  do mrep2 <- vset mrep1 (j + 1) a ;
  Ok {| MapMatrix_RowPriority_Perm.store := MapMatrix_RowPriority_Perm.store m;
        MapMatrix_RowPriority_Perm.perm := perm2;
        MapMatrix_RowPriority_Perm.mrep := mrep2 |}.

End MapMatrix_RowPriority_Perm_ops.

(** The transposition of [i] and [i+1]. *)
Definition transpose_rows (i p : nat) : nat :=
  if decide (p = i) then (i + 1)%nat
  else if decide (p = (i + 1)%nat) then i
  else p.

(** The index matrix of a bigraded matrix with [n] columns in lex layout:
    its entries, read in lex order, do not decrease, lie between [-1] and
    [n - 1], and the last one is [n - 1]. *)
Definition wf_index_lex (n : nat) (kind : LazyHeap.IndexMatrix.t) : Prop :=
  index_shape kind
  /\ exists ts,
       length ts = length (LazyHeap.lex_order (LazyHeap.IndexMatrix.num_rows kind)
                                              (LazyHeap.IndexMatrix.num_cols kind))
       /\ lex_values (LazyHeap.IndexMatrix.num_rows kind)
                     (LazyHeap.IndexMatrix.num_cols kind) kind ts (Z.of_nat n).

(** A matrix in lex layout on a 2 x 2 grid of bigrades with one column
    per bigrade: columns 0, 1, 2, 3 at the bigrades [(y, x)] = [(0,0)],
    [(1,0)], [(0,1)], [(1,1)]. *)
Definition lex_example : LazyHeap.BigradedMatrixLex :=
  {| LazyHeap.lex_mat :=
       {| LazyHeap.MapMatrix.cols :=
            {| matrix := [[0]; [1]; [1; 0]; []];
               inserts_since_last_prune := [0; 0; 0; 0] |};
          LazyHeap.MapMatrix.num_rows := 2 |};
     LazyHeap.lex_ind :=
       {| LazyHeap.IndexMatrix.num_rows := 2;
          LazyHeap.IndexMatrix.num_cols := 2;
          LazyHeap.IndexMatrix.ind := [[0; 2]; [1; 3]] |} |}.

(** What [kernel] keeps of the shapes: the matrix keeps its number of
    rows, the kernel in lex layout has one row per column of the matrix,
    and its columns are finalized. *)
Record kernel_shape (hrows n : nat) (st : LazyHeap.kernel_state) : Prop := {
  ksh_mat_rows : LazyHeap.MapMatrix.num_rows (LazyHeap.ks_mat st) = hrows;
  ksh_ker_rows :
    LazyHeap.MapMatrix.num_rows (LazyHeap.lex_mat (LazyHeap.ks_ker st)) = n;
  ksh_ker_cols : forall col,
    In col (matrix (LazyHeap.MapMatrix.cols (LazyHeap.lex_mat (LazyHeap.ks_ker st)))) ->
    finalized col
}.

(* ===================================================================== *)
(** * Part II: lemmas and theorems *)
(* ===================================================================== *)

(** ** Multiplicities *)

Lemma occ_app x l1 l2 : occ x (l1 ++ l2) = (occ x l1 + occ x l2)%nat.
Proof. apply count_occ_app. Qed.

Lemma occ_perm x l1 l2 : Permutation l1 l2 -> occ x l1 = occ x l2.
Proof. intros HP. unfold occ. now apply Permutation_count_occ. Qed.

Lemma occ_cons x a l :
  occ x (a :: l) = ((if decide (a = x) then 1 else 0) + occ x l)%nat.
Proof.
  unfold occ. simpl. destruct (Z.eq_dec a x), (decide (a = x)); simpl; congruence.
Qed.

Lemma occ_not_in x l : ~ In x l -> occ x l = 0%nat.
Proof. intros H. now apply count_occ_not_In. Qed.

Lemma occ_pos_in x l : (0 < occ x l)%nat -> In x l.
Proof. intros H. apply (count_occ_In Z.eq_dec). unfold occ in H. lia. Qed.

Lemma occ_filter x f l :
  occ x (List.filter f l) = if f x then occ x l else 0%nat.
Proof.
  induction l as [|a l IH]; cbn [List.filter].
  - now destruct (f x).
  - destruct (f a) eqn:Ha; rewrite ?occ_cons, IH.
    + destruct (decide (a = x)) as [->|]; [rewrite Ha|destruct (f x)]; reflexivity.
    + destruct (decide (a = x)) as [->|]; [rewrite Ha|destruct (f x)]; reflexivity.
Qed.

Lemma odd_in_perm x l1 l2 : Permutation l1 l2 -> odd_in x l1 = odd_in x l2.
Proof. intros HP. unfold odd_in. now rewrite (occ_perm x l1 l2). Qed.

Lemma odd_in_in x l : odd_in x l = true -> In x l.
Proof.
  unfold odd_in. intros H. apply occ_pos_in.
  destruct (occ x l); [discriminate|lia].
Qed.

Lemma odd_in_cons2 x a l : odd_in x (a :: a :: l) = odd_in x l.
Proof.
  unfold odd_in. rewrite !occ_cons.
  destruct (decide (a = x)); simpl; [|reflexivity].
  now rewrite Nat.odd_succ, Nat.even_succ.
Qed.

Lemma odd_in_app x l1 l2 : odd_in x (l1 ++ l2) = xorb (odd_in x l1) (odd_in x l2).
Proof. unfold odd_in. rewrite occ_app. apply Nat.odd_add. Qed.

Lemma odd_in_nil x : odd_in x [] = false.
Proof. reflexivity. Qed.

Lemma odd_in_singleton x a : odd_in x [a] = bool_decide (a = x).
Proof.
  unfold odd_in. rewrite occ_cons. simpl.
  destruct (decide (a = x)); [rewrite bool_decide_eq_true_2|rewrite bool_decide_eq_false_2];
    auto.
Qed.

Lemma same_content_perm l1 l2 : Permutation l1 l2 -> same_content l1 l2.
Proof. intros HP x. now apply odd_in_perm. Qed.

Lemma filter_all_true (f : index -> bool) l :
  (forall x, In x l -> f x = true) -> List.filter f l = l.
Proof.
  induction l as [|a l IH]; simpl; intros H; [reflexivity|].
  rewrite (H a) by now left. f_equal. apply IH. intros; apply H; now right.
Qed.

Lemma filter_cons_ltb m a l :
  ~ a < m ->
  List.filter (fun x => x <? m) (a :: l) = List.filter (fun x => x <? m) l.
Proof.
  intros H. cbn [List.filter]. destruct (Z.ltb_spec a m); [lia|reflexivity].
Qed.

Lemma filter_perm (f : index -> bool) l1 l2 :
  Permutation l1 l2 -> Permutation (List.filter f l1) (List.filter f l2).
Proof.
  induction 1; simpl.
  - constructor.
  - destruct (f x); [constructor|]; assumption.
  - destruct (f x), (f y); try reflexivity. apply perm_swap.
  - etransitivity; eassumption.
Qed.

(** ** Heaps *)

Lemma parent_lt i : (0 < i)%nat -> (parent i < i)%nat.
Proof.
  intros H. unfold parent.
  apply Nat.Div0.div_lt_upper_bound. lia.
Qed.

Lemma is_heap_nil : is_heap [].
Proof. intros i x p _ H. discriminate. Qed.

Lemma is_heap_singleton a : is_heap [a].
Proof. intros i x p Hi H. destruct i; [lia|discriminate]. Qed.

Lemma is_heap_front_max x l : is_heap (x :: l) -> forall y, In y (x :: l) -> y <= x.
Proof.
  intros Hh.
  assert (Hidx : forall n i y, (i < n)%nat -> (x :: l) !! i = Some y -> y <= x).
  { induction n as [|n IH]; intros i y Hi Hy; [lia|].
    destruct (decide (i = 0%nat)) as [->|Hne].
    - simpl in Hy. injection Hy as <-. lia.
    - pose proof (parent_lt i ltac:(lia)) as Hp.
      destruct (lookup_lt_is_Some_2 (x :: l) (parent i)) as [p Hpv].
      { apply lookup_lt_Some in Hy. lia. }
      specialize (Hh i y p ltac:(lia) Hy Hpv).
      specialize (IH (parent i) p ltac:(lia) Hpv). lia. }
  intros y Hy. apply list_elem_of_In in Hy.
  apply list_elem_of_lookup in Hy as [i Hi].
  apply (Hidx (S i) i); [lia|assumption].
Qed.

Lemma is_heapb_correct l : is_heapb l = true <-> is_heap l.
Proof.
  unfold is_heapb. rewrite forallb_forall. split.
  - intros H i x p Hi Hx Hp.
    pose proof (lookup_lt_Some _ _ _ Hx) as Hlt.
    specialize (H i). rewrite in_seq in H. specialize (H ltac:(lia)).
    apply Z.leb_le in H.
    rewrite (nth_lookup_Some _ _ _ _ Hx), (nth_lookup_Some _ _ _ _ Hp) in H. exact H.
  - intros H i Hi. apply in_seq in Hi. apply Z.leb_le.
    destruct (lookup_lt_is_Some_2 l i) as [x Hx]; [lia|].
    destruct (lookup_lt_is_Some_2 l (parent i)) as [p Hp].
    { pose proof (parent_lt i ltac:(lia)). lia. }
    rewrite (nth_lookup_Some _ _ _ _ Hx), (nth_lookup_Some _ _ _ _ Hp).
    apply (H i); [lia|assumption..].
Qed.

(** ** Popping the maximum *)

Section HeapColumns.
Context {ops : HeapOps} {laws : HeapLaws ops}.

Lemma pop_heap_pop_back_spec x l :
  is_heap (x :: l) ->
  Permutation (pop_heap_pop_back (x :: l)) l /\ is_heap (pop_heap_pop_back (x :: l)).
Proof.
  intros Hh. destruct (pop_heap_back x l Hh) as (l' & Heq & HP & Hh').
  unfold pop_heap_pop_back. rewrite Heq, removelast_last. now split.
Qed.

Lemma pop_heap_pop_back_length l :
  length (pop_heap_pop_back l) = (length l - 1)%nat.
Proof.
  unfold pop_heap_pop_back. rewrite removelast_firstn_len, length_take, pop_heap_length.
  lia.
Qed.

Lemma pop_spec_perm S S' m col' :
  Permutation S S' -> pop_spec S m col' -> pop_spec S' m col'.
Proof.
  intros HP [Hh H]. split; [exact Hh|].
  destruct H as [(Hnone & -> & ->)|(Hm & Hmax & Hc)]; [left|right].
  - split; [|now split]. intros x. rewrite <- (odd_in_perm x S S' HP). apply Hnone.
  - split; [|split].
    + now rewrite <- (odd_in_perm m S S' HP).
    + intros x. rewrite <- (odd_in_perm x S S' HP). apply Hmax.
    + rewrite Hc. now apply filter_perm.
Qed.

Lemma pop_spec_singleton fuel me :
  pop_spec [me] (fst (pop_max_loop fuel [] me)) (snd (pop_max_loop fuel [] me)).
Proof.
  destruct fuel; cbn [pop_max_loop fst snd].
  all: split; [apply is_heap_nil|right]; split; [|split].
  all: try (rewrite odd_in_singleton; now apply bool_decide_eq_true_2).
  all: try (intros x Hx; apply odd_in_in in Hx; destruct Hx as [->|[]]; lia).
  all: cbn [List.filter]; rewrite Z.ltb_irrefl; constructor.
Qed.

Lemma pop_max_loop_spec fuel : forall col max_element,
  is_heap col -> (forall y, In y col -> y <= max_element) ->
  (length col <= fuel)%nat ->
  pop_spec (max_element :: col)
           (fst (pop_max_loop fuel col max_element))
           (snd (pop_max_loop fuel col max_element)).
Proof.
  induction fuel as [|fuel IH]; intros col me Hh Hle Hlen.
  - destruct col as [|x t]; [|simpl in Hlen; lia].
    apply pop_spec_singleton.
  - destruct col as [|x t]; [apply pop_spec_singleton|].
    cbn [pop_max_loop]. destruct (decide (x = me)) as [->|Hne].
    + destruct (pop_heap_pop_back_spec me t Hh) as [HP1 Hh1].
      destruct (pop_heap_pop_back (me :: t)) as [|y t1] eqn:E1.
      * apply Permutation_nil in HP1. subst t. cbn [fst snd].
        split; [apply is_heap_nil|left]. split; [|now split].
        intros x. rewrite odd_in_cons2. reflexivity.
      * destruct (pop_heap_pop_back_spec y t1 Hh1) as [HP2 Hh2].
        assert (Hle2 : forall z, In z (pop_heap_pop_back (y :: t1)) -> z <= y).
        { intros z Hz. apply (is_heap_front_max y t1 Hh1). right.
          eapply Permutation_in; eassumption. }
        assert (Hlen2 : (length (pop_heap_pop_back (y :: t1)) <= fuel)%nat).
        { rewrite (Permutation_length HP2).
          apply Permutation_length in HP1. simpl in *. lia. }
        specialize (IH _ y Hh2 Hle2 Hlen2).
        assert (HPS : Permutation (y :: pop_heap_pop_back (y :: t1)) t).
        { rewrite HP2. exact HP1. }
        apply (pop_spec_perm _ _ _ _ HPS) in IH.
        destruct IH as [Hh' H]. split; [exact Hh'|].
        destruct H as [(Hnone & Hm & Hc)|(Hm & Hmax & Hc)]; [left|right].
        -- split; [|now split]. intros x. now rewrite odd_in_cons2.
        -- split; [|split].
           ++ now rewrite odd_in_cons2.
           ++ intros x. rewrite odd_in_cons2. apply Hmax.
           ++ rewrite Hc.
              assert (Hmle : fst (pop_max_loop fuel (pop_heap_pop_back (y :: t1)) y) <= me).
              { apply Hle. right. now apply odd_in_in. }
              rewrite !filter_cons_ltb by lia. reflexivity.
    + cbn [fst snd]. assert (Hlt : forall z, In z (x :: t) -> z < me).
      { intros z Hz. pose proof (is_heap_front_max x t Hh z Hz).
        pose proof (Hle x ltac:(now left)). lia. }
      split; [exact Hh|right]. split; [|split].
      * unfold odd_in. rewrite occ_cons, occ_not_in.
        -- now destruct (decide (me = me)).
        -- intros Hin. specialize (Hlt _ Hin). lia.
      * intros z Hz. apply odd_in_in in Hz. destruct Hz as [->|Hz]; [lia|].
        specialize (Hlt _ Hz). lia.
      * rewrite filter_cons_ltb by lia.
        rewrite filter_all_true; [reflexivity|].
        intros z Hz. apply Z.ltb_lt. now apply Hlt.
Qed.

Lemma _pop_max_index_spec col :
  is_heap col ->
  pop_spec col (fst (_pop_max_index col)) (snd (_pop_max_index col)).
Proof.
  intros Hh. destruct col as [|x t].
  - cbn [_pop_max_index fst snd]. split; [apply is_heap_nil|left]. now split.
  - cbn [_pop_max_index].
    destruct (pop_heap_pop_back_spec x t Hh) as [HP1 Hh1].
    eapply pop_spec_perm; [apply perm_skip; exact HP1|].
    apply pop_max_loop_spec; [exact Hh1| |].
    + intros y Hy. apply (is_heap_front_max x t Hh). right.
      eapply Permutation_in; eassumption.
    + rewrite (Permutation_length HP1). simpl. lia.
Qed.

(** The index returned is [largest_odd]. *)
Lemma fold_max_is_max (m x : Z) (xs : list Z) :
  In m (x :: xs) -> (forall y, In y (x :: xs) -> y <= m) ->
  fold_right Z.max x xs = m.
Proof.
  revert x. induction xs as [|a xs IH]; intros x Hin Hmax.
  - destruct Hin as [->|[]]. reflexivity.
  - cbn [fold_right].
    assert (Ha : a <= m) by (apply Hmax; right; now left).
    destruct (decide (a = m)) as [->|Hne].
    + assert (fold_right Z.max x xs <= m); [|lia].
      clear -Hmax. assert (Hx : x <= m) by (apply Hmax; now left).
      assert (Hxs : forall y, In y xs -> y <= m).
      { intros y Hy. apply Hmax. right. now right. }
      clear Hmax. induction xs as [|b xs IH]; cbn [fold_right]; [exact Hx|].
      assert (b <= m) by (apply Hxs; now left).
      assert (fold_right Z.max x xs <= m) by (apply IH; intros; apply Hxs; now right).
      lia.
    + rewrite (IH x).
      * lia.
      * destruct Hin as [->|[Hin|Hin]]; [now left|congruence|now right].
      * intros y [->|Hy]; apply Hmax; [now left|right; now right].
Qed.

Lemma logical_in x col : In x (logical col) <-> odd_in x col = true.
Proof.
  unfold logical. rewrite nodup_In, filter_In. split; [tauto|].
  intros H. split; [now apply odd_in_in|exact H].
Qed.

Lemma largest_odd_none col :
  (forall x, odd_in x col = false) -> largest_odd col = -1.
Proof.
  intros H. unfold largest_odd. destruct (logical col) as [|x xs] eqn:E; [reflexivity|].
  assert (Hx : In x (logical col)) by (rewrite E; now left).
  apply logical_in in Hx. rewrite H in Hx. discriminate.
Qed.

Lemma largest_odd_max col m :
  odd_in m col = true -> (forall x, odd_in x col = true -> x <= m) ->
  largest_odd col = m.
Proof.
  intros Hm Hmax. unfold largest_odd.
  destruct (logical col) as [|x xs] eqn:E.
  - apply logical_in in Hm. rewrite E in Hm. destruct Hm.
  - apply fold_max_is_max.
    + rewrite <- E. now apply logical_in.
    + intros y Hy. apply Hmax. apply logical_in. now rewrite E.
Qed.

Lemma pop_spec_largest_odd S m col' : pop_spec S m col' -> m = largest_odd S.
Proof.
  intros [_ [(Hnone & -> & _)|(Hm & Hmax & _)]].
  - symmetry. now apply largest_odd_none.
  - symmetry. now apply largest_odd_max.
Qed.

Lemma _pop_max_index_largest_odd col :
  is_heap col -> fst (_pop_max_index col) = largest_odd col.
Proof. intros Hh. eapply pop_spec_largest_odd. now apply _pop_max_index_spec. Qed.

(** Content of the column left by a pop: the entries below the result. *)
Lemma pop_spec_content S m col' x :
  pop_spec S m col' ->
  odd_in x col' = (odd_in x S && negb (bool_decide (x = m))).
Proof.
  intros [_ [(Hnone & -> & ->)|(Hm & Hmax & HP)]].
  - now rewrite Hnone.
  - rewrite (odd_in_perm x _ _ HP). unfold odd_in at 1. rewrite occ_filter.
    destruct (Z.ltb_spec x m) as [Hlt|Hge].
    + fold (odd_in x S). rewrite bool_decide_eq_false_2 by lia.
      now rewrite andb_true_r.
    + simpl. destruct (decide (x = m)) as [->|Hne].
      * rewrite bool_decide_eq_true_2 by reflexivity. now rewrite andb_false_r.
      * destruct (odd_in x S) eqn:E; [|reflexivity].
        apply Hmax in E. lia.
Qed.

Lemma get_max_index_col_spec col :
  is_heap col ->
  fst (get_max_index_col col) = largest_odd col
  /\ is_heap (snd (get_max_index_col col))
  /\ (fst (get_max_index_col col) <> -1 ->
      same_content (snd (get_max_index_col col)) col).
Proof.
  intros Hh. unfold get_max_index_col.
  pose proof (_pop_max_index_spec col Hh) as Hs.
  destruct (_pop_max_index col) as [m col1]. cbn [fst snd] in *.
  pose proof Hs as [Hh1 Hcases].
  split; [now apply (pop_spec_largest_odd col m col1)|]. split.
  - now apply push_heap_heap.
  - intros Hm x. unfold push_back_push_heap.
    rewrite (odd_in_perm x _ _ (push_heap_perm col1 m Hh1)).
    rewrite odd_in_app, odd_in_singleton, (pop_spec_content col m col1 x Hs).
    destruct Hcases as [(_ & -> & _)|(Hodd & _ & _)]; [congruence|].
    destruct (decide (m = x)) as [->|Hne].
    + rewrite !bool_decide_eq_true_2 by reflexivity. rewrite Hodd. reflexivity.
    + rewrite !bool_decide_eq_false_2 by congruence.
      now rewrite andb_true_r, xorb_false_r.
Qed.

(** Pushing a whole column. *)
Lemma push_all_spec src : forall tgt,
  is_heap tgt ->
  Permutation (push_all src tgt) (tgt ++ src) /\ is_heap (push_all src tgt).
Proof.
  induction src as [|a src IH]; intros tgt Hh.
  - simpl. rewrite app_nil_r. now split.
  - cbn [push_all fold_left].
    destruct (IH (push_back_push_heap tgt a)) as [HP Hh'].
    { now apply push_heap_heap. }
    split; [|exact Hh'].
    unfold push_all in HP. rewrite HP. unfold push_back_push_heap.
    rewrite (push_heap_perm tgt a Hh). now rewrite <- app_assoc.
Qed.

(** Pruning. *)
Lemma filter_length_lt (f : Z -> bool) x l :
  In x l -> f x = false -> (length (List.filter f l) < length l)%nat.
Proof.
  induction l as [|a l IH]; intros Hin Hf; [destruct Hin|].
  cbn [List.filter]. destruct Hin as [->|Hin].
  - rewrite Hf. pose proof (filter_length_le f l). simpl. lia.
  - specialize (IH Hin Hf). destruct (f a); simpl; lia.
Qed.

Lemma pop_spec_shorter S m col' :
  pop_spec S m col' -> m <> -1 -> (length col' < length S)%nat.
Proof.
  intros [_ [(_ & -> & _)|(Hm & _ & HP)]] Hne; [congruence|].
  rewrite (Permutation_length HP). apply (filter_length_lt _ m).
  - now apply odd_in_in.
  - apply Z.ltb_irrefl.
Qed.

Lemma pop_spec_in S m col' x : pop_spec S m col' -> In x col' -> In x S.
Proof.
  intros [_ [(_ & _ & ->)|(_ & _ & HP)]] Hin; [destruct Hin|].
  apply (Permutation_in _ HP) in Hin. apply filter_In in Hin. tauto.
Qed.

Lemma pop_spec_minus_one S col' :
  pop_spec S (-1) col' -> ~ In (-1) S -> forall x, odd_in x S = false.
Proof.
  intros [_ [(H & _ & _)|(Hm & _ & _)]] Hni; [exact H|].
  apply odd_in_in in Hm. contradiction.
Qed.

Lemma prune_loop_spec fuel : forall S col temp m,
  pop_spec S m col -> ~ In (-1) S -> (m <> -1 -> (length col < fuel)%nat) ->
  exists d, snd (prune_loop fuel col temp m) = temp ++ d
            /\ List.NoDup d /\ (forall x, In x d <-> odd_in x S = true).
Proof.
  assert (Hstop : forall S col, pop_spec S (-1) col -> ~ In (-1) S ->
            forall temp : list Z, exists d, temp = temp ++ d
              /\ List.NoDup d /\ (forall x, In x d <-> odd_in x S = true)).
  { intros S col Hs Hni temp. exists []. rewrite app_nil_r.
    split; [reflexivity|]. split; [constructor|].
    intros x. rewrite (pop_spec_minus_one S col Hs Hni x). simpl.
    split; [tauto|discriminate]. }
  induction fuel as [|fuel IH]; intros S col temp m Hs Hni Hlen;
    cbn [prune_loop]; destruct (decide (m = -1)) as [->|Hne]; cbn [snd].
  - eapply Hstop; eassumption.
  - specialize (Hlen Hne). lia.
  - eapply Hstop; eassumption.
  - pose proof Hs as [Hh _].
    pose proof (_pop_max_index_spec col Hh) as Hs'.
    destruct (_pop_max_index col) as [m' col'] eqn:E. cbn [fst snd] in Hs'.
    destruct (IH col col' (temp ++ [m]) m' Hs') as (d' & Heq & Hnd & Hin).
    + intros Hc. apply Hni. eapply pop_spec_in; eassumption.
    + intros Hne'. pose proof (pop_spec_shorter _ _ _ Hs' Hne').
      specialize (Hlen Hne). lia.
    + exists (m :: d'). split; [rewrite Heq; now rewrite <- app_assoc|].
      assert (Hc : forall x, odd_in x col = (odd_in x S && negb (bool_decide (x = m)))).
      { intros x. now apply pop_spec_content. }
      split.
      * constructor; [|exact Hnd]. rewrite Hin, Hc.
        rewrite bool_decide_eq_true_2 by reflexivity. rewrite andb_false_r. discriminate.
      * intros x. cbn [In]. rewrite Hin, Hc.
        destruct Hs as [_ [(_ & -> & _)|(Hm & _ & _)]]; [congruence|].
        destruct (decide (x = m)) as [->|Hx].
        -- rewrite Hm. split; [reflexivity|now left].
        -- rewrite bool_decide_eq_false_2 by exact Hx. rewrite andb_true_r.
           split; [intros [?|?]; congruence|now right].
Qed.

Lemma prune_col_spec col :
  is_heap col -> ~ In (-1) col ->
  is_heap (prune_col col) /\ List.NoDup (prune_col col)
  /\ (forall x, In x (prune_col col) <-> odd_in x col = true).
Proof.
  intros Hh Hni. unfold prune_col.
  pose proof (_pop_max_index_spec col Hh) as Hs.
  destruct (_pop_max_index col) as [m col1]. cbn [fst snd] in Hs.
  destruct (prune_loop_spec (length col) col col1 [] m Hs Hni) as (d & Heq & Hnd & Hin).
  { intros Hne. now apply (pop_spec_shorter col m col1). }
  destruct (prune_loop (length col) col1 [] m) as [c t]. cbn [snd] in Heq.
  simpl in Heq. subst t.
  assert (HP : Permutation (make_heap (rev d)) d).
  { rewrite make_heap_perm. symmetry. apply Permutation_rev. }
  split; [apply make_heap_heap|]. split.
  - eapply Permutation_NoDup; [symmetry; exact HP|exact Hnd].
  - intros x. rewrite <- Hin. split; apply Permutation_in; [exact HP|now symmetry].
Qed.

Lemma NoDup_odd_in x l : List.NoDup l -> (odd_in x l = true <-> In x l).
Proof.
  intros Hnd. split; [apply odd_in_in|]. intros Hin.
  unfold odd_in, occ.
  rewrite (proj1 (NoDup_count_occ' Z.eq_dec l) Hnd x Hin). reflexivity.
Qed.

Lemma prune_col_finalized col :
  is_heap col -> ~ In (-1) col -> finalized (prune_col col).
Proof. intros Hh Hni. destruct (prune_col_spec col Hh Hni) as (? & ? & _). now split. Qed.

Lemma prune_col_content col :
  is_heap col -> ~ In (-1) col -> same_content (prune_col col) col.
Proof.
  intros Hh Hni x. destruct (prune_col_spec col Hh Hni) as (_ & Hnd & Hin).
  destruct (odd_in x col) eqn:E.
  - apply NoDup_odd_in; [exact Hnd|]. now apply Hin.
  - destruct (odd_in x (prune_col col)) eqn:E'; [|reflexivity].
    apply NoDup_odd_in in E'; [|exact Hnd]. apply Hin in E'. congruence.
Qed.

Lemma fold_max_in_ge (x : Z) (xs : list Z) :
  In (fold_right Z.max x xs) (x :: xs)
  /\ forall y, In y (x :: xs) -> y <= fold_right Z.max x xs.
Proof.
  induction xs as [|a xs [IHin IHge]]; cbn [fold_right].
  - split; [now left|]. intros y [->|[]]. lia.
  - split.
    + destruct (Z.max_spec a (fold_right Z.max x xs)) as [[_ ->]|[_ ->]].
      * destruct IHin as [Hx|Hx]; [now left|right; now right].
      * right. now left.
    + intros y [<-|[<-|Hy]].
      * specialize (IHge x ltac:(now left)). lia.
      * lia.
      * specialize (IHge y ltac:(now right)). lia.
Qed.

Lemma largest_odd_cases col :
  (largest_odd col = -1 /\ forall x, odd_in x col = false)
  \/ (odd_in (largest_odd col) col = true
      /\ forall y, odd_in y col = true -> y <= largest_odd col).
Proof.
  unfold largest_odd. destruct (logical col) as [|x xs] eqn:E.
  - left. split; [reflexivity|]. intros x.
    destruct (odd_in x col) eqn:Ex; [|reflexivity].
    apply logical_in in Ex. rewrite E in Ex. destruct Ex.
  - right. destruct (fold_max_in_ge x xs) as [Hin Hge]. split.
    + apply logical_in. now rewrite E.
    + intros y Hy. apply Hge. rewrite <- E. now apply logical_in.
Qed.

Lemma largest_odd_content c1 c2 :
  same_content c1 c2 -> largest_odd c1 = largest_odd c2.
Proof.
  intros Hc. destruct (largest_odd_cases c2) as [[-> Hnone]|[Hm Hmax]].
  - apply largest_odd_none. intros x. rewrite Hc. apply Hnone.
  - apply largest_odd_max.
    + now rewrite Hc.
    + intros y. rewrite Hc. apply Hmax.
Qed.

Lemma finalized_front col :
  finalized col -> get_max_index_finalized_col col = largest_odd col.
Proof.
  intros [Hh Hnd]. destruct col as [|x t]; [reflexivity|].
  cbn [get_max_index_finalized_col]. symmetry. apply largest_odd_max.
  - apply NoDup_odd_in; [exact Hnd|now left].
  - intros y Hy. apply (is_heap_front_max x t Hh). now apply odd_in_in.
Qed.

End HeapColumns.

(** ** The reference implementation meets the contract *)

Lemma insert_desc_perm x l : Permutation (insert_desc x l) (x :: l).
Proof.
  induction l as [|y t IH]; cbn [insert_desc]; [reflexivity|].
  destruct (y <? x); [reflexivity|].
  rewrite IH. apply perm_swap.
Qed.

Lemma sort_desc_perm l : Permutation (sort_desc l) l.
Proof.
  induction l as [|x l IH]; cbn [sort_desc fold_right]; [reflexivity|].
  fold (sort_desc l). rewrite insert_desc_perm. now constructor.
Qed.

Lemma insert_desc_descending x l : descending l -> descending (insert_desc x l).
Proof.
  unfold descending. induction 1 as [|y t Hs IH Hall]; cbn [insert_desc].
  - repeat constructor.
  - destruct (Z.ltb_spec y x).
    + constructor; [now constructor|].
      constructor; [lia|]. eapply Forall_impl; [exact Hall|].
      simpl. intros; lia.
    + constructor; [exact IH|].
      eapply Permutation_Forall; [symmetry; apply insert_desc_perm|].
      now constructor.
Qed.

Lemma sort_desc_descending l : descending (sort_desc l).
Proof.
  induction l as [|x l IH]; cbn [sort_desc fold_right]; [constructor|].
  now apply insert_desc_descending.
Qed.

Lemma descending_lookup l :
  descending l ->
  forall i j x y, (i < j)%nat -> l !! i = Some x -> l !! j = Some y -> y <= x.
Proof.
  induction 1 as [|a t Hs IH Hall]; intros i j x y Hij Hx Hy; [discriminate|].
  destruct j as [|j]; [lia|]. cbn in Hy.
  destruct i as [|i].
  - cbn in Hx. injection Hx as <-.
    rewrite Forall_forall in Hall. apply Hall.
    eapply list_elem_of_lookup_2; eassumption.
  - cbn in Hx. apply (IH i j); [lia|assumption..].
Qed.

Lemma descending_is_heap l : descending l -> is_heap l.
Proof.
  intros Hd i x p Hi Hx Hp.
  apply (descending_lookup l Hd (parent i) i); [now apply parent_lt|assumption..].
Qed.

Lemma reference_heap_laws : HeapLaws reference_heap.
Proof.
  split; cbn [make_heap push_heap pop_heap reference_heap].
  - apply sort_desc_perm.
  - intros l. apply descending_is_heap, sort_desc_descending.
  - intros l v _. apply sort_desc_perm.
  - intros l v _. apply descending_is_heap, sort_desc_descending.
  - intros x l _. exists (sort_desc l). split; [reflexivity|]. split.
    + apply sort_desc_perm.
    + apply descending_is_heap, sort_desc_descending.
  - intros [|x t]; [reflexivity|].
    rewrite length_app, (Permutation_length (sort_desc_perm t)). simpl. lia.
Qed.

#[export] Existing Instance reference_heap_laws.

(** ** Vectors and the matrix *)

Lemma vget_Some {A : Type} (v : list A) i a : v !! i = Some a -> vget v i = Ok a.
Proof. unfold vget. now intros ->. Qed.

Lemma vget_Ok_inv {A : Type} (v : list A) i a : vget v i = Ok a -> v !! i = Some a.
Proof. unfold vget. destruct (v !! i); congruence. Qed.

Lemma vset_lt {A : Type} (v : list A) i x :
  (i < length v)%nat -> vset v i x = Ok (<[i:=x]> v).
Proof. unfold vset. intros H. now rewrite decide_True. Qed.

Lemma vset_Some {A : Type} (v : list A) i x a :
  v !! i = Some a -> vset v i x = Ok (<[i:=x]> v).
Proof. intros H. apply vset_lt. eapply lookup_lt_Some; eassumption. Qed.

Section MatrixOps.
Context {ops : HeapOps} {laws : HeapLaws ops}.

Lemma set_column_Ok idx col m c0 :
  matrix m !! idx = Some c0 -> set_column idx col m = Ok (with_column idx col m).
Proof. intros H. unfold set_column. now rewrite (vset_Some _ _ _ c0 H). Qed.

Lemma set_inserts_Ok idx n m n0 :
  inserts_since_last_prune m !! idx = Some n0 ->
  set_inserts idx n m = Ok (with_inserts idx n m).
Proof. intros H. unfold set_inserts. now rewrite (vset_Some _ _ _ n0 H). Qed.

Lemma with_column_lookup idx col m c0 :
  matrix m !! idx = Some c0 -> matrix (with_column idx col m) !! idx = Some col.
Proof.
  intros H. cbn. apply list_lookup_insert_eq. eapply lookup_lt_Some; eassumption.
Qed.

Lemma with_column_lookup_ne idx j col m :
  idx <> j -> matrix (with_column idx col m) !! j = matrix m !! j.
Proof. intros H. cbn. now apply list_lookup_insert_ne. Qed.

Lemma with_column_twice idx c1 c2 m :
  with_column idx c1 (with_column idx c2 m) = with_column idx c1 m.
Proof. unfold with_column. cbn. now rewrite list_insert_insert_eq. Qed.

Lemma wf_matrix_inserts m idx c0 :
  wf_matrix m -> matrix m !! idx = Some c0 ->
  exists n, inserts_since_last_prune m !! idx = Some n.
Proof.
  intros Hwf H. apply lookup_lt_is_Some_2. rewrite Hwf.
  eapply lookup_lt_Some; eassumption.
Qed.

Lemma _get_max_index_Ok idx m col :
  matrix m !! idx = Some col ->
  _get_max_index idx m =
    Ok (fst (get_max_index_col col), with_column idx (snd (get_max_index_col col)) m).
Proof.
  intros H. unfold _get_max_index. rewrite (vget_Some _ _ _ H). cbn [bind].
  destruct (get_max_index_col col) as [p col']. cbn [fst snd].
  now rewrite (set_column_Ok idx col' m col H).
Qed.

Lemma _pop_max_index_at_Ok idx m col :
  matrix m !! idx = Some col ->
  _pop_max_index_at idx m =
    Ok (fst (_pop_max_index col), with_column idx (snd (_pop_max_index col)) m).
Proof.
  intros H. unfold _pop_max_index_at. rewrite (vget_Some _ _ _ H). cbn [bind].
  destruct (_pop_max_index col) as [p col']. cbn [fst snd].
  now rewrite (set_column_Ok idx col' m col H).
Qed.

Lemma _prune_Ok idx m col n :
  matrix m !! idx = Some col -> inserts_since_last_prune m !! idx = Some n ->
  _prune idx m = Ok (with_inserts idx 0 (with_column idx (prune_col col) m)).
Proof.
  intros H Hn. unfold _prune. rewrite (vget_Some _ _ _ H). cbn [bind].
  rewrite (set_column_Ok idx _ m col H). cbn [bind].
  now rewrite (set_inserts_Ok idx 0 _ n).
Qed.

Lemma _set_entry_Ok row col m c :
  matrix m !! col = Some c ->
  _set_entry row col m = Ok (with_column col (c ++ [row]) m).
Proof.
  intros H. unfold _set_entry. rewrite (vget_Some _ _ _ H). cbn [bind].
  now apply (set_column_Ok col _ m c).
Qed.

Lemma _heapify_col_Ok idx m c :
  matrix m !! idx = Some c ->
  _heapify_col idx m = Ok (with_column idx (make_heap c) m).
Proof.
  intros H. unfold _heapify_col. rewrite (vget_Some _ _ _ H). cbn [bind].
  now apply (set_column_Ok idx _ m c).
Qed.

Lemma _get_max_index_finalized_Ok idx m c :
  matrix m !! idx = Some c ->
  _get_max_index_finalized idx m = Ok (get_max_index_finalized_col c).
Proof.
  intros H. unfold _get_max_index_finalized. now rewrite (vget_Some _ _ _ H).
Qed.

Lemma largest_odd_is_pivot col : is_pivot_of col (largest_odd col).
Proof.
  destruct (largest_odd_cases col) as [[Heq Hnone]|[Hm Hmax]]; split.
  - intros [x Hx]. rewrite Hnone in Hx. discriminate.
  - intros _. exact Heq.
  - intros _. now split.
  - intros Hnone. rewrite Hnone in Hm. discriminate.
Qed.

Lemma get_max_index_col_empty col :
  is_heap col -> (forall x, odd_in x col = false) ->
  get_max_index_col col = (-1, [-1]).
Proof.
  intros Hh Hnone. unfold get_max_index_col.
  pose proof (_pop_max_index_spec col Hh) as Hs.
  destruct (_pop_max_index col) as [m col1]. cbn [fst snd] in Hs.
  destruct Hs as [_ [(_ & -> & ->)|(Hm & _ & _)]].
  - f_equal. unfold push_back_push_heap.
    apply Permutation_length_1_inv. symmetry.
    apply (push_heap_perm [] (-1) is_heap_nil).
  - rewrite Hnone in Hm. discriminate.
Qed.

Lemma get_max_index_col_minus_one : get_max_index_col [-1] = (-1, [-1]).
Proof.
  unfold get_max_index_col.
  pose proof (_pop_max_index_spec [-1] (is_heap_singleton (-1))) as Hs.
  destruct (_pop_max_index [-1]) as [m col1]. cbn [fst snd] in Hs.
  assert (Hm : m = -1).
  { destruct Hs as [_ [(_ & -> & _)|(Hm & _ & _)]]; [reflexivity|].
    apply odd_in_in in Hm. destruct Hm as [<-|[]]. reflexivity. }
  subst m.
  assert (Hc : col1 = []).
  { destruct Hs as [_ [(_ & _ & ->)|(_ & _ & HP)]]; [reflexivity|].
    cbn in HP. symmetry in HP. now apply Permutation_nil in HP. }
  subst col1. f_equal. unfold push_back_push_heap.
  apply Permutation_length_1_inv. symmetry.
  apply (push_heap_perm [] (-1) is_heap_nil).
Qed.

End MatrixOps.

(** ** Pivot queries on a lazy-heap column *)

(** C5. On a column in heap order, [pivot(idx)] ([_get_max_index]) returns
    the largest row index of odd multiplicity and [-1] when no index has
    odd multiplicity; the column it leaves is again a heap, and whenever
    the value returned is not [-1] the set of odd-multiplicity indices of
    the column is the same after the call as before. *)
Theorem pivot_is_largest_odd_index {ops : HeapOps} {laws : HeapLaws ops}
    (m : vector_heap_mod) (idx : nat) (col : list Z) :
  matrix m !! idx = Some col ->
  is_heap col ->
  exists p col',
    _get_max_index idx m = Ok (p, with_column idx col' m)
    /\ is_pivot_of col p
    /\ p = largest_odd col
    /\ is_heap col'
    /\ (p <> -1 -> same_content col' col).
Proof.
  intros Hcol Hh.
  destruct (get_max_index_col_spec col Hh) as (Hp & Hh' & Hsame).
  exists (fst (get_max_index_col col)), (snd (get_max_index_col col)).
  split; [now apply _get_max_index_Ok|].
  split; [rewrite Hp; apply largest_odd_is_pivot|].
  repeat split; assumption.
Qed.

Lemma pivot_is_largest_odd_index_witness :
  exists p col',
    _get_max_index 0 {| matrix := [[5; 5; 3]]; inserts_since_last_prune := [0] |}
    = Ok (p, with_column 0 col'
                {| matrix := [[5; 5; 3]]; inserts_since_last_prune := [0] |})
    /\ is_pivot_of [5; 5; 3] p
    /\ p = largest_odd [5; 5; 3]
    /\ is_heap col'
    /\ (p <> -1 -> same_content col' [5; 5; 3]).
Proof.
  apply (pivot_is_largest_odd_index (laws := reference_heap_laws)).
  - reflexivity.
  - apply is_heapb_correct. reflexivity.
Defined.

(** C10, as the code has it.  On a heap column without an index of odd
    multiplicity the first pivot query returns [-1] and leaves the
    one-element vector [[-1]] behind; every later query returns [-1] again
    and leaves that vector as it is: the [-1] pushed by the previous query
    is popped and pushed back, the vector does not grow. *)
Theorem pivot_of_empty_column {ops : HeapOps} {laws : HeapLaws ops}
    (m : vector_heap_mod) (idx : nat) (col : list Z) (n : nat) :
  matrix m !! idx = Some col ->
  is_heap col ->
  (forall x, odd_in x col = false) ->
  pivot_calls (S n) idx m = Ok (replicate (S n) (-1), with_column idx [-1] m).
Proof.
  intros Hcol Hh Hnone.
  assert (Hnext : forall k, pivot_calls k idx (with_column idx [-1] m)
                            = Ok (replicate k (-1), with_column idx [-1] m)).
  { induction k as [|k IH]; [reflexivity|]. cbn [pivot_calls].
    rewrite (_get_max_index_Ok idx _ [-1]) by (eapply with_column_lookup; eassumption).
    rewrite get_max_index_col_minus_one. cbn [bind fst snd].
    rewrite with_column_twice, IH. reflexivity. }
  cbn [pivot_calls]. rewrite (_get_max_index_Ok idx m col Hcol).
  rewrite (get_max_index_col_empty col Hh Hnone). cbn [bind fst snd].
  rewrite Hnext. reflexivity.
Qed.

Lemma pivot_of_empty_column_witness :
  pivot_calls 3 0 {| matrix := [[4; 4]]; inserts_since_last_prune := [0] |}
  = Ok ([-1; -1; -1],
        with_column 0 [-1] {| matrix := [[4; 4]]; inserts_since_last_prune := [0] |}).
Proof.
  apply (pivot_of_empty_column (laws := reference_heap_laws) _ 0 [4; 4] 2).
  - reflexivity.
  - apply is_heapb_correct. reflexivity.
  - intros x. unfold odd_in. rewrite !occ_cons. simpl.
    destruct (decide (4 = x)); reflexivity.
Defined.

(** C10 as stated fails: the second pivot query on an empty column finds
    the vector [[-1]] and leaves exactly that vector; nothing is appended
    to it and the physical column is unchanged by the query. *)
Lemma pivot_of_empty_column_second_call_changes_nothing :
  let m0 := {| matrix := [[]]; inserts_since_last_prune := [0] |} in
  let m1 := {| matrix := [[-1]]; inserts_since_last_prune := [0] |} in
  _get_max_index 0 m0 = Ok (-1, m1)
  /\ _get_max_index 0 m1 = Ok (-1, m1)
  /\ ~ (forall p m2, _get_max_index 0 m1 = Ok (p, m2) ->
                     matrix m2 !! 0%nat <> matrix m1 !! 0%nat).
Proof.
  split; [reflexivity|]. split; [reflexivity|].
  intros H. apply (H (-1) {| matrix := [[-1]]; inserts_since_last_prune := [0] |});
    reflexivity.
Qed.

(** C8 (scenario S4). [set_entry(5,0); set_entry(3,0); set_entry(5,0);
    heapify_col(0); finalize(0)] on a fresh column, then
    [pivot_finalized(0)], gives [3]: the two entries [5] cancel. *)
Theorem scenario_S4_pivot {ops : HeapOps} {laws : HeapLaws ops} :
  scenario_S4 = Ok 3.
Proof.
  unfold scenario_S4, _finalize.
  rewrite (_set_entry_Ok 5 0 _ []) by reflexivity. cbn [bind].
  rewrite (_set_entry_Ok 3 0 _ [5]) by reflexivity. cbn [bind].
  rewrite (_set_entry_Ok 5 0 _ [5; 3]) by reflexivity. cbn [bind].
  rewrite (_heapify_col_Ok 0 _ [5; 3; 5]) by reflexivity. cbn [bind].
  rewrite !with_column_twice. cbn [app].
  set (h := make_heap [5; 3; 5]).
  assert (HP : Permutation h [5; 3; 5]) by apply make_heap_perm.
  assert (Hh : is_heap h) by apply make_heap_heap.
  assert (Hni : ~ In (-1) h).
  { intros Hin. apply (Permutation_in _ HP) in Hin. simpl in Hin.
    intuition discriminate. }
  rewrite (_prune_Ok 0 _ h 0) by reflexivity. cbn [bind].
  rewrite (_get_max_index_finalized_Ok 0 _ (prune_col h)) by reflexivity.
  destruct (prune_col_spec h Hh Hni) as (Hh' & Hnd & Hin).
  assert (H3 : forall x, In x (prune_col h) <-> x = 3).
  { intros x. rewrite Hin, (odd_in_perm x _ _ HP).
    unfold odd_in. rewrite !occ_cons. simpl.
    destruct (decide (5 = x)), (decide (3 = x)); simpl;
      split; intros; try lia; try congruence; try discriminate; reflexivity. }
  destruct (prune_col h) as [|a t].
  - exfalso. apply (H3 3). reflexivity.
  - assert (a = 3) by (apply H3; now left). subst a. reflexivity.
Qed.

Lemma scenario_S4_pivot_witness : scenario_S4 (ops := reference_heap) = Ok 3.
Proof. apply (scenario_S4_pivot (laws := reference_heap_laws)). Defined.

(** ** Column addition *)

Section ColumnAddition.
Context {ops : HeapOps} {laws : HeapLaws ops}.

Lemma row_indices_not_minus_one col : row_indices col -> ~ In (-1) col.
Proof.
  unfold row_indices. rewrite Forall_forall. intros H Hin.
  apply list_elem_of_In in Hin. specialize (H _ Hin). lia.
Qed.

Lemma row_indices_in col x : row_indices col -> In x col -> 0 <= x.
Proof.
  unfold row_indices. rewrite Forall_forall. intros H Hin.
  apply list_elem_of_In in Hin. now apply H.
Qed.

Lemma row_indices_subset c1 c2 :
  (forall x, In x c1 -> In x c2) -> row_indices c2 -> row_indices c1.
Proof.
  unfold row_indices. rewrite !Forall_forall. intros Hsub H x Hx.
  apply H. apply list_elem_of_In. apply Hsub. now apply list_elem_of_In.
Qed.

Lemma wf_with_column idx col m : wf_matrix m -> wf_matrix (with_column idx col m).
Proof. unfold wf_matrix. cbn. now rewrite length_insert. Qed.

Lemma wf_with_inserts idx n m : wf_matrix m -> wf_matrix (with_inserts idx n m).
Proof. unfold wf_matrix. cbn. now rewrite length_insert. Qed.

(** Entries of the column left by a pivot query. *)
Lemma get_max_index_col_in col x :
  is_heap col -> fst (get_max_index_col col) <> -1 ->
  In x (snd (get_max_index_col col)) -> In x col.
Proof.
  intros Hh. unfold get_max_index_col.
  pose proof (_pop_max_index_spec col Hh) as Hs.
  destruct (_pop_max_index col) as [m col1]. cbn [fst snd] in *.
  intros Hne Hin. pose proof Hs as [Hh1 Hcases].
  unfold push_back_push_heap in Hin.
  apply (Permutation_in _ (push_heap_perm col1 m Hh1)) in Hin.
  apply in_app_or in Hin. destruct Hin as [Hin|[<-|[]]].
  - eapply pop_spec_in; eassumption.
  - destruct Hcases as [(_ & -> & _)|(Hodd & _ & _)]; [congruence|].
    now apply odd_in_in.
Qed.

Lemma count_inserts_and_prune_spec target added m t n :
  matrix m !! target = Some t ->
  inserts_since_last_prune m !! target = Some n ->
  is_heap t -> ~ In (-1) t -> wf_matrix m ->
  exists m' t',
    count_inserts_and_prune target added m = Ok m'
    /\ matrix m' = <[target:=t']> (matrix m)
    /\ is_heap t' /\ same_content t' t /\ wf_matrix m'
    /\ (forall x, In x t' -> In x t)
    /\ (t' = t \/ finalized t').
Proof.
  intros Ht Hn Hh Hni Hwf. unfold count_inserts_and_prune.
  rewrite (vget_Some _ _ _ Hn). cbn [bind].
  rewrite (set_inserts_Ok target _ m n Hn). cbn [bind].
  change (matrix (with_inserts target (n + added) m)) with (matrix m).
  rewrite (vget_Some _ _ _ Ht). cbn [bind].
  destruct (decide (2 * (n + added) > Z.of_nat (length t))).
  - rewrite (_prune_Ok target _ t (n + added)).
    + destruct (prune_col_spec t Hh Hni) as (Hh' & Hnd & Hin).
      eexists _, (prune_col t). split; [reflexivity|]. split; [reflexivity|].
      split; [exact Hh'|]. split; [now apply prune_col_content|].
      split; [now apply wf_with_inserts, wf_with_column, wf_with_inserts|].
      split; [|right; now split].
      intros x Hx. apply Hin in Hx. now apply odd_in_in.
    + exact Ht.
    + cbn. apply list_lookup_insert_eq. eapply lookup_lt_Some; eassumption.
  - exists (with_inserts target (n + added) m), t. split; [reflexivity|]. split.
    + cbn. symmetry. now apply list_insert_id.
    + split; [exact Hh|]. split; [intros x; reflexivity|].
      split; [now apply wf_with_inserts|]. split; [auto|now left].
Qed.

Lemma _add_to_spec m source target cs ct :
  source <> target -> wf_matrix m ->
  matrix m !! source = Some cs -> matrix m !! target = Some ct ->
  is_heap ct -> ~ In (-1) cs -> ~ In (-1) ct ->
  exists m' t',
    _add_to source target m = Ok m'
    /\ matrix m' = <[target:=t']> (matrix m)
    /\ is_heap t' /\ same_content t' (ct ++ cs) /\ wf_matrix m'
    /\ (forall x, In x t' -> In x ct \/ In x cs).
Proof.
  intros Hne Hwf Hs Ht Hh Hnis Hnit. unfold _add_to.
  rewrite (vget_Some _ _ _ Hs), (vget_Some _ _ _ Ht). cbn [bind].
  rewrite decide_False by tauto.
  rewrite (set_column_Ok target _ m ct Ht). cbn [bind].
  destruct (push_all_spec cs ct Hh) as [HP Hh'].
  destruct (wf_matrix_inserts m target ct Hwf Ht) as [n Hn].
  assert (Hni' : ~ In (-1) (push_all cs ct)).
  { intros Hin. apply (Permutation_in _ HP) in Hin. apply in_app_or in Hin. tauto. }
  destruct (count_inserts_and_prune_spec target (Z.of_nat (length cs))
              (with_column target (push_all cs ct) m) (push_all cs ct) n)
    as (m' & t' & Hrun & Hm' & Hht' & Hsame & Hwf' & Hin' & _).
  { eapply with_column_lookup; eassumption. }
  { exact Hn. }
  { exact Hh'. }
  { exact Hni'. }
  { now apply wf_with_column. }
  exists m', t'. split; [exact Hrun|]. split.
  { rewrite Hm'. cbn. apply list_insert_insert_eq. }
  split; [exact Hht'|]. split.
  { intros x. rewrite Hsame. now apply odd_in_perm. }
  split; [exact Hwf'|].
  intros x Hx. apply Hin' in Hx. apply (Permutation_in _ HP) in Hx.
  now apply in_app_or in Hx.
Qed.

End ColumnAddition.

(** C6. Two distinct heap columns of row indices with the same pivot
    [p <> -1]: after [add_to(src, tgt)] the pivot of [tgt] is strictly
    below [p] (it may be [-1]). *)
Theorem pivot_after_add {ops : HeapOps} {laws : HeapLaws ops}
    (m m1 m2 : vector_heap_mod) (src tgt : nat) (cs ct : list Z) (p : Z) :
  src <> tgt ->
  wf_matrix m ->
  matrix m !! src = Some cs -> matrix m !! tgt = Some ct ->
  is_heap cs -> is_heap ct ->
  row_indices cs -> row_indices ct ->
  _get_max_index src m = Ok (p, m1) ->
  _get_max_index tgt m1 = Ok (p, m2) ->
  p <> -1 ->
  exists m3 q m4,
    _add_to src tgt m2 = Ok m3
    /\ _get_max_index tgt m3 = Ok (q, m4)
    /\ q < p.
Proof.
  intros Hne Hwf Hs Ht Hhs Hht Hrs Hrt Hp1 Hp2 Hp.
  rewrite (_get_max_index_Ok src m cs Hs) in Hp1. injection Hp1 as Hps Hm1.
  destruct (get_max_index_col_spec cs Hhs) as (Hlo_s & Hhs' & Hsame_s).
  set (cs' := snd (get_max_index_col cs)) in *.
  assert (Ht1 : matrix m1 !! tgt = Some ct).
  { subst m1. now rewrite with_column_lookup_ne. }
  rewrite (_get_max_index_Ok tgt m1 ct Ht1) in Hp2. injection Hp2 as Hpt Hm2.
  destruct (get_max_index_col_spec ct Hht) as (Hlo_t & Hht' & Hsame_t).
  set (ct' := snd (get_max_index_col ct)) in *.
  specialize (Hsame_s ltac:(congruence)). specialize (Hsame_t ltac:(congruence)).
  assert (Hs2 : matrix m2 !! src = Some cs').
  { subst m2. rewrite with_column_lookup_ne by congruence.
    subst m1. eapply with_column_lookup; eassumption. }
  assert (Ht2 : matrix m2 !! tgt = Some ct').
  { subst m2. eapply with_column_lookup; eassumption. }
  assert (Hwf2 : wf_matrix m2).
  { subst m2 m1. now apply wf_with_column, wf_with_column. }
  assert (Hin_s : forall x, In x cs' -> In x cs).
  { intros x. apply get_max_index_col_in; [exact Hhs|congruence]. }
  assert (Hin_t : forall x, In x ct' -> In x ct).
  { intros x. apply get_max_index_col_in; [exact Hht|congruence]. }
  destruct (_add_to_spec m2 src tgt cs' ct' Hne Hwf2 Hs2 Ht2 Hht')
    as (m3 & t3 & Hadd & Hm3 & Hh3 & Hsame3 & Hwf3 & Hin3).
  { apply row_indices_not_minus_one. eapply row_indices_subset; eassumption. }
  { apply row_indices_not_minus_one. eapply row_indices_subset; eassumption. }
  assert (Ht3 : matrix m3 !! tgt = Some t3).
  { rewrite Hm3. apply list_lookup_insert_eq. eapply lookup_lt_Some; eassumption. }
  exists m3, (fst (get_max_index_col t3)),
         (with_column tgt (snd (get_max_index_col t3)) m3).
  split; [exact Hadd|]. split; [now apply _get_max_index_Ok|].
  destruct (get_max_index_col_spec t3 Hh3) as (Hq & _ & _). rewrite Hq.
  assert (Hodd_s : odd_in p cs = true /\ forall x, odd_in x cs = true -> x <= p).
  { destruct (largest_odd_cases cs) as [[Heq _]|[H1 H2]]; [congruence|].
    rewrite <- Hlo_s, Hps in H1, H2. now split. }
  assert (Hodd_t : odd_in p ct = true /\ forall x, odd_in x ct = true -> x <= p).
  { destruct (largest_odd_cases ct) as [[Heq _]|[H1 H2]]; [congruence|].
    rewrite <- Hlo_t, Hpt in H1, H2. now split. }
  destruct Hodd_s as [Hps_odd Hmax_s]. destruct Hodd_t as [Hpt_odd Hmax_t].
  assert (Hp0 : 0 <= p).
  { apply (row_indices_in cs); [exact Hrs|now apply odd_in_in]. }
  assert (Hcontent : forall x, odd_in x t3 = xorb (odd_in x ct) (odd_in x cs)).
  { intros x. rewrite Hsame3, odd_in_app, Hsame_s, Hsame_t. reflexivity. }
  destruct (largest_odd_cases t3) as [[-> _]|[H1 H2]]; [lia|].
  rewrite Hcontent in H1.
  assert (largest_odd t3 <> p).
  { intros Heq. rewrite Heq, Hps_odd, Hpt_odd in H1. discriminate. }
  assert (largest_odd t3 <= p).
  { destruct (odd_in (largest_odd t3) ct) eqn:E; [now apply Hmax_t|].
    destruct (odd_in (largest_odd t3) cs) eqn:E'; [now apply Hmax_s|discriminate]. }
  lia.
Qed.

Lemma pivot_after_add_witness :
  let m := {| matrix := [[7; 3]; [7; 2; 1]]; inserts_since_last_prune := [0; 0] |} in
  let m1 := with_column 0 [7; 3] m in
  let m2 := with_column 1 [7; 2; 1] m1 in
  exists m3 q m4,
    _add_to 0 1 m2 = Ok m3 /\ _get_max_index 1 m3 = Ok (q, m4) /\ q < 7.
Proof.
  intros m m1 m2.
  apply (pivot_after_add (laws := reference_heap_laws) m m1 m2 0 1 [7; 3] [7; 2; 1] 7).
  - lia.
  - reflexivity.
  - reflexivity.
  - reflexivity.
  - apply is_heapb_correct. reflexivity.
  - apply is_heapb_correct. reflexivity.
  - repeat constructor; lia.
  - repeat constructor; lia.
  - reflexivity.
  - reflexivity.
  - lia.
Defined.

(** ** Row swaps keep [perm] and [mrep] inverse of each other *)

Lemma perm_consistent_identity rows : perm_consistent rows (seq 0 rows) (seq 0 rows).
Proof.
  split; [apply length_seq|]. split; [apply length_seq|].
  intros i Hi. exists i. split; apply lookup_seq; (split; [reflexivity|exact Hi]).
Qed.

Lemma perm_consistent_swap rows (perm mrep : list nat) i a b :
  perm_consistent rows perm mrep ->
  (i + 1 < rows)%nat ->
  mrep !! i = Some a -> mrep !! (i + 1)%nat = Some b ->
  perm_consistent rows (<[b:=i]> (<[a:=(i + 1)%nat]> perm))
                       (<[(i + 1)%nat:=a]> (<[i:=b]> mrep)).
Proof.
  intros (Hlp & Hlm & Hinv) Hi Ha Hb.
  destruct (Hinv i ltac:(lia)) as (a' & Ha' & Hpa). rewrite Ha in Ha'.
  injection Ha' as <-.
  destruct (Hinv (i + 1)%nat Hi) as (b' & Hb' & Hpb). rewrite Hb in Hb'.
  injection Hb' as <-.
  assert (Hab : a <> b) by (intros ->; rewrite Hpa in Hpb; injection Hpb; lia).
  pose proof (lookup_lt_Some _ _ _ Hpa) as Hla.
  pose proof (lookup_lt_Some _ _ _ Hpb) as Hlb.
  split; [now rewrite !length_insert|]. split; [now rewrite !length_insert|].
  intros k Hk.
  destruct (decide (k = i)) as [->|Hki]; [|destruct (decide (k = (i + 1)%nat)) as [->|Hki1]].
  - exists b. split.
    + rewrite list_lookup_insert_ne by lia.
      apply list_lookup_insert_eq. lia.
    + apply list_lookup_insert_eq. now rewrite length_insert.
  - exists a. split.
    + apply list_lookup_insert_eq. rewrite length_insert. lia.
    + rewrite list_lookup_insert_ne by congruence.
      now apply list_lookup_insert_eq.
  - destruct (Hinv k Hk) as (c & Hc & Hpc). exists c. split.
    + now rewrite !list_lookup_insert_ne by lia.
    + assert (c <> a) by (intros ->; rewrite Hpa in Hpc; injection Hpc; lia).
      assert (c <> b) by (intros ->; rewrite Hpb in Hpc; injection Hpc; lia).
      now rewrite !list_lookup_insert_ne by congruence.
Qed.

Lemma MapMatrix_Perm_swap_rows_consistent rows i (m : MapMatrix_Perm.t) :
  perm_consistent rows (MapMatrix_Perm.perm m) (MapMatrix_Perm.mrep m) ->
  (i + 1 < rows)%nat ->
  exists m', MapMatrix_Perm.swap_rows i m = Ok m'
    /\ perm_consistent rows (MapMatrix_Perm.perm m') (MapMatrix_Perm.mrep m')
    /\ MapMatrix_Perm.store m' = MapMatrix_Perm.store m.
Proof.
  intros Hc Hi. pose proof Hc as (Hlp & Hlm & Hinv).
  destruct (Hinv i ltac:(lia)) as (a & Ha & Hpa).
  destruct (Hinv (i + 1)%nat Hi) as (b & Hb & Hpb).
  pose proof (lookup_lt_Some _ _ _ Hpa) as Hla.
  pose proof (lookup_lt_Some _ _ _ Hpb) as Hlb.
  unfold MapMatrix_Perm.swap_rows.
  rewrite (vget_Some _ _ _ Ha), (vget_Some _ _ _ Hb). cbn [bind].
  rewrite (vget_Some _ _ _ Hpa), (vget_Some _ _ _ Hpb). cbn [bind].
  rewrite (vset_lt (MapMatrix_Perm.perm m)) by exact Hla. cbn [bind].
  rewrite vset_lt by now rewrite length_insert. cbn [bind].
  rewrite (vset_lt (MapMatrix_Perm.mrep m)) by lia. cbn [bind].
  rewrite vset_lt by (rewrite length_insert; lia). cbn [bind].
  eexists. split; [reflexivity|]. split; [|reflexivity].
  cbn. now apply perm_consistent_swap.
Qed.

Lemma vector_heap_perm_swap_rows_consistent rows i (m : vector_heap_perm.t) :
  perm_consistent rows (vector_heap_perm.perm m) (vector_heap_perm.mrep m) ->
  (i + 1 < rows)%nat ->
  exists m', vector_heap_perm._swap_rows i m = Ok m'
    /\ perm_consistent rows (vector_heap_perm.perm m') (vector_heap_perm.mrep m').
Proof.
  intros Hc Hi. pose proof Hc as (Hlp & Hlm & Hinv).
  destruct (Hinv i ltac:(lia)) as (a & Ha & Hpa).
  destruct (Hinv (i + 1)%nat Hi) as (b & Hb & Hpb).
  pose proof (lookup_lt_Some _ _ _ Hpa) as Hla.
  pose proof (lookup_lt_Some _ _ _ Hpb) as Hlb.
  unfold vector_heap_perm._swap_rows.
  rewrite (vget_Some _ _ _ Ha), (vget_Some _ _ _ Hb). cbn [bind].
  rewrite (vset_lt (vector_heap_perm.perm m)) by exact Hla. cbn [bind].
  rewrite vset_lt by now rewrite length_insert. cbn [bind].
  rewrite (vset_lt (vector_heap_perm.mrep m)) by lia. cbn [bind].
  rewrite vset_lt by (rewrite length_insert; lia). cbn [bind].
  eexists. split; [reflexivity|]. cbn. now apply perm_consistent_swap.
Qed.

(** C7. Starting from the identity permutation, every sequence of
    [swap_rows] calls (each on a position [i] with rows [i] and [i+1]
    inside the matrix) runs to completion and leaves
    [perm[mrep[i]] = i] for every row [i]; this holds for
    [MapMatrix_Perm::swap_rows] and for [vector_heap_perm::_swap_rows]. *)
Theorem swap_rows_permutation_consistency (rows cols : nat) (idxs : list nat) :
  Forall (fun i => (i + 1 < rows)%nat) idxs ->
  (exists m,
     MapMatrix_Perm.swap_rows_seq idxs (MapMatrix_Perm.make rows cols) = Ok m
     /\ forall i, (i < rows)%nat ->
          exists a, MapMatrix_Perm.mrep m !! i = Some a
                    /\ MapMatrix_Perm.perm m !! a = Some i)
  /\ (exists m,
     vector_heap_perm.swap_rows_seq idxs (vector_heap_perm.make rows cols) = Ok m
     /\ forall i, (i < rows)%nat ->
          exists a, vector_heap_perm.mrep m !! i = Some a
                    /\ vector_heap_perm.perm m !! a = Some i).
Proof.
  intros Hidx. split.
  - assert (Hgen : forall m0,
      perm_consistent rows (MapMatrix_Perm.perm m0) (MapMatrix_Perm.mrep m0) ->
      exists m, MapMatrix_Perm.swap_rows_seq idxs m0 = Ok m
        /\ perm_consistent rows (MapMatrix_Perm.perm m) (MapMatrix_Perm.mrep m)).
    { induction Hidx as [|i idxs Hi _ IH]; intros m0 Hc.
      - exists m0. now split.
      - destruct (MapMatrix_Perm_swap_rows_consistent rows i m0 Hc Hi)
          as (m1 & Hrun & Hc1 & _).
        destruct (IH m1 Hc1) as (m & Hrun' & Hc').
        exists m. split; [|exact Hc']. cbn [MapMatrix_Perm.swap_rows_seq].
        rewrite Hrun. exact Hrun'. }
    destruct (Hgen (MapMatrix_Perm.make rows cols)) as (m & Hrun & Hc).
    { apply perm_consistent_identity. }
    exists m. split; [exact Hrun|]. apply Hc.
  - assert (Hgen : forall m0,
      perm_consistent rows (vector_heap_perm.perm m0) (vector_heap_perm.mrep m0) ->
      exists m, vector_heap_perm.swap_rows_seq idxs m0 = Ok m
        /\ perm_consistent rows (vector_heap_perm.perm m) (vector_heap_perm.mrep m)).
    { induction Hidx as [|i idxs Hi _ IH]; intros m0 Hc.
      - exists m0. now split.
      - destruct (vector_heap_perm_swap_rows_consistent rows i m0 Hc Hi)
          as (m1 & Hrun & Hc1).
        destruct (IH m1 Hc1) as (m & Hrun' & Hc').
        exists m. split; [|exact Hc']. cbn [vector_heap_perm.swap_rows_seq].
        rewrite Hrun. exact Hrun'. }
    destruct (Hgen (vector_heap_perm.make rows cols)) as (m & Hrun & Hc).
    { apply perm_consistent_identity. }
    exists m. split; [exact Hrun|]. apply Hc.
Qed.

Lemma swap_rows_permutation_consistency_witness :
  (exists m,
     MapMatrix_Perm.swap_rows_seq [0; 1; 0; 2]%nat (MapMatrix_Perm.make 4 2) = Ok m
     /\ forall i, (i < 4)%nat ->
          exists a, MapMatrix_Perm.mrep m !! i = Some a
                    /\ MapMatrix_Perm.perm m !! a = Some i)
  /\ (exists m,
     vector_heap_perm.swap_rows_seq [0; 1; 0; 2]%nat (vector_heap_perm.make 4 2) = Ok m
     /\ forall i, (i < 4)%nat ->
          exists a, vector_heap_perm.mrep m !! i = Some a
                    /\ vector_heap_perm.perm m !! a = Some i).
Proof.
  apply (swap_rows_permutation_consistency 4 2 [0; 1; 0; 2]%nat).
  repeat constructor.
Defined.

(** ** The sorted linked-list store *)

Lemma set_columns_same j col (m : MapMatrix_Base.t) :
  MapMatrix_Base.columns m !! j = Some col -> MapMatrix_Base.set_columns j col m = m.
Proof.
  intros H. destruct m as [cols rows]. unfold MapMatrix_Base.set_columns. cbn in *.
  f_equal. now apply list_insert_id.
Qed.

Lemma set_traverse_present i rest :
  MapMatrix_Base.entry_chain i rest = true -> MapMatrix_Base.set_traverse i rest = rest.
Proof.
  induction rest as [|next rest' IH]; cbn; [discriminate|].
  destruct (decide (next < i)%nat); [discriminate|].
  destruct (decide (next = i)); [reflexivity|].
  intros H. now rewrite IH.
Qed.

Lemma set_chain_present i col :
  MapMatrix_Base.entry_chain i col = true -> MapMatrix_Base.set_chain i col = col.
Proof.
  destruct col as [|current rest]; cbn; [discriminate|].
  destruct (decide (current < i)%nat); [discriminate|].
  destruct (decide (current = i)); [reflexivity|].
  intros H. now rewrite set_traverse_present.
Qed.

(** C9. In the sorted-list store, [set(i, j)] on an entry that [entry(i, j)]
    reports as 1 (so [i] and [j] are within bounds) leaves the matrix as it
    is: no second node is created. *)
Theorem set_present_entry_unchanged (m : MapMatrix_Base.t) (i j : nat) :
  MapMatrix_Base.entry i j m = Ok true ->
  MapMatrix_Base.set i j m = Ok m.
Proof.
  unfold MapMatrix_Base.entry, MapMatrix_Base.set.
  destruct (decide (length (MapMatrix_Base.columns m) <= j)%nat); [discriminate|].
  destruct (decide (MapMatrix_Base.num_rows m <= i)%nat); [discriminate|].
  unfold vget. destruct (MapMatrix_Base.columns m !! j) as [col|] eqn:E; [|discriminate].
  cbn [bind]. intros H. injection H as H.
  rewrite (set_chain_present i col H). now rewrite (set_columns_same j col m E).
Qed.

Lemma set_present_entry_unchanged_witness :
  let m := {| MapMatrix_Base.columns := [[4; 2; 0]; [3]]%nat;
              MapMatrix_Base.num_rows := 5 |} in
  MapMatrix_Base.set 2 0 m = Ok m.
Proof.
  intros m. apply (set_present_entry_unchanged m 2 0). reflexivity.
Defined.

(** C4, as the code has it.  The operations of the sorted-list store
    ([set], [clear], [entry], [add_column], [low]) throw a
    [std::runtime_error] whenever a row or column index is not below the
    stored dimension.  The lazy-heap store checks nothing: [_set_entry]
    pushes any row value on an existing column. *)
Theorem index_checks (m : MapMatrix_Base.t) (i j k : nat) :
  ((MapMatrix_Base.width m <= j \/ MapMatrix_Base.height m <= i)%nat ->
     (exists what, MapMatrix_Base.set i j m = Fail (runtime_error what))
     /\ (exists what, MapMatrix_Base.clear i j m = Fail (runtime_error what))
     /\ (exists what, MapMatrix_Base.entry i j m = Fail (runtime_error what)))
  /\ ((MapMatrix_Base.width m <= j \/ MapMatrix_Base.width m <= k)%nat ->
     exists what, MapMatrix_Base.add_column j k m = Fail (runtime_error what))
  /\ ((MapMatrix_Base.width m <= j)%nat ->
     exists what, MapMatrix.low j m = Fail (runtime_error what))
  /\ (forall (vm : vector_heap_mod) (row : Z) (col : nat) (c : list Z),
     matrix vm !! col = Some c ->
     _set_entry row col vm = Ok (with_column col (c ++ [row]) vm)).
Proof.
  unfold MapMatrix_Base.width, MapMatrix_Base.height.
  split; [|split; [|split]].
  - intros H. unfold MapMatrix_Base.set, MapMatrix_Base.clear, MapMatrix_Base.entry.
    destruct (decide (length (MapMatrix_Base.columns m) <= j)%nat).
    + repeat split; eexists; reflexivity.
    + destruct (decide (MapMatrix_Base.num_rows m <= i)%nat); [|lia].
      repeat split; eexists; reflexivity.
  - intros H. unfold MapMatrix_Base.add_column.
    rewrite decide_True by exact H. eexists; reflexivity.
  - intros H. unfold MapMatrix.low.
    rewrite decide_True by exact H. eexists; reflexivity.
  - intros vm row col c Hc. now apply _set_entry_Ok.
Qed.

Lemma index_checks_witness :
  let m := MapMatrix_Base.make 3 2 in
  (exists what, MapMatrix_Base.set 3 0 m = Fail (runtime_error what))
  /\ (exists what, MapMatrix_Base.clear 3 0 m = Fail (runtime_error what))
  /\ (exists what, MapMatrix_Base.entry 3 0 m = Fail (runtime_error what)).
Proof.
  intros m. apply (proj1 (index_checks m 3 0 0)). right. cbn. lia.
Defined.

(** C4 as stated fails on the lazy-heap store: a [vector_heap_perm] with
    two rows and one column takes [_set_entry(5, 0)] without any error and
    stores the row index 5. *)
Lemma lazy_heap_set_entry_is_unchecked :
  let m := vector_heap_perm.make 2 1 in
  vector_heap_perm._get_num_rows m = 2
  /\ exists m', vector_heap_perm._set_entry 5 0 m = Ok m'
                /\ matrix (vector_heap_perm.base m') = [[5]].
Proof.
  split; [reflexivity|]. eexists. split; reflexivity.
Qed.

(** ** Column addition on sorted chains *)

Lemma toggle_app front rest row :
  Forall (fun x => (row < x)%nat) front ->
  toggle row (front ++ rest) = front ++ toggle row rest.
Proof.
  induction front as [|h t IH]; intros Hall; [reflexivity|].
  apply Forall_cons in Hall as [Hh Ht]. cbn [app toggle].
  rewrite decide_False by lia. rewrite decide_False by lia.
  now rewrite IH.
Qed.

Lemma add_walk_toggle row : forall rest front,
  Forall (fun x => (row < x)%nat) front ->
  let '(front', rest') := MapMatrix_Base.add_walk row front rest in
  front' ++ rest' = front ++ toggle row rest
  /\ Forall (fun x => (row <= x)%nat) front'.
Proof.
  induction rest as [|next rest' IH]; intros front Hall; cbn [MapMatrix_Base.add_walk toggle].
  - rewrite app_nil_r. split; [reflexivity|].
    apply Forall_app. split.
    + eapply Forall_impl; [exact Hall|]. cbn. lia.
    + repeat constructor.
  - destruct (decide (next = row)) as [->|Hne].
    + split; [reflexivity|]. eapply Forall_impl; [exact Hall|]. cbn. lia.
    + destruct (decide (next < row)%nat).
      * split; [reflexivity|]. eapply Forall_impl; [exact Hall|]. cbn. lia.
      * specialize (IH (front ++ [next])).
        destruct (MapMatrix_Base.add_walk row (front ++ [next]) rest') as [f' r'].
        destruct IH as [Heq Hf'].
        { apply Forall_app. split; [exact Hall|]. repeat constructor. lia. }
        split; [|exact Hf']. rewrite Heq. now rewrite <- app_assoc.
Qed.

Lemma add_row_step_toggle row front rest :
  Forall (fun x => (row < x)%nat) front ->
  let '(front', rest') := MapMatrix_Base.add_row_step (front, rest) row in
  front' ++ rest' = toggle row (front ++ rest)
  /\ Forall (fun x => (row <= x)%nat) front'.
Proof.
  intros Hall. unfold MapMatrix_Base.add_row_step.
  destruct front as [|f0 ft].
  - destruct rest as [|first rest'].
    + cbn. split; [reflexivity|]. repeat constructor.
    + cbn [app toggle]. destruct (decide (first = row)) as [->|Hne].
      * split; [reflexivity|constructor].
      * destruct (decide (first < row)%nat).
        -- split; [reflexivity|]. repeat constructor.
        -- pose proof (add_walk_toggle row rest' [first]) as H.
           destruct (MapMatrix_Base.add_walk row [first] rest') as [f' r'].
           apply H. repeat constructor. lia.
  - pose proof (add_walk_toggle row rest (f0 :: ft) Hall) as H.
    destruct (MapMatrix_Base.add_walk row (f0 :: ft) rest) as [f' r'].
    destruct H as [Heq Hf']. split; [|exact Hf'].
    rewrite Heq. symmetry. now apply toggle_app.
Qed.

Lemma add_chain_toggle colj : forall colk,
  sdesc colj ->
  MapMatrix_Base.add_chain colj colk = fold_left (fun l row => toggle row l) colj colk.
Proof.
  unfold MapMatrix_Base.add_chain.
  assert (Hgen : forall front rest,
    sdesc colj ->
    Forall (fun row => Forall (fun x => (row < x)%nat) front) colj ->
    let '(f, r) := fold_left MapMatrix_Base.add_row_step colj (front, rest) in
    f ++ r = fold_left (fun l row => toggle row l) colj (front ++ rest)).
  { induction colj as [|row colj IH]; intros front rest Hs Hall; [reflexivity|].
    cbn [fold_left]. apply Forall_cons in Hall as [Hrow Hall].
    apply StronglySorted_inv in Hs as [Hs Hlt].
    pose proof (add_row_step_toggle row front rest Hrow) as Hstep.
    destruct (MapMatrix_Base.add_row_step (front, rest) row) as [f1 r1].
    destruct Hstep as [Heq Hf1]. rewrite <- Heq. apply IH; [exact Hs|].
    rewrite Forall_forall in Hlt |- *. intros r' Hr'.
    eapply Forall_impl; [exact Hf1|]. cbn. intros x Hx.
    specialize (Hlt r' Hr'). cbn in Hlt. lia. }
  intros colk Hs. specialize (Hgen [] colk Hs).
  destruct (fold_left MapMatrix_Base.add_row_step colj ([], colk)) as [f r].
  apply Hgen. apply Forall_forall. intros; constructor.
Qed.

(** Membership in a strictly descending chain is what [entry] reads. *)
Lemma entry_chain_in i col :
  sdesc col -> (MapMatrix_Base.entry_chain i col = true <-> In i col).
Proof.
  induction 1 as [|h t Hs IH Hall]; cbn; [split; [discriminate|tauto]|].
  destruct (decide (h < i)%nat) as [Hlt|Hge].
  - split; [discriminate|]. intros [->|Hin]; [lia|].
    rewrite Forall_forall in Hall. apply list_elem_of_In in Hin.
    specialize (Hall _ Hin). cbn in Hall. lia.
  - destruct (decide (h = i)) as [->|Hne]; [split; auto|].
    rewrite IH. split; [auto|]. intros [?|?]; [congruence|assumption].
Qed.

Lemma toggle_sdesc row l : sdesc l -> sdesc (toggle row l).
Proof.
  induction 1 as [|h t Hs IH Hall]; cbn [toggle]; [repeat constructor|].
  destruct (decide (h = row)) as [->|Hne]; [exact Hs|].
  destruct (decide (h < row)%nat).
  - constructor; [now constructor|]. constructor; [lia|].
    eapply Forall_impl; [exact Hall|]. cbn. lia.
  - constructor; [exact IH|].
    clear IH Hs. induction t as [|a t IHt]; cbn [toggle].
    + repeat constructor. lia.
    + apply Forall_cons in Hall as [Ha Ht].
      destruct (decide (a = row)); [exact Ht|].
      destruct (decide (a < row)%nat).
      * constructor; [lia|]. now constructor.
      * constructor; [exact Ha|]. now apply IHt.
Qed.

Lemma toggle_in row l x :
  sdesc l -> (In x (toggle row l) <-> (x = row /\ ~ In row l) \/ (x <> row /\ In x l)).
Proof.
  induction 1 as [|h t Hs IH Hall]; cbn [toggle].
  - cbn. split; [intros [<-|[]]; left; tauto|intros [[-> _]|[_ []]]; now left].
  - assert (Hh : ~ In h t).
    { intros Hin. rewrite Forall_forall in Hall. apply list_elem_of_In in Hin.
      specialize (Hall _ Hin). cbn in Hall. lia. }
    destruct (decide (h = row)) as [->|Hne].
    + cbn [In]. split.
      * intros Hin. right. split; [congruence|now right].
      * intros [[_ Hn]|[Hx [?|?]]]; [exfalso; apply Hn; now left|congruence|assumption].
    + destruct (decide (h < row)%nat) as [Hlt|Hge].
      * assert (Hr : ~ In row (h :: t)).
        { intros [?|Hin]; [congruence|]. rewrite Forall_forall in Hall.
          apply list_elem_of_In in Hin. specialize (Hall _ Hin). cbn in Hall. lia. }
        cbn [In]. split.
        -- intros [<-|Hin]; [left; now split|right].
           split; [|exact Hin]. intros ->. now apply Hr.
        -- intros [[-> _]|[_ Hin]]; [now left|now right].
      * cbn [In]. rewrite IH. split.
        -- intros [<-|[[-> Hn]|[Hx Hin]]].
           ++ right. split; [congruence|now left].
           ++ left. split; [reflexivity|]. intros [?|?]; [congruence|contradiction].
           ++ right. split; [exact Hx|now right].
        -- intros [[-> Hn]|[Hx [<-|Hin]]].
           ++ right. left. split; [reflexivity|]. intros Hin. apply Hn. now right.
           ++ now left.
           ++ right. right. now split.
Qed.

Lemma entry_chain_toggle row l x :
  sdesc l ->
  MapMatrix_Base.entry_chain x (toggle row l)
  = xorb (bool_decide (x = row)) (MapMatrix_Base.entry_chain x l).
Proof.
  intros Hs.
  pose proof (entry_chain_in x (toggle row l) (toggle_sdesc row l Hs)) as H1.
  pose proof (entry_chain_in x l Hs) as H2.
  pose proof (entry_chain_in row l Hs) as H3.
  pose proof (toggle_in row l x Hs) as H4.
  apply eq_true_iff_eq. rewrite H1, H4.
  destruct (decide (x = row)) as [->|Hne].
  - rewrite bool_decide_eq_true_2 by reflexivity.
    rewrite xorb_true_l, negb_true_iff, <- not_true_iff_false, H3. split.
    + intros [[_ Hn]|[Hx _]]; [exact Hn|congruence].
    + intros Hn. left. now split.
  - rewrite bool_decide_eq_false_2 by exact Hne.
    rewrite xorb_false_l, H2. split.
    + intros [[? _]|[_ ?]]; [congruence|assumption].
    + intros Hin. right. now split.
Qed.

Lemma add_chain_spec colj colk :
  sdesc colj -> sdesc colk ->
  sdesc (MapMatrix_Base.add_chain colj colk)
  /\ forall x, MapMatrix_Base.entry_chain x (MapMatrix_Base.add_chain colj colk)
               = xorb (MapMatrix_Base.entry_chain x colj)
                      (MapMatrix_Base.entry_chain x colk).
Proof.
  intros Hj Hk. rewrite (add_chain_toggle colj colk Hj).
  revert colk Hk. induction Hj as [|row colj Hs IH Hall]; intros colk Hk.
  - cbn. split; [exact Hk|]. intros x. reflexivity.
  - cbn [fold_left]. destruct (IH (toggle row colk) (toggle_sdesc row colk Hk)) as [Hsd Hent].
    split; [exact Hsd|]. intros x. rewrite Hent, (entry_chain_toggle row colk x Hk).
    assert (Hx : MapMatrix_Base.entry_chain x (row :: colj)
                 = xorb (bool_decide (x = row)) (MapMatrix_Base.entry_chain x colj)).
    { pose proof (entry_chain_in x (row :: colj) (SSorted_cons row Hs Hall)) as H1.
      pose proof (entry_chain_in x colj Hs) as H2.
      apply eq_true_iff_eq. rewrite H1. cbn [In].
      destruct (decide (x = row)) as [->|Hne].
      - rewrite bool_decide_eq_true_2 by reflexivity.
        rewrite xorb_true_l, negb_true_iff, <- not_true_iff_false, H2. split; [|auto].
        intros _ Hin. rewrite Forall_forall in Hall. apply list_elem_of_In in Hin.
        specialize (Hall _ Hin). cbn in Hall. lia.
      - rewrite bool_decide_eq_false_2 by exact Hne.
        rewrite xorb_false_l, H2. split; [|auto].
        intros [?|?]; [congruence|assumption]. }
    rewrite Hx. destruct (bool_decide (x = row)), (MapMatrix_Base.entry_chain x colj),
      (MapMatrix_Base.entry_chain x colk); reflexivity.
Qed.

(** ** Sums mod 2 *)

Lemma xor_sum_S n f : xor_sum (S n) f = xorb (xor_sum n f) (f n).
Proof.
  unfold xor_sum. rewrite seq_S, map_app. cbn [map Nat.add].
  generalize (map f (seq 0 n)). intros l.
  induction l as [|a l IH]; cbn [app fold_right].
  - now rewrite xorb_false_r, xorb_false_l.
  - rewrite IH. now rewrite xorb_assoc.
Qed.

Lemma xor_sum_ext n f g :
  (forall k, (k < n)%nat -> f k = g k) -> xor_sum n f = xor_sum n g.
Proof.
  induction n as [|n IH]; intros H; [reflexivity|].
  rewrite !xor_sum_S, IH, H by (intros; try apply H; lia). reflexivity.
Qed.

Lemma xor_sum_xorb n f g :
  xor_sum n (fun k => xorb (f k) (g k)) = xorb (xor_sum n f) (xor_sum n g).
Proof.
  induction n as [|n IH]; [reflexivity|].
  rewrite !xor_sum_S, IH.
  destruct (xor_sum n f), (xor_sum n g), (f n), (g n); reflexivity.
Qed.

Lemma xor_sum_zero n f :
  (forall k, (k < n)%nat -> f k = false) -> xor_sum n f = false.
Proof.
  induction n as [|n IH]; intros H; [reflexivity|].
  rewrite xor_sum_S, IH, H by (intros; try apply H; lia). reflexivity.
Qed.

Lemma xor_sum_delta n k0 (b : nat -> bool) :
  (k0 < n)%nat -> xor_sum n (fun k => bool_decide (k = k0) && b k) = b k0.
Proof.
  induction n as [|n IH]; intros H; [lia|].
  rewrite xor_sum_S. destruct (decide (n = k0)) as [->|Hne].
  - rewrite xor_sum_zero.
    + rewrite bool_decide_eq_true_2 by reflexivity. reflexivity.
    + intros k Hk. rewrite bool_decide_eq_false_2 by lia. reflexivity.
  - rewrite IH by lia. rewrite bool_decide_eq_false_2 by exact Hne.
    cbn. now rewrite xorb_false_r.
Qed.

(** ** One column addition and the opposite row addition keep the product *)

Lemma chain_entry_insert cols j col r k :
  (j < length cols)%nat ->
  chain_entry (<[j:=col]> cols) r k
  = if decide (k = j) then MapMatrix_Base.entry_chain r col else chain_entry cols r k.
Proof.
  intros Hj. unfold chain_entry. destruct (decide (k = j)) as [->|Hne].
  - now rewrite list_lookup_insert_eq.
  - now rewrite list_lookup_insert_ne by congruence.
Qed.

Lemma raw_product_step n orig red u c j colc colj uj uc :
  c <> j -> length red = n -> length u = n ->
  red !! c = Some colc -> red !! j = Some colj ->
  u !! j = Some uj -> u !! c = Some uc ->
  sdesc colc -> sdesc colj -> sdesc uj -> sdesc uc ->
  raw_product n orig red u ->
  raw_product n orig (<[j:=MapMatrix_Base.add_chain colc colj]> red)
                     (<[c:=MapMatrix_Base.add_chain uj uc]> u).
Proof.
  intros Hcj Hlr Hlu Hc Hj Huj Huc Hsc Hsj Hsuj Hsuc Hprod r x Hx.
  pose proof (lookup_lt_Some _ _ _ Hc) as Hcn.
  pose proof (lookup_lt_Some _ _ _ Hj) as Hjn.
  rewrite Hprod by exact Hx.
  set (B := chain_entry red r c && chain_entry u x j).
  transitivity (xor_sum n (fun k =>
      xorb (xorb (chain_entry red r k && chain_entry u x k)
                 (bool_decide (k = c) && B))
           (bool_decide (k = j) && B))).
  - rewrite !xor_sum_xorb.
    rewrite (xor_sum_delta n c (fun _ => B)) by lia.
    rewrite (xor_sum_delta n j (fun _ => B)) by lia.
    destruct (xor_sum n _), B; reflexivity.
  - apply xor_sum_ext. intros k Hk.
    rewrite (chain_entry_insert red j) by lia.
    rewrite (chain_entry_insert u c) by lia.
    destruct (add_chain_spec colc colj Hsc Hsj) as [_ HRj].
    destruct (add_chain_spec uj uc Hsuj Hsuc) as [_ HUc].
    unfold B. destruct (decide (k = j)) as [->|Hkj].
    + rewrite HRj. rewrite decide_False by congruence.
      rewrite bool_decide_eq_false_2 by congruence.
      rewrite bool_decide_eq_true_2 by reflexivity.
      unfold chain_entry. rewrite Hc, Hj.
      destruct (MapMatrix_Base.entry_chain r colc), (MapMatrix_Base.entry_chain r colj),
        (match u !! j with Some col => MapMatrix_Base.entry_chain x col | None => false end);
        reflexivity.
    + rewrite (bool_decide_eq_false_2 (k = j)) by exact Hkj.
      destruct (decide (k = c)) as [->|Hkc].
      * rewrite HUc. rewrite bool_decide_eq_true_2 by reflexivity.
        unfold chain_entry. rewrite Huj, Huc, Hc.
        destruct (MapMatrix_Base.entry_chain r colc), (MapMatrix_Base.entry_chain x uj),
          (MapMatrix_Base.entry_chain x uc); reflexivity.
      * rewrite bool_decide_eq_false_2 by exact Hkc.
        destruct (chain_entry red r k && chain_entry u x k); reflexivity.
Qed.

Lemma raw_product_identity n cols :
  length cols = n ->
  raw_product n cols cols (map (fun i => [i]) (seq 0 n)).
Proof.
  intros Hl r x Hx.
  rewrite (xor_sum_ext n _ (fun k => bool_decide (k = x) && chain_entry cols r k)).
  - now rewrite xor_sum_delta.
  - intros k Hk. unfold chain_entry at 2.
    rewrite list_lookup_fmap, lookup_seq_lt by exact Hk. cbn.
    destruct (decide (k < x)%nat).
    + rewrite bool_decide_eq_false_2 by lia. now rewrite andb_false_r.
    + destruct (decide (k = x)) as [->|Hne].
      * rewrite bool_decide_eq_true_2 by reflexivity. now rewrite andb_true_r.
      * rewrite bool_decide_eq_false_2 by exact Hne. now rewrite andb_false_r.
Qed.

(** ** [low] under a row permutation *)

Lemma int_of_unsigned_small u : Z.of_nat u < 2 ^ 31 -> int_of_unsigned u = Z.of_nat u.
Proof. intros H. unfold int_of_unsigned. now rewrite decide_True. Qed.

Lemma int_of_unsigned_nonneg u :
  0 <= int_of_unsigned u -> int_of_unsigned u = Z.of_nat u /\ Z.of_nat u < 2 ^ 31.
Proof.
  unfold int_of_unsigned. destruct (decide (Z.of_nat u < 2 ^ 31)) as [Hlt|Hge].
  - intros _. now split.
  - intros H. pose proof (Z.mod_pos_bound (Z.of_nat u) (2 ^ 32) ltac:(lia)). lia.
Qed.

Lemma int_of_unsigned_le u : int_of_unsigned u <= Z.of_nat u.
Proof.
  unfold int_of_unsigned. destruct (decide (Z.of_nat u < 2 ^ 31)) as [Hlt|Hge]; [lia|].
  pose proof (Z.mod_pos_bound (Z.of_nat u) (2 ^ 32) ltac:(lia)). lia.
Qed.

Lemma low_scan_spec perm chain : forall lowest,
  Forall (fun r => (r < length perm)%nat) chain ->
  exists v, MapMatrix_Perm.low_scan perm lowest chain = Ok v
    /\ (lowest <= v)%nat
    /\ (v = lowest \/ exists r, In r chain /\ perm !! r = Some v)
    /\ forall r', In r' chain -> exists p, perm !! r' = Some p /\ (p <= v)%nat.
Proof.
  induction chain as [|row next IH]; intros lowest Hall.
  - exists lowest. cbn. repeat split; [lia|now left|tauto].
  - apply Forall_cons in Hall as [Hrow Hall]. cbn [MapMatrix_Perm.low_scan].
    destruct (lookup_lt_is_Some_2 perm row Hrow) as [p Hp].
    rewrite (vget_Some _ _ _ Hp). cbn [bind].
    destruct (IH (if decide (lowest < p)%nat then p else lowest) Hall)
      as (v & Hrun & Hge & Hwho & Hmax).
    exists v. split; [exact Hrun|].
    destruct (decide (lowest < p)%nat) as [Hlt|Hnlt].
    + split; [lia|]. split.
      * right. destruct Hwho as [->|(r & Hr & Hpr)].
        -- exists row. split; [now left|exact Hp].
        -- exists r. split; [now right|exact Hpr].
      * intros r' [<-|Hr']; [exists p; split; [exact Hp|lia]|now apply Hmax].
    + split; [lia|]. split.
      * destruct Hwho as [->|(r & Hr & Hpr)]; [now left|].
        right. exists r. split; [now right|exact Hpr].
      * intros r' [<-|Hr']; [exists p; split; [exact Hp|lia]|now apply Hmax].
Qed.

Lemma low_Ok (m : MapMatrix_Perm.t) j col :
  MapMatrix_Base.columns (MapMatrix_Perm.store m) !! j = Some col ->
  Forall (fun r => (r < length (MapMatrix_Perm.perm m))%nat) col ->
  exists l, MapMatrix_Perm.low j m = Ok l /\ low_spec (MapMatrix_Perm.perm m) col l.
Proof.
  intros Hcol Hall. unfold MapMatrix_Perm.low.
  pose proof (lookup_lt_Some _ _ _ Hcol) as Hj.
  rewrite decide_False by lia. rewrite (vget_Some _ _ _ Hcol). cbn [bind].
  destruct col as [|row next].
  - exists (-1). split; [reflexivity|]. left. now split.
  - apply Forall_cons in Hall as [Hrow Hall].
    destruct (lookup_lt_is_Some_2 _ row Hrow) as [p Hp].
    rewrite (vget_Some _ _ _ Hp). cbn [bind].
    destruct (low_scan_spec (MapMatrix_Perm.perm m) next p Hall)
      as (v & Hrun & Hge & Hwho & Hmax).
    rewrite Hrun. cbn [bind]. exists (int_of_unsigned v). split; [reflexivity|].
    right. exists v. split; [reflexivity|].
    destruct Hwho as [->|(r & Hr & Hpr)].
    + exists row. split; [now left|]. split; [exact Hp|].
      intros r' [<-|Hr']; [exists p; split; [exact Hp|lia]|now apply Hmax].
    + exists r. split; [now right|]. split; [exact Hpr|].
      intros r' [<-|Hr']; [exists p; split; [exact Hp|lia]|now apply Hmax].
Qed.

Lemma low_cong (m m' : MapMatrix_Perm.t) j :
  MapMatrix_Perm.perm m = MapMatrix_Perm.perm m' ->
  length (MapMatrix_Base.columns (MapMatrix_Perm.store m))
  = length (MapMatrix_Base.columns (MapMatrix_Perm.store m')) ->
  MapMatrix_Base.columns (MapMatrix_Perm.store m) !! j
  = MapMatrix_Base.columns (MapMatrix_Perm.store m') !! j ->
  MapMatrix_Perm.low j m = MapMatrix_Perm.low j m'.
Proof.
  intros Hp Hl Hc. unfold MapMatrix_Perm.low, vget. now rewrite Hp, Hl, Hc.
Qed.

Lemma low_spec_fun perm col l l' : low_spec perm col l -> low_spec perm col l' -> l = l'.
Proof.
  intros [[-> ->]|(a & -> & r & Hr & Hp & Hmax)] [[Hc ->]|(a' & -> & r' & Hr' & Hp' & Hmax')].
  - reflexivity.
  - destruct Hr'.
  - subst col. destruct Hr.
  - destruct (Hmax r' Hr') as (p & Hp1 & Hle). rewrite Hp' in Hp1. injection Hp1 as <-.
    destruct (Hmax' r Hr) as (p & Hp2 & Hle'). rewrite Hp in Hp2. injection Hp2 as <-.
    f_equal. lia.
Qed.

(** A low that is not negative is the largest permuted row itself. *)
Lemma low_spec_nonneg perm col l :
  low_spec perm col l -> 0 <= l ->
  l < 2 ^ 31
  /\ exists r, In r col /\ perm !! r = Some (Z.to_nat l)
       /\ forall r', In r' col -> exists p, perm !! r' = Some p /\ (p <= Z.to_nat l)%nat.
Proof.
  intros [[_ ->]|(a & -> & r & Hr & Hp & Hmax)] Hl; [lia|].
  destruct (int_of_unsigned_nonneg a Hl) as [-> Hlt]. split; [exact Hlt|].
  rewrite Nat2Z.id. exists r. split; [exact Hr|]. split; [exact Hp|exact Hmax].
Qed.

(** The low of a chain of rows below [rows] is below [rows]. *)
Lemma low_spec_bound rows (perm mrep : list nat) col l :
  perm_consistent rows mrep perm -> low_spec perm col l -> l < Z.of_nat rows.
Proof.
  intros Hmp [[_ ->]|(a & -> & r & Hr & Hp & Hmax)]; [lia|].
  assert (Ha : (a < rows)%nat).
  { destruct Hmp as (Hlm & Hlp & Hinv).
    pose proof (lookup_lt_Some _ _ _ Hp) as H1.
    destruct (Hinv r ltac:(lia)) as (a' & Ha' & Hma).
    rewrite Hp in Ha'. injection Ha' as <-.
    apply lookup_lt_Some in Hma. lia. }
  pose proof (int_of_unsigned_le a). lia.
Qed.

(** [perm] is injective when [mrep] inverts it. *)
Lemma perm_injective rows (perm mrep : list nat) r r' p :
  perm_consistent rows mrep perm ->
  perm !! r = Some p -> perm !! r' = Some p -> r = r'.
Proof.
  intros (Hlm & Hlp & Hinv) Hr Hr'.
  pose proof (lookup_lt_Some _ _ _ Hr) as H1.
  pose proof (lookup_lt_Some _ _ _ Hr') as H2.
  destruct (Hinv r ltac:(lia)) as (a & Ha & Hma).
  destruct (Hinv r' ltac:(lia)) as (a' & Ha' & Hma').
  rewrite Hr in Ha. injection Ha as <-. rewrite Hr' in Ha'. injection Ha' as <-.
  rewrite Hma in Hma'. now injection Hma'.
Qed.

Lemma perm_value_bound rows (perm mrep : list nat) r p :
  perm_consistent rows mrep perm -> perm !! r = Some p -> (p < rows)%nat.
Proof.
  intros (Hlm & Hlp & Hinv) Hr.
  pose proof (lookup_lt_Some _ _ _ Hr) as H1.
  destruct (Hinv r ltac:(lia)) as (a & Ha & Hma).
  rewrite Hr in Ha. injection Ha as <-.
  apply lookup_lt_Some in Hma. lia.
Qed.

(** Adding a column with the same low strictly lowers the low. *)
Lemma low_after_add rows (perm mrep : list nat) colc colj l l1 :
  perm_consistent rows mrep perm ->
  sdesc colc -> sdesc colj ->
  0 <= l ->
  low_spec perm colc l -> low_spec perm colj l ->
  low_spec perm (MapMatrix_Base.add_chain colc colj) l1 ->
  l1 < l.
Proof.
  intros Hpc Hsc Hsj Hl Hc Hj H1.
  destruct (add_chain_spec colc colj Hsc Hsj) as [Hs1 Hent].
  destruct (low_spec_nonneg _ _ _ Hc Hl) as (Hl31 & rc & Hrc & Hpc' & Hmaxc).
  destruct (low_spec_nonneg _ _ _ Hj Hl) as (_ & rj & Hrj & Hpj & Hmaxj).
  destruct H1 as [[_ ->]|(a1 & -> & r1 & Hr1 & Hp1 & _)]; [lia|].
  assert (rc = rj) by (eapply perm_injective; eassumption). subst rc.
  enough (Ha1 : (a1 < Z.to_nat l)%nat).
  { rewrite int_of_unsigned_small by lia. lia. }
  set (l1 := Z.of_nat a1). assert (Hp1' : perm !! r1 = Some (Z.to_nat l1)).
  { unfold l1. now rewrite Nat2Z.id. }
  clear Hp1. rename Hp1' into Hp1.
  enough (l1 < l) by (unfold l1 in *; lia).
  assert (Hin1 : MapMatrix_Base.entry_chain r1 (MapMatrix_Base.add_chain colc colj) = true).
  { now apply entry_chain_in. }
  rewrite Hent in Hin1.
  assert (Hle : (Z.to_nat l1 <= Z.to_nat l)%nat).
  { destruct (MapMatrix_Base.entry_chain r1 colc) eqn:Ec.
    - apply entry_chain_in in Ec; [|exact Hsc].
      destruct (Hmaxc r1 Ec) as (p & Hp & Hle). rewrite Hp1 in Hp. injection Hp as <-. exact Hle.
    - destruct (MapMatrix_Base.entry_chain r1 colj) eqn:Ej; [|discriminate].
      apply entry_chain_in in Ej; [|exact Hsj].
      destruct (Hmaxj r1 Ej) as (p & Hp & Hle). rewrite Hp1 in Hp. injection Hp as <-. exact Hle. }
  assert (Hne : Z.to_nat l1 <> Z.to_nat l).
  { intros Heq. rewrite Heq in Hp1.
    assert (r1 = rj) by (eapply perm_injective; eassumption). subst r1.
    assert (MapMatrix_Base.entry_chain rj colc = true) as Ec by now apply entry_chain_in.
    assert (MapMatrix_Base.entry_chain rj colj = true) as Ej by now apply entry_chain_in.
    rewrite Ec, Ej in Hin1. discriminate. }
  lia.
Qed.

(** ** The reduction loop of [decompose_RU] *)

Lemma add_chain_in colc colj x :
  sdesc colc -> sdesc colj ->
  In x (MapMatrix_Base.add_chain colc colj) -> In x colc \/ In x colj.
Proof.
  intros Hsc Hsj Hin. destruct (add_chain_spec colc colj Hsc Hsj) as [Hs Hent].
  apply (entry_chain_in x _ Hs) in Hin. rewrite Hent in Hin.
  destruct (MapMatrix_Base.entry_chain x colc) eqn:Ec.
  - left. now apply (entry_chain_in x colc Hsc).
  - right. apply (entry_chain_in x colj Hsj). now rewrite xorb_false_l in Hin.
Qed.

Lemma sorted_chains_lookup rows cols j col :
  sorted_chains rows cols -> cols !! j = Some col ->
  sdesc col /\ Forall (fun r => (r < rows)%nat) col.
Proof.
  intros Hs Hj. unfold sorted_chains in Hs. rewrite Forall_lookup in Hs.
  exact (Hs j col Hj).
Qed.

Lemma base_add_column_Ok (s : MapMatrix_Base.t) c j colc colj :
  c <> j ->
  MapMatrix_Base.columns s !! c = Some colc ->
  MapMatrix_Base.columns s !! j = Some colj ->
  MapMatrix_Base.add_column c j s
  = Ok (MapMatrix_Base.set_columns j (MapMatrix_Base.add_chain colc colj) s).
Proof.
  intros Hne Hc Hj. unfold MapMatrix_Base.add_column.
  pose proof (lookup_lt_Some _ _ _ Hc). pose proof (lookup_lt_Some _ _ _ Hj).
  rewrite decide_False by lia. rewrite decide_False by exact Hne.
  now rewrite (vget_Some _ _ _ Hc), (vget_Some _ _ _ Hj).
Qed.

Lemma reduce_column_spec n rows orig perm mrep j :
  perm_consistent rows perm mrep -> perm_consistent rows mrep perm ->
  (j < n)%nat ->
  forall fuel m U l,
    ru_inv n rows orig perm mrep j m U ->
    MapMatrix_Perm.low j m = Ok l ->
    l < Z.of_nat fuel ->
    exists m' U' l',
      MapMatrix_Perm.reduce_column fuel j m U = Ok (m', U')
      /\ ru_inv n rows orig perm mrep j m' U'
      /\ MapMatrix_Perm.low j m' = Ok l'
      /\ MapMatrix_Perm.low_col m' = MapMatrix_Perm.low_col m
      /\ l' < Z.of_nat rows
      /\ (l' < 0 \/ exists c, MapMatrix_Perm.low_col m' !! Z.to_nat l' = Some c /\ c < 0).
Proof.
  intros Hpm Hmp Hjn.
  assert (Hbound : forall m U l, ru_inv n rows orig perm mrep j m U ->
            MapMatrix_Perm.low j m = Ok l ->
            exists colj, MapMatrix_Base.columns (MapMatrix_Perm.store m) !! j = Some colj
              /\ low_spec perm colj l /\ l < Z.of_nat rows).
  { intros m U l Hinv Hlow.
    destruct (lookup_lt_is_Some_2 (MapMatrix_Base.columns (MapMatrix_Perm.store m)) j)
      as [colj Hcolj]; [rewrite (ri_cols _ _ _ _ _ _ _ _ Hinv); exact Hjn|].
    destruct (sorted_chains_lookup _ _ _ _ (ri_sorted _ _ _ _ _ _ _ _ Hinv) Hcolj) as [Hsj Hbj].
    destruct (low_Ok m j colj Hcolj) as (l0 & Hl0 & Hspec).
    { rewrite (ri_perm _ _ _ _ _ _ _ _ Hinv). destruct Hpm as (-> & _). exact Hbj. }
    rewrite Hlow in Hl0. injection Hl0 as <-.
    rewrite (ri_perm _ _ _ _ _ _ _ _ Hinv) in Hspec.
    exists colj. split; [exact Hcolj|]. split; [exact Hspec|].
    exact (low_spec_bound rows perm mrep colj l Hmp Hspec). }
  induction fuel as [|fuel IH]; intros m U l Hinv Hlow Hfuel.
  - destruct (Hbound m U l Hinv Hlow) as (_ & _ & _ & Hlr).
    cbn [MapMatrix_Perm.reduce_column]. rewrite Hlow. cbn [bind].
    rewrite decide_False by lia. exists m, U, l.
    split; [reflexivity|]. split; [exact Hinv|]. split; [exact Hlow|].
    split; [reflexivity|]. split; [exact Hlr|]. left. lia.
  - destruct (Hbound m U l Hinv Hlow) as (colj & Hcolj & Hspecj & Hlr).
    cbn [MapMatrix_Perm.reduce_column]. rewrite Hlow. cbn [bind].
    destruct (decide (l >= 0)) as [Hl0|Hl0].
    2:{ exists m, U, l.
        split; [reflexivity|]. split; [exact Hinv|]. split; [exact Hlow|].
        split; [reflexivity|]. split; [exact Hlr|]. left. lia. }
    destruct (lookup_lt_is_Some_2 (MapMatrix_Perm.low_col m) (Z.to_nat l)) as [lc Hlc].
    { rewrite (ri_low_len _ _ _ _ _ _ _ _ Hinv). lia. }
    unfold vgetZ. rewrite decide_False by lia. rewrite (vget_Some _ _ _ Hlc). cbn [bind].
    destruct (decide (lc >= 0)) as [Hc0|Hc0].
    2:{ exists m, U, l.
        split; [reflexivity|]. split; [exact Hinv|]. split; [exact Hlow|].
        split; [reflexivity|]. split; [exact Hlr|].
        right. exists lc. split; [exact Hlc|lia]. }
    destruct (ri_low _ _ _ _ _ _ _ _ Hinv _ _ Hlc ltac:(lia)) as [Hcj Hlowc].
    rewrite Z2Nat.id in Hlowc by lia.
    set (c := Z.to_nat lc) in *.
    destruct (lookup_lt_is_Some_2 (MapMatrix_Base.columns (MapMatrix_Perm.store m)) c)
      as [colc Hcolc]; [rewrite (ri_cols _ _ _ _ _ _ _ _ Hinv); lia|].
    destruct (sorted_chains_lookup _ _ _ _ (ri_sorted _ _ _ _ _ _ _ _ Hinv) Hcolc) as [Hsc Hbc].
    destruct (sorted_chains_lookup _ _ _ _ (ri_sorted _ _ _ _ _ _ _ _ Hinv) Hcolj) as [Hsj Hbj].
    assert (Hspecc : low_spec perm colc l).
    { destruct (low_Ok m c colc Hcolc) as (l0 & Hl0' & Hspec).
      { rewrite (ri_perm _ _ _ _ _ _ _ _ Hinv). destruct Hpm as (-> & _). exact Hbc. }
      rewrite Hlowc in Hl0'. injection Hl0' as <-.
      now rewrite (ri_perm _ _ _ _ _ _ _ _ Hinv) in Hspec. }
    rewrite (base_add_column_Ok _ c j colc colj) by (try lia; assumption). cbn [bind].
    destruct (lookup_lt_is_Some_2
                (MapMatrix_Base.columns (MapMatrix_RowPriority_Perm.store U)) j)
      as [uj Huj]; [rewrite (ri_u_cols _ _ _ _ _ _ _ _ Hinv); lia|].
    destruct (lookup_lt_is_Some_2
                (MapMatrix_Base.columns (MapMatrix_RowPriority_Perm.store U)) c)
      as [uc Huc]; [rewrite (ri_u_cols _ _ _ _ _ _ _ _ Hinv); lia|].
    unfold MapMatrix_RowPriority_Perm.add_row.
    rewrite (base_add_column_Ok _ j c uj uc) by (try lia; assumption). cbn [bind].
    pose proof (ri_u_sorted _ _ _ _ _ _ _ _ Hinv) as Hus.
    assert (Hsuj : sdesc uj) by (rewrite Forall_lookup in Hus; exact (Hus j uj Huj)).
    assert (Hsuc : sdesc uc) by (rewrite Forall_lookup in Hus; exact (Hus c uc Huc)).
    destruct (add_chain_spec colc colj Hsc Hsj) as [Hsj' _].
    destruct (add_chain_spec uj uc Hsuj Hsuc) as [Hsuc' _].
    set (m1 := MapMatrix_Perm.with_store
                 (MapMatrix_Base.set_columns j (MapMatrix_Base.add_chain colc colj)
                    (MapMatrix_Perm.store m)) m).
    set (U1 := {| MapMatrix_RowPriority_Perm.store :=
                    MapMatrix_Base.set_columns c (MapMatrix_Base.add_chain uj uc)
                      (MapMatrix_RowPriority_Perm.store U);
                  MapMatrix_RowPriority_Perm.perm := MapMatrix_RowPriority_Perm.perm U;
                  MapMatrix_RowPriority_Perm.mrep := MapMatrix_RowPriority_Perm.mrep U |}).
    assert (Hinv1 : ru_inv n rows orig perm mrep j m1 U1).
    { destruct Hinv as [H1 H2 H3 H4 H5 H6 H7 H8 H9 H10 H11 H12].
      split; cbn; try assumption.
      - now rewrite length_insert.
      - apply Forall_insert; [exact H3|]. split; [exact Hsj'|].
        apply Forall_forall. intros x Hx. apply list_elem_of_In in Hx.
        apply add_chain_in in Hx; [|assumption..].
        rewrite Forall_forall in Hbc, Hbj.
        destruct Hx as [Hx|Hx]; apply list_elem_of_In in Hx; auto.
      - intros l0 c0 Hl0c Hc00. destruct (H7 l0 c0 Hl0c Hc00) as [Hlt Hlow0].
        split; [exact Hlt|]. rewrite <- Hlow0. apply low_cong; cbn.
        + reflexivity.
        + now rewrite length_insert.
        + apply list_lookup_insert_ne. lia.
      - now rewrite length_insert.
      - apply Forall_insert; assumption.
      - apply (raw_product_step n orig _ _ c j colc colj uj uc); try assumption. lia. }
    assert (Hcolj1 : MapMatrix_Base.columns (MapMatrix_Perm.store m1) !! j
                     = Some (MapMatrix_Base.add_chain colc colj)).
    { cbn. apply list_lookup_insert_eq. rewrite (ri_cols _ _ _ _ _ _ _ _ Hinv). exact Hjn. }
    destruct (low_Ok m1 j _ Hcolj1) as (l1 & Hlow1 & Hspec1).
    { destruct (sorted_chains_lookup _ _ _ _ (ri_sorted _ _ _ _ _ _ _ _ Hinv1) Hcolj1) as [_ Hb].
      rewrite (ri_perm _ _ _ _ _ _ _ _ Hinv1). destruct Hpm as (-> & _). exact Hb. }
    rewrite (ri_perm _ _ _ _ _ _ _ _ Hinv1) in Hspec1.
    pose proof (low_after_add rows perm mrep colc colj l l1 Hmp Hsc Hsj ltac:(lia)
                  Hspecc Hspecj Hspec1) as Hdec.
    destruct (IH m1 U1 l1 Hinv1 Hlow1 ltac:(lia))
      as (m' & U' & l' & Hrun & Hinv' & Hlow' & Hlc' & Hl'r & Hstop).
    exists m', U', l'. split; [exact Hrun|]. split; [exact Hinv'|].
    split; [exact Hlow'|]. split; [exact Hlc'|]. split; [exact Hl'r|exact Hstop].
Qed.

Lemma ru_inv_weaken n rows orig perm mrep bound bound' m U :
  (bound <= bound')%nat ->
  ru_inv n rows orig perm mrep bound m U -> ru_inv n rows orig perm mrep bound' m U.
Proof.
  intros Hle [H1 H2 H3 H4 H5 H6 H7 H8 H9 H10 H11 H12]. split; try assumption.
  intros l c Hl Hc. destruct (H7 l c Hl Hc) as [Hlt Hlow]. split; [lia|exact Hlow].
Qed.

Lemma decompose_step_spec n rows orig perm mrep fuel j m U :
  perm_consistent rows perm mrep -> perm_consistent rows mrep perm ->
  (rows <= fuel)%nat -> (j < n)%nat ->
  ru_inv n rows orig perm mrep j m U ->
  exists m' U',
    MapMatrix_Perm.decompose_step fuel (Ok (m, U)) j = Ok (m', U')
    /\ ru_inv n rows orig perm mrep (S j) m' U'.
Proof.
  intros Hpm Hmp Hfuel Hjn Hinv.
  destruct (lookup_lt_is_Some_2 (MapMatrix_Base.columns (MapMatrix_Perm.store m)) j)
    as [colj Hcolj]; [rewrite (ri_cols _ _ _ _ _ _ _ _ Hinv); exact Hjn|].
  destruct (sorted_chains_lookup _ _ _ _ (ri_sorted _ _ _ _ _ _ _ _ Hinv) Hcolj) as [Hsj Hbj].
  destruct (low_Ok m j colj Hcolj) as (l & Hlow & Hspec).
  { rewrite (ri_perm _ _ _ _ _ _ _ _ Hinv). destruct Hpm as (-> & _). exact Hbj. }
  assert (Hl : l < Z.of_nat fuel).
  { rewrite (ri_perm _ _ _ _ _ _ _ _ Hinv) in Hspec.
    pose proof (low_spec_bound rows perm mrep colj l Hmp Hspec). lia. }
  destruct (reduce_column_spec n rows orig perm mrep j Hpm Hmp Hjn fuel m U l Hinv Hlow Hl)
    as (m1 & U1 & l1 & Hrun & Hinv1 & Hlow1 & _ & Hl1r & _).
  unfold MapMatrix_Perm.decompose_step. cbn [bind]. rewrite Hrun. cbn [bind].
  rewrite Hlow1. cbn [bind].
  destruct (decide (l1 >= 0)) as [Hl1|Hl1].
  - unfold vsetZ. rewrite decide_False by lia.
    rewrite vset_lt by (rewrite (ri_low_len _ _ _ _ _ _ _ _ Hinv1); lia). cbn [bind].
    eexists _, _. split; [reflexivity|].
    destruct Hinv1 as [H1 H2 H3 H4 H5 H6 H7 H8 H9 H10 H11 H12].
    split; cbn; try assumption.
    + now rewrite length_insert.
    + intros l0 c0 Hl0 Hc0.
      destruct (decide (l0 = Z.to_nat l1)) as [->|Hne].
      * rewrite list_lookup_insert_eq in Hl0 by lia. injection Hl0 as <-.
        destruct (int_of_unsigned_nonneg j Hc0) as [-> _].
        rewrite Nat2Z.id, Z2Nat.id by lia. split; [lia|].
        rewrite <- Hlow1. now apply low_cong.
      * rewrite list_lookup_insert_ne in Hl0 by congruence.
        destruct (H7 l0 c0 Hl0 Hc0) as [Hlt Hlow0]. split; [lia|].
        rewrite <- Hlow0. now apply low_cong.
  - exists m1, U1. split; [reflexivity|].
    eapply ru_inv_weaken; [|exact Hinv1]. lia.
Qed.

Lemma decompose_fold_spec n rows orig perm mrep fuel :
  perm_consistent rows perm mrep -> perm_consistent rows mrep perm ->
  (rows <= fuel)%nat ->
  forall k j m U,
    (j + k = n)%nat ->
    ru_inv n rows orig perm mrep j m U ->
    exists m' U',
      fold_left (MapMatrix_Perm.decompose_step fuel) (seq j k) (Ok (m, U)) = Ok (m', U')
      /\ ru_inv n rows orig perm mrep n m' U'.
Proof.
  intros Hpm Hmp Hfuel. induction k as [|k IH]; intros j m U Hjk Hinv.
  - exists m, U. split; [reflexivity|].
    eapply ru_inv_weaken; [|exact Hinv]. lia.
  - cbn [seq fold_left].
    destruct (decompose_step_spec n rows orig perm mrep fuel j m U Hpm Hmp Hfuel
                ltac:(lia) Hinv) as (m1 & U1 & Hstep & Hinv1).
    rewrite Hstep. apply IH; [lia|exact Hinv1].
Qed.

Lemma perm_entry_raw rows (m : MapMatrix_Perm.t) i j :
  MapMatrix_Base.num_rows (MapMatrix_Perm.store m) = rows ->
  perm_consistent rows (MapMatrix_Perm.perm m) (MapMatrix_Perm.mrep m) ->
  (i < rows)%nat ->
  (j < length (MapMatrix_Base.columns (MapMatrix_Perm.store m)))%nat ->
  exists a, MapMatrix_Perm.mrep m !! i = Some a
    /\ perm_entry m i j
       = chain_entry (MapMatrix_Base.columns (MapMatrix_Perm.store m)) a j.
Proof.
  intros Hrows (Hlp & Hlm & Hinv) Hi Hj.
  destruct (Hinv i Hi) as (a & Ha & Hpa). exists a. split; [exact Ha|].
  pose proof (lookup_lt_Some _ _ _ Hpa) as Hal.
  unfold perm_entry, MapMatrix_Perm.entry. rewrite (vget_Some _ _ _ Ha). cbn [bind].
  unfold MapMatrix_Base.entry.
  rewrite decide_False by lia. rewrite decide_False by lia.
  destruct (lookup_lt_is_Some_2 _ j Hj) as [col Hcol].
  rewrite (vget_Some _ _ _ Hcol). cbn [bind].
  unfold chain_entry. now rewrite Hcol.
Qed.

Lemma row_priority_entry_raw n (u : MapMatrix_RowPriority_Perm.t) k x :
  MapMatrix_Base.num_rows (MapMatrix_RowPriority_Perm.store u) = n ->
  length (MapMatrix_Base.columns (MapMatrix_RowPriority_Perm.store u)) = n ->
  MapMatrix_RowPriority_Perm.mrep u = seq 0 n ->
  (k < n)%nat -> (x < n)%nat ->
  row_priority_entry u k x
  = chain_entry (MapMatrix_Base.columns (MapMatrix_RowPriority_Perm.store u)) x k.
Proof.
  intros Hrows Hcols Hmrep Hk Hx.
  unfold row_priority_entry, MapMatrix_RowPriority_Perm.entry.
  rewrite Hmrep. rewrite (vget_Some _ _ x) by (apply lookup_seq; split; [reflexivity|exact Hx]).
  cbn [bind]. unfold MapMatrix_Base.entry.
  rewrite decide_False by lia. rewrite decide_False by lia.
  destruct (lookup_lt_is_Some_2
              (MapMatrix_Base.columns (MapMatrix_RowPriority_Perm.store u)) k)
    as [col Hcol]; [lia|].
  rewrite (vget_Some _ _ _ Hcol). cbn [bind].
  unfold chain_entry. now rewrite Hcol.
Qed.

(** The lows that [decompose_RU] records, and the shape of [U]. *)

Lemma base_add_column_inv (s s' : MapMatrix_Base.t) c j :
  MapMatrix_Base.add_column c j s = Ok s' ->
  exists col, s' = MapMatrix_Base.set_columns j col s.
Proof.
  unfold MapMatrix_Base.add_column.
  destruct (decide _); [discriminate|]. destruct (decide _); [discriminate|].
  destruct (vget (MapMatrix_Base.columns s) c) as [colc|]; cbn [bind]; [|discriminate].
  destruct (vget (MapMatrix_Base.columns s) j) as [colj|]; cbn [bind]; [|discriminate].
  intros [= <-]. eauto.
Qed.

Lemma reduce_column_frame fuel : forall j m U m' U',
  MapMatrix_Perm.reduce_column fuel j m U = Ok (m', U') ->
  MapMatrix_Perm.perm m' = MapMatrix_Perm.perm m
  /\ MapMatrix_Perm.low_col m' = MapMatrix_Perm.low_col m
  /\ length (MapMatrix_Base.columns (MapMatrix_Perm.store m'))
     = length (MapMatrix_Base.columns (MapMatrix_Perm.store m))
  /\ forall c, c <> j ->
       MapMatrix_Base.columns (MapMatrix_Perm.store m') !! c
       = MapMatrix_Base.columns (MapMatrix_Perm.store m) !! c.
Proof.
  induction fuel as [|fuel IH]; intros j m U m' U' H; cbn [MapMatrix_Perm.reduce_column] in H.
  - destruct (MapMatrix_Perm.low j m) as [l|]; cbn [bind] in H; [|discriminate].
    destruct (decide (l >= 0)); [|injection H as <- <-; repeat split].
    destruct (vgetZ (MapMatrix_Perm.low_col m) l) as [lc|]; cbn [bind] in H; [|discriminate].
    destruct (decide (lc >= 0)); [discriminate|injection H as <- <-; repeat split].
  - destruct (MapMatrix_Perm.low j m) as [l|]; cbn [bind] in H; [|discriminate].
    destruct (decide (l >= 0)); [|injection H as <- <-; repeat split].
    destruct (vgetZ (MapMatrix_Perm.low_col m) l) as [lc|]; cbn [bind] in H; [|discriminate].
    destruct (decide (lc >= 0)); [|injection H as <- <-; repeat split].
    destruct (MapMatrix_Base.add_column (Z.to_nat lc) j (MapMatrix_Perm.store m))
      as [s|] eqn:Ea; cbn [bind] in H; [|discriminate].
    destruct (MapMatrix_RowPriority_Perm.add_row j (Z.to_nat lc) U) as [U1|];
      cbn [bind] in H; [|discriminate].
    apply IH in H as (Hp & Hl & Hlen & Hcols).
    apply base_add_column_inv in Ea as [col ->]. cbn in Hp, Hl, Hlen, Hcols.
    split; [exact Hp|]. split; [exact Hl|]. split; [now rewrite Hlen, length_insert|].
    intros c Hc. rewrite (Hcols c Hc). now apply list_lookup_insert_ne.
Qed.

Lemma reduce_column_upper fuel : forall n j m U m' U',
  (forall l c, MapMatrix_Perm.low_col m !! l = Some c -> 0 <= c -> (Z.to_nat c < j)%nat) ->
  (j < n)%nat -> unit_upper_rows n U ->
  MapMatrix_Perm.reduce_column fuel j m U = Ok (m', U') ->
  unit_upper_rows n U'.
Proof.
  induction fuel as [|fuel IH]; intros n j m U m' U' Hlows Hj Hup H;
    cbn [MapMatrix_Perm.reduce_column] in H.
  - destruct (MapMatrix_Perm.low j m) as [l|]; cbn [bind] in H; [|discriminate].
    destruct (decide (l >= 0)); [|injection H as <- <-; exact Hup].
    destruct (vgetZ (MapMatrix_Perm.low_col m) l) as [lc|]; cbn [bind] in H; [|discriminate].
    destruct (decide (lc >= 0)); [discriminate|injection H as <- <-; exact Hup].
  - destruct (MapMatrix_Perm.low j m) as [l|]; cbn [bind] in H; [|discriminate].
    destruct (decide (l >= 0)) as [Hl|]; [|injection H as <- <-; exact Hup].
    destruct (vgetZ (MapMatrix_Perm.low_col m) l) as [lc|] eqn:Elc; cbn [bind] in H;
      [|discriminate].
    destruct (decide (lc >= 0)) as [Hlc|]; [|injection H as <- <-; exact Hup].
    destruct (MapMatrix_Base.add_column (Z.to_nat lc) j (MapMatrix_Perm.store m))
      as [s|] eqn:Ea; cbn [bind] in H; [|discriminate].
    destruct (MapMatrix_RowPriority_Perm.add_row j (Z.to_nat lc) U) as [U1|] eqn:Eu;
      cbn [bind] in H; [|discriminate].
    assert (Hcj : (Z.to_nat lc < j)%nat).
    { unfold vgetZ in Elc. destruct (decide (l < 0)); [discriminate|].
      apply vget_Ok_inv in Elc. apply (Hlows _ _ Elc). lia. }
    set (c := Z.to_nat lc) in *.
    apply (IH n j (MapMatrix_Perm.with_store s m) U1 m' U'); [|exact Hj| |exact H].
    { cbn. exact Hlows. }
    destruct (Hup j Hj) as (uj & Huj & Hsj & Hinj & Hbj).
    destruct (Hup c ltac:(lia)) as (uc & Huc & Hsc & Hinc & Hbc).
    unfold MapMatrix_RowPriority_Perm.add_row in Eu.
    rewrite (base_add_column_Ok _ j c uj uc ltac:(lia) Huj Huc) in Eu.
    cbn [bind] in Eu. injection Eu as <-.
    destruct (add_chain_spec uj uc Hsj Hsc) as [Hs' Hent].
    intros c' Hc'. cbn. destruct (decide (c' = c)) as [->|Hne].
    + exists (MapMatrix_Base.add_chain uj uc).
      split; [apply list_lookup_insert_eq; eapply lookup_lt_Some; exact Huc|].
      split; [exact Hs'|]. split.
      * apply (entry_chain_in c _ Hs'). rewrite Hent.
        assert (MapMatrix_Base.entry_chain c uc = true) as -> by now apply entry_chain_in.
        assert (MapMatrix_Base.entry_chain c uj = false) as ->; [|reflexivity].
        destruct (MapMatrix_Base.entry_chain c uj) eqn:E; [|reflexivity].
        apply entry_chain_in in E; [|exact Hsj]. specialize (Hbj c E). lia.
      * intros x Hx. apply (add_chain_in uj uc x Hsj Hsc) in Hx.
        destruct Hx as [Hx|Hx]; [specialize (Hbj x Hx); lia|now apply Hbc].
    + destruct (Hup c' Hc') as (row & Hrow & Hrest). exists row.
      split; [|exact Hrest]. now rewrite list_lookup_insert_ne by congruence.
Qed.

Lemma decompose_step_more n rows orig perm mrep fuel j m U :
  perm_consistent rows perm mrep -> perm_consistent rows mrep perm ->
  (rows <= fuel)%nat -> (j < n)%nat ->
  ru_inv n rows orig perm mrep j m U ->
  (Z.of_nat n <= 2 ^ 31 -> lows_recorded j m) -> unit_upper_rows n U ->
  exists m' U',
    MapMatrix_Perm.decompose_step fuel (Ok (m, U)) j = Ok (m', U')
    /\ ru_inv n rows orig perm mrep (S j) m' U'
    /\ (Z.of_nat n <= 2 ^ 31 -> lows_recorded (S j) m') /\ unit_upper_rows n U'.
Proof.
  intros Hpm Hmp Hfuel Hjn Hinv Hrec Hup.
  destruct (decompose_step_spec n rows orig perm mrep fuel j m U Hpm Hmp Hfuel Hjn Hinv)
    as (m' & U' & Hstep & Hinv').
  exists m', U'. split; [exact Hstep|]. split; [exact Hinv'|].
  (* what the step did *)
  destruct (lookup_lt_is_Some_2 (MapMatrix_Base.columns (MapMatrix_Perm.store m)) j)
    as [colj Hcolj]; [rewrite (ri_cols _ _ _ _ _ _ _ _ Hinv); exact Hjn|].
  destruct (sorted_chains_lookup _ _ _ _ (ri_sorted _ _ _ _ _ _ _ _ Hinv) Hcolj) as [Hsj Hbj].
  destruct (low_Ok m j colj Hcolj) as (l & Hlow & Hspec).
  { rewrite (ri_perm _ _ _ _ _ _ _ _ Hinv). destruct Hpm as (-> & _). exact Hbj. }
  assert (Hl : l < Z.of_nat fuel).
  { rewrite (ri_perm _ _ _ _ _ _ _ _ Hinv) in Hspec.
    pose proof (low_spec_bound rows perm mrep colj l Hmp Hspec). lia. }
  destruct (reduce_column_spec n rows orig perm mrep j Hpm Hmp Hjn fuel m U l Hinv Hlow Hl)
    as (m1 & U1 & l1 & Hrun & Hinv1 & Hlow1 & Hlc1 & Hl1r & Hfree).
  destruct (reduce_column_frame fuel j m U m1 U1 Hrun) as (Hperm1 & _ & Hlen1 & Hcols1).
  assert (Hup1 : unit_upper_rows n U1).
  { apply (reduce_column_upper fuel n j m U m1 U1); [|exact Hjn|exact Hup|exact Hrun].
    intros l0 c0 Hl0 Hc0. now destruct (ri_low _ _ _ _ _ _ _ _ Hinv _ _ Hl0 Hc0). }
  assert (Hold : Z.of_nat n <= 2 ^ 31 ->
            forall c l0, (c < j)%nat -> MapMatrix_Perm.low c m1 = Ok l0 -> 0 <= l0 ->
            MapMatrix_Perm.low_col m1 !! Z.to_nat l0 = Some (Z.of_nat c)).
  { intros Hn c l0 Hc Hl0 Hpos. rewrite Hlc1. apply (Hrec Hn c l0 Hc); [|exact Hpos].
    rewrite <- Hl0. apply low_cong; [now symmetry|now symmetry|].
    symmetry. apply Hcols1. lia. }
  unfold MapMatrix_Perm.decompose_step in Hstep. cbn [bind] in Hstep.
  rewrite Hrun in Hstep. cbn [bind] in Hstep. rewrite Hlow1 in Hstep. cbn [bind] in Hstep.
  destruct (decide (l1 >= 0)) as [Hl1|Hl1].
  - unfold vsetZ in Hstep. rewrite decide_False in Hstep by lia.
    rewrite vset_lt in Hstep by (rewrite (ri_low_len _ _ _ _ _ _ _ _ Hinv1); lia).
    cbn [bind] in Hstep. injection Hstep as <- <-. split; [|exact Hup1].
    intros Hn c l0 Hc Hl0 Hpos. cbn.
    rewrite (int_of_unsigned_small j) by lia.
    assert (Hl0' : MapMatrix_Perm.low c m1 = Ok l0).
    { rewrite <- Hl0. now apply low_cong. }
    destruct (decide (c = j)) as [->|Hne].
    + rewrite Hlow1 in Hl0'. injection Hl0' as <-.
      apply list_lookup_insert_eq. rewrite (ri_low_len _ _ _ _ _ _ _ _ Hinv1). lia.
    + pose proof (Hold Hn c l0 ltac:(lia) Hl0' Hpos) as Hr.
      rewrite list_lookup_insert_ne; [exact Hr|].
      intros Heq. destruct Hfree as [?|(c' & Hc' & Hneg)]; [lia|].
      rewrite Heq in Hc'. rewrite Hr in Hc'. injection Hc' as <-. lia.
  - injection Hstep as <- <-. split; [|exact Hup1].
    intros Hn c l0 Hc Hl0 Hpos. destruct (decide (c = j)) as [->|Hne].
    + rewrite Hlow1 in Hl0. injection Hl0 as <-. lia.
    + apply (Hold Hn c l0); [lia|exact Hl0|exact Hpos].
Qed.

Lemma decompose_fold_more n rows orig perm mrep fuel :
  perm_consistent rows perm mrep -> perm_consistent rows mrep perm ->
  (rows <= fuel)%nat ->
  forall k j m U,
    (j + k = n)%nat ->
    ru_inv n rows orig perm mrep j m U ->
    (Z.of_nat n <= 2 ^ 31 -> lows_recorded j m) -> unit_upper_rows n U ->
    exists m' U',
      fold_left (MapMatrix_Perm.decompose_step fuel) (seq j k) (Ok (m, U)) = Ok (m', U')
      /\ ru_inv n rows orig perm mrep n m' U'
      /\ (Z.of_nat n <= 2 ^ 31 -> lows_recorded n m') /\ unit_upper_rows n U'.
Proof.
  intros Hpm Hmp Hfuel. induction k as [|k IH]; intros j m U Hjk Hinv Hrec Hup.
  - exists m, U. split; [reflexivity|]. assert (j = n) as -> by lia. now split.
  - cbn [seq fold_left].
    destruct (decompose_step_more n rows orig perm mrep fuel j m U Hpm Hmp Hfuel
                ltac:(lia) Hinv Hrec Hup) as (m1 & U1 & Hstep & Hinv1 & Hrec1 & Hup1).
    rewrite Hstep. apply IH; [lia|assumption..].
Qed.

Lemma decompose_RU_more (m : MapMatrix_Perm.t) (fuel : nat) :
  wf_perm_matrix m ->
  (MapMatrix_Base.num_rows (MapMatrix_Perm.store m) <= fuel)%nat ->
  exists reduced u,
    MapMatrix_Perm.decompose_RU fuel m = Ok (reduced, u)
    /\ ru_inv (length (MapMatrix_Base.columns (MapMatrix_Perm.store m)))
              (MapMatrix_Base.num_rows (MapMatrix_Perm.store m))
              (MapMatrix_Base.columns (MapMatrix_Perm.store m))
              (MapMatrix_Perm.perm m) (MapMatrix_Perm.mrep m)
              (length (MapMatrix_Base.columns (MapMatrix_Perm.store m))) reduced u
    /\ (Z.of_nat (length (MapMatrix_Base.columns (MapMatrix_Perm.store m))) <= 2 ^ 31 ->
        lows_recorded (length (MapMatrix_Base.columns (MapMatrix_Perm.store m))) reduced)
    /\ unit_upper_rows (length (MapMatrix_Base.columns (MapMatrix_Perm.store m))) u.
Proof.
  intros (Hsorted & Hpm & Hmp & Hlc) Hfuel.
  set (rows := MapMatrix_Base.num_rows (MapMatrix_Perm.store m)) in *.
  set (n := length (MapMatrix_Base.columns (MapMatrix_Perm.store m))).
  assert (Hinv0 : ru_inv n rows (MapMatrix_Base.columns (MapMatrix_Perm.store m))
                    (MapMatrix_Perm.perm m) (MapMatrix_Perm.mrep m) 0 m
                    (MapMatrix_RowPriority_Perm.identity n)).
  { split; cbn; try reflexivity; try assumption.
    - rewrite Hlc. apply length_replicate.
    - intros l c Hl Hc. rewrite Hlc in Hl. apply lookup_replicate in Hl as [-> _]. lia.
    - now rewrite length_map, length_seq.
    - apply Forall_forall. intros col Hcol. apply list_elem_of_fmap in Hcol as (i & -> & _).
      repeat constructor.
    - now apply raw_product_identity. }
  apply (decompose_fold_more n rows _ _ _ fuel Hpm Hmp Hfuel n 0 m _ ltac:(lia) Hinv0).
  - intros _ c l Hc. lia.
  - intros c Hc. exists [c]. cbn.
    change (map (fun i => [i]) (seq 0 n)) with ((fun i => [i]) <$> seq 0 n).
    rewrite list_lookup_fmap, lookup_seq_lt by exact Hc. cbn.
    split; [reflexivity|]. split; [repeat constructor|]. split; [now left|].
    intros x [<-|[]]. lia.
Qed.

(** The low of a non-empty column of a matrix with at most [2^31] rows
    is not negative. *)
Lemma perm_low_nonneg rows (m : MapMatrix_Perm.t) j l :
  MapMatrix_Base.num_rows (MapMatrix_Perm.store m) = rows ->
  sorted_chains rows (MapMatrix_Base.columns (MapMatrix_Perm.store m)) ->
  perm_consistent rows (MapMatrix_Perm.perm m) (MapMatrix_Perm.mrep m) ->
  perm_consistent rows (MapMatrix_Perm.mrep m) (MapMatrix_Perm.perm m) ->
  Z.of_nat rows <= 2 ^ 31 ->
  MapMatrix_Perm.low j m = Ok l -> l <> -1 -> 0 <= l < Z.of_nat rows.
Proof.
  intros Hrows Hsorted Hpm Hmp Hbound Hlow Hne.
  assert (Hj : (j < length (MapMatrix_Base.columns (MapMatrix_Perm.store m)))%nat).
  { unfold MapMatrix_Perm.low in Hlow.
    destruct (decide (length (MapMatrix_Base.columns (MapMatrix_Perm.store m)) <= j)%nat);
      [discriminate|lia]. }
  destruct (lookup_lt_is_Some_2 _ j Hj) as [col Hcol].
  destruct (sorted_chains_lookup _ _ _ _ Hsorted Hcol) as [_ Hb].
  destruct (low_Ok m j col Hcol) as (l0 & Hl0 & Hspec).
  { destruct Hpm as (-> & _). exact Hb. }
  rewrite Hlow in Hl0. injection Hl0 as <-.
  pose proof (low_spec_bound rows _ _ col l Hmp Hspec) as Hlt.
  destruct Hspec as [[_ ->]|(a & -> & r & Hr & Hp & _)]; [contradiction|].
  pose proof (perm_value_bound rows _ _ r a Hmp Hp) as Ha.
  rewrite int_of_unsigned_small in * by lia. lia.
Qed.

(** C3, as the code has it.  [decompose_RU] runs to completion, changes
    the matrix in place and returns [U] with [M = M_reduced * U] (mod 2),
    [M] being the matrix before the call: every column addition on the
    matrix is mirrored by the opposite row addition on [U].  The matrix
    it leaves is reduced, no two non-empty columns having the same low,
    when the matrix has at most [2^31] rows and columns, so that the
    lows and the column indices kept in [low_col] fit an [int]. *)
Theorem decompose_RU_factorization (m : MapMatrix_Perm.t) (fuel : nat) :
  wf_perm_matrix m ->
  (MapMatrix_Base.num_rows (MapMatrix_Perm.store m) <= fuel)%nat ->
  exists reduced u,
    MapMatrix_Perm.decompose_RU fuel m = Ok (reduced, u)
    /\ (forall i j,
          (i < MapMatrix_Base.num_rows (MapMatrix_Perm.store m))%nat ->
          (j < length (MapMatrix_Base.columns (MapMatrix_Perm.store m)))%nat ->
          perm_entry m i j
          = product_entry (length (MapMatrix_Base.columns (MapMatrix_Perm.store m)))
                          reduced u i j)
    /\ (Z.of_nat (MapMatrix_Base.num_rows (MapMatrix_Perm.store m)) <= 2 ^ 31 ->
        Z.of_nat (length (MapMatrix_Base.columns (MapMatrix_Perm.store m))) <= 2 ^ 31 ->
        forall j1 j2 l,
          MapMatrix_Perm.low j1 reduced = Ok l -> MapMatrix_Perm.low j2 reduced = Ok l ->
          l <> -1 -> j1 = j2).
Proof.
  intros Hwf Hfuel.
  destruct (decompose_RU_more m fuel Hwf Hfuel) as (reduced & u & Hrun & Hinv & Hrec & _).
  destruct Hwf as (Hsorted & Hpm & Hmp & Hlc).
  set (rows := MapMatrix_Base.num_rows (MapMatrix_Perm.store m)) in *.
  set (n := length (MapMatrix_Base.columns (MapMatrix_Perm.store m))) in *.
  exists reduced, u. split; [exact Hrun|]. split.
  - intros i j Hi Hj.
    destruct (perm_entry_raw rows m i j eq_refl Hpm Hi Hj) as (a & Ha & ->).
    unfold product_entry.
    rewrite (ri_product _ _ _ _ _ _ _ _ Hinv a j Hj).
    apply xor_sum_ext. intros k Hk. f_equal.
    + destruct (perm_entry_raw rows reduced i k) as (a' & Ha' & ->).
      * exact (ri_rows _ _ _ _ _ _ _ _ Hinv).
      * rewrite (ri_perm _ _ _ _ _ _ _ _ Hinv), (ri_mrep _ _ _ _ _ _ _ _ Hinv). exact Hpm.
      * exact Hi.
      * rewrite (ri_cols _ _ _ _ _ _ _ _ Hinv). exact Hk.
      * rewrite (ri_mrep _ _ _ _ _ _ _ _ Hinv) in Ha'. rewrite Ha in Ha'.
        injection Ha' as <-. reflexivity.
    + symmetry. apply (row_priority_entry_raw n).
      * exact (ri_u_rows _ _ _ _ _ _ _ _ Hinv).
      * exact (ri_u_cols _ _ _ _ _ _ _ _ Hinv).
      * exact (ri_u_mrep _ _ _ _ _ _ _ _ Hinv).
      * exact Hk.
      * exact Hj.
  - intros Hrows Hcols j1 j2 l H1 H2 Hne.
    assert (Hpos : 0 <= l).
    { apply (perm_low_nonneg rows reduced j1 l); try assumption.
      - exact (ri_rows _ _ _ _ _ _ _ _ Hinv).
      - exact (ri_sorted _ _ _ _ _ _ _ _ Hinv).
      - rewrite (ri_perm _ _ _ _ _ _ _ _ Hinv), (ri_mrep _ _ _ _ _ _ _ _ Hinv). exact Hpm.
      - rewrite (ri_perm _ _ _ _ _ _ _ _ Hinv), (ri_mrep _ _ _ _ _ _ _ _ Hinv). exact Hmp. }
    assert (Hin : forall j, MapMatrix_Perm.low j reduced = Ok l -> (j < n)%nat).
    { intros j Hl. unfold MapMatrix_Perm.low in Hl.
      destruct (decide (length (MapMatrix_Base.columns (MapMatrix_Perm.store reduced)) <= j)%nat);
        [discriminate|].
      rewrite (ri_cols _ _ _ _ _ _ _ _ Hinv) in *. lia. }
    pose proof (Hrec Hcols j1 l (Hin j1 H1) H1 Hpos) as E1.
    pose proof (Hrec Hcols j2 l (Hin j2 H2) H2 Hpos) as E2.
    rewrite E1 in E2. injection E2. lia.
Qed.

Lemma RU_example_matrix_wf : wf_perm_matrix RU_example_matrix.
Proof.
  split; [|split; [|split]].
  - repeat constructor.
  - apply (perm_consistent_identity 2).
  - apply (perm_consistent_identity 2).
  - reflexivity.
Qed.

Lemma decompose_RU_factorization_witness :
  exists reduced u,
    MapMatrix_Perm.decompose_RU 2 RU_example_matrix = Ok (reduced, u)
    /\ (forall i j,
          (i < MapMatrix_Base.num_rows (MapMatrix_Perm.store RU_example_matrix))%nat ->
          (j < length (MapMatrix_Base.columns (MapMatrix_Perm.store RU_example_matrix)))%nat ->
          perm_entry RU_example_matrix i j
          = product_entry
              (length (MapMatrix_Base.columns (MapMatrix_Perm.store RU_example_matrix)))
              reduced u i j)
    /\ (Z.of_nat (MapMatrix_Base.num_rows (MapMatrix_Perm.store RU_example_matrix)) <= 2 ^ 31 ->
        Z.of_nat (length (MapMatrix_Base.columns (MapMatrix_Perm.store RU_example_matrix)))
        <= 2 ^ 31 ->
        forall j1 j2 l,
          MapMatrix_Perm.low j1 reduced = Ok l -> MapMatrix_Perm.low j2 reduced = Ok l ->
          l <> -1 -> j1 = j2).
Proof.
  apply (decompose_RU_factorization RU_example_matrix 2).
  - exact RU_example_matrix_wf.
  - cbn. lia.
Defined.

(** C3 as stated fails.  On the 2 x 3 matrix with columns [{1}], [{0,1}],
    [{0}] the reduced matrix has an empty third column, while the third
    column of [M * U] has row 1 set: [M_reduced <> M * U]. *)
Lemma decompose_RU_reduced_is_not_M_times_U :
  RU_example = Ok RU_example_matrix
  /\ exists reduced u,
       MapMatrix_Perm.decompose_RU 2 RU_example_matrix = Ok (reduced, u)
       /\ perm_entry reduced 1 2 = false
       /\ product_entry 3 RU_example_matrix u 1 2 = true.
Proof.
  split; [reflexivity|]. eexists _, _. split; [reflexivity|]. split; reflexivity.
Qed.

(** ** Scenario S2 *)

(** C2, as the code has it.  The kernel of the matrix of S2 has two
    columns, [(1,1,0)] (columns 0 and 1 of the input cancel) and
    [(0,0,1)] (column 2 of the input is zero), and [ker.ind[0][0] = 1]. *)
Theorem scenario_S2_kernel :
  exists reduced K,
    LazyHeap.kernel 4 scenario_S2 = Ok (reduced, K)
    /\ matrix (LazyHeap.MapMatrix.cols (LazyHeap.mat K)) = [[1; 0]; [2]]
    /\ LazyHeap.IndexMatrix.get 0 0 (LazyHeap.ind K) = Ok 1.
Proof.
  exists scenario_S2_reduced, scenario_S2_kernel_matrix.
  split; [vm_compute; reflexivity|]. split; reflexivity.
Qed.

(** C2 as stated fails: the kernel returned for S2 does not have exactly
    one column, and [ker.ind[0][0]] is not 0. *)
Lemma scenario_S2_kernel_has_two_columns :
  exists reduced K,
    LazyHeap.kernel 4 scenario_S2 = Ok (reduced, K)
    /\ LazyHeap.MapMatrix.width (LazyHeap.mat K) = 2%nat
    /\ LazyHeap.IndexMatrix.get 0 0 (LazyHeap.ind K) <> Ok 0.
Proof.
  exists scenario_S2_reduced, scenario_S2_kernel_matrix.
  split; [vm_compute; reflexivity|]. split; [reflexivity|]. discriminate.
Qed.

(** ** Operations of the lazy-heap [MapMatrix] *)

Section MapMatrixOps.
Context {ops : HeapOps} {laws : HeapLaws ops}.

Lemma entries_below_not_minus_one b col : entries_below b col -> ~ In (-1) col.
Proof.
  unfold entries_below. rewrite Forall_forall. intros H Hin.
  apply list_elem_of_In in Hin. specialize (H _ Hin). lia.
Qed.

Lemma entries_below_in b col x : entries_below b col -> In x col -> 0 <= x < b.
Proof.
  unfold entries_below. rewrite Forall_forall. intros H Hin.
  apply list_elem_of_In in Hin. now apply H.
Qed.

Lemma entries_below_intro b col :
  (forall x, In x col -> 0 <= x < b) -> entries_below b col.
Proof.
  intros H. apply Forall_forall. intros x Hx. apply H. now apply list_elem_of_In.
Qed.

Lemma entries_below_weaken b b' col : b <= b' -> entries_below b col -> entries_below b' col.
Proof.
  intros Hle H. apply entries_below_intro. intros x Hx.
  pose proof (entries_below_in b col x H Hx). lia.
Qed.

Lemma _add_to_popped_spec m source target cs ct :
  source <> target -> wf_matrix m ->
  matrix m !! source = Some cs -> matrix m !! target = Some ct ->
  is_heap ct -> ~ In (-1) cs -> ~ In (-1) ct ->
  exists m' t',
    _add_to_popped source target m = Ok m'
    /\ matrix m' = <[target:=t']> (matrix m)
    /\ is_heap t' /\ same_content t' (ct ++ drop 1 cs) /\ wf_matrix m'
    /\ (forall x, In x t' -> In x ct \/ In x (drop 1 cs)).
Proof.
  intros Hne Hwf Hs Ht Hh Hnis Hnit. unfold _add_to_popped.
  rewrite (vget_Some _ _ _ Hs), (vget_Some _ _ _ Ht). cbn [bind].
  rewrite decide_False by tauto.
  rewrite (set_column_Ok target _ m ct Ht). cbn [bind].
  destruct (push_all_spec (drop 1 cs) ct Hh) as [HP Hh'].
  destruct (wf_matrix_inserts m target ct Hwf Ht) as [n Hn].
  assert (Hni' : ~ In (-1) (push_all (drop 1 cs) ct)).
  { intros Hin. apply (Permutation_in _ HP) in Hin. apply in_app_or in Hin.
    destruct Hin as [Hin|Hin]; [tauto|]. apply Hnis.
    destruct cs as [|a cs]; [destruct Hin|]. right. exact Hin. }
  destruct (count_inserts_and_prune_spec target (Z.of_nat (length cs) - 1)
              (with_column target (push_all (drop 1 cs) ct) m)
              (push_all (drop 1 cs) ct) n)
    as (m' & t' & Hrun & Hm' & Hht' & Hsame & Hwf' & Hin' & _).
  { eapply with_column_lookup; eassumption. }
  { exact Hn. }
  { exact Hh'. }
  { exact Hni'. }
  { now apply wf_with_column. }
  exists m', t'. split; [exact Hrun|]. split.
  { rewrite Hm'. cbn. apply list_insert_insert_eq. }
  split; [exact Hht'|]. split.
  { intros x. rewrite Hsame. now apply odd_in_perm. }
  split; [exact Hwf'|].
  intros x Hx. apply Hin' in Hx. apply (Permutation_in _ HP) in Hx.
  now apply in_app_or in Hx.
Qed.

Lemma low_finalized_Ok j (m : LazyHeap.MapMatrix.t) col :
  matrix (LazyHeap.MapMatrix.cols m) !! j = Some col ->
  LazyHeap.MapMatrix.low_finalized j m = Ok (get_max_index_finalized_col col).
Proof. intros H. now apply _get_max_index_finalized_Ok. Qed.

Lemma remove_low_Ok j (m : LazyHeap.MapMatrix.t) col :
  matrix (LazyHeap.MapMatrix.cols m) !! j = Some col ->
  LazyHeap.MapMatrix.remove_low j m
  = Ok (fst (_pop_max_index col),
        LazyHeap.MapMatrix.with_cols
          (with_column j (snd (_pop_max_index col)) (LazyHeap.MapMatrix.cols m)) m).
Proof.
  intros H. unfold LazyHeap.MapMatrix.remove_low, _remove_max.
  now rewrite (_pop_max_index_at_Ok j _ col H).
Qed.

Lemma push_index_Ok j l (m : LazyHeap.MapMatrix.t) col :
  matrix (LazyHeap.MapMatrix.cols m) !! j = Some col ->
  LazyHeap.MapMatrix.push_index j l m
  = Ok (LazyHeap.MapMatrix.with_cols
          (with_column j (push_back_push_heap col l) (LazyHeap.MapMatrix.cols m)) m).
Proof.
  intros H. unfold LazyHeap.MapMatrix.push_index, _push_index.
  rewrite (vget_Some _ _ _ H). cbn [bind].
  now rewrite (set_column_Ok j _ _ col H).
Qed.

Lemma finalize_Ok j (m : LazyHeap.MapMatrix.t) col :
  wf_matrix (LazyHeap.MapMatrix.cols m) ->
  matrix (LazyHeap.MapMatrix.cols m) !! j = Some col ->
  LazyHeap.MapMatrix.finalize j m
  = Ok (LazyHeap.MapMatrix.with_cols
          (with_inserts j 0 (with_column j (prune_col col) (LazyHeap.MapMatrix.cols m))) m).
Proof.
  intros Hwf H. unfold LazyHeap.MapMatrix.finalize, _finalize.
  destruct (wf_matrix_inserts _ j col Hwf H) as [n Hn].
  now rewrite (_prune_Ok j _ col n H Hn).
Qed.

Lemma append_col_Ok j (other m : LazyHeap.MapMatrix.t) col :
  matrix (LazyHeap.MapMatrix.cols other) !! j = Some col ->
  LazyHeap.MapMatrix.append_col other j m
  = Ok (LazyHeap.MapMatrix.with_cols (with_column j [] (LazyHeap.MapMatrix.cols other)) other,
        LazyHeap.MapMatrix.with_cols (_append_col col (LazyHeap.MapMatrix.cols m)) m).
Proof.
  intros H. unfold LazyHeap.MapMatrix.append_col, _clear.
  rewrite (vget_Some _ _ _ H). cbn [bind].
  now rewrite (set_column_Ok j _ _ col H).
Qed.

End MapMatrixOps.

(** ** Products with a column *)

Lemma mat_vec_content M v v' r :
  same_content v v' -> mat_vec M v r = mat_vec M v' r.
Proof.
  intros Hc. unfold mat_vec. apply xor_sum_ext. intros i _. now rewrite Hc.
Qed.

Lemma mat_vec_app M v w r :
  mat_vec M (v ++ w) r = xorb (mat_vec M v r) (mat_vec M w r).
Proof.
  unfold mat_vec. rewrite <- xor_sum_xorb. apply xor_sum_ext. intros i _.
  rewrite odd_in_app.
  destruct (odd_in (Z.of_nat i) v), (odd_in (Z.of_nat i) w), (odd_in r (column_at M i));
    reflexivity.
Qed.

Lemma mat_vec_nil M r : mat_vec M [] r = false.
Proof. unfold mat_vec. apply xor_sum_zero. intros i _. reflexivity. Qed.

Lemma mat_vec_singleton M j r :
  (j < length M)%nat -> mat_vec M [Z.of_nat j] r = odd_in r (column_at M j).
Proof.
  intros Hj. unfold mat_vec.
  rewrite (xor_sum_ext _ _ (fun i => bool_decide (i = j) && odd_in r (column_at M i))).
  - now rewrite xor_sum_delta.
  - intros i _. rewrite odd_in_singleton. f_equal.
    apply bool_decide_ext. lia.
Qed.

(** ** The [while] loop of [kernel_one_bigrade] *)

Section KernelLoop.
Context {ops : HeapOps} {laws : HeapLaws ops}.

Lemma finalized_tail_lt l rest x : finalized (l :: rest) -> In x rest -> x < l.
Proof.
  intros [Hh Hnd] Hin.
  pose proof (is_heap_front_max l rest Hh x ltac:(now right)).
  apply NoDup_cons_iff in Hnd as [Hni _].
  assert (x <> l) by (intros ->; contradiction). lia.
Qed.

Lemma finalized_nil : finalized [].
Proof. split; [apply is_heap_nil|constructor]. Qed.

Lemma pop_spec_restore S m col' r :
  pop_spec S m col' -> ~ In (-1) S -> odd_in r S = odd_in r (col' ++ popped m).
Proof.
  intros Hs Hni. rewrite odd_in_app, (pop_spec_content S m col' r Hs).
  unfold popped. destruct (decide (m = -1)) as [->|Hne].
  - rewrite (pop_spec_minus_one S col' Hs Hni r). reflexivity.
  - destruct Hs as [_ [(_ & -> & _)|(Hm & _ & _)]]; [congruence|].
    rewrite odd_in_singleton. destruct (decide (r = m)) as [->|Hr].
    + rewrite !bool_decide_eq_true_2 by reflexivity. rewrite Hm. reflexivity.
    + rewrite (bool_decide_eq_false_2 (r = m)) by exact Hr.
      rewrite (bool_decide_eq_false_2 (m = r)) by congruence.
      now rewrite andb_true_r, xorb_false_r.
Qed.

(** What a pop leaves, for a column of row indices. *)
Lemma pop_spec_entries S m col' b :
  pop_spec S m col' -> entries_below b S ->
  entries_below m col' /\ is_heap col' /\ (m = -1 \/ (0 <= m < b)).
Proof.
  intros Hs Hb. pose proof Hs as [Hh Hcases]. split; [|split; [exact Hh|]].
  - destruct Hcases as [(_ & _ & ->)|(_ & _ & HP)]; [constructor|].
    apply entries_below_intro. intros x Hx.
    apply (Permutation_in _ HP) in Hx. apply filter_In in Hx as [Hx Hlt].
    apply Z.ltb_lt in Hlt. pose proof (entries_below_in b S x Hb Hx). lia.
  - destruct Hcases as [(_ & -> & _)|(Hm & _ & _)]; [now left|right].
    apply (entries_below_in b S); [exact Hb|now apply odd_in_in].
Qed.

Lemma low_is_taken_false lows l j :
  l = -1 -> LazyHeap.low_is_taken lows l j = Ok false.
Proof. intros ->. reflexivity. Qed.

Lemma reduce_loop_spec M0 hrows V st0 j :
  kernel_inv M0 hrows V st0 ->
  0 <= j < Z.of_nat (length M0) ->
  forall fuel m slave l,
    reduce_inv M0 hrows (Z.to_nat j)
      (matrix (LazyHeap.MapMatrix.cols (LazyHeap.ks_mat st0)))
      (matrix (LazyHeap.MapMatrix.cols (LazyHeap.ks_slave st0))) m slave l ->
    l < Z.of_nat fuel ->
    exists m' slave' l',
      LazyHeap.reduce_loop fuel j (LazyHeap.ks_lows st0) m slave l = Ok (m', slave', l')
      /\ reduce_inv M0 hrows (Z.to_nat j)
           (matrix (LazyHeap.MapMatrix.cols (LazyHeap.ks_mat st0)))
           (matrix (LazyHeap.MapMatrix.cols (LazyHeap.ks_slave st0))) m' slave' l'
      /\ LazyHeap.low_is_taken (LazyHeap.ks_lows st0) l' j = Ok false.
Proof.
  intros Hinv Hj.
  set (mat0 := matrix (LazyHeap.MapMatrix.cols (LazyHeap.ks_mat st0))).
  set (slave0 := matrix (LazyHeap.MapMatrix.cols (LazyHeap.ks_slave st0))).
  set (lows := LazyHeap.ks_lows st0).
  set (ji := Z.to_nat j).
  induction fuel as [|fuel IH]; intros m slave l Hred Hfuel.
  - pose proof Hred as (cm & cs & _ & _ & _ & _ & _ & _ & Hl & _).
    assert (l = -1) by lia. subst l.
    exists m, slave, (-1). cbn [LazyHeap.reduce_loop].
    rewrite low_is_taken_false by reflexivity. cbn [bind].
    split; [reflexivity|]. split; [exact Hred|reflexivity].
  - cbn [LazyHeap.reduce_loop].
    destruct (LazyHeap.low_is_taken lows l j) as [taken|f] eqn:Etaken.
    2:{ exfalso. unfold LazyHeap.low_is_taken in Etaken.
        destruct (decide (l = -1)); [discriminate|].
        pose proof Hred as (cm & cs & _ & _ & _ & _ & _ & _ & Hl & _).
        unfold vgetZ in Etaken. rewrite decide_False in Etaken by lia.
        destruct (lookup_lt_is_Some_2 lows (Z.to_nat l)) as [c Hc].
        { unfold lows. rewrite (ki_lows_len _ _ _ _ Hinv). lia. }
        rewrite (vget_Some _ _ _ Hc) in Etaken. discriminate. }
    cbn [bind]. destruct taken.
    2:{ exists m, slave, l. split; [reflexivity|]. split; [exact Hred|exact Etaken]. }
    unfold LazyHeap.low_is_taken in Etaken.
    destruct (decide (l = -1)) as [|Hl1]; [discriminate|].
    destruct Hred as (cm & cs & Hm & Hs & Hwfm & Hwfs & Hhm & Hbm & Hl & Hhs & Hbs
                      & Hlead & Hcontent).
    unfold vgetZ in *. rewrite decide_False in Etaken by lia. rewrite decide_False by lia.
    destruct (lookup_lt_is_Some_2 lows (Z.to_nat l)) as [c Hc].
    { unfold lows. rewrite (ki_lows_len _ _ _ _ Hinv). lia. }
    rewrite (vget_Some _ _ _ Hc) in Etaken |- *. cbn [bind] in Etaken |- *.
    injection Etaken as Etaken. apply bool_decide_eq_true_1 in Etaken as [Hc1 Hcj].
    destruct (ki_lows _ _ _ _ Hinv _ _ Hc Hc1) as [Hc0 [rest Hcol_c]].
    rewrite Z2Nat.id in Hcol_c by lia. fold mat0 in Hcol_c.
    unfold LazyHeap.to_index. rewrite !decide_False by lia. cbn [bind]. fold ji.
    set (ci := Z.to_nat c) in *.
    assert (Hcij : ci <> ji) by (unfold ci, ji; lia).
    destruct (ki_mat_cols _ _ _ _ Hinv _ _ Hcol_c) as [Hfin_c Hb_c].
    destruct (lookup_lt_is_Some_2 slave0 ci) as [csc Hcsc].
    { unfold slave0. rewrite (ki_slave_len _ _ _ _ Hinv).
      apply lookup_lt_Some in Hcol_c. unfold mat0 in Hcol_c.
      now rewrite (ki_mat_len _ _ _ _ Hinv) in Hcol_c. }
    destruct (ki_slave_cols _ _ _ _ Hinv _ _ Hcsc) as (Hh_csc & Hb_csc & _).
    pose proof (ki_product _ _ _ _ Hinv _ _ _ Hcol_c Hcsc) as Hprod_c.
    assert (Hji : (ji < length mat0)%nat).
    { unfold mat0. rewrite (ki_mat_len _ _ _ _ Hinv). unfold ji. lia. }
    (* the addition on the matrix *)
    assert (Hm_c : matrix (LazyHeap.MapMatrix.cols m) !! ci = Some (l :: rest)).
    { rewrite Hm. now rewrite list_lookup_insert_ne by congruence. }
    assert (Hm_j : matrix (LazyHeap.MapMatrix.cols m) !! ji = Some cm).
    { rewrite Hm. now apply list_lookup_insert_eq. }
    destruct (_add_to_popped_spec (LazyHeap.MapMatrix.cols m) ci ji (l :: rest) cm
                Hcij Hwfm Hm_c Hm_j Hhm)
      as (vm1 & cm1 & Hrun1 & Hvm1 & Hh1 & Hsame1 & Hwf1 & Hin1).
    { eapply entries_below_not_minus_one; eassumption. }
    { eapply entries_below_not_minus_one; eassumption. }
    change (drop 1 (l :: rest)) with rest in Hsame1, Hin1.
    unfold LazyHeap.MapMatrix.add_column_popped. rewrite Hrun1. cbn [bind].
    (* the addition on the slave *)
    assert (Hs_c : matrix (LazyHeap.MapMatrix.cols slave) !! ci = Some csc).
    { rewrite Hs. now rewrite list_lookup_insert_ne by congruence. }
    assert (Hs_j : matrix (LazyHeap.MapMatrix.cols slave) !! ji = Some cs).
    { rewrite Hs. apply list_lookup_insert_eq. unfold slave0.
      rewrite (ki_slave_len _ _ _ _ Hinv). unfold ji. lia. }
    assert (Hni_csc : ~ In (-1) csc).
    { intros Hin. rewrite Forall_forall in Hb_csc. apply list_elem_of_In in Hin.
      specialize (Hb_csc _ Hin). lia. }
    assert (Hni_cs : ~ In (-1) cs).
    { intros Hin. rewrite Forall_forall in Hbs. apply list_elem_of_In in Hin.
      specialize (Hbs _ Hin). lia. }
    destruct (_add_to_spec (LazyHeap.MapMatrix.cols slave) ci ji csc cs
                Hcij Hwfs Hs_c Hs_j Hhs Hni_csc Hni_cs)
      as (vs1 & cs1 & Hruns & Hvs1 & Hhs1 & Hsames & Hwfs1 & Hins).
    unfold LazyHeap.MapMatrix.add_column. rewrite Hruns. cbn [bind].
    (* the pop *)
    assert (Hcm1_j : matrix vm1 !! ji = Some cm1).
    { rewrite Hvm1. apply list_lookup_insert_eq. rewrite Hm, length_insert. exact Hji. }
    rewrite (remove_low_Ok ji _ cm1) by exact Hcm1_j. cbn [bind fst snd].
    pose proof (_pop_max_index_spec cm1 Hh1) as Hpop.
    set (l1 := fst (_pop_max_index cm1)) in *.
    set (cm2 := snd (_pop_max_index cm1)) in *.
    assert (Hb1 : entries_below l cm1).
    { apply entries_below_intro. intros x Hx. destruct (Hin1 x Hx) as [Hx'|Hx'].
      - now apply (entries_below_in l cm).
      - pose proof (finalized_tail_lt _ _ _ Hfin_c Hx').
        pose proof (entries_below_in _ _ x Hb_c ltac:(right; exact Hx')). lia. }
    destruct (pop_spec_entries cm1 l1 cm2 l Hpop Hb1) as (Hb2 & Hh2 & Hl1').
    apply IH; [|lia].
    exists cm2, cs1. split; [|split; [|split; [|split; [|split; [|split; [|split;
      [|split; [|split; [|split]]]]]]]]].
    + cbn. rewrite Hvm1, Hm. now rewrite !list_insert_insert_eq.
    + cbn. rewrite Hvs1, Hs. now rewrite list_insert_insert_eq.
    + cbn. now apply wf_with_column.
    + exact Hwfs1.
    + exact Hh2.
    + exact Hb2.
    + lia.
    + exact Hhs1.
    + apply Forall_forall. intros x Hx. apply list_elem_of_In in Hx.
      rewrite Forall_forall in Hbs, Hb_csc.
      destruct (Hins x Hx) as [Hx'|Hx']; apply list_elem_of_In in Hx'.
      * now apply Hbs.
      * specialize (Hb_csc _ Hx'). unfold ci, ji in *. lia.
    + rewrite Hsames, odd_in_app, Hlead.
      assert (odd_in (Z.of_nat ji) csc = false) as ->; [|reflexivity].
      destruct (odd_in (Z.of_nat ji) csc) eqn:E; [|reflexivity].
      apply odd_in_in in E. rewrite Forall_forall in Hb_csc.
      apply list_elem_of_In in E. specialize (Hb_csc _ E). unfold ci, ji in *. lia.
    + intros r. rewrite (mat_vec_content M0 cs1 (cs ++ csc) r Hsames).
      rewrite mat_vec_app, Hcontent, <- Hprod_c.
      rewrite <- (pop_spec_restore cm1 l1 cm2 r Hpop)
        by (eapply entries_below_not_minus_one; eassumption).
      rewrite Hsame1. rewrite !odd_in_app.
      unfold popped. rewrite decide_False by exact Hl1.
      change (l :: rest) with ([l] ++ rest). rewrite odd_in_app.
      destruct (odd_in r cm), (odd_in r [l]), (odd_in r rest); reflexivity.
Qed.

End KernelLoop.

(** ** One column of [kernel_one_bigrade] *)

Section KernelColumn.
Context {ops : HeapOps} {laws : HeapLaws ops}.

Lemma largest_odd_led col j :
  Forall (fun e => 0 <= e <= j) col -> odd_in j col = true -> largest_odd col = j.
Proof.
  intros Hb Hj. apply largest_odd_max; [exact Hj|].
  intros x Hx. apply odd_in_in in Hx. rewrite Forall_forall in Hb.
  apply list_elem_of_In in Hx. specialize (Hb _ Hx). lia.
Qed.

(** The invariant after column [ji] has been treated: its column in the
    matrix is [cm'], in the slave [cs'], the kernel has got the columns
    [extra] (none, or one led by [ji]), and [lows'] fits the new matrix. *)
Lemma kernel_inv_step M0 hrows V st st' j cm' cs' extra :
  kernel_inv M0 hrows V st ->
  0 <= j < Z.of_nat (length M0) ->
  matrix (LazyHeap.MapMatrix.cols (LazyHeap.ks_mat st'))
  = <[Z.to_nat j:=cm']> (matrix (LazyHeap.MapMatrix.cols (LazyHeap.ks_mat st))) ->
  wf_matrix (LazyHeap.MapMatrix.cols (LazyHeap.ks_mat st')) ->
  matrix (LazyHeap.MapMatrix.cols (LazyHeap.ks_slave st'))
  = <[Z.to_nat j:=cs']> (matrix (LazyHeap.MapMatrix.cols (LazyHeap.ks_slave st))) ->
  wf_matrix (LazyHeap.MapMatrix.cols (LazyHeap.ks_slave st')) ->
  matrix (LazyHeap.MapMatrix.cols (LazyHeap.lex_mat (LazyHeap.ks_ker st')))
  = matrix (LazyHeap.MapMatrix.cols (LazyHeap.lex_mat (LazyHeap.ks_ker st))) ++ extra ->
  wf_matrix (LazyHeap.MapMatrix.cols (LazyHeap.lex_mat (LazyHeap.ks_ker st'))) ->
  finalized cm' -> entries_below (Z.of_nat hrows) cm' ->
  is_heap cs' -> Forall (fun e => 0 <= e <= j) cs' ->
  (cs' = [] \/ odd_in j cs' = true) ->
  (forall r, odd_in r cm' = mat_vec M0 cs' r) ->
  length (LazyHeap.ks_lows st') = hrows ->
  (forall l c, LazyHeap.ks_lows st' !! l = Some c -> c <> -1 ->
     0 <= c /\ exists rest,
       <[Z.to_nat j:=cm']> (matrix (LazyHeap.MapMatrix.cols (LazyHeap.ks_mat st)))
         !! Z.to_nat c = Some (Z.of_nat l :: rest)) ->
  (matrix (LazyHeap.MapMatrix.cols (LazyHeap.ks_slave st)) !! Z.to_nat j = Some [] ->
   cs' = []) ->
  (extra = []
   \/ exists k, extra = [k] /\ largest_odd k = j
        /\ entries_below (Z.of_nat (length M0)) k
        /\ (forall r, mat_vec M0 k r = false) /\ cs' = []
        /\ matrix (LazyHeap.MapMatrix.cols (LazyHeap.ks_slave st)) !! Z.to_nat j <> Some []) ->
  kernel_inv M0 hrows (fun i => V i \/ i = j) st'.
Proof.
  intros Hinv Hj Hmat Hwfm Hslave Hwfs Hker Hwfk Hfin Hbm Hhs Hbs Hlead Hprod
         Hlen Hlows Hmoved Hextra.
  set (ji := Z.to_nat j) in *.
  assert (Hjm : (ji < length (matrix (LazyHeap.MapMatrix.cols (LazyHeap.ks_mat st))))%nat).
  { rewrite (ki_mat_len _ _ _ _ Hinv). unfold ji. lia. }
  assert (Hjs : (ji < length (matrix (LazyHeap.MapMatrix.cols (LazyHeap.ks_slave st))))%nat).
  { rewrite (ki_slave_len _ _ _ _ Hinv). unfold ji. lia. }
  assert (Hjz : Z.of_nat ji = j) by (unfold ji; lia).
  split.
  - exact Hwfm.
  - rewrite Hmat, length_insert. exact (ki_mat_len _ _ _ _ Hinv).
  - intros i col. rewrite Hmat. destruct (decide (i = ji)) as [->|Hne].
    + rewrite list_lookup_insert_eq by exact Hjm. intros [= <-]. now split.
    + rewrite list_lookup_insert_ne by congruence. apply (ki_mat_cols _ _ _ _ Hinv).
  - exact Hwfs.
  - rewrite Hslave, length_insert. exact (ki_slave_len _ _ _ _ Hinv).
  - intros i col. rewrite Hslave. destruct (decide (i = ji)) as [->|Hne].
    + rewrite list_lookup_insert_eq by exact Hjs. intros [= <-].
      rewrite Hjz. now split.
    + rewrite list_lookup_insert_ne by congruence. apply (ki_slave_cols _ _ _ _ Hinv).
  - intros i cm cs. rewrite Hmat, Hslave. destruct (decide (i = ji)) as [->|Hne].
    + rewrite !list_lookup_insert_eq by assumption. intros [= <-] [= <-]. exact Hprod.
    + rewrite !list_lookup_insert_ne by congruence. apply (ki_product _ _ _ _ Hinv).
  - exact Hlen.
  - intros l c Hl Hc. rewrite Hmat. now apply Hlows.
  - exact Hwfk.
  - intros col. rewrite Hker, Hslave. intros Hin. apply in_app_or in Hin.
    destruct Hin as [Hin|Hin].
    + destruct (ki_ker_cols _ _ _ _ Hinv col Hin) as (H0 & Hb & Hz & Hmv).
      split; [exact H0|]. split; [exact Hb|]. split; [exact Hz|].
      destruct (decide (Z.to_nat (largest_odd col) = ji)) as [Heq|Hne].
      * rewrite Heq in Hmv |- *. rewrite list_lookup_insert_eq by exact Hjs.
        now rewrite (Hmoved Hmv).
      * now rewrite list_lookup_insert_ne by congruence.
    + destruct Hextra as [->|(k & -> & Hk & Hbk & Hzk & Hcs & _)]; [destruct Hin|].
      destruct Hin as [<-|[]]. rewrite Hk. fold ji.
      split; [lia|]. split; [exact Hbk|]. split; [exact Hzk|].
      rewrite list_lookup_insert_eq by exact Hjs. now rewrite Hcs.
  - rewrite Hker, map_app. destruct Hextra as [->|(k & -> & Hk & _ & _ & _ & Hnot)].
    + cbn. rewrite app_nil_r. exact (ki_ker_leads _ _ _ _ Hinv).
    + cbn [map]. rewrite Hk. apply List.NoDup_app.
      * exact (ki_ker_leads _ _ _ _ Hinv).
      * repeat constructor. intros [].
      * intros x Hx [<-|[]]. apply Hnot.
        apply in_map_iff in Hx as (col & Hcol & Hin).
        destruct (ki_ker_cols _ _ _ _ Hinv col Hin) as (_ & _ & _ & Hmv).
        now rewrite Hcol in Hmv.
  - intros i Hi Hni. rewrite Hslave.
    assert (i <> ji) by (intros ->; apply Hni; right; exact Hjz).
    rewrite list_lookup_insert_ne by congruence.
    apply (ki_untouched _ _ _ _ Hinv i Hi). intros HV. apply Hni. now left.
Qed.

Lemma low_is_taken_total lows l j hrows :
  length lows = hrows -> -1 <= l < Z.of_nat hrows ->
  exists b, LazyHeap.low_is_taken lows l j = Ok b
    /\ (b = true -> l <> -1 /\ exists c, lows !! Z.to_nat l = Some c /\ c <> -1 /\ c < j).
Proof.
  intros Hlen Hl. unfold LazyHeap.low_is_taken.
  destruct (decide (l = -1)) as [->|Hne].
  - exists false. split; [reflexivity|discriminate].
  - unfold vgetZ. rewrite decide_False by lia.
    destruct (lookup_lt_is_Some_2 lows (Z.to_nat l)) as [c Hc]; [lia|].
    rewrite (vget_Some _ _ _ Hc). cbn [bind]. eexists. split; [reflexivity|].
    intros Hb. apply bool_decide_eq_true_1 in Hb as [Hc1 Hcj].
    split; [exact Hne|]. exists c. now split.
Qed.

Lemma reduce_loop_not_taken fuel j lows m slave l :
  LazyHeap.low_is_taken lows l j = Ok false ->
  LazyHeap.reduce_loop fuel j lows m slave l = Ok (m, slave, l).
Proof. intros H. destruct fuel; cbn [LazyHeap.reduce_loop]; now rewrite H. Qed.

Lemma front_cons col l :
  get_max_index_finalized_col col = l -> l <> -1 -> exists rest, col = l :: rest.
Proof.
  destruct col as [|x rest]; cbn; intros <- Hne; [congruence|]. now exists rest.
Qed.

Lemma front_range hrows col :
  entries_below (Z.of_nat hrows) col ->
  -1 <= get_max_index_finalized_col col < Z.of_nat hrows.
Proof.
  destruct col as [|x rest]; cbn; intros Hb; [lia|].
  pose proof (entries_below_in _ _ x Hb ltac:(now left)). lia.
Qed.

(** [lows] stays valid when column [j] changes to [cm'], as long as an
    entry that names [j] still finds its pivot in front. *)
Lemma lows_step_keep M0 hrows V st j cm' :
  kernel_inv M0 hrows V st ->
  0 <= j ->
  (forall l0 rest0,
     LazyHeap.ks_lows st !! l0 = Some j ->
     matrix (LazyHeap.MapMatrix.cols (LazyHeap.ks_mat st)) !! Z.to_nat j
     = Some (Z.of_nat l0 :: rest0) ->
     exists rest', cm' = Z.of_nat l0 :: rest') ->
  forall l c, LazyHeap.ks_lows st !! l = Some c -> c <> -1 ->
    0 <= c /\ exists rest,
      <[Z.to_nat j:=cm']> (matrix (LazyHeap.MapMatrix.cols (LazyHeap.ks_mat st)))
        !! Z.to_nat c = Some (Z.of_nat l :: rest).
Proof.
  intros Hinv Hj Hptr l c Hl Hc.
  destruct (ki_lows _ _ _ _ Hinv l c Hl Hc) as [Hc0 [rest Hrest]].
  split; [exact Hc0|].
  destruct (decide (c = j)) as [->|Hne].
  - destruct (Hptr l rest Hl Hrest) as [rest' ->]. exists rest'.
    apply list_lookup_insert_eq. eapply lookup_lt_Some; eassumption.
  - exists rest. rewrite list_lookup_insert_ne by lia. exact Hrest.
Qed.

Lemma lows_step_set M0 hrows V st j l1 rest1 cm' :
  kernel_inv M0 hrows V st ->
  0 <= j < Z.of_nat (length M0) -> 0 <= l1 < Z.of_nat hrows ->
  cm' = l1 :: rest1 ->
  (forall l0 rest0,
     LazyHeap.ks_lows st !! l0 = Some j ->
     matrix (LazyHeap.MapMatrix.cols (LazyHeap.ks_mat st)) !! Z.to_nat j
     = Some (Z.of_nat l0 :: rest0) ->
     exists rest', cm' = Z.of_nat l0 :: rest') ->
  forall l c, <[Z.to_nat l1:=j]> (LazyHeap.ks_lows st) !! l = Some c -> c <> -1 ->
    0 <= c /\ exists rest,
      <[Z.to_nat j:=cm']> (matrix (LazyHeap.MapMatrix.cols (LazyHeap.ks_mat st)))
        !! Z.to_nat c = Some (Z.of_nat l :: rest).
Proof.
  intros Hinv Hj Hl1 Hcm Hptr l c Hl Hc.
  destruct (decide (l = Z.to_nat l1)) as [->|Hne].
  - rewrite list_lookup_insert_eq in Hl
      by (rewrite (ki_lows_len _ _ _ _ Hinv); lia).
    injection Hl as <-. split; [lia|]. exists rest1.
    rewrite Z2Nat.id by lia. rewrite <- Hcm.
    apply list_lookup_insert_eq. rewrite (ki_mat_len _ _ _ _ Hinv). lia.
  - rewrite list_lookup_insert_ne in Hl by congruence.
    eapply lows_step_keep; eassumption || lia.
Qed.

Lemma kernel_column_spec M0 hrows V st j fuel fcc :
  kernel_inv M0 hrows V st ->
  0 <= j < Z.of_nat (length M0) ->
  (j >= fcc -> ~ V j) ->
  (hrows <= fuel)%nat ->
  exists st',
    LazyHeap.kernel_column fuel fcc (Ok st) j = Ok st'
    /\ kernel_inv M0 hrows (fun i => V i \/ i = j) st'
    /\ LazyHeap.lex_ind (LazyHeap.ks_ker st') = LazyHeap.lex_ind (LazyHeap.ks_ker st)
    /\ (length (matrix (LazyHeap.MapMatrix.cols (LazyHeap.lex_mat (LazyHeap.ks_ker st))))
        <= length (matrix (LazyHeap.MapMatrix.cols (LazyHeap.lex_mat (LazyHeap.ks_ker st')))))%nat.
Proof.
  intros Hinv Hj HV Hfuel.
  set (mat0 := matrix (LazyHeap.MapMatrix.cols (LazyHeap.ks_mat st))).
  set (slave0 := matrix (LazyHeap.MapMatrix.cols (LazyHeap.ks_slave st))).
  set (ji := Z.to_nat j).
  assert (Hjz : Z.of_nat ji = j) by (unfold ji; lia).
  destruct (lookup_lt_is_Some_2 mat0 ji) as [cm0 Hcm0].
  { unfold mat0. rewrite (ki_mat_len _ _ _ _ Hinv). unfold ji. lia. }
  destruct (lookup_lt_is_Some_2 slave0 ji) as [cs0 Hcs0].
  { unfold slave0. rewrite (ki_slave_len _ _ _ _ Hinv). unfold ji. lia. }
  destruct (ki_mat_cols _ _ _ _ Hinv _ _ Hcm0) as [Hfin0 Hb0].
  destruct (ki_slave_cols _ _ _ _ Hinv _ _ Hcs0) as (Hhs0 & Hbs0 & Hlead0).
  rewrite Hjz in Hbs0, Hlead0.
  pose proof (ki_product _ _ _ _ Hinv _ _ _ Hcm0 Hcs0) as Hprod0.
  pose proof (ki_mat_wf _ _ _ _ Hinv) as Hwfm. pose proof (ki_slave_wf _ _ _ _ Hinv) as Hwfs.
  pose proof (ki_ker_wf _ _ _ _ Hinv) as Hwfk.
  unfold LazyHeap.kernel_column. cbn [bind].
  unfold LazyHeap.to_index. rewrite decide_False by lia. cbn [bind]. fold ji.
  rewrite (low_finalized_Ok ji _ cm0 Hcm0). cbn [bind].
  set (l := get_max_index_finalized_col cm0).
  pose proof (front_range hrows cm0 Hb0) as Hl. fold l in Hl.
  destruct (low_is_taken_total (LazyHeap.ks_lows st) l j hrows
              (ki_lows_len _ _ _ _ Hinv) Hl) as (changing & Htaken & Hch).
  rewrite Htaken. cbn [bind].
  assert (Hid_m : mat0 = <[ji:=cm0]> mat0) by (symmetry; now apply list_insert_id).
  assert (Hid_s : slave0 = <[ji:=cs0]> slave0) by (symmetry; now apply list_insert_id).
  destruct changing.
  - (* the column is going to change *)
    destruct (Hch eq_refl) as (Hl1 & c & Hc & Hc1 & Hcj).
    destruct (front_cons cm0 l eq_refl Hl1) as [rest Hrest].
    destruct Hfin0 as [Hh0 Hnd0].
    rewrite (remove_low_Ok ji _ cm0 Hcm0). cbn [bind fst snd].
    pose proof (_pop_max_index_spec cm0 Hh0) as Hpop.
    assert (Hl_pop : fst (_pop_max_index cm0) = l).
    { rewrite (_pop_max_index_largest_odd cm0 Hh0).
      symmetry. apply finalized_front. now split. }
    rewrite Hl_pop in Hpop. set (cm1 := snd (_pop_max_index cm0)) in *.
    destruct (pop_spec_entries cm0 l cm1 _ Hpop Hb0) as (Hb1 & Hh1 & _).
    assert (Hcs0_ne : odd_in j cs0 = true).
    { destruct Hlead0 as [->|H]; [|exact H]. exfalso.
      specialize (Hprod0 l). rewrite mat_vec_nil in Hprod0.
      assert (odd_in l cm0 = true); [|congruence].
      apply NoDup_odd_in; [exact Hnd0|]. rewrite Hrest. now left. }
    assert (Hnoptr : forall l0 rest0,
      LazyHeap.ks_lows st !! l0 = Some j ->
      mat0 !! Z.to_nat j = Some (Z.of_nat l0 :: rest0) -> False).
    { intros l0 rest0 Hl0 Hm0. fold ji in Hm0. rewrite Hcm0 in Hm0.
      injection Hm0 as Hm0. rewrite Hrest in Hm0. injection Hm0 as Hm0 _.
      rewrite Hm0, Nat2Z.id in Hc. rewrite Hc in Hl0. injection Hl0 as ->. lia. }
    destruct (reduce_loop_spec M0 hrows V st j Hinv Hj fuel
                (LazyHeap.MapMatrix.with_cols
                   (with_column ji cm1 (LazyHeap.MapMatrix.cols (LazyHeap.ks_mat st)))
                   (LazyHeap.ks_mat st))
                (LazyHeap.ks_slave st) l)
      as (m1 & slave1 & l1 & Hrun & Hred1 & Hstop).
    { exists cm1, cs0. fold ji mat0 slave0.
      split; [reflexivity|]. split; [exact Hid_s|].
      split; [cbn; now apply wf_with_column|]. split; [exact Hwfs|].
      split; [exact Hh1|]. split; [exact Hb1|]. split; [exact Hl|].
      split; [exact Hhs0|]. split; [now rewrite Hjz|]. split; [now rewrite Hjz|].
      intros r. rewrite <- Hprod0. apply pop_spec_restore; [exact Hpop|].
      eapply entries_below_not_minus_one; eassumption. }
    { lia. }
    rewrite Hrun. cbn [bind].
    fold ji mat0 slave0 in Hred1.
    destruct Hred1 as (cmf & csf & Hm1 & Hs1 & Hwfm1 & Hwfs1 & Hhf & Hbf & Hl1r
                       & Hhsf & Hbsf & Hleadf & Hcontf).
    rewrite Hjz in Hbsf, Hleadf.
    assert (Hm1_j : matrix (LazyHeap.MapMatrix.cols m1) !! ji = Some cmf).
    { rewrite Hm1. apply list_lookup_insert_eq. eapply lookup_lt_Some; eassumption. }
    assert (Hs1_j : matrix (LazyHeap.MapMatrix.cols slave1) !! ji = Some csf).
    { rewrite Hs1. apply list_lookup_insert_eq. eapply lookup_lt_Some; eassumption. }
    destruct (decide (l1 <> -1)) as [Hl1ne|Hl1eq].
    + (* a pivot is left: it is pushed back and the column finalized *)
      unfold vsetZ. rewrite decide_False by lia.
      rewrite vset_lt by (rewrite (ki_lows_len _ _ _ _ Hinv); lia). cbn [bind].
      rewrite (push_index_Ok ji l1 m1 cmf Hm1_j). cbn [bind].
      rewrite (finalize_Ok ji _ (push_back_push_heap cmf l1)).
      2:{ cbn. now apply wf_with_column. }
      2:{ cbn. apply list_lookup_insert_eq. eapply lookup_lt_Some; eassumption. }
      cbn [bind]. eexists. split; [reflexivity|].
      split; [|split; [reflexivity|cbn; lia]].
      set (pushed := push_back_push_heap cmf l1).
      assert (HPp : Permutation pushed (cmf ++ [l1])) by now apply push_heap_perm.
      assert (Hhp : is_heap pushed) by now apply push_heap_heap.
      assert (Hbp : entries_below (Z.of_nat hrows) pushed).
      { apply entries_below_intro. intros x Hx. apply (Permutation_in _ HPp) in Hx.
        apply in_app_or in Hx as [Hx|[<-|[]]]; [|lia].
        pose proof (entries_below_in _ _ x Hbf Hx). lia. }
      assert (Hnip : ~ In (-1) pushed) by (eapply entries_below_not_minus_one; eassumption).
      destruct (prune_col_spec pushed Hhp Hnip) as (Hhq & Hndq & Hinq).
      pose proof (prune_col_content pushed Hhp Hnip) as Hsameq.
      assert (Hcontq : forall r, odd_in r (prune_col pushed) = mat_vec M0 csf r).
      { intros r. rewrite Hsameq, (odd_in_perm r _ _ HPp), Hcontf.
        unfold popped. now rewrite decide_False by exact Hl1ne. }
      assert (Hfrontq : exists restq, prune_col pushed = l1 :: restq).
      { apply front_cons; [|exact Hl1ne].
        rewrite (finalized_front (prune_col pushed)) by now split.
        rewrite (largest_odd_content _ _ Hsameq).
        rewrite (largest_odd_content pushed (cmf ++ [l1])) by now apply same_content_perm.
        apply largest_odd_max.
        - rewrite odd_in_app, odd_in_singleton.
          rewrite bool_decide_eq_true_2 by reflexivity.
          destruct (odd_in l1 cmf) eqn:E; [|reflexivity].
          apply odd_in_in in E. pose proof (entries_below_in _ _ _ Hbf E). lia.
        - intros x Hx. apply odd_in_in in Hx.
          apply in_app_or in Hx as [Hx|[<-|[]]]; [|lia].
          pose proof (entries_below_in _ _ _ Hbf Hx). lia. }
      destruct Hfrontq as [restq Hrestq].
      refine (kernel_inv_step M0 hrows V st _ j (prune_col pushed) csf [] Hinv Hj
                _ _ _ _ _ _ _ _ _ _ _ _ _ _ _ _).
      * cbn. fold mat0. rewrite Hm1. now rewrite !list_insert_insert_eq.
      * cbn. apply wf_with_inserts, wf_with_column. now apply wf_with_column.
      * exact Hs1.
      * exact Hwfs1.
      * cbn. now rewrite app_nil_r.
      * exact Hwfk.
      * now split.
      * apply entries_below_intro. intros x Hx. apply Hinq in Hx.
        apply odd_in_in in Hx. now apply (entries_below_in _ pushed).
      * exact Hhsf.
      * exact Hbsf.
      * now right.
      * exact Hcontq.
      * cbn. rewrite length_insert. exact (ki_lows_len _ _ _ _ Hinv).
      * cbn. apply (lows_step_set M0 hrows V st j l1 restq); try assumption; try lia.
        intros l0 rest0 Hl0 Hm0. exfalso. eapply Hnoptr; eassumption.
      * intros Hmoved. fold ji slave0 in Hmoved. rewrite Hcs0 in Hmoved.
        injection Hmoved as ->. discriminate.
      * now left.
    + (* the column is zero: its slave column joins the kernel *)
      assert (l1 = -1) by (destruct (decide (l1 = -1)); [assumption|contradiction]).
      subst l1.
      assert (cmf = []).
      { destruct cmf as [|x t]; [reflexivity|].
        pose proof (entries_below_in _ _ x Hbf ltac:(now left)). lia. }
      subst cmf.
      rewrite (finalize_Ok ji slave1 csf Hwfs1 Hs1_j). cbn [bind].
      unfold LazyHeap.append_to_kernel.
      rewrite (append_col_Ok ji _ _ (prune_col csf)).
      2:{ cbn. apply list_lookup_insert_eq. eapply lookup_lt_Some; eassumption. }
      cbn [bind]. eexists. split; [reflexivity|].
      split; [|split; [reflexivity|cbn; rewrite length_app; lia]].
      assert (Hnis : ~ In (-1) csf).
      { intros Hin. rewrite Forall_forall in Hbsf. apply list_elem_of_In in Hin.
        specialize (Hbsf _ Hin). lia. }
      destruct (prune_col_spec csf Hhsf Hnis) as (Hhk & Hndk & Hink).
      pose proof (prune_col_content csf Hhsf Hnis) as Hsamek.
      assert (Hbk : Forall (fun e => 0 <= e <= j) (prune_col csf)).
      { apply Forall_forall. intros x Hx. apply list_elem_of_In in Hx.
        apply Hink in Hx. apply odd_in_in in Hx. rewrite Forall_forall in Hbsf.
        apply Hbsf. now apply list_elem_of_In. }
      refine (kernel_inv_step M0 hrows V st _ j [] [] [prune_col csf] Hinv Hj
                _ _ _ _ _ _ _ _ _ _ _ _ _ _ _ _).
      * exact Hm1.
      * exact Hwfm1.
      * cbn. fold slave0. rewrite Hs1. now rewrite !list_insert_insert_eq.
      * cbn. apply wf_with_column, wf_with_inserts, wf_with_column. exact Hwfs1.
      * reflexivity.
      * unfold wf_matrix in *. cbn. rewrite !length_app. cbn. lia.
      * apply finalized_nil.
      * constructor.
      * apply is_heap_nil.
      * constructor.
      * now left.
      * intros r. now rewrite mat_vec_nil.
      * exact (ki_lows_len _ _ _ _ Hinv).
      * cbn. apply (lows_step_keep M0 hrows V st j); try assumption; try lia.
        intros l0 rest0 Hl0 Hm0. exfalso. eapply Hnoptr; eassumption.
      * reflexivity.
      * right. exists (prune_col csf). split; [reflexivity|].
        split; [apply largest_odd_led; [exact Hbk|now rewrite Hsamek]|].
        split; [|split; [|split; [reflexivity|]]].
        -- apply entries_below_intro. intros x Hx. rewrite Forall_forall in Hbk.
           apply list_elem_of_In in Hx. specialize (Hbk _ Hx). lia.
        -- intros r. rewrite (mat_vec_content M0 _ csf r Hsamek), Hcontf. reflexivity.
        -- fold ji slave0. rewrite Hcs0. intros [= ->]. discriminate.
  - (* nothing is added to the column *)
    cbn [bind]. rewrite (reduce_loop_not_taken fuel j _ _ _ l Htaken). cbn [bind].
    destruct (decide (l <> -1)) as [Hlne|Hleq].
    + destruct (front_cons cm0 l eq_refl Hlne) as [rest Hrest].
      unfold vsetZ. rewrite decide_False by lia.
      rewrite vset_lt by (rewrite (ki_lows_len _ _ _ _ Hinv); lia). cbn [bind].
      eexists. split; [reflexivity|].
      split; [|split; [reflexivity|cbn; lia]].
      refine (kernel_inv_step M0 hrows V st _ j cm0 cs0 [] Hinv Hj
                _ _ _ _ _ _ _ _ _ _ _ _ _ _ _ _).
      * exact Hid_m.
      * exact Hwfm.
      * exact Hid_s.
      * exact Hwfs.
      * cbn. now rewrite app_nil_r.
      * exact Hwfk.
      * exact Hfin0.
      * exact Hb0.
      * exact Hhs0.
      * exact Hbs0.
      * exact Hlead0.
      * exact Hprod0.
      * cbn. rewrite length_insert. exact (ki_lows_len _ _ _ _ Hinv).
      * cbn. apply (lows_step_set M0 hrows V st j l rest); try assumption; try lia.
        intros l0 rest0 Hl0 Hm0. fold ji mat0 in Hm0. rewrite Hcm0 in Hm0.
        injection Hm0 as ->. now exists rest0.
      * intros Hmoved. fold ji slave0 in Hmoved. rewrite Hcs0 in Hmoved.
        now injection Hmoved.
      * now left.
    + assert (Hl1 : l = -1) by (destruct (decide (l = -1)); [assumption|contradiction]).
      assert (cm0 = []).
      { destruct cm0 as [|x t]; [reflexivity|]. unfold l in Hl1. cbn in Hl1.
        pose proof (entries_below_in _ _ x Hb0 ltac:(now left)). lia. }
      subst cm0.
      assert (Hkeep : forall l0 c0, LazyHeap.ks_lows st !! l0 = Some c0 -> c0 <> -1 ->
                0 <= c0 /\ exists rest0, <[ji:=[]]> mat0 !! Z.to_nat c0
                                           = Some (Z.of_nat l0 :: rest0)).
      { apply (lows_step_keep M0 hrows V st j); try assumption; try lia.
        intros l0 rest0 Hl0 Hm0. fold ji mat0 in Hm0. rewrite Hcm0 in Hm0. discriminate. }
      destruct (decide (j >= fcc)) as [Hge|Hlt].
      * (* a column that is zero when its bigrade is reached *)
        assert (Hunt : slave0 !! ji = Some [j]).
        { pose proof (ki_untouched _ _ _ _ Hinv ji) as Hu. rewrite Hjz in Hu.
          apply Hu; [unfold ji; lia|]. now apply HV. }
        rewrite Hcs0 in Hunt. injection Hunt as ->.
        unfold LazyHeap.append_to_kernel.
        rewrite (append_col_Ok ji _ _ [j] Hcs0). cbn [bind].
        eexists. split; [reflexivity|].
        split; [|split; [reflexivity|cbn; rewrite length_app; lia]].
        refine (kernel_inv_step M0 hrows V st _ j [] [] [[j]] Hinv Hj
                  _ _ _ _ _ _ _ _ _ _ _ _ _ _ _ _).
        -- exact Hid_m.
        -- exact Hwfm.
        -- reflexivity.
        -- cbn. now apply wf_with_column.
        -- reflexivity.
        -- unfold wf_matrix in *. cbn. rewrite !length_app. cbn. lia.
        -- apply finalized_nil.
        -- constructor.
        -- apply is_heap_nil.
        -- constructor.
        -- now left.
        -- intros r. now rewrite mat_vec_nil.
        -- exact (ki_lows_len _ _ _ _ Hinv).
        -- exact Hkeep.
        -- reflexivity.
        -- right. exists [j]. split; [reflexivity|].
           split; [apply largest_odd_led;
                   [repeat constructor; lia|
                    rewrite odd_in_singleton; now apply bool_decide_eq_true_2]|].
           split; [repeat constructor; lia|]. split; [|split; [reflexivity|]].
           ++ intros r. rewrite <- Hprod0. reflexivity.
           ++ fold ji slave0. rewrite Hcs0. discriminate.
      * eexists. split; [reflexivity|].
        split; [|split; [reflexivity|cbn; lia]].
        refine (kernel_inv_step M0 hrows V st _ j [] cs0 [] Hinv Hj
                  _ _ _ _ _ _ _ _ _ _ _ _ _ _ _ _).
        -- exact Hid_m.
        -- exact Hwfm.
        -- exact Hid_s.
        -- exact Hwfs.
        -- cbn. now rewrite app_nil_r.
        -- exact Hwfk.
        -- apply finalized_nil.
        -- constructor.
        -- exact Hhs0.
        -- exact Hbs0.
        -- exact Hlead0.
        -- exact Hprod0.
        -- exact (ki_lows_len _ _ _ _ Hinv).
        -- exact Hkeep.
        -- intros Hmoved. fold ji slave0 in Hmoved. rewrite Hcs0 in Hmoved.
           now injection Hmoved.
        -- now left.
Qed.

End KernelColumn.

(** ** Index matrices *)

Lemma index_get_Ok idx y x :
  index_shape idx ->
  (y < LazyHeap.IndexMatrix.num_rows idx)%nat ->
  (x < LazyHeap.IndexMatrix.num_cols idx)%nat ->
  exists v, LazyHeap.IndexMatrix.get y x idx = Ok v.
Proof.
  intros [Hr Hc] Hy Hx. unfold LazyHeap.IndexMatrix.get.
  destruct (lookup_lt_is_Some_2 (LazyHeap.IndexMatrix.ind idx) y) as [row Hrow]; [lia|].
  rewrite (vget_Some _ _ _ Hrow). cbn [bind].
  rewrite Forall_lookup in Hc. specialize (Hc y row Hrow).
  destruct (lookup_lt_is_Some_2 row x) as [v Hv]; [lia|].
  exists v. now apply vget_Some.
Qed.

Lemma index_get_bounds idx y x v :
  index_shape idx ->
  LazyHeap.IndexMatrix.get y x idx = Ok v ->
  (y < LazyHeap.IndexMatrix.num_rows idx)%nat /\ (x < LazyHeap.IndexMatrix.num_cols idx)%nat.
Proof.
  intros [Hr Hc]. unfold LazyHeap.IndexMatrix.get, vget.
  destruct (LazyHeap.IndexMatrix.ind idx !! y) as [row|] eqn:Hrow; [|discriminate].
  cbn [bind]. destruct (row !! x) as [v'|] eqn:Hv; [|discriminate]. intros _.
  rewrite Forall_lookup in Hc. specialize (Hc y row Hrow).
  apply lookup_lt_Some in Hrow, Hv. lia.
Qed.

(** [start_index] is one past every entry that comes earlier in colex
    order, and at most one past the entry of the bigrade itself. *)
Lemma start_index_spec n idx y x :
  wf_index n idx ->
  (y < LazyHeap.IndexMatrix.num_rows idx)%nat ->
  (x < LazyHeap.IndexMatrix.num_cols idx)%nat ->
  exists s, LazyHeap.IndexMatrix.start_index y x idx = Ok s
    /\ 0 <= s
    /\ (forall y' x' v', colex_lt (y', x') (y, x) ->
          LazyHeap.IndexMatrix.get y' x' idx = Ok v' -> v' < s)
    /\ (forall v, LazyHeap.IndexMatrix.get y x idx = Ok v -> s <= v + 1)
    /\ (forall y' x' v', colex_le (y, x) (y', x') -> (y', x') <> (y, x) ->
          LazyHeap.IndexMatrix.get y' x' idx = Ok v' ->
          forall v, LazyHeap.IndexMatrix.get y x idx = Ok v -> v <= v').
Proof.
  intros Hwf Hy Hx. pose proof (wi_shape _ _ Hwf) as Hshape.
  assert (Hlast : forall y' x' v', colex_le (y, x) (y', x') -> (y', x') <> (y, x) ->
            LazyHeap.IndexMatrix.get y' x' idx = Ok v' ->
            forall v, LazyHeap.IndexMatrix.get y x idx = Ok v -> v <= v').
  { intros y' x' v' Hle _ Hv' v Hv. eapply (wi_mono _ _ Hwf); eassumption. }
  unfold LazyHeap.IndexMatrix.start_index.
  destruct (decide (0 < x)%nat) as [Hx0|Hx0].
  - destruct (index_get_Ok idx y (x - 1) Hshape Hy ltac:(lia)) as [p Hp].
    rewrite Hp. cbn [bind]. exists (p + 1). split; [reflexivity|].
    pose proof (wi_range _ _ Hwf _ _ _ Hp). split; [lia|]. split; [|split; [|exact Hlast]].
    + intros y' x' v' Hlt Hv'.
      assert (v' <= p); [|lia]. apply (wi_mono _ _ Hwf y' x' y (x - 1)); try assumption.
      unfold colex_lt, colex_le in *. cbn in *. lia.
    + intros v Hv. assert (p <= v); [|lia].
      apply (wi_mono _ _ Hwf y (x - 1) y x); try assumption.
      unfold colex_le. cbn. lia.
  - destruct (decide (0 < y)%nat) as [Hy0|Hy0].
    + destruct (index_get_Ok idx (y - 1) (LazyHeap.IndexMatrix.num_cols idx - 1) Hshape
                  ltac:(lia) ltac:(lia)) as [p Hp].
      rewrite Hp. cbn [bind]. exists (p + 1). split; [reflexivity|].
      pose proof (wi_range _ _ Hwf _ _ _ Hp). split; [lia|]. split; [|split; [|exact Hlast]].
      * intros y' x' v' Hlt Hv'.
        destruct (index_get_bounds idx y' x' v' Hshape Hv') as [_ Hx'].
        assert (v' <= p); [|lia].
        apply (wi_mono _ _ Hwf y' x' (y - 1) (LazyHeap.IndexMatrix.num_cols idx - 1));
          try assumption.
        unfold colex_lt, colex_le in *. cbn in *. lia.
      * intros v Hv. assert (p <= v); [|lia].
        apply (wi_mono _ _ Hwf (y - 1) (LazyHeap.IndexMatrix.num_cols idx - 1) y x);
          try assumption.
        unfold colex_le. cbn. lia.
    + exists 0. split; [reflexivity|]. split; [lia|]. split; [|split; [|exact Hlast]].
      * intros y' x' v' Hlt _. unfold colex_lt in Hlt. cbn in Hlt. lia.
      * intros v Hv. pose proof (wi_range _ _ Hwf _ _ _ Hv). lia.
Qed.

(** The columns of a bigrade have not been visited while only bigrades
    that are earlier in lex order were treated. *)
Lemma not_visited n idx P y x s v j :
  wf_index n idx ->
  (y < LazyHeap.IndexMatrix.num_rows idx)%nat ->
  (x < LazyHeap.IndexMatrix.num_cols idx)%nat ->
  (forall p, In p P -> lex_lt p (y, x)) ->
  LazyHeap.IndexMatrix.start_index y x idx = Ok s ->
  LazyHeap.IndexMatrix.get y x idx = Ok v ->
  s <= j <= v ->
  ~ visited idx P j.
Proof.
  intros Hwf Hy Hx HP Hs Hv Hj (y' & x' & f' & v' & Hin & Hf' & Hv' & Hj').
  pose proof (wi_shape _ _ Hwf) as Hshape.
  specialize (HP _ Hin). unfold lex_lt in HP. cbn in HP.
  destruct (index_get_bounds idx y' x' v' Hshape Hv') as [Hy' Hx'].
  destruct (start_index_spec n idx y x Hwf Hy Hx) as (s0 & Hs0 & _ & Hbefore & _ & _).
  rewrite Hs in Hs0. injection Hs0 as <-.
  destruct (decide (y' <= y)%nat) as [Hle|Hgt].
  - (* an earlier bigrade in colex order *)
    assert (v' < s); [|lia]. apply (Hbefore y' x'); [|exact Hv'].
    unfold colex_lt. cbn. lia.
  - (* a later row: its first column is past the bigrade *)
    destruct (start_index_spec n idx y' 0 Hwf Hy' ltac:(lia)) as (s1 & Hs1 & _ & Hb1 & _ & _).
    rewrite Hf' in Hs1. injection Hs1 as <-.
    assert (v < f'); [|lia]. apply (Hb1 y x); [|exact Hv].
    unfold colex_lt. cbn. lia.
Qed.

Lemma start_index_row n idx y x s0 s :
  wf_index n idx ->
  (y < LazyHeap.IndexMatrix.num_rows idx)%nat ->
  (x < LazyHeap.IndexMatrix.num_cols idx)%nat ->
  LazyHeap.IndexMatrix.start_index y 0 idx = Ok s0 ->
  LazyHeap.IndexMatrix.start_index y x idx = Ok s ->
  s0 <= s.
Proof.
  intros Hwf Hy Hx Hs0 Hs. pose proof (wi_shape _ _ Hwf) as Hshape.
  destruct (decide (x = 0%nat)) as [->|Hne]; [rewrite Hs0 in Hs; injection Hs; lia|].
  destruct (start_index_spec n idx y 0 Hwf Hy ltac:(lia)) as (s0' & Hs0' & _ & _ & Hup & _).
  rewrite Hs0 in Hs0'. injection Hs0' as <-.
  destruct (start_index_spec n idx y x Hwf Hy Hx) as (s' & Hs' & _ & Hbefore & _ & _).
  rewrite Hs in Hs'. injection Hs' as <-.
  destruct (index_get_Ok idx y 0 Hshape Hy ltac:(lia)) as [v0 Hv0].
  specialize (Hup v0 Hv0).
  assert (v0 < s); [|lia]. apply (Hbefore y 0%nat); [|exact Hv0].
  unfold colex_lt. cbn. lia.
Qed.

Lemma index_set_Ok idx y x v :
  index_shape idx ->
  (y < LazyHeap.IndexMatrix.num_rows idx)%nat ->
  (x < LazyHeap.IndexMatrix.num_cols idx)%nat ->
  exists idx', LazyHeap.IndexMatrix.set y x v idx = Ok idx'
    /\ index_shape idx'
    /\ LazyHeap.IndexMatrix.num_rows idx' = LazyHeap.IndexMatrix.num_rows idx
    /\ LazyHeap.IndexMatrix.num_cols idx' = LazyHeap.IndexMatrix.num_cols idx
    /\ LazyHeap.IndexMatrix.get y x idx' = Ok v
    /\ (forall y' x', (y', x') <> (y, x) ->
          LazyHeap.IndexMatrix.get y' x' idx' = LazyHeap.IndexMatrix.get y' x' idx).
Proof.
  intros [Hr Hc] Hy Hx. unfold LazyHeap.IndexMatrix.set.
  destruct (lookup_lt_is_Some_2 (LazyHeap.IndexMatrix.ind idx) y) as [row Hrow]; [lia|].
  rewrite (vget_Some _ _ _ Hrow). cbn [bind].
  pose proof Hc as Hc'. rewrite Forall_lookup in Hc'. specialize (Hc' y row Hrow).
  rewrite vset_lt by lia. cbn [bind]. rewrite vset_lt by lia. cbn [bind].
  eexists. split; [reflexivity|]. split; [|split; [reflexivity|split; [reflexivity|split]]].
  - split; cbn.
    + now rewrite length_insert.
    + apply Forall_insert; [exact Hc|]. now rewrite length_insert.
  - unfold LazyHeap.IndexMatrix.get. cbn.
    rewrite (vget_Some _ _ (<[x:=v]> row)) by (apply list_lookup_insert_eq; lia).
    cbn [bind]. apply vget_Some. apply list_lookup_insert_eq. lia.
  - intros y' x' Hne. unfold LazyHeap.IndexMatrix.get, vget. cbn.
    destruct (decide (y' = y)) as [->|Hy'].
    + rewrite list_lookup_insert_eq by lia. rewrite Hrow. cbn [bind].
      rewrite list_lookup_insert_ne by congruence. reflexivity.
    + now rewrite list_lookup_insert_ne by congruence.
Qed.

(** ** One bigrade *)

Section KernelBigrade.
Context {ops : HeapOps} {laws : HeapLaws ops}.

Lemma kernel_inv_mono M0 hrows (V V' : Z -> Prop) st :
  (forall i, V i -> V' i) -> kernel_inv M0 hrows V st -> kernel_inv M0 hrows V' st.
Proof.
  intros HV [H1 H2 H3 H4 H5 H6 H7 H8 H9 H10 H11 H12 H13]. split; try assumption.
  intros j Hj Hn. apply H13; [exact Hj|]. intros Hv. apply Hn. now apply HV.
Qed.

Lemma kernel_columns_fold M0 hrows fuel fcc :
  (hrows <= fuel)%nat ->
  forall js V st,
    kernel_inv M0 hrows V st ->
    (forall j, In j js -> 0 <= j < Z.of_nat (length M0)) ->
    List.NoDup js ->
    (forall j, In j js -> j >= fcc -> ~ V j) ->
    exists st',
      fold_left (LazyHeap.kernel_column fuel fcc) js (Ok st) = Ok st'
      /\ kernel_inv M0 hrows (fun i => V i \/ In i js) st'
      /\ LazyHeap.lex_ind (LazyHeap.ks_ker st') = LazyHeap.lex_ind (LazyHeap.ks_ker st)
      /\ (length (matrix (LazyHeap.MapMatrix.cols (LazyHeap.lex_mat (LazyHeap.ks_ker st))))
          <= length (matrix (LazyHeap.MapMatrix.cols (LazyHeap.lex_mat (LazyHeap.ks_ker st')))))%nat.
Proof.
  intros Hfuel. induction js as [|j js IH]; intros V st Hinv Hrange Hnd HV.
  - exists st. split; [reflexivity|]. split; [|split; [reflexivity|lia]].
    eapply kernel_inv_mono; [|exact Hinv]. intros i Hi. now left.
  - cbn [fold_left]. apply NoDup_cons_iff in Hnd as [Hnj Hnd].
    destruct (kernel_column_spec M0 hrows V st j fuel fcc Hinv)
      as (st1 & Hrun & Hinv1 & Hind1 & Hlen1).
    { apply Hrange. now left. }
    { apply HV. now left. }
    { exact Hfuel. }
    rewrite Hrun.
    destruct (IH (fun i => V i \/ i = j) st1 Hinv1) as (st' & Hrun' & Hinv' & Hind' & Hlen').
    { intros j' Hj'. apply Hrange. now right. }
    { exact Hnd. }
    { intros j' Hj' Hge [Hv|Heq]; [|subst j'; contradiction].
      eapply HV; [right; exact Hj'|exact Hge|exact Hv]. }
    exists st'. split; [exact Hrun'|]. split; [|split; [congruence|lia]].
    eapply kernel_inv_mono; [|exact Hinv']. cbn.
    intros i [[Hv|Heq]|Hin]; [now left|right; now left|right; now right].
Qed.

Lemma kernel_one_bigrade_spec M0 hrows fuel idx P y x st :
  kernel_inv M0 hrows (visited idx P) st ->
  wf_index (length M0) idx ->
  (y < LazyHeap.IndexMatrix.num_rows idx)%nat ->
  (x < LazyHeap.IndexMatrix.num_cols idx)%nat ->
  (forall p, In p P -> lex_lt p (y, x)) ->
  (hrows <= fuel)%nat ->
  index_shape (LazyHeap.lex_ind (LazyHeap.ks_ker st)) ->
  LazyHeap.IndexMatrix.num_rows (LazyHeap.lex_ind (LazyHeap.ks_ker st))
  = LazyHeap.IndexMatrix.num_rows idx ->
  LazyHeap.IndexMatrix.num_cols (LazyHeap.lex_ind (LazyHeap.ks_ker st))
  = LazyHeap.IndexMatrix.num_cols idx ->
  exists st',
    LazyHeap.kernel_one_bigrade fuel idx (Ok st) (y, x) = Ok st'
    /\ kernel_inv M0 hrows (visited idx (P ++ [(y, x)])) st'
    /\ index_shape (LazyHeap.lex_ind (LazyHeap.ks_ker st'))
    /\ LazyHeap.IndexMatrix.num_rows (LazyHeap.lex_ind (LazyHeap.ks_ker st'))
       = LazyHeap.IndexMatrix.num_rows idx
    /\ LazyHeap.IndexMatrix.num_cols (LazyHeap.lex_ind (LazyHeap.ks_ker st'))
       = LazyHeap.IndexMatrix.num_cols idx
    /\ LazyHeap.IndexMatrix.get y x (LazyHeap.lex_ind (LazyHeap.ks_ker st'))
       = Ok (Z.of_nat (length (matrix (LazyHeap.MapMatrix.cols
                                         (LazyHeap.lex_mat (LazyHeap.ks_ker st'))))) - 1)
    /\ (forall y' x', (y', x') <> (y, x) ->
          LazyHeap.IndexMatrix.get y' x' (LazyHeap.lex_ind (LazyHeap.ks_ker st'))
          = LazyHeap.IndexMatrix.get y' x' (LazyHeap.lex_ind (LazyHeap.ks_ker st)))
    /\ (length (matrix (LazyHeap.MapMatrix.cols (LazyHeap.lex_mat (LazyHeap.ks_ker st))))
        <= length (matrix (LazyHeap.MapMatrix.cols (LazyHeap.lex_mat (LazyHeap.ks_ker st')))))%nat.
Proof.
  intros Hinv Hwf Hy Hx HP Hfuel Hshape Hkr Hkc.
  pose proof (wi_shape _ _ Hwf) as Hishape.
  destruct (start_index_spec _ idx y 0 Hwf Hy ltac:(lia)) as (s0 & Hs0 & Hs0pos & _ & _ & _).
  destruct (start_index_spec _ idx y x Hwf Hy Hx) as (s & Hs & Hspos & _ & _ & _).
  destruct (index_get_Ok idx y x Hishape Hy Hx) as [v Hv].
  pose proof (wi_range _ _ Hwf _ _ _ Hv) as Hvr.
  pose proof (start_index_row _ idx y x s0 s Hwf Hy Hx Hs0 Hs) as Hs0s.
  unfold LazyHeap.kernel_one_bigrade. cbn [bind].
  rewrite Hs0. cbn [bind]. rewrite Hs. cbn [bind]. rewrite Hv. cbn [bind].
  destruct (kernel_columns_fold M0 hrows fuel s Hfuel (seqZ s0 (v - s0 + 1))
              (visited idx P) st Hinv)
    as (st1 & Hrun & Hinv1 & Hind1 & Hlen1).
  { intros j Hj. apply list_elem_of_In, elem_of_seqZ in Hj. lia. }
  { apply NoDup_ListNoDup, NoDup_seqZ. }
  { intros j Hj Hge. apply list_elem_of_In, elem_of_seqZ in Hj.
    apply (not_visited _ idx P y x s v j Hwf Hy Hx HP Hs Hv). lia. }
  rewrite Hrun. cbn [bind].
  destruct (index_set_Ok (LazyHeap.lex_ind (LazyHeap.ks_ker st1)) y x
              (Z.of_nat (LazyHeap.MapMatrix.width (LazyHeap.lex_mat (LazyHeap.ks_ker st1))) - 1))
    as (kind' & Hset & Hshape' & Hr' & Hc' & Hget' & Hother').
  { now rewrite Hind1. }
  { rewrite Hind1. lia. }
  { rewrite Hind1. lia. }
  rewrite Hset. cbn [bind]. eexists. split; [reflexivity|]. cbn.
  split.
  { destruct Hinv1 as [H1 H2 H3 H4 H5 H6 H7 H8 H9 H10 H11 H12 H13].
    split; cbn; try assumption.
    intros j Hj Hn. apply H13; [exact Hj|].
    intros [Hvis|Hin]; apply Hn.
    - destruct Hvis as (y' & x' & f' & v' & Hin' & Hrest).
      exists y', x', f', v'. split; [apply in_or_app; now left|exact Hrest].
    - apply list_elem_of_In, elem_of_seqZ in Hin.
      exists y, x, s0, v. split; [apply in_or_app; right; now left|].
      split; [exact Hs0|]. split; [exact Hv|lia]. }
  split; [exact Hshape'|]. split; [rewrite Hr', Hind1; exact Hkr|].
  split; [rewrite Hc', Hind1; exact Hkc|].
  split; [exact Hget'|]. split; [|exact Hlen1].
  intros y' x' Hne. rewrite (Hother' y' x' Hne). now rewrite Hind1.
Qed.

End KernelBigrade.

(** ** The lex and colex traversals *)

Lemma lex_order_S h w :
  LazyHeap.lex_order h (S w)
  = LazyHeap.lex_order h w ++ map (fun y => (y, w)) (seq 0 h).
Proof.
  unfold LazyHeap.lex_order. rewrite seq_S, flat_map_app. cbn.
  now rewrite app_nil_r.
Qed.

Lemma lex_order_length h w : length (LazyHeap.lex_order h w) = (w * h)%nat.
Proof.
  induction w as [|w IH]; [reflexivity|].
  rewrite lex_order_S, length_app, IH, length_map, length_seq. lia.
Qed.

Lemma lex_order_lookup h w y x :
  (y < h)%nat -> (x < w)%nat -> LazyHeap.lex_order h w !! (x * h + y)%nat = Some (y, x).
Proof.
  intros Hy. induction w as [|w IH]; intros Hx; [lia|].
  rewrite lex_order_S. destruct (decide (x = w)) as [->|Hne].
  - rewrite lookup_app_r by (rewrite lex_order_length; lia).
    rewrite lex_order_length. replace (w * h + y - w * h)%nat with y by lia.
    rewrite list_lookup_fmap, lookup_seq_lt by exact Hy. reflexivity.
  - rewrite lookup_app_l by (rewrite lex_order_length; nia).
    apply IH. lia.
Qed.

Lemma lex_order_lookup_inv h w i y x :
  LazyHeap.lex_order h w !! i = Some (y, x) ->
  i = (x * h + y)%nat /\ (y < h)%nat /\ (x < w)%nat.
Proof.
  induction w as [|w IH]; [discriminate|].
  rewrite lex_order_S. intros Hi.
  apply lookup_app_Some in Hi as [Hi|[Hge Hi]].
  - destruct (IH Hi) as (? & ? & ?). repeat split; lia.
  - rewrite lex_order_length in Hge, Hi.
    rewrite list_lookup_fmap in Hi.
    destruct (seq 0 h !! (i - w * h)%nat) as [y'|] eqn:E; [|discriminate].
    cbn in Hi. injection Hi as <- <-.
    apply lookup_seq in E as [-> Hlt]. repeat split; lia.
Qed.

Lemma lex_order_earlier h w i k p q :
  (i < k)%nat ->
  LazyHeap.lex_order h w !! i = Some p -> LazyHeap.lex_order h w !! k = Some q ->
  lex_lt p q.
Proof.
  destruct p as [y x], q as [y' x']. intros Hik Hp Hq.
  apply lex_order_lookup_inv in Hp as (-> & Hy & Hx).
  apply lex_order_lookup_inv in Hq as (-> & Hy' & Hx').
  unfold lex_lt. cbn. destruct (decide (x < x')%nat); [now left|right]. nia.
Qed.

Lemma in_lex_order h w y x :
  In (y, x) (LazyHeap.lex_order h w) <-> (y < h)%nat /\ (x < w)%nat.
Proof.
  unfold LazyHeap.lex_order. rewrite in_flat_map. split.
  - intros (x' & Hx' & Hin). apply in_map_iff in Hin as (y' & [= <- <-] & Hy').
    apply in_seq in Hx', Hy'. lia.
  - intros [Hy Hx]. exists x. split; [apply in_seq; lia|].
    apply in_map_iff. exists y. split; [reflexivity|apply in_seq; lia].
Qed.

Lemma in_colex_order h w y x :
  In (y, x) (LazyHeap.colex_order h w) <-> (y < h)%nat /\ (x < w)%nat.
Proof.
  unfold LazyHeap.colex_order. rewrite in_flat_map. split.
  - intros (y' & Hy' & Hin). apply in_map_iff in Hin as (x' & [= <- <-] & Hx').
    apply in_seq in Hx', Hy'. lia.
  - intros [Hy Hx]. exists y. split; [apply in_seq; lia|].
    apply in_map_iff. exists x. split; [reflexivity|apply in_seq; lia].
Qed.

Lemma NoDup_lex_order h w : List.NoDup (LazyHeap.lex_order h w).
Proof.
  induction w as [|w IH]; [constructor|].
  rewrite lex_order_S. apply List.NoDup_app.
  - exact IH.
  - apply Finite.Injective_map_NoDup; [|apply seq_NoDup].
    intros a b [= ->]. reflexivity.
  - intros [y x] Hin Hin'. apply in_lex_order in Hin as [_ Hx].
    apply in_map_iff in Hin' as (y' & [= _ ->] & _). lia.
Qed.

Lemma NoDup_colex_order h w : List.NoDup (LazyHeap.colex_order h w).
Proof.
  unfold LazyHeap.colex_order. induction h as [|h IH]; [constructor|].
  rewrite seq_S, flat_map_app. cbn. rewrite app_nil_r. apply List.NoDup_app.
  - exact IH.
  - apply Finite.Injective_map_NoDup; [|apply seq_NoDup].
    intros a b [= ->]. reflexivity.
  - intros [y x] Hin Hin'. apply in_flat_map in Hin as (y' & Hy' & Hin).
    apply in_map_iff in Hin as (x' & [= <- <-] & _). apply in_seq in Hy'.
    apply in_map_iff in Hin' as (x'' & [= -> _] & _). lia.
Qed.

Lemma colex_lex_permutation h w :
  Permutation (LazyHeap.colex_order h w) (LazyHeap.lex_order h w).
Proof.
  apply Permutation.NoDup_Permutation.
  - apply NoDup_colex_order.
  - apply NoDup_lex_order.
  - intros [y x]. now rewrite in_colex_order, in_lex_order.
Qed.

(** ** All bigrades, in lex order *)

Section KernelRun.
Context {ops : HeapOps} {laws : HeapLaws ops}.

Lemma lex_values_snoc h w kind kind' ts t t' y x :
  lex_values h w kind ts t ->
  LazyHeap.lex_order h w !! length ts = Some (y, x) ->
  LazyHeap.IndexMatrix.get y x kind' = Ok (t' - 1) ->
  (forall y' x', (y', x') <> (y, x) ->
     LazyHeap.IndexMatrix.get y' x' kind' = LazyHeap.IndexMatrix.get y' x' kind) ->
  0 <= t <= t' ->
  lex_values h w kind' (ts ++ [t' - 1]) t'.
Proof.
  intros [Hget Hmono Hrange Hnext] Hk Hnew Hother Ht.
  assert (Hlook : forall i v, (ts ++ [t' - 1]) !! i = Some v ->
            ((i < length ts)%nat /\ ts !! i = Some v) \/ (i = length ts /\ v = t' - 1)).
  { intros i v Hi. destruct (decide (i < length ts)%nat) as [Hlt|Hge].
    - left. split; [exact Hlt|]. now rewrite lookup_app_l in Hi by exact Hlt.
    - right. pose proof (lookup_lt_Some _ _ _ Hi) as Hb.
      rewrite length_app in Hb. cbn in Hb. assert (i = length ts) as -> by lia.
      split; [reflexivity|]. rewrite lookup_app_r in Hi by lia.
      rewrite Nat.sub_diag in Hi. cbn in Hi. congruence. }
  split.
  - intros i y0 x0 v Hpos Hi. destruct (Hlook i v Hi) as [[Hlt Hts]|[-> ->]].
    + rewrite Hother; [now apply (Hget i)|].
      intros [= -> ->].
      apply lex_order_lookup_inv in Hpos as (-> & _ & _).
      apply lex_order_lookup_inv in Hk as (Hk & _ & _). lia.
    + rewrite Hk in Hpos. injection Hpos as <- <-. exact Hnew.
  - intros i j vi vj Hij Hi Hj.
    destruct (Hlook i vi Hi) as [[Hlti Htsi]|[-> ->]];
      destruct (Hlook j vj Hj) as [[Hltj Htsj]|[-> ->]].
    + now apply (Hmono i j).
    + pose proof (Hrange i vi Htsi). lia.
    + lia.
    + lia.
  - intros i v Hi. destruct (Hlook i v Hi) as [[Hlt Hts]|[-> ->]].
    + pose proof (Hrange i v Hts). lia.
    + lia.
  - unfold next_index. rewrite last_snoc. lia.
Qed.

Lemma kernel_bigrades_fold M0 hrows fuel idx st0 :
  wf_index (length M0) idx ->
  (hrows <= fuel)%nat ->
  kernel_inv M0 hrows (visited idx []) st0 ->
  index_shape (LazyHeap.lex_ind (LazyHeap.ks_ker st0)) ->
  LazyHeap.IndexMatrix.num_rows (LazyHeap.lex_ind (LazyHeap.ks_ker st0))
  = LazyHeap.IndexMatrix.num_rows idx ->
  LazyHeap.IndexMatrix.num_cols (LazyHeap.lex_ind (LazyHeap.ks_ker st0))
  = LazyHeap.IndexMatrix.num_cols idx ->
  matrix (LazyHeap.MapMatrix.cols (LazyHeap.lex_mat (LazyHeap.ks_ker st0))) = [] ->
  forall k,
    (k <= length (LazyHeap.lex_order (LazyHeap.IndexMatrix.num_rows idx)
                                     (LazyHeap.IndexMatrix.num_cols idx)))%nat ->
    exists st ts,
      fold_left (LazyHeap.kernel_one_bigrade fuel idx)
                (take k (LazyHeap.lex_order (LazyHeap.IndexMatrix.num_rows idx)
                                            (LazyHeap.IndexMatrix.num_cols idx)))
                (Ok st0) = Ok st
      /\ kernel_inv M0 hrows
           (visited idx (take k (LazyHeap.lex_order (LazyHeap.IndexMatrix.num_rows idx)
                                                    (LazyHeap.IndexMatrix.num_cols idx)))) st
      /\ index_shape (LazyHeap.lex_ind (LazyHeap.ks_ker st))
      /\ LazyHeap.IndexMatrix.num_rows (LazyHeap.lex_ind (LazyHeap.ks_ker st))
         = LazyHeap.IndexMatrix.num_rows idx
      /\ LazyHeap.IndexMatrix.num_cols (LazyHeap.lex_ind (LazyHeap.ks_ker st))
         = LazyHeap.IndexMatrix.num_cols idx
      /\ length ts = k
      /\ lex_values (LazyHeap.IndexMatrix.num_rows idx) (LazyHeap.IndexMatrix.num_cols idx)
           (LazyHeap.lex_ind (LazyHeap.ks_ker st)) ts
           (Z.of_nat (length (matrix (LazyHeap.MapMatrix.cols
                                        (LazyHeap.lex_mat (LazyHeap.ks_ker st)))))).
Proof.
  intros Hwf Hfuel Hinv0 Hshape0 Hr0 Hc0 Hempty.
  set (L := LazyHeap.lex_order (LazyHeap.IndexMatrix.num_rows idx)
                               (LazyHeap.IndexMatrix.num_cols idx)).
  induction k as [|k IH]; intros Hk.
  - exists st0, []. cbn. split; [reflexivity|]. split; [exact Hinv0|].
    split; [exact Hshape0|]. split; [exact Hr0|]. split; [exact Hc0|].
    split; [reflexivity|]. rewrite Hempty. split.
    + intros i y x v _ Hi. discriminate.
    + intros i j vi vj _ Hi. discriminate.
    + intros i v Hi. discriminate.
    + reflexivity.
  - destruct (IH ltac:(lia)) as (st & ts & Hrun & Hinv & Hshape & Hr & Hc & Hlen & Hlv).
    destruct (lookup_lt_is_Some_2 L k ltac:(lia)) as [[y x] Hpos].
    rewrite (take_S_r _ _ _ Hpos), fold_left_app, Hrun. cbn [fold_left].
    pose proof (lex_order_lookup_inv _ _ _ _ _ Hpos) as (Hkeq & Hy & Hx).
    destruct (kernel_one_bigrade_spec M0 hrows fuel idx (take k L) y x st
                Hinv Hwf Hy Hx) as (st' & Hrun' & Hinv' & Hshape' & Hr' & Hc' & Hget' & Hother' & Hlen').
    { intros p Hp. apply list_elem_of_In, elem_of_take in Hp as (i & Hi & Hlt).
      exact (lex_order_earlier _ _ _ _ _ _ Hlt Hi Hpos). }
    { exact Hfuel. }
    { exact Hshape. }
    { exact Hr. }
    { exact Hc. }
    rewrite Hrun'.
    exists st', (ts ++ [Z.of_nat (length (matrix (LazyHeap.MapMatrix.cols
                         (LazyHeap.lex_mat (LazyHeap.ks_ker st'))))) - 1]).
    split; [reflexivity|]. split; [exact Hinv'|]. split; [exact Hshape'|].
    split; [exact Hr'|]. split; [exact Hc'|].
    split; [rewrite length_app; cbn; lia|].
    eapply lex_values_snoc; [exact Hlv| | | |].
    + rewrite Hlen. exact Hpos.
    + exact Hget'.
    + exact Hother'.
    + lia.
Qed.

End KernelRun.

(** ** The bigrades of the lex layout partition the kernel columns *)

Lemma next_index_snoc ts v : next_index (ts ++ [v]) = v + 1.
Proof. unfold next_index. now rewrite last_snoc. Qed.

Lemma next_index_take h w kind ts t k v :
  lex_values h w kind ts t -> ts !! k = Some v ->
  0 <= next_index (take k ts) <= v + 1.
Proof.
  intros Hlv Hv. destruct k as [|k].
  - change (next_index (take 0 ts)) with 0.
    pose proof (lv_range _ _ _ _ _ Hlv _ _ Hv). lia.
  - destruct (lookup_lt_is_Some_2 ts k) as [v' Hv'].
    { apply lookup_lt_Some in Hv. lia. }
    rewrite (take_S_r _ _ _ Hv'), next_index_snoc.
    pose proof (lv_range _ _ _ _ _ Hlv _ _ Hv').
    pose proof (lv_mono _ _ _ _ _ Hlv k (S k) v' v ltac:(lia) Hv' Hv). lia.
Qed.

Lemma start_index_lex_next h w kind ts t k y x :
  lex_values h w kind ts t ->
  LazyHeap.IndexMatrix.num_rows kind = h ->
  (k < length ts)%nat ->
  LazyHeap.lex_order h w !! k = Some (y, x) ->
  LazyHeap.IndexMatrix.start_index_lex y x kind = Ok (next_index (take k ts)).
Proof.
  intros Hlv Hh Hk Hpos.
  pose proof (lex_order_lookup_inv _ _ _ _ _ Hpos) as (Hkeq & Hy & Hx).
  unfold LazyHeap.IndexMatrix.start_index_lex.
  destruct (decide (0 < y)%nat) as [Hy0|Hy0].
  - destruct (lookup_lt_is_Some_2 ts (k - 1)) as [v Hv]; [lia|].
    assert (Hprev : LazyHeap.lex_order h w !! (k - 1)%nat = Some ((y - 1)%nat, x)).
    { replace (k - 1)%nat with (x * h + (y - 1))%nat by lia.
      apply lex_order_lookup; lia. }
    rewrite (lv_get _ _ _ _ _ Hlv _ _ _ _ Hprev Hv). cbn [bind].
    replace k with (S (k - 1)) at 1 by lia.
    now rewrite (take_S_r _ _ _ Hv), next_index_snoc.
  - destruct (decide (0 < x)%nat) as [Hx0|Hx0].
    + destruct (lookup_lt_is_Some_2 ts (k - 1)) as [v Hv]; [lia|].
      assert (Hprev : LazyHeap.lex_order h w !! (k - 1)%nat
                      = Some ((h - 1)%nat, (x - 1)%nat)).
      { replace (k - 1)%nat with ((x - 1) * h + (h - 1))%nat by nia.
        apply lex_order_lookup; lia. }
      rewrite Hh. rewrite (lv_get _ _ _ _ _ Hlv _ _ _ _ Hprev Hv). cbn [bind].
      assert (0 < k)%nat by nia.
      replace k with (S (k - 1)) at 1 by lia.
      now rewrite (take_S_r _ _ _ Hv), next_index_snoc.
    + assert (k = 0%nat) as -> by nia. reflexivity.
Qed.

Lemma bigrade_columns_prefix h w kind ts t :
  lex_values h w kind ts t ->
  LazyHeap.IndexMatrix.num_rows kind = h ->
  length ts = length (LazyHeap.lex_order h w) ->
  forall k, (k <= length ts)%nat ->
    flat_map (bigrade_columns kind) (take k (LazyHeap.lex_order h w))
    = seqZ 0 (next_index (take k ts)).
Proof.
  intros Hlv Hh Hlen. induction k as [|k IH]; intros Hk; [reflexivity|].
  destruct (lookup_lt_is_Some_2 ts k) as [v Hv]; [lia|].
  destruct (lookup_lt_is_Some_2 (LazyHeap.lex_order h w) k) as [[y x] Hpos]; [lia|].
  rewrite (take_S_r _ _ _ Hpos), (take_S_r _ _ _ Hv), flat_map_app, IH by lia.
  cbn [flat_map]. rewrite app_nil_r, next_index_snoc.
  unfold bigrade_columns. cbn [fst snd].
  rewrite (start_index_lex_next h w kind ts t k y x Hlv Hh ltac:(lia) Hpos).
  rewrite (lv_get _ _ _ _ _ Hlv _ _ _ _ Hpos Hv).
  pose proof (next_index_take _ _ _ _ _ _ _ Hlv Hv) as Hn.
  replace (v + 1) with (next_index (take k ts) + (v - next_index (take k ts) + 1)) by lia.
  rewrite (seqZ_app 0 (next_index (take k ts))) by lia. reflexivity.
Qed.

(** Every kernel column lies in the interval of exactly one bigrade. *)
Lemma bigrade_columns_all h w kind ts t :
  lex_values h w kind ts t ->
  LazyHeap.IndexMatrix.num_rows kind = h ->
  length ts = length (LazyHeap.lex_order h w) ->
  flat_map (bigrade_columns kind) (LazyHeap.lex_order h w) = seqZ 0 t.
Proof.
  intros Hlv Hh Hlen.
  pose proof (bigrade_columns_prefix h w kind ts t Hlv Hh Hlen (length ts) ltac:(lia)) as H.
  rewrite (take_ge ts) in H by lia.
  rewrite take_ge in H by lia.
  now rewrite (lv_next _ _ _ _ _ Hlv) in H.
Qed.

Lemma start_index_lex_Ok kind y x :
  index_shape kind ->
  (y < LazyHeap.IndexMatrix.num_rows kind)%nat ->
  (x < LazyHeap.IndexMatrix.num_cols kind)%nat ->
  exists s, LazyHeap.IndexMatrix.start_index_lex y x kind = Ok s.
Proof.
  intros Hshape Hy Hx. unfold LazyHeap.IndexMatrix.start_index_lex.
  destruct (decide (0 < y)%nat).
  - destruct (index_get_Ok kind (y - 1) x Hshape ltac:(lia) Hx) as [v ->].
    cbn [bind]. eauto.
  - destruct (decide (0 < x)%nat); [|eauto].
    destruct (index_get_Ok kind (LazyHeap.IndexMatrix.num_rows kind - 1) (x - 1) Hshape
                ltac:(lia) ltac:(lia)) as [v ->].
    cbn [bind]. eauto.
Qed.

Lemma NoDup_range_length (l : list Z) n :
  List.NoDup l -> (forall j, In j l -> 0 <= j < Z.of_nat n) -> (length l <= n)%nat.
Proof.
  intros Hnd Hr.
  assert (H : (length l <= length (seqZ 0 (Z.of_nat n)))%nat).
  { apply NoDup_incl_length; [exact Hnd|].
    intros j Hj. apply list_elem_of_In, elem_of_seqZ. specialize (Hr j Hj). lia. }
  rewrite length_seqZ in H. lia.
Qed.

(** ** From the lex layout to the colex layout *)

Lemma to_index_Ok j : 0 <= j -> LazyHeap.to_index j = Ok (Z.to_nat j).
Proof. intros Hj. unfold LazyHeap.to_index. now rewrite decide_False by lia. Qed.

Lemma move_col_Ok src j ci dst col :
  matrix (LazyHeap.MapMatrix.cols src) !! j = Some col ->
  (ci < length (matrix (LazyHeap.MapMatrix.cols dst)))%nat ->
  wf_matrix (LazyHeap.MapMatrix.cols dst) ->
  exists src' dst',
    LazyHeap.MapMatrix.move_col src j ci dst = Ok (src', dst')
    /\ matrix (LazyHeap.MapMatrix.cols src') = <[j:=[]]> (matrix (LazyHeap.MapMatrix.cols src))
    /\ matrix (LazyHeap.MapMatrix.cols dst') = <[ci:=col]> (matrix (LazyHeap.MapMatrix.cols dst))
    /\ wf_matrix (LazyHeap.MapMatrix.cols dst').
Proof.
  intros Hcol Hci Hwf. unfold LazyHeap.MapMatrix.move_col, _move_col_from.
  rewrite (vget_Some _ _ _ Hcol). cbn [bind]. unfold set_column.
  rewrite vset_lt by exact Hci. cbn [bind].
  rewrite (vset_Some _ _ _ _ Hcol). cbn [bind].
  unfold set_inserts. cbn [inserts_since_last_prune matrix].
  rewrite vset_lt by (rewrite Hwf; exact Hci). cbn [bind].
  eexists _, _. split; [reflexivity|]. cbn. split; [reflexivity|]. split; [reflexivity|].
  unfold wf_matrix. cbn. rewrite !length_insert. exact Hwf.
Qed.

Lemma moved_columns_fill kc done j :
  (length done < length kc)%nat ->
  <[length done:=column_at kc (Z.to_nat j)]>
    (moved_columns kc done ++ replicate (length kc - length done) [])
  = moved_columns kc (done ++ [j]) ++ replicate (length kc - length (done ++ [j])) [].
Proof.
  intros Hlt. unfold moved_columns.
  rewrite insert_app_r_alt by (rewrite length_map; lia).
  rewrite length_map, Nat.sub_diag, map_app, length_app. cbn [map length].
  replace (length kc - length done)%nat with (S (length kc - (length done + 1))) by lia.
  cbn. now rewrite <- app_assoc.
Qed.

Lemma move_columns_fold kc :
  forall js done src dst current_index,
    from_lex_inv kc done src dst current_index ->
    List.NoDup (done ++ js) ->
    (forall j, In j (done ++ js) -> 0 <= j < Z.of_nat (length kc)) ->
    exists src' dst' current_index',
      fold_left
        (fun (acc : result (LazyHeap.MapMatrix.t * LazyHeap.MapMatrix.t * Z)) (j : Z) =>
           do '(src, dst, current_index) <- acc ;
           do ji <- LazyHeap.to_index j ;
           do ci <- LazyHeap.to_index current_index ;
           do '(src', dst') <- LazyHeap.MapMatrix.move_col src ji ci dst ;
           Ok (src', dst', current_index + 1))
        js (Ok (src, dst, current_index))
      = Ok (src', dst', current_index')
      /\ from_lex_inv kc (done ++ js) src' dst' current_index'.
Proof.
  induction js as [|j js IH]; intros done src dst cur Hinv Hnd Hrange.
  - exists src, dst, cur. split; [reflexivity|]. now rewrite app_nil_r.
  - pose proof (NoDup_range_length _ _ Hnd Hrange) as Hlen.
    rewrite length_app in Hlen. cbn [length] in Hlen.
    assert (Hj : 0 <= j < Z.of_nat (length kc)).
    { apply Hrange. apply in_or_app. right. now left. }
    assert (Hnj : ~ In j done).
    { intros Hin. apply List.NoDup_remove_2 in Hnd. apply Hnd.
      apply in_or_app. now left. }
    destruct Hinv as [Hsl Hsrc Hdst Hwf Hcur].
    destruct (lookup_lt_is_Some_2 kc (Z.to_nat j)) as [col Hcol]; [lia|].
    assert (Hcol' : matrix (LazyHeap.MapMatrix.cols src) !! Z.to_nat j = Some col).
    { rewrite Hsrc by (lia || assumption). exact Hcol. }
    destruct (move_col_Ok src (Z.to_nat j) (length done) dst col Hcol')
      as (src1 & dst1 & Hmove & Hsrc1 & Hdst1 & Hwf1).
    { rewrite Hdst, length_app, length_replicate. unfold moved_columns.
      rewrite length_map. lia. }
    { exact Hwf. }
    cbn [fold_left bind].
    rewrite (to_index_Ok j) by lia. cbn [bind].
    rewrite Hcur, (to_index_Ok (Z.of_nat (length done))) by lia. cbn [bind].
    rewrite Nat2Z.id, Hmove. cbn [bind].
    destruct (IH (done ++ [j]) src1 dst1 (Z.of_nat (length done) + 1))
      as (src' & dst' & cur' & Hrun & Hinv').
    { split.
      - rewrite Hsrc1, length_insert. exact Hsl.
      - intros j' Hj' Hnin. rewrite Hsrc1.
        rewrite list_lookup_insert_ne.
        + apply Hsrc; [exact Hj'|]. intros Hin. apply Hnin. apply in_or_app. now left.
        + intros Heq. apply Hnin. apply in_or_app. right. left. lia.
      - rewrite Hdst1, Hdst.
        replace col with (column_at kc (Z.to_nat j)) by (unfold column_at; now rewrite Hcol).
        apply moved_columns_fill. lia.
      - exact Hwf1.
      - rewrite length_app. cbn [length]. lia. }
    { now rewrite <- app_assoc. }
    { intros j' Hj'. apply Hrange. now rewrite <- app_assoc in Hj'. }
    exists src', dst', cur'. split; [exact Hrun|].
    now rewrite <- app_assoc in Hinv'.
Qed.

Lemma from_lex_fold kc kind :
  index_shape kind ->
  forall Q done src dst dst_ind current_index,
    (forall y x, In (y, x) Q ->
       (y < LazyHeap.IndexMatrix.num_rows kind)%nat
       /\ (x < LazyHeap.IndexMatrix.num_cols kind)%nat) ->
    from_lex_inv kc done src dst current_index ->
    index_shape dst_ind ->
    LazyHeap.IndexMatrix.num_rows dst_ind = LazyHeap.IndexMatrix.num_rows kind ->
    LazyHeap.IndexMatrix.num_cols dst_ind = LazyHeap.IndexMatrix.num_cols kind ->
    List.NoDup (done ++ flat_map (bigrade_columns kind) Q) ->
    (forall j, In j (done ++ flat_map (bigrade_columns kind) Q) ->
       0 <= j < Z.of_nat (length kc)) ->
    exists src' dst' dst_ind' current_index',
      fold_left (LazyHeap.from_lex_step kind) Q (Ok (src, dst, dst_ind, current_index))
      = Ok (src', dst', dst_ind', current_index')
      /\ from_lex_inv kc (done ++ flat_map (bigrade_columns kind) Q)
           src' dst' current_index'.
Proof.
  intros Hshape. induction Q as [|[y x] Q IH];
    intros done src dst dind cur HQ Hinv Hdshape Hdr Hdc Hnd Hrange.
  - exists src, dst, dind, cur. split; [reflexivity|]. cbn. now rewrite app_nil_r.
  - destruct (HQ y x ltac:(now left)) as [Hy Hx].
    destruct (start_index_lex_Ok kind y x Hshape Hy Hx) as [lo Hlo].
    destruct (index_get_Ok kind y x Hshape Hy Hx) as [hi Hhi].
    assert (Hbc : bigrade_columns kind (y, x) = seqZ lo (hi - lo + 1)).
    { unfold bigrade_columns. cbn [fst snd]. now rewrite Hlo, Hhi. }
    cbn [flat_map] in Hnd, Hrange |- *. rewrite Hbc in Hnd, Hrange |- *.
    rewrite app_assoc in Hnd, Hrange |- *.
    destruct (move_columns_fold kc (seqZ lo (hi - lo + 1)) done src dst cur Hinv)
      as (src1 & dst1 & cur1 & Hrun1 & Hinv1).
    { eapply NoDup_app_remove_r. exact Hnd. }
    { intros j Hj. apply Hrange. apply in_or_app. now left. }
    destruct (index_set_Ok dind y x (cur1 - 1) Hdshape ltac:(lia) ltac:(lia))
      as (dind1 & Hset & Hdshape1 & Hdr1 & Hdc1 & _ & _).
    assert (Hstep : LazyHeap.from_lex_step kind (Ok (src, dst, dind, cur)) (y, x)
                    = Ok (src1, dst1, dind1, cur1)).
    { unfold LazyHeap.from_lex_step. cbn [bind]. rewrite Hlo. cbn [bind].
      rewrite Hhi. cbn [bind]. unfold LazyHeap.move_columns. rewrite Hrun1.
      cbn [bind]. rewrite Hset. reflexivity. }
    cbn [fold_left]. rewrite Hstep.
    apply (IH _ src1 dst1 dind1 cur1).
    + intros y' x' Hin. apply HQ. now right.
    + exact Hinv1.
    + exact Hdshape1.
    + lia.
    + lia.
    + exact Hnd.
    + exact Hrange.
Qed.

Lemma moved_columns_all (kc : list (list Z)) :
  moved_columns kc (seqZ 0 (Z.of_nat (length kc))) = kc.
Proof.
  unfold moved_columns. apply list_eq. intros i.
  change (map (fun j => column_at kc (Z.to_nat j)) (seqZ 0 (Z.of_nat (length kc))))
    with ((fun j => column_at kc (Z.to_nat j)) <$> seqZ 0 (Z.of_nat (length kc))).
  rewrite list_lookup_fmap.
  destruct (decide (i < length kc)%nat) as [Hlt|Hge].
  - rewrite lookup_seqZ_lt by lia. cbn [fmap option_fmap option_map].
    rewrite Z.add_0_l, Nat2Z.id. unfold column_at.
    destruct (lookup_lt_is_Some_2 kc i Hlt) as [c Hc]. now rewrite Hc.
  - rewrite lookup_seqZ_ge by lia. cbn. symmetry. apply lookup_ge_None. lia.
Qed.

Lemma index_shape_make h w : index_shape (LazyHeap.IndexMatrix.make h w).
Proof.
  split; cbn.
  - apply length_replicate.
  - apply Forall_replicate. apply length_replicate.
Qed.

(** The constructor from a lex layout succeeds on the kernel in lex
    layout and permutes its columns. *)
Lemma from_lex_spec ker ts :
  index_shape (LazyHeap.lex_ind ker) ->
  lex_values (LazyHeap.IndexMatrix.num_rows (LazyHeap.lex_ind ker))
             (LazyHeap.IndexMatrix.num_cols (LazyHeap.lex_ind ker))
             (LazyHeap.lex_ind ker) ts
             (Z.of_nat (length (matrix (LazyHeap.MapMatrix.cols (LazyHeap.lex_mat ker))))) ->
  length ts = length (LazyHeap.lex_order
                        (LazyHeap.IndexMatrix.num_rows (LazyHeap.lex_ind ker))
                        (LazyHeap.IndexMatrix.num_cols (LazyHeap.lex_ind ker))) ->
  exists K, LazyHeap.from_lex ker = Ok K
    /\ Permutation (matrix (LazyHeap.MapMatrix.cols (LazyHeap.mat K)))
                   (matrix (LazyHeap.MapMatrix.cols (LazyHeap.lex_mat ker))).
Proof.
  intros Hshape Hlv Hlen.
  set (kind := LazyHeap.lex_ind ker) in *.
  set (kc := matrix (LazyHeap.MapMatrix.cols (LazyHeap.lex_mat ker))) in *.
  set (h := LazyHeap.IndexMatrix.num_rows kind) in *.
  set (w := LazyHeap.IndexMatrix.num_cols kind) in *.
  pose proof (bigrade_columns_all h w kind ts _ Hlv eq_refl Hlen) as Hall.
  assert (Hperm : Permutation (flat_map (bigrade_columns kind) (LazyHeap.colex_order h w))
                              (seqZ 0 (Z.of_nat (length kc)))).
  { rewrite <- Hall. apply Permutation_flat_map, colex_lex_permutation. }
  destruct (from_lex_fold kc kind Hshape (LazyHeap.colex_order h w) []
              (LazyHeap.lex_mat ker)
              (LazyHeap.MapMatrix.make (LazyHeap.MapMatrix.height (LazyHeap.lex_mat ker))
                                       (LazyHeap.MapMatrix.width (LazyHeap.lex_mat ker)))
              (LazyHeap.IndexMatrix.make h w) 0)
    as (src' & dst' & dind' & cur' & Hrun & Hinv).
  { intros y x Hin. now apply in_colex_order in Hin. }
  { split.
    - reflexivity.
    - reflexivity.
    - cbn. rewrite take_nil. cbn. unfold LazyHeap.MapMatrix.width. fold kc.
      now rewrite !Nat.sub_0_r.
    - unfold wf_matrix. cbn. rewrite take_nil. cbn.
      now rewrite !length_replicate, Nat.sub_0_r.
    - reflexivity. }
  { apply index_shape_make. }
  { reflexivity. }
  { reflexivity. }
  { cbn [app]. eapply Permutation_NoDup; [symmetry; exact Hperm|].
    apply NoDup_ListNoDup, NoDup_seqZ. }
  { cbn [app]. intros j Hj. eapply Permutation_in in Hj; [|exact Hperm].
    apply list_elem_of_In, elem_of_seqZ in Hj. lia. }
  unfold LazyHeap.from_lex, LazyHeap.IndexMatrix.height, LazyHeap.IndexMatrix.width.
  fold kind. fold h. fold w. rewrite Hrun. cbn [bind].
  eexists. split; [reflexivity|]. cbn [LazyHeap.mat].
  rewrite (fl_dst _ _ _ _ _ Hinv). cbn [app].
  pose proof (Permutation_length Hperm) as Hl. rewrite length_seqZ, Nat2Z.id in Hl.
  rewrite Hl, Nat.sub_diag. cbn [replicate]. rewrite app_nil_r.
  rewrite <- (moved_columns_all kc) at 2.
  unfold moved_columns. apply Permutation_map. exact Hperm.
Qed.

(** ** Columns with distinct leading indices are independent *)

Lemma argmax_selected n (coeff : nat -> bool) (f : nat -> Z) :
  (forall k, (k < n)%nat -> coeff k = false)
  \/ exists k0, (k0 < n)%nat /\ coeff k0 = true
       /\ forall k, (k < n)%nat -> coeff k = true -> f k <= f k0.
Proof.
  induction n as [|n IH]; [left; intros k Hk; lia|].
  destruct (coeff n) eqn:En; destruct IH as [Hnone|(k0 & Hk0 & Hc0 & Hmax)].
  - right. exists n. split; [lia|]. split; [exact En|].
    intros k Hk Hc. destruct (decide (k = n)) as [->|Hne]; [lia|].
    rewrite Hnone in Hc by lia. discriminate.
  - right. destruct (decide (f k0 <= f n)) as [Hle|Hgt].
    + exists n. split; [lia|]. split; [exact En|].
      intros k Hk Hc. destruct (decide (k = n)) as [->|Hne]; [lia|].
      specialize (Hmax k ltac:(lia) Hc). lia.
    + exists k0. split; [lia|]. split; [exact Hc0|].
      intros k Hk Hc. destruct (decide (k = n)) as [->|Hne]; [lia|].
      apply Hmax; [lia|exact Hc].
  - left. intros k Hk. destruct (decide (k = n)) as [->|Hne]; [exact En|].
    apply Hnone. lia.
  - right. exists k0. split; [lia|]. split; [exact Hc0|].
    intros k Hk Hc. destruct (decide (k = n)) as [->|Hne]; [congruence|].
    apply Hmax; [lia|exact Hc].
Qed.

Lemma leads_independent (K : list (list Z)) :
  (forall col, In col K -> 0 <= largest_odd col) ->
  List.NoDup (map largest_odd K) ->
  linearly_independent K.
Proof.
  intros Hpos Hnd coeff (k1 & Hk1 & Hc1).
  destruct (argmax_selected (length K) coeff (fun k => largest_odd (column_at K k)))
    as [Hnone|(k0 & Hk0 & Hc0 & Hmax)].
  { rewrite Hnone in Hc1 by exact Hk1. discriminate. }
  assert (Hat : forall k, (k < length K)%nat ->
            K !! k = Some (column_at K k) /\ In (column_at K k) K).
  { intros k Hk. destruct (lookup_lt_is_Some_2 K k Hk) as [c Hc].
    unfold column_at. rewrite Hc. cbn. split; [reflexivity|].
    apply list_elem_of_In. eapply list_elem_of_lookup_2. exact Hc. }
  assert (Hlead : forall k, (k < length K)%nat ->
            odd_in (largest_odd (column_at K k)) (column_at K k) = true
            /\ forall y, odd_in y (column_at K k) = true -> y <= largest_odd (column_at K k)).
  { intros k Hk. destruct (Hat k Hk) as [_ Hin]. specialize (Hpos _ Hin).
    destruct (largest_odd_cases (column_at K k)) as [[Hm _]|H]; [lia|exact H]. }
  exists (largest_odd (column_at K k0)).
  rewrite (xor_sum_ext _ _
             (fun k => bool_decide (k = k0)
                       && (coeff k && odd_in (largest_odd (column_at K k0)) (column_at K k)))).
  - rewrite xor_sum_delta by exact Hk0. rewrite Hc0.
    now rewrite (proj1 (Hlead k0 Hk0)).
  - intros k Hk. destruct (decide (k = k0)) as [->|Hne].
    + now rewrite bool_decide_eq_true_2 by reflexivity.
    + rewrite bool_decide_eq_false_2 by exact Hne. cbn [andb].
      destruct (coeff k) eqn:Ec; [cbn [andb]|reflexivity].
      destruct (odd_in (largest_odd (column_at K k0)) (column_at K k)) eqn:Eo; [|reflexivity].
      exfalso. apply (proj2 (Hlead k Hk)) in Eo.
      specialize (Hmax k Hk Ec). cbn beta in Hmax.
      assert (Heq : largest_odd (column_at K k) = largest_odd (column_at K k0)) by lia.
      apply Hne. apply NoDup_ListNoDup in Hnd.
      eapply (NoDup_lookup _ k k0 _ Hnd).
      * change (map largest_odd K) with (largest_odd <$> K).
        rewrite list_lookup_fmap, (proj1 (Hat k Hk)). reflexivity.
      * change (map largest_odd K) with (largest_odd <$> K).
        rewrite list_lookup_fmap, (proj1 (Hat k0 Hk0)). cbn. now rewrite Heq.
Qed.

(** ** The kernel *)

Lemma identity_lookup n j col :
  map (fun i => [Z.of_nat i]) (seq 0 n) !! j = Some col ->
  col = [Z.of_nat j] /\ (j < n)%nat.
Proof.
  change (map (fun i => [Z.of_nat i]) (seq 0 n))
    with ((fun i => [Z.of_nat i]) <$> seq 0 n).
  rewrite list_lookup_fmap. intros H.
  destruct (seq 0 n !! j) as [i|] eqn:E; [|discriminate].
  apply lookup_seq in E as [-> Hlt]. cbn in H. injection H as <-. split; [reflexivity|exact Hlt].
Qed.

(** The state in which [kernel] enters its loops satisfies the
    invariants. *)
Lemma kernel_inv_init (M : LazyHeap.BigradedMatrix) :
  wf_bigraded M ->
  kernel_inv (matrix (LazyHeap.MapMatrix.cols (LazyHeap.mat M)))
    (LazyHeap.MapMatrix.height (LazyHeap.mat M))
    (visited (LazyHeap.ind M) [])
    {| LazyHeap.ks_mat := LazyHeap.mat M;
       LazyHeap.ks_slave := LazyHeap.MapMatrix.identity (LazyHeap.MapMatrix.width (LazyHeap.mat M));
       LazyHeap.ks_ker :=
         {| LazyHeap.lex_mat :=
              LazyHeap.MapMatrix.make (LazyHeap.MapMatrix.width (LazyHeap.mat M)) 0;
            LazyHeap.lex_ind :=
              LazyHeap.IndexMatrix.make (LazyHeap.IndexMatrix.height (LazyHeap.ind M))
                                        (LazyHeap.IndexMatrix.width (LazyHeap.ind M)) |};
       LazyHeap.ks_lows := replicate (LazyHeap.MapMatrix.height (LazyHeap.mat M)) (-1) |}.
Proof.
  intros [Hwf Hcols Hidx]. unfold LazyHeap.MapMatrix.width. split; cbn.
  - exact Hwf.
  - reflexivity.
  - exact Hcols.
  - unfold wf_matrix. cbn. now rewrite length_replicate, length_map, length_seq.
  - now rewrite length_map, length_seq.
  - intros j col Hj. apply identity_lookup in Hj as [-> Hlt].
    split; [apply is_heap_singleton|]. split.
    + constructor; [lia|constructor].
    + right. rewrite odd_in_singleton. now apply bool_decide_eq_true_2.
  - intros j cm cs Hcm Hcs r. apply identity_lookup in Hcs as [-> Hlt].
    rewrite mat_vec_singleton by exact Hlt. unfold column_at. now rewrite Hcm.
  - apply length_replicate.
  - intros l c Hl Hc. apply lookup_replicate in Hl as [-> _]. contradiction.
  - reflexivity.
  - intros col [].
  - constructor.
  - intros j Hj _.
    change (map (fun i => [Z.of_nat i]) (seq 0 (length (matrix (LazyHeap.MapMatrix.cols (LazyHeap.mat M))))))
      with ((fun i => [Z.of_nat i]) <$> seq 0 (length (matrix (LazyHeap.MapMatrix.cols (LazyHeap.mat M))))).
    rewrite list_lookup_fmap, lookup_seq_lt by exact Hj. reflexivity.
Qed.

Section KernelCorrectness.
Context {ops : HeapOps} {laws : HeapLaws ops}.


End KernelCorrectness.

Lemma scenario_S2_wf : wf_bigraded scenario_S2.
Proof.
  split.
  - reflexivity.
  - intros j col Hj.
    destruct j as [|[|[|j]]]; cbn in Hj; try discriminate; injection Hj as <-.
    + split; [split|].
      * apply is_heapb_correct. reflexivity.
      * constructor; [intros [H|[]]; discriminate|].
        constructor; [intros []|constructor].
      * repeat constructor; lia.
    + split; [split|].
      * apply is_heapb_correct. reflexivity.
      * constructor; [intros [H|[]]; discriminate|].
        constructor; [intros []|constructor].
      * repeat constructor; lia.
    + split; [split|].
      * apply is_heap_nil.
      * constructor.
      * constructor.
  - split.
    + split; cbn; [reflexivity|repeat constructor].
    + intros y x v H. destruct y as [|y], x as [|x]; cbn in H; try discriminate.
      injection H as <-. cbn. lia.
    + intros y x y' x' v v' H H' _.
      destruct y as [|y], x as [|x]; cbn in H; try discriminate.
      destruct y' as [|y'], x' as [|x']; cbn in H'; try discriminate.
      injection H as <-. injection H' as <-. lia.
Qed.


(* ===================================================================== *)
(** * Part III: further properties of the code *)

(** ** The lazy-heap columns of [vector_heap_mod] *)

Section LazyHeapColumns.
Context {ops : HeapOps} {laws : HeapLaws ops}.

Lemma pop_spec_below S m col' x : pop_spec S m col' -> In x col' -> x < m.
Proof.
  intros [_ [(_ & _ & ->)|(_ & _ & HP)]] Hin; [destruct Hin|].
  apply (Permutation_in _ HP) in Hin. apply filter_In in Hin as [_ Hlt].
  now apply Z.ltb_lt.
Qed.

Lemma remove_max_pops_pivot_aux (m : vector_heap_mod) (idx : nat) (col : list Z) :
  matrix m !! idx = Some col -> is_heap col ->
  exists col',
    _remove_max idx m = Ok (largest_odd col, with_column idx col' m)
    /\ is_heap col'
    /\ (forall x, odd_in x col' = odd_in x col && negb (bool_decide (x = largest_odd col)))
    /\ (forall x, In x col' -> x < largest_odd col)
    /\ (forall x, In x col' -> In x col).
Proof.
  intros Hcol Hh. unfold _remove_max. rewrite (_pop_max_index_at_Ok idx m col Hcol).
  pose proof (_pop_max_index_spec col Hh) as Hs.
  pose proof (pop_spec_largest_odd _ _ _ Hs) as Hm.
  rewrite Hm in Hs |- *. exists (snd (_pop_max_index col)).
  split; [reflexivity|]. split; [apply Hs|]. split; [|split].
  - intros x. now apply pop_spec_content.
  - intros x. now apply (pop_spec_below col).
  - intros x. now apply (pop_spec_in col (largest_odd col)).
Qed.

(** X1. [_remove_max] on a column in heap order returns the largest row
    index of odd multiplicity ([-1] when there is none) and leaves a heap
    that holds exactly the other indices of odd multiplicity, all of them
    below the index returned; the other columns and the insert counters
    are not touched. *)
Theorem remove_max_pops_the_pivot (m : vector_heap_mod) (idx : nat) (col : list Z) :
  matrix m !! idx = Some col -> is_heap col ->
  exists col',
    _remove_max idx m = Ok (largest_odd col, with_column idx col' m)
    /\ is_heap col'
    /\ (forall x, odd_in x col' = odd_in x col && negb (bool_decide (x = largest_odd col)))
    /\ (forall x, In x col' -> x < largest_odd col).
Proof.
  intros Hcol Hh.
  destruct (remove_max_pops_pivot_aux m idx col Hcol Hh) as (col' & H1 & H2 & H3 & H4 & _).
  exists col'. repeat split; assumption.
Qed.

(** X2. [_finalize] (that is [_prune]) on a column in heap order that
    holds no entry [-1] leaves a heap without repeated entries whose
    entries are exactly the indices that had odd multiplicity, and resets
    the insert counter of the column to 0. *)
Theorem finalize_removes_duplicates (m : vector_heap_mod) (idx : nat)
    (col : list Z) (n : Z) :
  matrix m !! idx = Some col -> inserts_since_last_prune m !! idx = Some n ->
  is_heap col -> ~ In (-1) col ->
  exists col',
    _finalize idx m = Ok (with_inserts idx 0 (with_column idx col' m))
    /\ finalized col'
    /\ same_content col' col
    /\ (forall x, In x col' <-> odd_in x col = true).
Proof.
  intros Hcol Hn Hh Hni. exists (prune_col col). unfold _finalize.
  rewrite (_prune_Ok idx m col n Hcol Hn). split; [reflexivity|].
  split; [now apply prune_col_finalized|]. split; [now apply prune_col_content|].
  apply (prune_col_spec col Hh Hni).
Qed.

Lemma prune_loop_descending fuel : forall S col temp m,
  pop_spec S m col -> ~ In (-1) S -> (m <> -1 -> (length col < fuel)%nat) ->
  exists d, snd (prune_loop fuel col temp m) = temp ++ d
            /\ strictly_descending d /\ (forall x, In x d <-> odd_in x S = true).
Proof.
  assert (Hstop : forall S col, pop_spec S (-1) col -> ~ In (-1) S ->
            forall temp : list Z, exists d, temp = temp ++ d
              /\ strictly_descending d /\ (forall x, In x d <-> odd_in x S = true)).
  { intros S col Hs Hni temp. exists []. rewrite app_nil_r.
    split; [reflexivity|]. split; [constructor|].
    intros x. rewrite (pop_spec_minus_one S col Hs Hni x). simpl.
    split; [tauto|discriminate]. }
  induction fuel as [|fuel IH]; intros S col temp m Hs Hni Hlen;
    cbn [prune_loop]; destruct (decide (m = -1)) as [->|Hne]; cbn [snd].
  - eapply Hstop; eassumption.
  - specialize (Hlen Hne). lia.
  - eapply Hstop; eassumption.
  - pose proof Hs as [Hh _].
    pose proof (_pop_max_index_spec col Hh) as Hs'.
    destruct (_pop_max_index col) as [m' col'] eqn:E. cbn [fst snd] in Hs'.
    destruct (IH col col' (temp ++ [m]) m' Hs') as (d' & Heq & Hsd & Hin).
    + intros Hc. apply Hni. eapply pop_spec_in; eassumption.
    + intros Hne'. pose proof (pop_spec_shorter _ _ _ Hs' Hne').
      specialize (Hlen Hne). lia.
    + exists (m :: d'). split; [rewrite Heq; now rewrite <- app_assoc|].
      assert (Hc : forall x, odd_in x col = (odd_in x S && negb (bool_decide (x = m)))).
      { intros x. now apply pop_spec_content. }
      split.
      * constructor; [exact Hsd|]. apply Forall_forall. intros x Hx.
        apply list_elem_of_In, Hin, odd_in_in in Hx.
        now apply (pop_spec_below S m col).
      * intros x. cbn [In]. rewrite Hin, Hc.
        destruct Hs as [_ [(_ & -> & _)|(Hm & _ & _)]]; [congruence|].
        destruct (decide (x = m)) as [->|Hx].
        -- rewrite Hm. split; [reflexivity|now left].
        -- rewrite bool_decide_eq_false_2 by exact Hx. rewrite andb_true_r.
           split; [intros [?|?]; congruence|now right].
Qed.

Lemma strictly_descending_ext (l1 l2 : list Z) :
  strictly_descending l1 -> strictly_descending l2 ->
  (forall x, In x l1 <-> In x l2) -> l1 = l2.
Proof.
  intros H1. revert l2. induction H1 as [|a l1 Hs1 IH Ha]; intros l2 H2 Hin.
  - destruct l2 as [|b l2]; [reflexivity|]. exfalso. apply (Hin b). now left.
  - destruct H2 as [|b l2 Hs2 Hb]; [exfalso; apply (Hin a); now left|].
    rewrite Forall_forall in Ha, Hb.
    assert (Hab : a = b).
    { destruct (proj1 (Hin a) ltac:(now left)) as [->|Hal2]; [reflexivity|].
      destruct (proj2 (Hin b) ltac:(now left)) as [->|Hbl1]; [reflexivity|].
      apply list_elem_of_In in Hal2, Hbl1.
      specialize (Ha _ Hbl1). specialize (Hb _ Hal2). cbn in Ha, Hb. lia. }
    subst b. f_equal. apply IH; [exact Hs2|]. intros x. split; intros Hx.
    + destruct (proj1 (Hin x) ltac:(now right)) as [->|Hx2]; [|exact Hx2].
      apply list_elem_of_In in Hx. specialize (Ha _ Hx). cbn in Ha. lia.
    + destruct (proj2 (Hin x) ltac:(now right)) as [->|Hx1]; [|exact Hx1].
      apply list_elem_of_In in Hx. specialize (Hb _ Hx). cbn in Hb. lia.
Qed.

Lemma prune_col_popped col :
  is_heap col -> ~ In (-1) col ->
  exists d, prune_col col = make_heap (rev d)
            /\ strictly_descending d /\ (forall x, In x d <-> odd_in x col = true).
Proof.
  intros Hh Hni. unfold prune_col.
  pose proof (_pop_max_index_spec col Hh) as Hs.
  destruct (_pop_max_index col) as [m col1]. cbn [fst snd] in Hs.
  destruct (prune_loop_descending (length col) col col1 [] m Hs Hni) as (d & Heq & Hsd & Hin).
  { intros Hne. now apply (pop_spec_shorter col m col1). }
  destruct (prune_loop (length col) col1 [] m) as [c t]. cbn [snd] in Heq.
  simpl in Heq. subst t. exists d. now split.
Qed.

(** X3. [_prune] yields a canonical vector: two columns in heap order
    with the same indices of odd multiplicity are pruned to the same
    vector, whatever their raw entries were; in particular pruning a
    pruned column changes nothing. *)
Theorem prune_is_canonical (c1 c2 : list Z) :
  is_heap c1 -> is_heap c2 -> ~ In (-1) c1 -> ~ In (-1) c2 ->
  same_content c1 c2 ->
  prune_col c1 = prune_col c2 /\ prune_col (prune_col c1) = prune_col c1.
Proof.
  assert (Hcanon : forall a b, is_heap a -> is_heap b -> ~ In (-1) a -> ~ In (-1) b ->
            same_content a b -> prune_col a = prune_col b).
  { intros a b Ha Hb Hna Hnb Hsame.
    destruct (prune_col_popped a Ha Hna) as (d1 & -> & Hs1 & Hin1).
    destruct (prune_col_popped b Hb Hnb) as (d2 & -> & Hs2 & Hin2).
    f_equal. f_equal. apply strictly_descending_ext; [assumption..|].
    intros x. now rewrite Hin1, Hin2, Hsame. }
  intros H1 H2 Hn1 Hn2 Hsame. split; [now apply Hcanon|].
  destruct (prune_col_spec c1 H1 Hn1) as (Hh & _ & Hin).
  apply Hcanon; [exact Hh|exact H1| |exact Hn1|now apply prune_col_content].
  intros Hm. apply Hin, odd_in_in in Hm. contradiction.
Qed.

(** X4. [_add_to(source, target)] on two different columns adds mod 2:
    afterwards an index has odd multiplicity in the target exactly when
    it had odd multiplicity in one of the two columns and not in the
    other; the target is again a heap and every other column, the source
    included, is as before. *)
Theorem add_to_is_sum_mod_2 (m : vector_heap_mod) (source target : nat)
    (cs ct : list Z) :
  source <> target -> wf_matrix m ->
  matrix m !! source = Some cs -> matrix m !! target = Some ct ->
  is_heap ct -> ~ In (-1) cs -> ~ In (-1) ct ->
  exists m' t',
    _add_to source target m = Ok m'
    /\ matrix m' = <[target:=t']> (matrix m)
    /\ is_heap t'
    /\ (forall x, odd_in x t' = xorb (odd_in x ct) (odd_in x cs))
    /\ wf_matrix m'.
Proof.
  intros Hne Hwf Hs Ht Hh Hnis Hnit.
  destruct (_add_to_spec m source target cs ct Hne Hwf Hs Ht Hh Hnis Hnit)
    as (m' & t' & Hrun & Hm' & Hh' & Hsame & Hwf' & _).
  exists m', t'. split; [exact Hrun|]. split; [exact Hm'|]. split; [exact Hh'|].
  split; [|exact Hwf']. intros x. now rewrite Hsame, odd_in_app.
Qed.

(** X5. The fast path of the reduction is sound: when the source column
    is finalized, both columns have the same pivot [p] and the pivot of
    the target is removed with [_remove_max], then [_add_to_popped]
    leaves in the target the sum mod 2 of the two original columns, as a
    heap whose raw entries are all below [p]. *)
Theorem add_to_popped_after_remove_max (m : vector_heap_mod) (source target : nat)
    (cs ct : list Z) (p : Z) :
  source <> target -> wf_matrix m ->
  matrix m !! source = Some cs -> matrix m !! target = Some ct ->
  finalized cs -> is_heap ct -> ~ In (-1) cs -> ~ In (-1) ct ->
  largest_odd cs = p -> largest_odd ct = p -> p <> -1 ->
  exists m1 m2 t2,
    _remove_max target m = Ok (p, m1)
    /\ _add_to_popped source target m1 = Ok m2
    /\ matrix m2 !! target = Some t2
    /\ is_heap t2
    /\ (forall x, odd_in x t2 = xorb (odd_in x ct) (odd_in x cs))
    /\ (forall x, In x t2 -> x < p).
Proof.
  intros Hne Hwf Hs Ht Hfin Hh Hnis Hnit Hps Hpt Hp.
  destruct (remove_max_pops_pivot_aux m target ct Ht Hh) as (ct' & Hrun1 & Hh1 & Hc1 & Hb1 & Hin1).
  rewrite Hpt in Hrun1, Hc1, Hb1.
  set (m1 := with_column target ct' m).
  assert (Hs1 : matrix m1 !! source = Some cs).
  { unfold m1. rewrite with_column_lookup_ne by congruence. exact Hs. }
  assert (Ht1 : matrix m1 !! target = Some ct').
  { unfold m1. eapply with_column_lookup. exact Ht. }
  assert (Hnit1 : ~ In (-1) ct') by (intros Hin; apply Hnit; now apply Hin1).
  destruct (_add_to_popped_spec m1 source target cs ct' Hne (wf_with_column _ _ _ Hwf)
              Hs1 Ht1 Hh1 Hnis Hnit1)
    as (m2 & t2 & Hrun2 & Hm2 & Hh2 & Hsame & _ & Hin2).
  pose proof (finalized_front cs Hfin) as Hfront. rewrite Hps in Hfront.
  destruct cs as [|a rest]; [cbn in Hfront; congruence|].
  cbn in Hfront. subst a. cbn [drop] in Hsame, Hin2.
  change (drop 0 rest) with rest in Hsame, Hin2.
  destruct Hfin as [Hhs Hnd]. apply NoDup_cons_iff in Hnd as [Hnp Hnd].
  exists m1, m2, t2. split; [exact Hrun1|]. split; [exact Hrun2|].
  split; [rewrite Hm2; apply list_lookup_insert_eq; eapply lookup_lt_Some; exact Ht1|].
  split; [exact Hh2|]. split.
  - intros x. rewrite Hsame, odd_in_app, Hc1.
    change (p :: rest) with ([p] ++ rest). rewrite odd_in_app, odd_in_singleton.
    destruct (decide (p = x)) as [<-|Hx].
    + rewrite !bool_decide_eq_true_2 by reflexivity.
      assert (odd_in p rest = false) as ->.
      { destruct (odd_in p rest) eqn:E; [|reflexivity]. apply odd_in_in in E. contradiction. }
      destruct (largest_odd_cases ct) as [[Hm _]|[Hodd _]]; [congruence|].
      rewrite Hpt in Hodd. rewrite Hodd. reflexivity.
    + rewrite !bool_decide_eq_false_2 by congruence.
      now rewrite andb_true_r, xorb_false_l.
  - intros x Hx. destruct (Hin2 x Hx) as [Hin|Hin]; [now apply Hb1|].
    pose proof (is_heap_front_max p rest Hhs x ltac:(now right)) as Hle.
    assert (x <> p) by (intros ->; contradiction). lia.
Qed.

End LazyHeapColumns.

Section LazyHeapBuild.
Context {ops : HeapOps} {laws : HeapLaws ops}.

Lemma set_entries_Ok rows : forall col m c,
  matrix m !! col = Some c ->
  set_entries rows col m = Ok (with_column col (c ++ rows) m).
Proof.
  unfold set_entries. induction rows as [|r rows IH]; intros col m c Hc.
  - cbn. rewrite app_nil_r. unfold with_column. destruct m as [mx ins]. cbn in *.
    now rewrite list_insert_id.
  - cbn [fold_left bind]. rewrite (_set_entry_Ok r col m c Hc).
    rewrite (IH col _ (c ++ [r])) by (eapply with_column_lookup; exact Hc).
    now rewrite with_column_twice, <- app_assoc.
Qed.

(** X6. A column that is built from an empty one by any sequence of
    [_set_entry] calls (no row being [-1]), then heapified with
    [_heapify_col] and finalized with [_finalize], has as its
    [_get_max_index_finalized] the largest row that was entered an odd
    number of times, and [-1] when every row was entered an even number
    of times. *)
Theorem pivot_of_a_built_column (m : vector_heap_mod) (col : nat)
    (rows : list Z) (n : Z) :
  matrix m !! col = Some [] -> inserts_since_last_prune m !! col = Some n ->
  ~ In (-1) rows ->
  exists m1 m2 m3,
    set_entries rows col m = Ok m1
    /\ _heapify_col col m1 = Ok m2
    /\ _finalize col m2 = Ok m3
    /\ _get_max_index_finalized col m3 = Ok (largest_odd rows).
Proof.
  intros Hc Hn Hni.
  pose proof (set_entries_Ok rows col m [] Hc) as H1. cbn [app] in H1.
  set (m1 := with_column col rows m) in *.
  assert (Hc1 : matrix m1 !! col = Some rows) by (eapply with_column_lookup; exact Hc).
  pose proof (_heapify_col_Ok col m1 rows Hc1) as H2.
  set (h := make_heap rows) in *.
  set (m2 := with_column col h m1) in *.
  assert (Hc2 : matrix m2 !! col = Some h) by (eapply with_column_lookup; exact Hc1).
  assert (HP : Permutation h rows) by apply make_heap_perm.
  assert (Hh : is_heap h) by apply make_heap_heap.
  assert (Hnih : ~ In (-1) h).
  { intros Hin. apply Hni. eapply Permutation_in; eassumption. }
  pose proof (_prune_Ok col m2 h n Hc2 Hn) as H3.
  exists m1, m2, (with_inserts col 0 (with_column col (prune_col h) m2)).
  split; [exact H1|]. split; [exact H2|]. split; [exact H3|].
  rewrite (_get_max_index_finalized_Ok col _ (prune_col h)).
  - f_equal. rewrite (finalized_front _ (prune_col_finalized h Hh Hnih)).
    rewrite (largest_odd_content _ _ (prune_col_content h Hh Hnih)).
    apply largest_odd_content. intros x. now apply odd_in_perm.
  - cbn. apply list_lookup_insert_eq. eapply lookup_lt_Some. exact Hc2.
Qed.

(** X7. [_is_empty] on a column in heap order without an entry [-1]
    answers [true] exactly when no row index has odd multiplicity in the
    column, however many raw entries the column holds. *)
Theorem is_empty_iff_no_odd_index (m : vector_heap_mod) (idx : nat) (col : list Z) :
  matrix m !! idx = Some col -> is_heap col -> ~ In (-1) col ->
  exists b m',
    _is_empty idx m = Ok (b, m')
    /\ (b = true <-> forall x, odd_in x col = false).
Proof.
  intros Hc Hh Hni. unfold _is_empty. rewrite (_get_max_index_Ok idx m col Hc).
  cbn [bind]. eexists _, _. split; [reflexivity|].
  destruct (get_max_index_col_spec col Hh) as (-> & _ & _).
  rewrite bool_decide_eq_true. split.
  - intros Hm. destruct (largest_odd_cases col) as [[_ Hnone]|[Hodd _]]; [exact Hnone|].
    rewrite Hm in Hodd. apply odd_in_in in Hodd. contradiction.
  - apply largest_odd_none.
Qed.

End LazyHeapBuild.

Lemma remove_max_pops_the_pivot_witness :
  let m := {| matrix := [[5; 5; 3]]; inserts_since_last_prune := [0] |} in
  exists col',
    _remove_max 0 m = Ok (largest_odd [5; 5; 3], with_column 0 col' m)
    /\ is_heap col'
    /\ (forall x, odd_in x col'
                  = odd_in x [5; 5; 3] && negb (bool_decide (x = largest_odd [5; 5; 3])))
    /\ (forall x, In x col' -> x < largest_odd [5; 5; 3]).
Proof.
  intros m. apply (remove_max_pops_the_pivot (laws := reference_heap_laws) m 0 [5; 5; 3]).
  - reflexivity.
  - apply is_heapb_correct. reflexivity.
Defined.

Lemma finalize_removes_duplicates_witness :
  let m := {| matrix := [[5; 5; 3]]; inserts_since_last_prune := [2] |} in
  exists col',
    _finalize 0 m = Ok (with_inserts 0 0 (with_column 0 col' m))
    /\ finalized col'
    /\ same_content col' [5; 5; 3]
    /\ (forall x, In x col' <-> odd_in x [5; 5; 3] = true).
Proof.
  intros m. apply (finalize_removes_duplicates (laws := reference_heap_laws) m 0 [5; 5; 3] 2).
  - reflexivity.
  - reflexivity.
  - apply is_heapb_correct. reflexivity.
  - cbn. intuition discriminate.
Defined.

Lemma prune_is_canonical_witness :
  prune_col [7; 5; 5; 3] = prune_col [7; 3; 2; 2]
  /\ prune_col (prune_col [7; 5; 5; 3]) = prune_col [7; 5; 5; 3].
Proof.
  apply (prune_is_canonical (laws := reference_heap_laws) [7; 5; 5; 3] [7; 3; 2; 2]).
  - apply is_heapb_correct. reflexivity.
  - apply is_heapb_correct. reflexivity.
  - cbn. intuition discriminate.
  - cbn. intuition discriminate.
  - intros x. unfold odd_in. rewrite !occ_cons. cbn.
    destruct (decide (7 = x)), (decide (5 = x)), (decide (3 = x)), (decide (2 = x));
      try lia; reflexivity.
Defined.

Lemma add_to_is_sum_mod_2_witness :
  let m := {| matrix := [[7; 3]; [7; 2; 1]]; inserts_since_last_prune := [0; 0] |} in
  exists m' t',
    _add_to 0 1 m = Ok m'
    /\ matrix m' = <[1%nat:=t']> (matrix m)
    /\ is_heap t'
    /\ (forall x, odd_in x t' = xorb (odd_in x [7; 2; 1]) (odd_in x [7; 3]))
    /\ wf_matrix m'.
Proof.
  intros m. apply (add_to_is_sum_mod_2 (laws := reference_heap_laws) m 0 1 [7; 3] [7; 2; 1]).
  - lia.
  - reflexivity.
  - reflexivity.
  - reflexivity.
  - apply is_heapb_correct. reflexivity.
  - cbn. intuition discriminate.
  - cbn. intuition discriminate.
Defined.

Lemma add_to_popped_after_remove_max_witness :
  let m := {| matrix := [[7; 3]; [7; 2; 1]]; inserts_since_last_prune := [0; 0] |} in
  exists m1 m2 t2,
    _remove_max 1 m = Ok (7, m1)
    /\ _add_to_popped 0 1 m1 = Ok m2
    /\ matrix m2 !! 1%nat = Some t2
    /\ is_heap t2
    /\ (forall x, odd_in x t2 = xorb (odd_in x [7; 2; 1]) (odd_in x [7; 3]))
    /\ (forall x, In x t2 -> x < 7).
Proof.
  intros m.
  apply (add_to_popped_after_remove_max (laws := reference_heap_laws)
           m 0 1 [7; 3] [7; 2; 1] 7).
  - lia.
  - reflexivity.
  - reflexivity.
  - reflexivity.
  - split; [apply is_heapb_correct; reflexivity|].
    constructor; [cbn; intuition discriminate|]. constructor; [intros []|constructor].
  - apply is_heapb_correct. reflexivity.
  - cbn. intuition discriminate.
  - cbn. intuition discriminate.
  - reflexivity.
  - reflexivity.
  - lia.
Defined.

Lemma pivot_of_a_built_column_witness :
  let m := {| matrix := [[]; [4]]; inserts_since_last_prune := [0; 0] |} in
  exists m1 m2 m3,
    set_entries [5; 3; 5; 1] 0 m = Ok m1
    /\ _heapify_col 0 m1 = Ok m2
    /\ _finalize 0 m2 = Ok m3
    /\ _get_max_index_finalized 0 m3 = Ok (largest_odd [5; 3; 5; 1]).
Proof.
  intros m.
  apply (pivot_of_a_built_column (laws := reference_heap_laws) m 0 [5; 3; 5; 1] 0).
  - reflexivity.
  - reflexivity.
  - cbn. intuition discriminate.
Defined.

Lemma is_empty_iff_no_odd_index_witness :
  let m := {| matrix := [[5; 5; 3; 3]]; inserts_since_last_prune := [0] |} in
  exists b m',
    _is_empty 0 m = Ok (b, m')
    /\ (b = true <-> forall x, odd_in x [5; 5; 3; 3] = false).
Proof.
  intros m. apply (is_empty_iff_no_odd_index (laws := reference_heap_laws) m 0 [5; 5; 3; 3]).
  - reflexivity.
  - apply is_heapb_correct. reflexivity.
  - cbn. intuition discriminate.
Defined.

(** ** Reindexing a column *)

Lemma reindex_entries_Ok (g : list Z) (col : list Z) :
  Forall (fun e => 0 <= e < Z.of_nat (length g)) col ->
  reindex_entries g col = Ok (map (fun e => default 0 (g !! Z.to_nat e)) col).
Proof.
  unfold reindex_entries.
  assert (Hgen : forall acc,
    Forall (fun e => 0 <= e < Z.of_nat (length g)) col ->
    fold_left
      (fun (acc : result (list Z)) (e : Z) =>
         do temp_col <- acc ; do v <- vgetZ g e ; Ok (temp_col ++ [v]))
      col (Ok acc)
    = Ok (acc ++ map (fun e => default 0 (g !! Z.to_nat e)) col)).
  { induction col as [|e col IH]; intros acc Hall.
    - cbn. now rewrite app_nil_r.
    - apply Forall_cons in Hall as [He Hall]. cbn [fold_left bind map].
      destruct (lookup_lt_is_Some_2 g (Z.to_nat e)) as [v Hv]; [lia|].
      assert (Hget : vgetZ g e = Ok v).
      { unfold vgetZ. rewrite decide_False by lia. now apply vget_Some. }
      rewrite Hget. cbn [bind]. rewrite IH by exact Hall.
      rewrite Hv. cbn. now rewrite <- app_assoc. }
  intros Hall. now rewrite (Hgen [] Hall).
Qed.

(** X8. [_reindex_column] with a table that is strictly increasing on
    the row indices keeps a column in heap order in heap order, keeps its
    length, and carries the multiplicity of every row index [e] over to
    its new index [new_row_indices[e]]. *)
Theorem reindex_column_order_preserving (m : vector_heap_mod) (idx : nat)
    (col g : list Z) :
  matrix m !! idx = Some col -> is_heap col ->
  Forall (fun e => 0 <= e < Z.of_nat (length g)) col ->
  (forall i j vi vj, (i < j)%nat -> g !! i = Some vi -> g !! j = Some vj -> vi < vj) ->
  exists col',
    _reindex_column idx g m = Ok (with_column idx col' m)
    /\ length col' = length col
    /\ is_heap col'
    /\ (forall e v, 0 <= e -> g !! Z.to_nat e = Some v -> odd_in v col' = odd_in e col).
Proof.
  intros Hcol Hh Hall Hinc.
  set (f := fun e => default 0 (g !! Z.to_nat e)).
  exists (map f col). unfold _reindex_column.
  rewrite (vget_Some _ _ _ Hcol). cbn [bind].
  rewrite (reindex_entries_Ok g col Hall). cbn [bind]. fold f.
  rewrite (set_column_Ok idx _ m col Hcol).
  split; [reflexivity|]. split; [apply length_map|].
  assert (Hmono : forall a b, In a col -> In b col -> a <= b -> f a <= f b).
  { intros a b Ha Hb Hab. rewrite Forall_forall in Hall.
    pose proof (Hall a ltac:(now apply list_elem_of_In)) as Hra.
    pose proof (Hall b ltac:(now apply list_elem_of_In)) as Hrb.
    destruct (lookup_lt_is_Some_2 g (Z.to_nat a)) as [va Hva]; [lia|].
    destruct (lookup_lt_is_Some_2 g (Z.to_nat b)) as [vb Hvb]; [lia|].
    unfold f. rewrite Hva, Hvb. cbn.
    destruct (decide (a = b)) as [->|Hne]; [rewrite Hva in Hvb; injection Hvb; lia|].
    assert (va < vb); [|lia]. apply (Hinc (Z.to_nat a) (Z.to_nat b)); [lia|assumption..]. }
  split.
  - intros i x p Hi Hx Hp.
    change (map f col) with (f <$> col) in Hx, Hp.
    rewrite list_lookup_fmap in Hx, Hp.
    destruct (col !! i) as [x0|] eqn:Ex; [|discriminate].
    destruct (col !! parent i) as [p0|] eqn:Ep; [|discriminate].
    cbn in Hx, Hp. injection Hx as <-. injection Hp as <-.
    apply Hmono.
    + apply list_elem_of_In. eapply list_elem_of_lookup_2. exact Ex.
    + apply list_elem_of_In. eapply list_elem_of_lookup_2. exact Ep.
    + exact (Hh i x0 p0 Hi Ex Ep).
  - intros e v He Hv. unfold odd_in. f_equal.
    assert (Hfe : f e = v) by (unfold f; now rewrite Hv).
    clear Hh Hcol Hmono. induction col as [|a col IH]; [reflexivity|].
    apply Forall_cons in Hall as [Ha Hall]. cbn [map]. rewrite !occ_cons, (IH Hall).
    f_equal. destruct (decide (a = e)) as [->|Hne].
    + now rewrite decide_True by exact Hfe.
    + rewrite decide_False; [reflexivity|]. intros Heq.
      destruct (lookup_lt_is_Some_2 g (Z.to_nat a)) as [va Hva]; [lia|].
      assert (Hfa : f a = va) by (unfold f; now rewrite Hva).
      assert (Hve : va = v) by congruence. rewrite Hve in Hva.
      destruct (Z.lt_trichotomy a e) as [Hlt|[Heq'|Hgt]]; [|congruence|].
      * pose proof (Hinc (Z.to_nat a) (Z.to_nat e) v v ltac:(lia) Hva Hv). lia.
      * pose proof (Hinc (Z.to_nat e) (Z.to_nat a) v v ltac:(lia) Hv Hva). lia.
Qed.

Lemma reindex_column_order_preserving_witness :
  let m := {| matrix := [[3; 1; 2]]; inserts_since_last_prune := [0] |} in
  exists col',
    _reindex_column 0 [10; 20; 30; 40] m = Ok (with_column 0 col' m)
    /\ length col' = length [3; 1; 2]
    /\ is_heap col'
    /\ (forall e v, 0 <= e -> [10; 20; 30; 40] !! Z.to_nat e = Some v ->
          odd_in v col' = odd_in e [3; 1; 2]).
Proof.
  intros m. apply (reindex_column_order_preserving m 0 [3; 1; 2] [10; 20; 30; 40]).
  - reflexivity.
  - apply is_heapb_correct. reflexivity.
  - repeat constructor; cbn; lia.
  - intros i j vi vj Hij Hi Hj.
    destruct i as [|[|[|[|i]]]]; destruct j as [|[|[|[|j]]]];
      cbn in Hi, Hj; try discriminate; try lia;
      injection Hi as <-; injection Hj as <-; lia.
Defined.

(** ** Sorted columns *)

Lemma insert_asc_perm x l : Permutation (insert_asc x l) (x :: l).
Proof.
  induction l as [|y t IH]; cbn [insert_asc]; [reflexivity|].
  destruct (x <=? y); [reflexivity|]. rewrite IH. apply perm_swap.
Qed.

Lemma sort_asc_perm l : Permutation (sort_asc l) l.
Proof.
  induction l as [|x l IH]; cbn [sort_asc fold_right]; [reflexivity|].
  fold (sort_asc l). rewrite insert_asc_perm. now constructor.
Qed.

Lemma insert_asc_ascending x l : ascending l -> ascending (insert_asc x l).
Proof.
  induction 1 as [|y t Hs IH Hall]; cbn [insert_asc]; [repeat constructor|].
  destruct (Z.leb_spec x y) as [Hle|Hgt].
  - constructor; [now constructor|]. constructor; [exact Hle|].
    eapply Forall_impl; [exact Hall|]. cbn. lia.
  - constructor; [exact IH|].
    rewrite Forall_forall in Hall |- *. intros z Hz.
    apply list_elem_of_In in Hz. apply (Permutation_in _ (insert_asc_perm x t)) in Hz.
    destruct Hz as [<-|Hz]; [lia|]. apply Hall. now apply list_elem_of_In.
Qed.

Lemma sort_asc_ascending l : ascending (sort_asc l).
Proof.
  induction l as [|x l IH]; cbn [sort_asc fold_right]; [constructor|].
  now apply insert_asc_ascending.
Qed.

Lemma ascending_lookup l : ascending l ->
  forall i j a b, (i <= j)%nat -> l !! i = Some a -> l !! j = Some b -> a <= b.
Proof.
  induction 1 as [|x t Hs IH Hall]; intros i j a b Hij Hi Hj; [discriminate|].
  destruct i as [|i], j as [|j]; cbn in Hi, Hj.
  - injection Hi as <-. injection Hj as <-. lia.
  - injection Hi as <-. rewrite Forall_forall in Hall.
    apply Hall. eapply list_elem_of_lookup_2. exact Hj.
  - lia.
  - apply (IH i j); [lia|assumption..].
Qed.

Lemma ascending_last l x :
  ascending l -> last l = Some x -> In x l /\ forall y, In y l -> y <= x.
Proof.
  intros Hs Hl. rewrite last_lookup in Hl. split.
  - apply list_elem_of_In. eapply list_elem_of_lookup_2. exact Hl.
  - intros y Hy. apply list_elem_of_In, list_elem_of_lookup_1 in Hy as [i Hi].
    apply (ascending_lookup l Hs i (pred (length l)) y x); [|exact Hi|exact Hl].
    apply lookup_lt_Some in Hi. lia.
Qed.

(** [std::lower_bound] on an ascending range: everything before the
    position returned is below [value], nothing from it on is. *)
Lemma lower_bound_loop_spec (col : list Z) (value : Z) :
  ascending col ->
  forall fuel first count,
    (count <= fuel)%nat -> (first + count <= length col)%nat ->
    (forall i x, (i < first)%nat -> col !! i = Some x -> x < value) ->
    (forall i x, (first + count <= i)%nat -> col !! i = Some x -> value <= x) ->
    (forall i x, (i < lower_bound_loop fuel col first count value)%nat ->
                 col !! i = Some x -> x < value)
    /\ (forall i x, (lower_bound_loop fuel col first count value <= i)%nat ->
                    col !! i = Some x -> value <= x).
Proof.
  intros Hs. induction fuel as [|fuel IH]; intros first count Hfuel Hlen Hlo Hhi.
  - cbn [lower_bound_loop]. split; [exact Hlo|].
    intros i x Hi. apply Hhi. lia.
  - cbn [lower_bound_loop]. destruct (decide (0 < count)%nat) as [Hpos|Hzero].
    + pose proof (Nat.div_lt count 2 Hpos ltac:(lia)) as Hstep.
      destruct (lookup_lt_is_Some_2 col (first + count / 2)) as [x Hx]; [lia|].
      rewrite Hx. destruct (decide (x < value)) as [Hlt|Hge].
      * apply IH.
        -- lia.
        -- lia.
        -- intros i y Hi Hy.
           pose proof (ascending_lookup col Hs i (first + count / 2) y x ltac:(lia) Hy Hx).
           lia.
        -- intros i y Hi Hy. apply (Hhi i y); [lia|exact Hy].
      * apply IH.
        -- lia.
        -- lia.
        -- exact Hlo.
        -- intros i y Hi Hy.
           pose proof (ascending_lookup col Hs (first + count / 2) i x y ltac:(lia) Hx Hy).
           lia.
    + split; [exact Hlo|]. intros i x Hi. apply Hhi. lia.
Qed.

Lemma binary_search_spec (col : list Z) (value : Z) :
  ascending col -> (binary_search col value = true <-> In value col).
Proof.
  intros Hs. unfold binary_search.
  destruct (lower_bound_loop_spec col value Hs (length col) 0 (length col)
              ltac:(lia) ltac:(lia)) as [Hlo Hhi].
  { intros i x Hi. lia. }
  { intros i x Hi Hx. apply lookup_lt_Some in Hx. cbn in Hi. lia. }
  set (r := lower_bound_loop (length col) col 0 (length col) value) in *.
  split.
  - destruct (col !! r) as [x|] eqn:Ex; [|discriminate].
    intros Hb. apply negb_true_iff, bool_decide_eq_false in Hb.
    pose proof (Hhi r x ltac:(lia) Ex).
    assert (x = value) as <- by lia.
    apply list_elem_of_In. eapply list_elem_of_lookup_2. exact Ex.
  - intros Hin. apply list_elem_of_In, list_elem_of_lookup_1 in Hin as [i Hi].
    assert (Hri : (r <= i)%nat).
    { destruct (decide (r <= i)%nat) as [|Hn]; [assumption|].
      pose proof (Hlo i value ltac:(lia) Hi). lia. }
    destruct (lookup_lt_is_Some_2 col r) as [x Hx].
    { apply lookup_lt_Some in Hi. lia. }
    rewrite Hx. apply negb_true_iff, bool_decide_eq_false.
    pose proof (ascending_lookup col Hs r i x value Hri Hx Hi). lia.
Qed.

(** X9. After [_sort_col], the queries for sorted columns are right:
    [_is_in_matrix_sorted] (a binary search) answers [true] exactly for
    the rows that are entries of the column, and [_get_max_index_sorted]
    returns the largest entry, or [-1] for an empty column. *)
Theorem sorted_column_queries (m : vector_heap_mod) (idx : nat) (col : list Z) (row : Z) :
  matrix m !! idx = Some col ->
  exists m' b p,
    _sort_col idx m = Ok m'
    /\ _is_in_matrix_sorted row idx m' = Ok b
    /\ (b = true <-> In row col)
    /\ _get_max_index_sorted idx m' = Ok p
    /\ ((col = [] /\ p = -1) \/ (In p col /\ forall x, In x col -> x <= p)).
Proof.
  intros Hcol.
  pose proof (sort_asc_perm col) as HP. pose proof (sort_asc_ascending col) as Hs.
  assert (Hc : matrix (with_column idx (sort_asc col) m) !! idx = Some (sort_asc col)).
  { eapply with_column_lookup. exact Hcol. }
  assert (Hsort : _sort_col idx m = Ok (with_column idx (sort_asc col) m)).
  { unfold _sort_col. rewrite (vget_Some _ _ _ Hcol). cbn [bind].
    apply (set_column_Ok idx _ m col Hcol). }
  assert (Hsearch : _is_in_matrix_sorted row idx (with_column idx (sort_asc col) m)
                    = Ok (binary_search (sort_asc col) row)).
  { unfold _is_in_matrix_sorted. now rewrite (vget_Some _ _ _ Hc). }
  assert (Hb : binary_search (sort_asc col) row = true <-> In row col).
  { rewrite (binary_search_spec _ row Hs).
    split; apply Permutation_in; [exact HP|now symmetry]. }
  exists (with_column idx (sort_asc col) m), (binary_search (sort_asc col) row).
  unfold _get_max_index_sorted. rewrite (vget_Some _ _ _ Hc). cbn [bind].
  destruct (last (sort_asc col)) as [p|] eqn:El.
  - exists p. split; [exact Hsort|]. split; [exact Hsearch|]. split; [exact Hb|].
    split; [reflexivity|]. right.
    destruct (ascending_last _ p Hs El) as [Hin Hmax]. split.
    + eapply Permutation_in; eassumption.
    + intros x Hx. apply Hmax. eapply Permutation_in; [symmetry; exact HP|exact Hx].
  - exists (-1). split; [exact Hsort|]. split; [exact Hsearch|]. split; [exact Hb|].
    split; [reflexivity|]. left. split; [|reflexivity].
    apply last_None in El. rewrite El in HP. now apply Permutation_nil in HP.
Qed.

Lemma sorted_column_queries_witness :
  let m := {| matrix := [[4; 9; 2; 7]]; inserts_since_last_prune := [0] |} in
  exists m' b p,
    _sort_col 0 m = Ok m'
    /\ _is_in_matrix_sorted 7 0 m' = Ok b
    /\ (b = true <-> In 7 [4; 9; 2; 7])
    /\ _get_max_index_sorted 0 m' = Ok p
    /\ (([4; 9; 2; 7] = [] /\ p = -1)
        \/ (In p [4; 9; 2; 7] /\ forall x, In x [4; 9; 2; 7] -> x <= p)).
Proof.
  intros m. apply (sorted_column_queries m 0 [4; 9; 2; 7] 7). reflexivity.
Defined.

Lemma set_symmetric_difference_cons a l1 b l2 :
  set_symmetric_difference (a :: l1) (b :: l2)
  = if a <? b then a :: set_symmetric_difference l1 (b :: l2)
    else if b <? a then b :: set_symmetric_difference (a :: l1) l2
    else set_symmetric_difference l1 l2.
Proof. reflexivity. Qed.

Lemma set_symmetric_difference_spec l1 :
  strictly_ascending l1 -> forall l2, strictly_ascending l2 ->
  strictly_ascending (set_symmetric_difference l1 l2)
  /\ forall x, In x (set_symmetric_difference l1 l2)
               <-> (In x l1 /\ ~ In x l2) \/ (In x l2 /\ ~ In x l1).
Proof.
  induction 1 as [|a l1 Hs1 IH1 Ha]; intros l2 H2.
  - cbn. split; [exact H2|]. intros x. tauto.
  - rewrite Forall_forall in Ha.
    assert (Fa : forall x, In x l1 -> a < x).
    { intros x Hx. apply Ha. now apply list_elem_of_In. }
    induction H2 as [|b l2 Hs2 IH2 Hb].
    + cbn. split; [constructor; [exact Hs1|now apply Forall_forall]|].
      intros x. cbn. tauto.
    + rewrite Forall_forall in Hb.
      assert (Fb : forall x, In x l2 -> b < x).
      { intros x Hx. apply Hb. now apply list_elem_of_In. }
      rewrite set_symmetric_difference_cons.
      destruct (Z.ltb_spec a b) as [Hab|Hba]; [|destruct (Z.ltb_spec b a) as [Hlt|Hge]].
      * destruct (IH1 (b :: l2) (SSorted_cons b Hs2 ltac:(now apply Forall_forall)))
          as [Hsd Hin].
        split.
        -- constructor; [exact Hsd|]. apply Forall_forall. intros x Hx.
           apply list_elem_of_In, Hin in Hx.
           destruct Hx as [[Hx _]|[[<-|Hx] _]]; [now apply Fa|lia|].
           specialize (Fb x Hx). lia.
        -- intros x. cbn [In]. rewrite Hin. cbn [In].
           assert (H1 : a = x -> ~ (b = x \/ In x l2)).
           { intros <- [?|Hx]; [lia|]. specialize (Fb a Hx). lia. }
           assert (H3 : a = x -> ~ In x l1).
           { intros <- Hx. specialize (Fa a Hx). lia. }
           tauto.
      * destruct IH2 as [Hsd Hin].
        split.
        -- constructor; [exact Hsd|]. apply Forall_forall. intros x Hx.
           apply list_elem_of_In, Hin in Hx.
           destruct Hx as [[[<-|Hx] _]|[Hx _]]; [lia| |now apply Fb].
           specialize (Fa x Hx). lia.
        -- intros x. cbn [In]. rewrite Hin. cbn [In].
           assert (H1 : b = x -> ~ (a = x \/ In x l1)).
           { intros <- [?|Hx]; [lia|]. specialize (Fa b Hx). lia. }
           assert (H3 : b = x -> ~ In x l2).
           { intros <- Hx. specialize (Fb b Hx). lia. }
           tauto.
      * assert (a = b) as <- by lia.
        destruct (IH1 l2 Hs2) as [Hsd Hin]. split; [exact Hsd|].
        intros x. rewrite Hin. cbn [In].
        assert (H1 : a = x -> ~ In x l1).
        { intros <- Hx. specialize (Fa a Hx). lia. }
        assert (H3 : a = x -> ~ In x l2).
        { intros <- Hx. specialize (Fb a Hx). lia. }
        tauto.
Qed.

(** X10. [_add_to_sorted(source, target)] on two strictly ascending
    columns leaves in the target a strictly ascending column that holds
    exactly the rows that were in one of the two columns and not in the
    other, whatever the scratch buffer held (which receives the old
    target); when source and target are the same column it ends up
    empty. *)
Theorem add_to_sorted_is_symmetric_difference (m : vector_heap_mod)
    (source target : nat) (temp_col cs ct : list Z) :
  matrix m !! source = Some cs -> matrix m !! target = Some ct ->
  strictly_ascending cs -> strictly_ascending ct ->
  exists t',
    _add_to_sorted source target temp_col m = Ok (with_column target t' m, ct)
    /\ strictly_ascending t'
    /\ (forall x, In x t' <-> (In x ct /\ ~ In x cs) \/ (In x cs /\ ~ In x ct))
    /\ (source = target -> t' = []).
Proof.
  intros Hs Ht Hcs Hct.
  destruct (set_symmetric_difference_spec ct Hct cs Hcs) as [Hsd Hin].
  exists (set_symmetric_difference ct cs). unfold _add_to_sorted.
  rewrite (vget_Some _ _ _ Hs), (vget_Some _ _ _ Ht). cbn [bind].
  rewrite take_app_length. rewrite (set_column_Ok target _ m ct Ht). cbn [bind].
  split; [reflexivity|]. split; [exact Hsd|]. split; [exact Hin|].
  intros ->. rewrite Hs in Ht. injection Ht as ->.
  destruct (set_symmetric_difference ct ct) as [|x t] eqn:E; [reflexivity|].
  exfalso. assert (Hx : In x (x :: t)) by now left.
  apply Hin in Hx. tauto.
Qed.

Lemma add_to_sorted_is_symmetric_difference_witness :
  let m := {| matrix := [[1; 4; 6]; [2; 4; 9]]; inserts_since_last_prune := [0; 0] |} in
  exists t',
    _add_to_sorted 0 1 [8; 8] m = Ok (with_column 1 t' m, [2; 4; 9])
    /\ strictly_ascending t'
    /\ (forall x, In x t' <-> (In x [2; 4; 9] /\ ~ In x [1; 4; 6])
                              \/ (In x [1; 4; 6] /\ ~ In x [2; 4; 9]))
    /\ (0%nat = 1%nat -> t' = []).
Proof.
  intros m.
  apply (add_to_sorted_is_symmetric_difference m 0 1 [8; 8] [1; 4; 6] [2; 4; 9]).
  - reflexivity.
  - reflexivity.
  - repeat constructor; lia.
  - repeat constructor; lia.
Defined.

(** ** Row permutations of [vector_heap_perm] *)

Lemma set_perm_loop_prefix (row_order mrep0 : list nat) :
  List.NoDup row_order ->
  (forall p, In p row_order -> (p < length mrep0)%nat) ->
  forall k, (k <= length row_order)%nat ->
    exists mr,
      fold_left
        (fun (acc : result (list nat)) (i : nat) =>
           do mrep <- acc ; do p <- vget row_order i ; vset mrep p i)
        (seq 0 k) (Ok mrep0) = Ok mr
      /\ length mr = length mrep0
      /\ (forall i p, (i < k)%nat -> row_order !! i = Some p -> mr !! p = Some i).
Proof.
  intros Hnd Hrange. induction k as [|k IH]; intros Hk.
  - exists mrep0. split; [reflexivity|]. split; [reflexivity|]. intros i p Hi. lia.
  - destruct (IH ltac:(lia)) as (mr & Hrun & Hlen & Hinv).
    destruct (lookup_lt_is_Some_2 row_order k ltac:(lia)) as [p Hp].
    assert (Hpl : (p < length mr)%nat).
    { rewrite Hlen. apply Hrange. apply list_elem_of_In.
      eapply list_elem_of_lookup_2. exact Hp. }
    rewrite seq_S, fold_left_app, Hrun. cbn [fold_left bind Nat.add].
    rewrite (vget_Some _ _ _ Hp). cbn [bind]. rewrite vset_lt by exact Hpl.
    eexists. split; [reflexivity|]. split; [now rewrite length_insert|].
    intros i q Hi Hq. destruct (decide (i = k)) as [->|Hne].
    + rewrite Hp in Hq. injection Hq as <-. now apply list_lookup_insert_eq.
    + rewrite list_lookup_insert_ne.
      * apply Hinv; [lia|exact Hq].
      * intros ->. apply Hne. apply NoDup_ListNoDup in Hnd.
        exact (NoDup_lookup _ _ _ _ Hnd Hq Hp).
Qed.

(** X11. [_set_perm(row_order)] with a permutation of [0 .. n-1], on a
    matrix whose [mrep] has [n] entries, stores [row_order] as [perm] and
    makes [mrep] its inverse: [mrep[perm[i]] = i] and [perm[mrep[i]] = i]
    for every row [i]. *)
Theorem set_perm_builds_the_inverse (m : vector_heap_perm.t) (row_order : list nat)
    (n : nat) :
  Permutation row_order (seq 0 n) ->
  length (vector_heap_perm.mrep m) = n ->
  exists m',
    vector_heap_perm_ops._set_perm row_order m = Ok m'
    /\ vector_heap_perm.perm m' = row_order
    /\ vector_heap_perm.base m' = vector_heap_perm.base m
    /\ perm_consistent n (vector_heap_perm.mrep m') (vector_heap_perm.perm m')
    /\ perm_consistent n (vector_heap_perm.perm m') (vector_heap_perm.mrep m').
Proof.
  intros HP Hlen.
  assert (Hn : length row_order = n).
  { rewrite (Permutation_length HP). apply length_seq. }
  assert (Hnd : List.NoDup row_order).
  { eapply Permutation_NoDup; [symmetry; exact HP|apply seq_NoDup]. }
  assert (Hrange : forall p, In p row_order -> (p < n)%nat).
  { intros p Hp. apply (Permutation_in _ HP), in_seq in Hp. lia. }
  destruct (set_perm_loop_prefix row_order (vector_heap_perm.mrep m) Hnd
              ltac:(rewrite Hlen; exact Hrange) (length row_order) (Nat.le_refl _))
    as (mr & Hrun & Hlmr & Hinv).
  unfold vector_heap_perm_ops._set_perm, vector_heap_perm_ops.set_perm_loop.
  rewrite Hrun. cbn [bind]. eexists. split; [reflexivity|]. cbn.
  split; [reflexivity|]. split; [reflexivity|].
  assert (Hdir : forall i, (i < n)%nat ->
            exists p, row_order !! i = Some p /\ mr !! p = Some i).
  { intros i Hi. destruct (lookup_lt_is_Some_2 row_order i ltac:(lia)) as [p Hp].
    exists p. split; [exact Hp|]. apply (Hinv i p); [lia|exact Hp]. }
  split.
  - split; [lia|]. split; [exact Hn|]. exact Hdir.
  - split; [exact Hn|]. split; [lia|].
    intros j Hj.
    assert (Hin : In j row_order).
    { apply (Permutation_in _ (Permutation_sym HP)), in_seq. lia. }
    apply list_elem_of_In, list_elem_of_lookup_1 in Hin as [a Ha].
    exists a. split; [|exact Ha].
    apply (Hinv a j); [|exact Ha]. apply lookup_lt_Some in Ha. lia.
Qed.

Lemma set_perm_builds_the_inverse_witness :
  let m := vector_heap_perm.make 4 2 in
  exists m',
    vector_heap_perm_ops._set_perm [2; 0; 3; 1]%nat m = Ok m'
    /\ vector_heap_perm.perm m' = [2; 0; 3; 1]%nat
    /\ vector_heap_perm.base m' = vector_heap_perm.base m
    /\ perm_consistent 4 (vector_heap_perm.mrep m') (vector_heap_perm.perm m')
    /\ perm_consistent 4 (vector_heap_perm.perm m') (vector_heap_perm.mrep m').
Proof.
  intros m. apply (set_perm_builds_the_inverse m [2; 0; 3; 1]%nat 4).
  - apply Permutation.NoDup_Permutation.
    + repeat constructor; cbn; intuition lia.
    + apply seq_NoDup.
    + intros x. cbn. intuition lia.
  - reflexivity.
Defined.

(** X12. [_swap_rows(idx)] exchanges the rows [idx] and [idx+1] of the
    matrix as [_is_in_matrix] reads it, and leaves every other row as it
    was; the columns themselves are not touched. *)
Theorem swap_rows_exchanges_rows (rows : nat) (m : vector_heap_perm.t) (idx : nat) :
  perm_consistent rows (vector_heap_perm.perm m) (vector_heap_perm.mrep m) ->
  (idx + 1 < rows)%nat ->
  exists m',
    vector_heap_perm._swap_rows idx m = Ok m'
    /\ vector_heap_perm.base m' = vector_heap_perm.base m
    /\ forall col,
         vector_heap_perm_ops._is_in_matrix (Z.of_nat idx) col m'
         = vector_heap_perm_ops._is_in_matrix (Z.of_nat (idx + 1)) col m
         /\ vector_heap_perm_ops._is_in_matrix (Z.of_nat (idx + 1)) col m'
            = vector_heap_perm_ops._is_in_matrix (Z.of_nat idx) col m
         /\ forall r, r <> Z.of_nat idx -> r <> Z.of_nat (idx + 1) ->
              vector_heap_perm_ops._is_in_matrix r col m'
              = vector_heap_perm_ops._is_in_matrix r col m.
Proof.
  intros Hc Hi. pose proof Hc as (Hlp & Hlm & Hinv).
  destruct (Hinv idx ltac:(lia)) as (a & Ha & Hpa).
  destruct (Hinv (idx + 1)%nat Hi) as (b & Hb & Hpb).
  pose proof (lookup_lt_Some _ _ _ Hpa) as Hla.
  pose proof (lookup_lt_Some _ _ _ Hpb) as Hlb.
  unfold vector_heap_perm._swap_rows.
  rewrite (vget_Some _ _ _ Ha), (vget_Some _ _ _ Hb). cbn [bind].
  rewrite (vset_lt (vector_heap_perm.perm m)) by exact Hla. cbn [bind].
  rewrite vset_lt by now rewrite length_insert. cbn [bind].
  rewrite (vset_lt (vector_heap_perm.mrep m)) by lia. cbn [bind].
  rewrite vset_lt by (rewrite length_insert; lia). cbn [bind].
  eexists. split; [reflexivity|]. split; [reflexivity|].
  intros col. unfold vector_heap_perm_ops._is_in_matrix. cbn.
  destruct (vget (matrix (vector_heap_perm.base m)) col) as [c|f]; cbn [bind];
    [|repeat split; reflexivity].
  unfold vgetZ. rewrite !decide_False by lia. rewrite !Nat2Z.id.
  split; [|split].
  - rewrite (vget_Some _ _ b), (vget_Some _ _ _ Hb); [reflexivity|].
    rewrite list_lookup_insert_ne by lia. apply list_lookup_insert_eq. lia.
  - rewrite (vget_Some _ _ a), (vget_Some _ _ _ Ha); [reflexivity|].
    apply list_lookup_insert_eq. rewrite length_insert. lia.
  - intros r Hr1 Hr2. destruct (decide (r < 0)); [reflexivity|].
    unfold vget. rewrite !list_lookup_insert_ne by lia. reflexivity.
Qed.

Lemma swap_rows_exchanges_rows_witness :
  let m := {| vector_heap_perm.base :=
                {| matrix := [[0; 2]; [1]]; inserts_since_last_prune := [0; 0] |};
              vector_heap_perm.perm := [0; 1; 2]%nat;
              vector_heap_perm.mrep := [0; 1; 2]%nat |} in
  exists m',
    vector_heap_perm._swap_rows 1 m = Ok m'
    /\ vector_heap_perm.base m' = vector_heap_perm.base m
    /\ forall col,
         vector_heap_perm_ops._is_in_matrix (Z.of_nat 1) col m'
         = vector_heap_perm_ops._is_in_matrix (Z.of_nat (1 + 1)) col m
         /\ vector_heap_perm_ops._is_in_matrix (Z.of_nat (1 + 1)) col m'
            = vector_heap_perm_ops._is_in_matrix (Z.of_nat 1) col m
         /\ forall r, r <> Z.of_nat 1 -> r <> Z.of_nat (1 + 1) ->
              vector_heap_perm_ops._is_in_matrix r col m'
              = vector_heap_perm_ops._is_in_matrix r col m.
Proof.
  intros m. apply (swap_rows_exchanges_rows 3 m 1).
  - apply (perm_consistent_identity 3).
  - lia.
Defined.

(** ** The sorted linked-list store: [set], [clear], [entry], [add_column] *)

Lemma set_traverse_absent i rest :
  MapMatrix_Base.entry_chain i rest = false -> MapMatrix_Base.set_traverse i rest = toggle i rest.
Proof.
  induction rest as [|next rest' IH]; cbn; [reflexivity|].
  destruct (decide (next < i)%nat) as [Hlt|Hge].
  - intros _. destruct (decide (next = i)); [lia|reflexivity].
  - destruct (decide (next = i)); [discriminate|]. intros H. now rewrite IH.
Qed.

Lemma set_chain_absent i col :
  MapMatrix_Base.entry_chain i col = false -> MapMatrix_Base.set_chain i col = toggle i col.
Proof.
  destruct col as [|current rest]; cbn; [reflexivity|].
  destruct (decide (current < i)%nat) as [Hlt|Hge].
  - intros _. destruct (decide (current = i)); [lia|reflexivity].
  - destruct (decide (current = i)); [discriminate|]. intros H.
    now rewrite set_traverse_absent.
Qed.

Lemma clear_traverse_absent i rest :
  MapMatrix_Base.entry_chain i rest = false -> MapMatrix_Base.clear_traverse i rest = rest.
Proof.
  induction rest as [|next rest' IH]; cbn; [reflexivity|].
  destruct (decide (next < i)%nat); [reflexivity|].
  destruct (decide (next = i)); [discriminate|]. intros H. now rewrite IH.
Qed.

Lemma clear_traverse_present i rest :
  MapMatrix_Base.entry_chain i rest = true -> MapMatrix_Base.clear_traverse i rest = toggle i rest.
Proof.
  induction rest as [|next rest' IH]; cbn; [discriminate|].
  destruct (decide (next < i)%nat); [discriminate|].
  destruct (decide (next = i)); [reflexivity|]. intros H. now rewrite IH.
Qed.

Lemma clear_chain_absent i col :
  MapMatrix_Base.entry_chain i col = false -> MapMatrix_Base.clear_chain i col = col.
Proof.
  destruct col as [|current rest]; cbn; [reflexivity|].
  destruct (decide (current < i)%nat); [reflexivity|].
  destruct (decide (current = i)); [discriminate|]. intros H.
  now rewrite clear_traverse_absent.
Qed.

Lemma clear_chain_present i col :
  MapMatrix_Base.entry_chain i col = true -> MapMatrix_Base.clear_chain i col = toggle i col.
Proof.
  destruct col as [|current rest]; cbn; [discriminate|].
  destruct (decide (current < i)%nat); [discriminate|].
  destruct (decide (current = i)); [reflexivity|]. intros H.
  now rewrite clear_traverse_present.
Qed.

Lemma toggle_involutive row l : sdesc l -> toggle row (toggle row l) = l.
Proof.
  induction 1 as [|h t Hs IH Hall]; cbn [toggle].
  - now rewrite decide_True by reflexivity.
  - destruct (decide (h = row)) as [->|Hne].
    + destruct t as [|h' t']; cbn [toggle]; [reflexivity|].
      apply Forall_cons in Hall as [Hh' _].
      rewrite decide_False by lia. rewrite decide_True by lia. reflexivity.
    + destruct (decide (h < row)%nat) as [Hlt|Hge]; cbn [toggle].
      * now rewrite decide_True by reflexivity.
      * rewrite decide_False by exact Hne. rewrite decide_False by exact Hge.
        now rewrite IH.
Qed.

Lemma set_chain_spec i col :
  sdesc col ->
  sdesc (MapMatrix_Base.set_chain i col)
  /\ (forall x, MapMatrix_Base.entry_chain x (MapMatrix_Base.set_chain i col)
                = bool_decide (x = i) || MapMatrix_Base.entry_chain x col)
  /\ (forall x, In x (MapMatrix_Base.set_chain i col) -> x = i \/ In x col).
Proof.
  intros Hs. destruct (MapMatrix_Base.entry_chain i col) eqn:E.
  - rewrite (set_chain_present i col E). split; [exact Hs|]. split; [|tauto].
    intros x. destruct (decide (x = i)) as [->|Hne].
    + rewrite bool_decide_eq_true_2 by reflexivity. exact E.
    + now rewrite bool_decide_eq_false_2 by exact Hne.
  - rewrite (set_chain_absent i col E). split; [now apply toggle_sdesc|]. split.
    + intros x. rewrite (entry_chain_toggle i col x Hs).
      destruct (decide (x = i)) as [->|Hne].
      * rewrite bool_decide_eq_true_2 by reflexivity. now rewrite E.
      * now rewrite bool_decide_eq_false_2 by exact Hne.
    + intros x Hx. apply (toggle_in i col x Hs) in Hx. tauto.
Qed.

Lemma clear_chain_spec i col :
  sdesc col ->
  sdesc (MapMatrix_Base.clear_chain i col)
  /\ (forall x, MapMatrix_Base.entry_chain x (MapMatrix_Base.clear_chain i col)
                = negb (bool_decide (x = i)) && MapMatrix_Base.entry_chain x col)
  /\ (forall x, In x (MapMatrix_Base.clear_chain i col) -> In x col).
Proof.
  intros Hs. destruct (MapMatrix_Base.entry_chain i col) eqn:E.
  - rewrite (clear_chain_present i col E). split; [now apply toggle_sdesc|]. split.
    + intros x. rewrite (entry_chain_toggle i col x Hs).
      destruct (decide (x = i)) as [->|Hne].
      * rewrite bool_decide_eq_true_2 by reflexivity. now rewrite E.
      * now rewrite bool_decide_eq_false_2 by exact Hne.
    + intros x Hx. apply (toggle_in i col x Hs) in Hx.
      pose proof (proj1 (entry_chain_in i col Hs) E) as Hi.
      destruct Hx as [[-> Hn]|[_ Hx]]; [contradiction|exact Hx].
  - rewrite (clear_chain_absent i col E). split; [exact Hs|]. split; [|tauto].
    intros x. destruct (decide (x = i)) as [->|Hne].
    + rewrite bool_decide_eq_true_2 by reflexivity. exact E.
    + now rewrite bool_decide_eq_false_2 by exact Hne.
Qed.

Lemma base_entry_Ok (m : MapMatrix_Base.t) i j col :
  MapMatrix_Base.columns m !! j = Some col -> (i < MapMatrix_Base.num_rows m)%nat ->
  MapMatrix_Base.entry i j m = Ok (MapMatrix_Base.entry_chain i col).
Proof.
  intros Hcol Hi. unfold MapMatrix_Base.entry.
  pose proof (lookup_lt_Some _ _ _ Hcol).
  rewrite decide_False by lia. rewrite decide_False by lia.
  now rewrite (vget_Some _ _ _ Hcol).
Qed.

Lemma sorted_chains_insert rows cols j col :
  sorted_chains rows cols -> sdesc col -> Forall (fun r => (r < rows)%nat) col ->
  sorted_chains rows (<[j:=col]> cols).
Proof. intros Hs Hc Hb. apply Forall_insert; [exact Hs|now split]. Qed.

Lemma base_entry_other (m : MapMatrix_Base.t) j col i' j' :
  j' <> j ->
  MapMatrix_Base.entry i' j' (MapMatrix_Base.set_columns j col m)
  = MapMatrix_Base.entry i' j' m.
Proof.
  intros Hne. unfold MapMatrix_Base.entry, MapMatrix_Base.set_columns, vget. cbn.
  rewrite length_insert. now rewrite list_lookup_insert_ne by congruence.
Qed.

(** X13. In the sorted-list store with sorted chains, [set(i, j)] within
    bounds succeeds, [entry(i, j)] then reads 1, every other entry reads
    as before, and the chains stay sorted and within the rows. *)
Theorem set_then_entry (m : MapMatrix_Base.t) (i j : nat) :
  sorted_chains (MapMatrix_Base.num_rows m) (MapMatrix_Base.columns m) ->
  (i < MapMatrix_Base.num_rows m)%nat -> (j < length (MapMatrix_Base.columns m))%nat ->
  exists m',
    MapMatrix_Base.set i j m = Ok m'
    /\ sorted_chains (MapMatrix_Base.num_rows m') (MapMatrix_Base.columns m')
    /\ MapMatrix_Base.entry i j m' = Ok true
    /\ forall i' j', i' <> i \/ j' <> j ->
         MapMatrix_Base.entry i' j' m' = MapMatrix_Base.entry i' j' m.
Proof.
  intros Hsorted Hi Hj.
  destruct (lookup_lt_is_Some_2 _ j Hj) as [col Hcol].
  destruct (sorted_chains_lookup _ _ _ _ Hsorted Hcol) as [Hs Hb].
  destruct (set_chain_spec i col Hs) as (Hs' & Hent & Hin).
  unfold MapMatrix_Base.set. rewrite decide_False by lia. rewrite decide_False by lia.
  rewrite (vget_Some _ _ _ Hcol). cbn [bind]. eexists. split; [reflexivity|].
  assert (Hcol' : MapMatrix_Base.columns
                    (MapMatrix_Base.set_columns j (MapMatrix_Base.set_chain i col) m) !! j
                  = Some (MapMatrix_Base.set_chain i col)).
  { cbn. now apply list_lookup_insert_eq. }
  split; [|split].
  - cbn. apply sorted_chains_insert; [exact Hsorted|exact Hs'|].
    apply Forall_forall. intros x Hx. apply list_elem_of_In, Hin in Hx.
    destruct Hx as [->|Hx]; [exact Hi|].
    rewrite Forall_forall in Hb. apply Hb. now apply list_elem_of_In.
  - rewrite (base_entry_Ok _ i j _ Hcol') by exact Hi.
    rewrite Hent. now rewrite bool_decide_eq_true_2 by reflexivity.
  - intros i' j' Hne. destruct (decide (j' = j)) as [->|Hj'].
    + destruct (decide (i' < MapMatrix_Base.num_rows m)%nat) as [Hi'|Hi'].
      * rewrite (base_entry_Ok _ i' j _ Hcol') by exact Hi'.
        rewrite (base_entry_Ok _ i' j _ Hcol) by exact Hi'.
        rewrite Hent. rewrite bool_decide_eq_false_2 by (destruct Hne; congruence).
        reflexivity.
      * unfold MapMatrix_Base.entry. cbn. rewrite length_insert.
        rewrite decide_False by lia. rewrite decide_True by lia.
        rewrite decide_False by lia. now rewrite decide_True by lia.
    + now apply base_entry_other.
Qed.

(** X14. In the sorted-list store with sorted chains, [clear(i, j)]
    within bounds succeeds, [entry(i, j)] then reads 0, every other entry
    reads as before, and the chains stay sorted. *)
Theorem clear_then_entry (m : MapMatrix_Base.t) (i j : nat) :
  sorted_chains (MapMatrix_Base.num_rows m) (MapMatrix_Base.columns m) ->
  (i < MapMatrix_Base.num_rows m)%nat -> (j < length (MapMatrix_Base.columns m))%nat ->
  exists m',
    MapMatrix_Base.clear i j m = Ok m'
    /\ sorted_chains (MapMatrix_Base.num_rows m') (MapMatrix_Base.columns m')
    /\ MapMatrix_Base.entry i j m' = Ok false
    /\ forall i' j', i' <> i \/ j' <> j ->
         MapMatrix_Base.entry i' j' m' = MapMatrix_Base.entry i' j' m.
Proof.
  intros Hsorted Hi Hj.
  destruct (lookup_lt_is_Some_2 _ j Hj) as [col Hcol].
  destruct (sorted_chains_lookup _ _ _ _ Hsorted Hcol) as [Hs Hb].
  destruct (clear_chain_spec i col Hs) as (Hs' & Hent & Hin).
  unfold MapMatrix_Base.clear. rewrite decide_False by lia. rewrite decide_False by lia.
  rewrite (vget_Some _ _ _ Hcol). cbn [bind]. eexists. split; [reflexivity|].
  assert (Hcol' : MapMatrix_Base.columns
                    (MapMatrix_Base.set_columns j (MapMatrix_Base.clear_chain i col) m) !! j
                  = Some (MapMatrix_Base.clear_chain i col)).
  { cbn. now apply list_lookup_insert_eq. }
  split; [|split].
  - cbn. apply sorted_chains_insert; [exact Hsorted|exact Hs'|].
    apply Forall_forall. intros x Hx. apply list_elem_of_In, Hin in Hx.
    rewrite Forall_forall in Hb. apply Hb. now apply list_elem_of_In.
  - rewrite (base_entry_Ok _ i j _ Hcol') by exact Hi.
    rewrite Hent. now rewrite bool_decide_eq_true_2 by reflexivity.
  - intros i' j' Hne. destruct (decide (j' = j)) as [->|Hj'].
    + destruct (decide (i' < MapMatrix_Base.num_rows m)%nat) as [Hi'|Hi'].
      * rewrite (base_entry_Ok _ i' j _ Hcol') by exact Hi'.
        rewrite (base_entry_Ok _ i' j _ Hcol) by exact Hi'.
        rewrite Hent. rewrite bool_decide_eq_false_2 by (destruct Hne; congruence).
        reflexivity.
      * unfold MapMatrix_Base.entry. cbn. rewrite length_insert.
        rewrite decide_False by lia. rewrite decide_True by lia.
        rewrite decide_False by lia. now rewrite decide_True by lia.
    + now apply base_entry_other.
Qed.

Lemma set_columns_twice j c1 c2 (m : MapMatrix_Base.t) :
  MapMatrix_Base.set_columns j c1 (MapMatrix_Base.set_columns j c2 m)
  = MapMatrix_Base.set_columns j c1 m.
Proof. unfold MapMatrix_Base.set_columns. cbn. now rewrite list_insert_insert_eq. Qed.

(** X15. [set] and [clear] undo each other on sorted chains: setting an
    entry that was 0 and clearing it again gives back the very same
    matrix, and so does clearing an entry that was 1 and setting it
    again. *)
Theorem set_clear_round_trip (m : MapMatrix_Base.t) (i j : nat) (b : bool) :
  sorted_chains (MapMatrix_Base.num_rows m) (MapMatrix_Base.columns m) ->
  MapMatrix_Base.entry i j m = Ok b ->
  if b
  then exists m1, MapMatrix_Base.clear i j m = Ok m1 /\ MapMatrix_Base.set i j m1 = Ok m
  else exists m1, MapMatrix_Base.set i j m = Ok m1 /\ MapMatrix_Base.clear i j m1 = Ok m.
Proof.
  intros Hsorted Hentry. unfold MapMatrix_Base.entry in Hentry.
  destruct (decide (length (MapMatrix_Base.columns m) <= j)%nat) as [|Hj]; [discriminate|].
  destruct (decide (MapMatrix_Base.num_rows m <= i)%nat) as [|Hi]; [discriminate|].
  destruct (lookup_lt_is_Some_2 (MapMatrix_Base.columns m) j ltac:(lia)) as [col Hcol].
  rewrite (vget_Some _ _ _ Hcol) in Hentry. cbn [bind] in Hentry. injection Hentry as Hb.
  destruct (sorted_chains_lookup _ _ _ _ Hsorted Hcol) as [Hs _].
  assert (Hset : forall c (m0 : MapMatrix_Base.t),
            MapMatrix_Base.columns m0 !! j = Some c ->
            MapMatrix_Base.num_rows m0 = MapMatrix_Base.num_rows m ->
            MapMatrix_Base.set i j m0
            = Ok (MapMatrix_Base.set_columns j (MapMatrix_Base.set_chain i c) m0)).
  { intros c m0 Hc Hr. unfold MapMatrix_Base.set. pose proof (lookup_lt_Some _ _ _ Hc).
    rewrite decide_False by lia. rewrite decide_False by lia.
    now rewrite (vget_Some _ _ _ Hc). }
  assert (Hclear : forall c (m0 : MapMatrix_Base.t),
            MapMatrix_Base.columns m0 !! j = Some c ->
            MapMatrix_Base.num_rows m0 = MapMatrix_Base.num_rows m ->
            MapMatrix_Base.clear i j m0
            = Ok (MapMatrix_Base.set_columns j (MapMatrix_Base.clear_chain i c) m0)).
  { intros c m0 Hc Hr. unfold MapMatrix_Base.clear. pose proof (lookup_lt_Some _ _ _ Hc).
    rewrite decide_False by lia. rewrite decide_False by lia.
    now rewrite (vget_Some _ _ _ Hc). }
  assert (Htt : MapMatrix_Base.entry_chain i (toggle i col) = negb b).
  { rewrite (entry_chain_toggle i col i Hs), Hb.
    now rewrite bool_decide_eq_true_2 by reflexivity. }
  destruct b; cbn [negb] in Htt.
  - eexists. split; [apply (Hclear col m Hcol eq_refl)|].
    rewrite (Hset (MapMatrix_Base.clear_chain i col))
      by (cbn; try reflexivity; apply list_lookup_insert_eq; lia).
    rewrite set_columns_twice. f_equal.
    rewrite (clear_chain_present i col Hb), (set_chain_absent _ _ Htt).
    rewrite (toggle_involutive i col Hs). now apply set_columns_same.
  - eexists. split; [apply (Hset col m Hcol eq_refl)|].
    rewrite (Hclear (MapMatrix_Base.set_chain i col))
      by (cbn; try reflexivity; apply list_lookup_insert_eq; lia).
    rewrite set_columns_twice. f_equal.
    rewrite (set_chain_absent i col Hb), (clear_chain_present _ _ Htt).
    rewrite (toggle_involutive i col Hs). now apply set_columns_same.
Qed.

Lemma example_store_sorted :
  sorted_chains (MapMatrix_Base.num_rows example_store) (MapMatrix_Base.columns example_store).
Proof.
  repeat constructor; cbn; lia.
Qed.

Lemma set_then_entry_witness :
  exists m',
    MapMatrix_Base.set 3 0 example_store = Ok m'
    /\ sorted_chains (MapMatrix_Base.num_rows m') (MapMatrix_Base.columns m')
    /\ MapMatrix_Base.entry 3 0 m' = Ok true
    /\ forall i' j', i' <> 3%nat \/ j' <> 0%nat ->
         MapMatrix_Base.entry i' j' m' = MapMatrix_Base.entry i' j' example_store.
Proof.
  apply (set_then_entry example_store 3 0).
  - exact example_store_sorted.
  - cbn. lia.
  - cbn. lia.
Defined.

Lemma clear_then_entry_witness :
  exists m',
    MapMatrix_Base.clear 2 0 example_store = Ok m'
    /\ sorted_chains (MapMatrix_Base.num_rows m') (MapMatrix_Base.columns m')
    /\ MapMatrix_Base.entry 2 0 m' = Ok false
    /\ forall i' j', i' <> 2%nat \/ j' <> 0%nat ->
         MapMatrix_Base.entry i' j' m' = MapMatrix_Base.entry i' j' example_store.
Proof.
  apply (clear_then_entry example_store 2 0).
  - exact example_store_sorted.
  - cbn. lia.
  - cbn. lia.
Defined.

Lemma set_clear_round_trip_witness :
  exists m1, MapMatrix_Base.set 3 0 example_store = Ok m1
             /\ MapMatrix_Base.clear 3 0 m1 = Ok example_store.
Proof.
  apply (set_clear_round_trip example_store 3 0 false).
  - exact example_store_sorted.
  - reflexivity.
Defined.

(** ** Column addition in the sorted linked-list store *)

Lemma sdesc_ext (l1 l2 : list nat) :
  sdesc l1 -> sdesc l2 -> (forall x, In x l1 <-> In x l2) -> l1 = l2.
Proof.
  intros H1. revert l2. induction H1 as [|a l1 Hs1 IH Ha]; intros l2 H2 Hin.
  - destruct l2 as [|b l2]; [reflexivity|]. exfalso. apply (Hin b). now left.
  - destruct H2 as [|b l2 Hs2 Hb]; [exfalso; apply (Hin a); now left|].
    rewrite Forall_forall in Ha, Hb.
    assert (Hab : a = b).
    { destruct (proj1 (Hin a) ltac:(now left)) as [->|Hal2]; [reflexivity|].
      destruct (proj2 (Hin b) ltac:(now left)) as [->|Hbl1]; [reflexivity|].
      apply list_elem_of_In in Hal2, Hbl1.
      specialize (Ha _ Hbl1). specialize (Hb _ Hal2). cbn in Ha, Hb. lia. }
    subst b. f_equal. apply IH; [exact Hs2|]. intros x. split; intros Hx.
    + destruct (proj1 (Hin x) ltac:(now right)) as [->|Hx2]; [|exact Hx2].
      apply list_elem_of_In in Hx. specialize (Ha _ Hx). cbn in Ha. lia.
    + destruct (proj2 (Hin x) ltac:(now right)) as [->|Hx1]; [|exact Hx1].
      apply list_elem_of_In in Hx. specialize (Hb _ Hx). cbn in Hb. lia.
Qed.

Lemma sdesc_entry_ext (l1 l2 : list nat) :
  sdesc l1 -> sdesc l2 ->
  (forall x, MapMatrix_Base.entry_chain x l1 = MapMatrix_Base.entry_chain x l2) -> l1 = l2.
Proof.
  intros H1 H2 Hent. apply sdesc_ext; [assumption..|].
  intros x. now rewrite <- (entry_chain_in x l1 H1), <- (entry_chain_in x l2 H2), Hent.
Qed.

(** X16. [MapMatrix_Base::add_column(j, k)] on two different columns of
    a store with sorted chains adds mod 2: every entry of column [k]
    becomes the sum mod 2 of the entries of columns [j] and [k] in its
    row, every other column (column [j] included) reads as before, and
    the chains stay sorted. *)
Theorem add_column_is_sum_mod_2 (m : MapMatrix_Base.t) (j k : nat) :
  sorted_chains (MapMatrix_Base.num_rows m) (MapMatrix_Base.columns m) ->
  (j < length (MapMatrix_Base.columns m))%nat ->
  (k < length (MapMatrix_Base.columns m))%nat -> j <> k ->
  exists m',
    MapMatrix_Base.add_column j k m = Ok m'
    /\ sorted_chains (MapMatrix_Base.num_rows m') (MapMatrix_Base.columns m')
    /\ (forall i, (i < MapMatrix_Base.num_rows m)%nat ->
          exists bj bk,
            MapMatrix_Base.entry i j m = Ok bj /\ MapMatrix_Base.entry i k m = Ok bk
            /\ MapMatrix_Base.entry i k m' = Ok (xorb bj bk))
    /\ (forall i k', k' <> k ->
          MapMatrix_Base.entry i k' m' = MapMatrix_Base.entry i k' m).
Proof.
  intros Hsorted Hj Hk Hne.
  destruct (lookup_lt_is_Some_2 _ j Hj) as [colj Hcolj].
  destruct (lookup_lt_is_Some_2 _ k Hk) as [colk Hcolk].
  destruct (sorted_chains_lookup _ _ _ _ Hsorted Hcolj) as [Hsj Hbj].
  destruct (sorted_chains_lookup _ _ _ _ Hsorted Hcolk) as [Hsk Hbk].
  destruct (add_chain_spec colj colk Hsj Hsk) as [Hs' Hent].
  rewrite (base_add_column_Ok m j k colj colk Hne Hcolj Hcolk).
  eexists. split; [reflexivity|]. split; [|split].
  - cbn. apply sorted_chains_insert; [exact Hsorted|exact Hs'|].
    apply Forall_forall. intros x Hx.
    apply list_elem_of_In, (add_chain_in colj colk x Hsj Hsk) in Hx.
    rewrite Forall_forall in Hbj, Hbk.
    destruct Hx as [Hx|Hx]; [apply Hbj|apply Hbk]; now apply list_elem_of_In.
  - intros i Hi. eexists _, _.
    split; [apply (base_entry_Ok m i j colj Hcolj Hi)|].
    split; [apply (base_entry_Ok m i k colk Hcolk Hi)|].
    rewrite (base_entry_Ok _ i k (MapMatrix_Base.add_chain colj colk)).
    + now rewrite Hent.
    + cbn. now apply list_lookup_insert_eq.
    + exact Hi.
  - intros i k' Hk'. now apply base_entry_other.
Qed.

Lemma add_column_is_sum_mod_2_witness :
  exists m',
    MapMatrix_Base.add_column 0 1 example_store = Ok m'
    /\ sorted_chains (MapMatrix_Base.num_rows m') (MapMatrix_Base.columns m')
    /\ (forall i, (i < MapMatrix_Base.num_rows example_store)%nat ->
          exists bj bk,
            MapMatrix_Base.entry i 0 example_store = Ok bj
            /\ MapMatrix_Base.entry i 1 example_store = Ok bk
            /\ MapMatrix_Base.entry i 1 m' = Ok (xorb bj bk))
    /\ (forall i k', k' <> 1%nat ->
          MapMatrix_Base.entry i k' m' = MapMatrix_Base.entry i k' example_store).
Proof.
  apply (add_column_is_sum_mod_2 example_store 0 1).
  - exact example_store_sorted.
  - cbn. lia.
  - cbn. lia.
  - lia.
Defined.

(** X17. Adding the same column twice restores the matrix: on a store
    with sorted chains, [add_column(j, k)] followed by [add_column(j, k)]
    gives back the very same chains. *)
Theorem add_column_twice_restores (m : MapMatrix_Base.t) (j k : nat) :
  sorted_chains (MapMatrix_Base.num_rows m) (MapMatrix_Base.columns m) ->
  (j < length (MapMatrix_Base.columns m))%nat ->
  (k < length (MapMatrix_Base.columns m))%nat -> j <> k ->
  exists m1,
    MapMatrix_Base.add_column j k m = Ok m1
    /\ MapMatrix_Base.add_column j k m1 = Ok m.
Proof.
  intros Hsorted Hj Hk Hne.
  destruct (lookup_lt_is_Some_2 _ j Hj) as [colj Hcolj].
  destruct (lookup_lt_is_Some_2 _ k Hk) as [colk Hcolk].
  destruct (sorted_chains_lookup _ _ _ _ Hsorted Hcolj) as [Hsj _].
  destruct (sorted_chains_lookup _ _ _ _ Hsorted Hcolk) as [Hsk _].
  destruct (add_chain_spec colj colk Hsj Hsk) as [Hs1 Hent1].
  destruct (add_chain_spec colj _ Hsj Hs1) as [Hs2 Hent2].
  rewrite (base_add_column_Ok m j k colj colk Hne Hcolj Hcolk).
  eexists. split; [reflexivity|].
  rewrite (base_add_column_Ok _ j k colj (MapMatrix_Base.add_chain colj colk) Hne).
  - rewrite set_columns_twice. f_equal.
    rewrite (sdesc_entry_ext _ colk Hs2 Hsk); [now apply set_columns_same|].
    intros x. rewrite Hent2, Hent1.
    destruct (MapMatrix_Base.entry_chain x colj), (MapMatrix_Base.entry_chain x colk);
      reflexivity.
  - cbn. now rewrite list_lookup_insert_ne by congruence.
  - cbn. now apply list_lookup_insert_eq.
Qed.

Lemma add_column_twice_restores_witness :
  exists m1,
    MapMatrix_Base.add_column 0 1 example_store = Ok m1
    /\ MapMatrix_Base.add_column 0 1 m1 = Ok example_store.
Proof.
  apply (add_column_twice_restores example_store 0 1).
  - exact example_store_sorted.
  - cbn. lia.
  - cbn. lia.
  - lia.
Defined.

(** X18. [MapMatrix::low(j)] on a store with sorted chains and at most
    [2^31] rows (so that a row index fits the [int] returned) returns the
    largest row with entry 1 in column [j]: the entry in that row is 1
    and every entry below it (in a row of larger index) is 0; it returns
    [-1] exactly when the column has no entry 1. *)
Theorem low_is_the_lowest_one (m : MapMatrix_Base.t) (j : nat) :
  sorted_chains (MapMatrix_Base.num_rows m) (MapMatrix_Base.columns m) ->
  Z.of_nat (MapMatrix_Base.num_rows m) <= 2 ^ 31 ->
  (j < length (MapMatrix_Base.columns m))%nat ->
  exists l,
    MapMatrix.low j m = Ok l
    /\ ((l = -1 /\ forall i, (i < MapMatrix_Base.num_rows m)%nat ->
                     MapMatrix_Base.entry i j m = Ok false)
        \/ (0 <= l < Z.of_nat (MapMatrix_Base.num_rows m)
            /\ MapMatrix_Base.entry (Z.to_nat l) j m = Ok true
            /\ forall i, (Z.to_nat l < i < MapMatrix_Base.num_rows m)%nat ->
                 MapMatrix_Base.entry i j m = Ok false)).
Proof.
  intros Hsorted Hrows Hj.
  destruct (lookup_lt_is_Some_2 _ j Hj) as [col Hcol].
  destruct (sorted_chains_lookup _ _ _ _ Hsorted Hcol) as [Hs Hb].
  unfold MapMatrix.low. rewrite decide_False by lia.
  rewrite (vget_Some _ _ _ Hcol). cbn [bind].
  destruct col as [|row rest].
  - exists (-1). split; [reflexivity|]. left. split; [reflexivity|].
    intros i Hi. now rewrite (base_entry_Ok m i j [] Hcol Hi).
  - apply Forall_cons in Hb as [Hrow _].
    exists (Z.of_nat row). split; [now rewrite int_of_unsigned_small by lia|]. right.
    rewrite Nat2Z.id.
    split; [lia|]. split.
    + rewrite (base_entry_Ok m row j _ Hcol Hrow). f_equal.
      apply (entry_chain_in row (row :: rest) Hs). now left.
    + intros i Hi. rewrite (base_entry_Ok m i j _ Hcol) by lia. f_equal.
      cbn. rewrite decide_True by lia. reflexivity.
Qed.

Lemma low_is_the_lowest_one_witness :
  exists l,
    MapMatrix.low 1 example_store = Ok l
    /\ ((l = -1 /\ forall i, (i < MapMatrix_Base.num_rows example_store)%nat ->
                     MapMatrix_Base.entry i 1 example_store = Ok false)
        \/ (0 <= l < Z.of_nat (MapMatrix_Base.num_rows example_store)
            /\ MapMatrix_Base.entry (Z.to_nat l) 1 example_store = Ok true
            /\ forall i, (Z.to_nat l < i < MapMatrix_Base.num_rows example_store)%nat ->
                 MapMatrix_Base.entry i 1 example_store = Ok false)).
Proof.
  apply (low_is_the_lowest_one example_store 1).
  - exact example_store_sorted.
  - cbn. lia.
  - cbn. lia.
Defined.

(** ** What [decompose_RU] leaves: a reduced matrix and a unit upper-triangular [U] *)

(** X19. On a matrix with at most [2^31] rows and columns (so that the
    lows and the column indices kept in [low_col] fit an [int]),
    [decompose_RU] leaves a reduced matrix: no two non-empty columns
    have the same low, and [low_col] records for every non-empty column
    [j] that it is the column with low [low(j)]. *)
Theorem decompose_RU_leaves_reduced_matrix (m : MapMatrix_Perm.t) (fuel : nat) :
  wf_perm_matrix m ->
  Z.of_nat (MapMatrix_Base.num_rows (MapMatrix_Perm.store m)) <= 2 ^ 31 ->
  Z.of_nat (length (MapMatrix_Base.columns (MapMatrix_Perm.store m))) <= 2 ^ 31 ->
  (MapMatrix_Base.num_rows (MapMatrix_Perm.store m) <= fuel)%nat ->
  exists reduced u,
    MapMatrix_Perm.decompose_RU fuel m = Ok (reduced, u)
    /\ (forall j l, MapMatrix_Perm.low j reduced = Ok l -> l <> -1 ->
          0 <= l
          /\ MapMatrix_Perm.low_col reduced !! Z.to_nat l = Some (Z.of_nat j))
    /\ (forall j1 j2 l, MapMatrix_Perm.low j1 reduced = Ok l ->
          MapMatrix_Perm.low j2 reduced = Ok l -> l <> -1 -> j1 = j2).
Proof.
  intros Hwf Hrows Hcols Hfuel.
  destruct (decompose_RU_more m fuel Hwf Hfuel) as (reduced & u & Hrun & Hinv & Hrec & _).
  destruct Hwf as (Hsorted & Hpm & Hmp & Hlc).
  exists reduced, u. split; [exact Hrun|].
  assert (Hlow : forall j l, MapMatrix_Perm.low j reduced = Ok l -> l <> -1 ->
            0 <= l
            /\ MapMatrix_Perm.low_col reduced !! Z.to_nat l = Some (Z.of_nat j)).
  { intros j l Hl Hne.
    assert (Hpos : 0 <= l).
    { apply (perm_low_nonneg _ reduced j l (ri_rows _ _ _ _ _ _ _ _ Hinv)); try assumption.
      - exact (ri_sorted _ _ _ _ _ _ _ _ Hinv).
      - rewrite (ri_perm _ _ _ _ _ _ _ _ Hinv), (ri_mrep _ _ _ _ _ _ _ _ Hinv). exact Hpm.
      - rewrite (ri_perm _ _ _ _ _ _ _ _ Hinv), (ri_mrep _ _ _ _ _ _ _ _ Hinv). exact Hmp. }
    split; [exact Hpos|].
    apply (Hrec Hcols); [|exact Hl|exact Hpos].
    unfold MapMatrix_Perm.low in Hl.
    destruct (decide (length (MapMatrix_Base.columns (MapMatrix_Perm.store reduced)) <= j)%nat);
      [discriminate|].
    rewrite (ri_cols _ _ _ _ _ _ _ _ Hinv) in *. lia. }
  split; [exact Hlow|].
  intros j1 j2 l H1 H2 Hne.
  destruct (Hlow j1 l H1 Hne) as [_ E1]. destruct (Hlow j2 l H2 Hne) as [_ E2].
  rewrite E1 in E2. injection E2. lia.
Qed.

Lemma decompose_RU_leaves_reduced_matrix_witness :
  exists reduced u,
    MapMatrix_Perm.decompose_RU 2 RU_example_matrix = Ok (reduced, u)
    /\ (forall j l, MapMatrix_Perm.low j reduced = Ok l -> l <> -1 ->
          0 <= l
          /\ MapMatrix_Perm.low_col reduced !! Z.to_nat l = Some (Z.of_nat j))
    /\ (forall j1 j2 l, MapMatrix_Perm.low j1 reduced = Ok l ->
          MapMatrix_Perm.low j2 reduced = Ok l -> l <> -1 -> j1 = j2).
Proof.
  apply (decompose_RU_leaves_reduced_matrix RU_example_matrix 2).
  - exact RU_example_matrix_wf.
  - cbn. lia.
  - cbn. lia.
  - cbn. lia.
Defined.

(** X20. The matrix [U] that [decompose_RU] returns is upper triangular
    with ones on the diagonal: [U.entry(i, i)] is 1 and [U.entry(i, j)]
    is 0 for [j < i]. *)
Theorem decompose_RU_returns_unit_upper_triangular (m : MapMatrix_Perm.t) (fuel : nat) :
  wf_perm_matrix m ->
  (MapMatrix_Base.num_rows (MapMatrix_Perm.store m) <= fuel)%nat ->
  exists reduced u,
    MapMatrix_Perm.decompose_RU fuel m = Ok (reduced, u)
    /\ forall i j, (i < length (MapMatrix_Base.columns (MapMatrix_Perm.store m)))%nat ->
         (j <= i)%nat ->
         MapMatrix_RowPriority_Perm.entry i j u = Ok (bool_decide (i = j)).
Proof.
  intros Hwf Hfuel.
  destruct (decompose_RU_more m fuel Hwf Hfuel) as (reduced & u & Hrun & Hinv & _ & Hup).
  exists reduced, u. split; [exact Hrun|].
  set (n := length (MapMatrix_Base.columns (MapMatrix_Perm.store m))) in *.
  intros i j Hi Hji.
  destruct (Hup i Hi) as (row & Hrow & Hs & Hin & Hb).
  unfold MapMatrix_RowPriority_Perm.entry.
  rewrite (ri_u_mrep _ _ _ _ _ _ _ _ Hinv).
  rewrite (vget_Some _ _ j) by (apply lookup_seq; split; [reflexivity|lia]).
  cbn [bind]. rewrite (base_entry_Ok _ j i row Hrow)
    by (rewrite (ri_u_rows _ _ _ _ _ _ _ _ Hinv); lia).
  f_equal. destruct (decide (i = j)) as [->|Hne].
  - rewrite bool_decide_eq_true_2 by reflexivity. now apply entry_chain_in.
  - rewrite bool_decide_eq_false_2 by exact Hne.
    destruct (MapMatrix_Base.entry_chain j row) eqn:E; [|reflexivity].
    apply entry_chain_in in E; [|exact Hs]. specialize (Hb j E). lia.
Qed.

Lemma decompose_RU_returns_unit_upper_triangular_witness :
  exists reduced u,
    MapMatrix_Perm.decompose_RU 2 RU_example_matrix = Ok (reduced, u)
    /\ forall i j,
         (i < length (MapMatrix_Base.columns (MapMatrix_Perm.store RU_example_matrix)))%nat ->
         (j <= i)%nat ->
         MapMatrix_RowPriority_Perm.entry i j u = Ok (bool_decide (i = j)).
Proof.
  apply (decompose_RU_returns_unit_upper_triangular RU_example_matrix 2).
  - exact RU_example_matrix_wf.
  - cbn. lia.
Defined.

(** ** [MapMatrix::col_reduce] *)

(** In a matrix with at most [2^31] rows the low of a column is the
    row of its first node. *)
Lemma MapMatrix_low_head rows (m : MapMatrix_Base.t) j col :
  sorted_chains rows (MapMatrix_Base.columns m) -> Z.of_nat rows <= 2 ^ 31 ->
  MapMatrix_Base.columns m !! j = Some col ->
  MapMatrix.low j m = Ok (match col with [] => -1 | row :: _ => Z.of_nat row end).
Proof.
  intros Hsorted Hrows Hcol. unfold MapMatrix.low. pose proof (lookup_lt_Some _ _ _ Hcol).
  rewrite decide_False by lia. rewrite (vget_Some _ _ _ Hcol). cbn [bind].
  destruct (sorted_chains_lookup _ _ _ _ Hsorted Hcol) as [_ Hb].
  destruct col as [|row rest]; [reflexivity|].
  apply Forall_cons in Hb as [Hrow _]. now rewrite int_of_unsigned_small by lia.
Qed.

Lemma MapMatrix_low_cong (m m' : MapMatrix_Base.t) j :
  length (MapMatrix_Base.columns m) = length (MapMatrix_Base.columns m') ->
  MapMatrix_Base.columns m !! j = MapMatrix_Base.columns m' !! j ->
  MapMatrix.low j m = MapMatrix.low j m'.
Proof. intros Hl Hc. unfold MapMatrix.low, vget. now rewrite Hl, Hc. Qed.

Lemma sdesc_head_max row rest x : sdesc (row :: rest) -> In x (row :: rest) -> (x <= row)%nat.
Proof.
  intros Hs [->|Hx]; [lia|]. apply StronglySorted_inv in Hs as [_ Hall].
  rewrite Forall_forall in Hall. apply list_elem_of_In in Hx.
  specialize (Hall _ Hx). cbn in Hall. lia.
Qed.

(** Adding a column with the same low lowers the low. *)
Lemma add_chain_lowers l restc restj :
  sdesc (l :: restc) -> sdesc (l :: restj) ->
  forall x, In x (MapMatrix_Base.add_chain (l :: restc) (l :: restj)) -> (x < l)%nat.
Proof.
  intros Hc Hj x Hx.
  destruct (add_chain_spec _ _ Hc Hj) as [Hs Hent].
  pose proof (add_chain_in _ _ x Hc Hj Hx) as Hor.
  assert (Hle : (x <= l)%nat).
  { destruct Hor as [H|H];
      [exact (sdesc_head_max l restc x Hc H)|exact (sdesc_head_max l restj x Hj H)]. }
  assert (x <> l); [|lia]. intros ->.
  apply (entry_chain_in l _ Hs) in Hx. rewrite Hent in Hx.
  assert (MapMatrix_Base.entry_chain l (l :: restc) = true) as E1
    by (apply entry_chain_in; [exact Hc|now left]).
  assert (MapMatrix_Base.entry_chain l (l :: restj) = true) as E2
    by (apply entry_chain_in; [exact Hj|now left]).
  rewrite E1, E2 in Hx. discriminate.
Qed.

Lemma col_reduce_column_spec n rows j lows :
  Z.of_nat rows <= 2 ^ 31 ->
  (j < n)%nat -> length lows = rows ->
  forall fuel (m : MapMatrix_Base.t) l,
    MapMatrix_Base.num_rows m = rows ->
    length (MapMatrix_Base.columns m) = n ->
    sorted_chains rows (MapMatrix_Base.columns m) ->
    (forall l0 c, lows !! l0 = Some c -> 0 <= c ->
       (Z.to_nat c < j)%nat /\ MapMatrix.low (Z.to_nat c) m = Ok (Z.of_nat l0)) ->
    MapMatrix.low j m = Ok l -> l < Z.of_nat fuel ->
    exists m' l',
      MapMatrix_ops.col_reduce_column fuel j lows m = Ok m'
      /\ MapMatrix_Base.num_rows m' = rows
      /\ length (MapMatrix_Base.columns m') = n
      /\ sorted_chains rows (MapMatrix_Base.columns m')
      /\ (forall c, c <> j ->
            MapMatrix_Base.columns m' !! c = MapMatrix_Base.columns m !! c)
      /\ MapMatrix.low j m' = Ok l'
      /\ l' < Z.of_nat rows
      /\ (l' < 0 \/ exists c, lows !! Z.to_nat l' = Some c /\ c < 0).
Proof.
  intros Hrows31 Hjn Hll.
  assert (Hbound : forall (m : MapMatrix_Base.t) l,
            MapMatrix_Base.num_rows m = rows ->
            length (MapMatrix_Base.columns m) = n ->
            sorted_chains rows (MapMatrix_Base.columns m) ->
            MapMatrix.low j m = Ok l ->
            exists colj, MapMatrix_Base.columns m !! j = Some colj
              /\ l = match colj with [] => -1 | row :: _ => Z.of_nat row end
              /\ l < Z.of_nat rows).
  { intros m l Hr Hn Hsorted Hlow.
    destruct (lookup_lt_is_Some_2 (MapMatrix_Base.columns m) j ltac:(lia)) as [colj Hcolj].
    rewrite (MapMatrix_low_head rows m j colj Hsorted Hrows31 Hcolj) in Hlow.
    injection Hlow as <-.
    exists colj. split; [exact Hcolj|]. split; [reflexivity|].
    destruct (sorted_chains_lookup _ _ _ _ Hsorted Hcolj) as [_ Hb].
    destruct colj as [|row rest]; [lia|]. apply Forall_cons in Hb as [Hrow _]. lia. }
  induction fuel as [|fuel IH]; intros m l Hr Hn Hsorted Hlows Hlow Hfuel.
  - destruct (Hbound m l Hr Hn Hsorted Hlow) as (_ & _ & _ & Hlr).
    cbn [MapMatrix_ops.col_reduce_column]. rewrite Hlow. cbn [bind].
    rewrite decide_False by lia. exists m, l.
    repeat (split; [first [reflexivity|assumption]|]). left. lia.
  - destruct (Hbound m l Hr Hn Hsorted Hlow) as (colj & Hcolj & Hlj & Hlr).
    cbn [MapMatrix_ops.col_reduce_column]. rewrite Hlow. cbn [bind].
    destruct (decide (l >= 0)) as [Hl0|Hl0].
    2:{ exists m, l. repeat (split; [first [reflexivity|assumption]|]). left. lia. }
    destruct (lookup_lt_is_Some_2 lows (Z.to_nat l) ltac:(lia)) as [lc Hlc].
    unfold vgetZ. rewrite decide_False by lia. rewrite (vget_Some _ _ _ Hlc). cbn [bind].
    destruct (decide (lc >= 0)) as [Hc0|Hc0].
    2:{ exists m, l. repeat (split; [first [reflexivity|assumption]|]).
        right. exists lc. split; [exact Hlc|lia]. }
    destruct (Hlows _ _ Hlc ltac:(lia)) as [Hcj Hlowc].
    rewrite Z2Nat.id in Hlowc by lia.
    set (c := Z.to_nat lc) in *.
    destruct (lookup_lt_is_Some_2 (MapMatrix_Base.columns m) c ltac:(lia)) as [colc Hcolc].
    destruct (sorted_chains_lookup _ _ _ _ Hsorted Hcolc) as [Hsc Hbc].
    destruct (sorted_chains_lookup _ _ _ _ Hsorted Hcolj) as [Hsj Hbj].
    rewrite (MapMatrix_low_head rows m c colc Hsorted Hrows31 Hcolc) in Hlowc.
    injection Hlowc as Hlc'.
    destruct colj as [|rj restj]; [lia|]. destruct colc as [|rc restc]; [lia|].
    assert (rj = Z.to_nat l) by lia. assert (rc = Z.to_nat l) by lia. subst rj rc.
    rewrite (base_add_column_Ok m c j _ _ ltac:(lia) Hcolc Hcolj). cbn [bind].
    destruct (add_chain_spec _ _ Hsc Hsj) as [Hs' _].
    pose proof (add_chain_lowers _ restc restj Hsc Hsj) as Hlower.
    set (newj := MapMatrix_Base.add_chain (Z.to_nat l :: restc) (Z.to_nat l :: restj)) in *.
    set (m1 := MapMatrix_Base.set_columns j newj m).
    assert (Hcolj1 : MapMatrix_Base.columns m1 !! j = Some newj).
    { cbn. apply list_lookup_insert_eq. lia. }
    assert (Hsorted1 : sorted_chains rows (MapMatrix_Base.columns m1)).
    { cbn. apply sorted_chains_insert; [exact Hsorted|exact Hs'|].
      apply Forall_forall. intros x Hx. apply list_elem_of_In, Hlower in Hx. lia. }
    destruct (IH m1 (match newj with [] => -1 | row :: _ => Z.of_nat row end))
      as (m' & l' & Hrun & Hr' & Hn' & Hsorted' & Hframe & Hlow' & Hl'r & Hfree).
    + exact Hr.
    + cbn. now rewrite length_insert.
    + exact Hsorted1.
    + intros l0 c0 Hlk Hc0'. destruct (Hlows l0 c0 Hlk Hc0') as [Hlt Hlow0].
      split; [exact Hlt|]. rewrite <- Hlow0. apply MapMatrix_low_cong.
      * cbn. now rewrite length_insert.
      * cbn. apply list_lookup_insert_ne. lia.
    + apply (MapMatrix_low_head rows m1 j newj Hsorted1 Hrows31 Hcolj1).
    + destruct newj as [|row rest] eqn:En; [lia|].
      assert (row < Z.to_nat l)%nat by (apply Hlower; now left). lia.
    + exists m', l'. split; [exact Hrun|]. split; [exact Hr'|]. split; [exact Hn'|].
      split; [exact Hsorted'|]. split.
      * intros c0 Hc0'. rewrite (Hframe c0 Hc0'). cbn.
        now apply list_lookup_insert_ne.
      * split; [exact Hlow'|]. split; [exact Hl'r|exact Hfree].
Qed.

Lemma col_reduce_step_spec n rows fuel j (m : MapMatrix_Base.t) lows :
  Z.of_nat rows <= 2 ^ 31 -> Z.of_nat n <= 2 ^ 31 ->
  (rows <= fuel)%nat -> (j < n)%nat ->
  col_reduce_inv n rows j m lows ->
  exists m' lows',
    MapMatrix_ops.col_reduce_step fuel (Ok (m, lows)) j = Ok (m', lows')
    /\ col_reduce_inv n rows (S j) m' lows'.
Proof.
  intros Hrows31 Hcols31 Hfuel Hjn [Hr Hn Hsorted Hll Hlows Hrec].
  destruct (lookup_lt_is_Some_2 (MapMatrix_Base.columns m) j ltac:(lia)) as [colj Hcolj].
  pose proof (MapMatrix_low_head rows m j colj Hsorted Hrows31 Hcolj) as Hlow.
  assert (Hl : match colj with [] => -1 | row :: _ => Z.of_nat row end < Z.of_nat fuel).
  { destruct (sorted_chains_lookup _ _ _ _ Hsorted Hcolj) as [_ Hb].
    destruct colj as [|row rest]; [lia|]. apply Forall_cons in Hb as [Hrow _]. lia. }
  destruct (col_reduce_column_spec n rows j lows Hrows31 Hjn Hll fuel m _ Hr Hn Hsorted
              Hlows Hlow Hl)
    as (m1 & l1 & Hrun & Hr1 & Hn1 & Hsorted1 & Hframe & Hlow1 & Hl1r & Hfree).
  assert (Hother : forall c, c <> j -> MapMatrix.low c m1 = MapMatrix.low c m).
  { intros c Hc. apply MapMatrix_low_cong; [lia|now apply Hframe]. }
  unfold MapMatrix_ops.col_reduce_step. cbn [bind]. rewrite Hrun. cbn [bind].
  rewrite Hlow1. cbn [bind].
  destruct (decide (l1 >= 0)) as [Hl1|Hl1].
  - unfold vsetZ. rewrite decide_False by lia. rewrite vset_lt by lia. cbn [bind].
    rewrite (int_of_unsigned_small j) by lia.
    eexists _, _. split; [reflexivity|]. split; try assumption.
    + now rewrite length_insert.
    + intros l0 c0 Hl0 Hc0. destruct (decide (l0 = Z.to_nat l1)) as [->|Hne].
      * rewrite list_lookup_insert_eq in Hl0 by lia. injection Hl0 as <-.
        rewrite Nat2Z.id, Z2Nat.id by lia. split; [lia|exact Hlow1].
      * rewrite list_lookup_insert_ne in Hl0 by congruence.
        destruct (Hlows l0 c0 Hl0 Hc0) as [Hlt Hlow0]. split; [lia|].
        rewrite Hother by lia. exact Hlow0.
    + intros c l0 Hc Hl0 Hpos. destruct (decide (c = j)) as [->|Hne].
      * rewrite Hlow1 in Hl0. injection Hl0 as <-. apply list_lookup_insert_eq. lia.
      * rewrite Hother in Hl0 by exact Hne.
        pose proof (Hrec c l0 ltac:(lia) Hl0 Hpos) as Hr0.
        rewrite list_lookup_insert_ne; [exact Hr0|].
        intros Heq. destruct Hfree as [?|(c' & Hc' & Hneg)]; [lia|].
        rewrite Heq in Hc'. rewrite Hr0 in Hc'. injection Hc' as <-. lia.
  - exists m1, lows. split; [reflexivity|]. split; try assumption.
    + intros l0 c0 Hl0 Hc0. destruct (Hlows l0 c0 Hl0 Hc0) as [Hlt Hlow0]. split; [lia|].
      rewrite Hother by lia. exact Hlow0.
    + intros c l0 Hc Hl0 Hpos. destruct (decide (c = j)) as [->|Hne].
      * rewrite Hlow1 in Hl0. injection Hl0 as <-. lia.
      * rewrite Hother in Hl0 by exact Hne. apply (Hrec c l0); [lia|exact Hl0|exact Hpos].
Qed.

Lemma col_reduce_fold_spec n rows fuel :
  Z.of_nat rows <= 2 ^ 31 -> Z.of_nat n <= 2 ^ 31 ->
  (rows <= fuel)%nat ->
  forall k j (m : MapMatrix_Base.t) lows,
    (j + k = n)%nat -> col_reduce_inv n rows j m lows ->
    exists m' lows',
      fold_left (MapMatrix_ops.col_reduce_step fuel) (seq j k) (Ok (m, lows)) = Ok (m', lows')
      /\ col_reduce_inv n rows n m' lows'.
Proof.
  intros Hrows31 Hcols31 Hfuel. induction k as [|k IH]; intros j m lows Hjk Hinv.
  - exists m, lows. split; [reflexivity|]. now assert (j = n) as -> by lia.
  - cbn [seq fold_left].
    destruct (col_reduce_step_spec n rows fuel j m lows Hrows31 Hcols31 Hfuel ltac:(lia) Hinv)
      as (m1 & lows1 & Hstep & Hinv1).
    rewrite Hstep. apply IH; [lia|exact Hinv1].
Qed.

(** X21. [MapMatrix::col_reduce] on a matrix with sorted chains and at
    most [2^31] rows and columns (so that the lows and the column indices
    kept in [lows] fit an [int]) runs to completion (the while loop needs
    at most one column addition per row) and leaves a reduced matrix: the
    chains are sorted and no two non-empty columns have the same low. *)
Theorem col_reduce_leaves_reduced_matrix (m : MapMatrix_Base.t) (fuel : nat) :
  sorted_chains (MapMatrix_Base.num_rows m) (MapMatrix_Base.columns m) ->
  Z.of_nat (MapMatrix_Base.num_rows m) <= 2 ^ 31 ->
  Z.of_nat (length (MapMatrix_Base.columns m)) <= 2 ^ 31 ->
  (MapMatrix_Base.num_rows m <= fuel)%nat ->
  exists m' lows,
    MapMatrix_ops.col_reduce fuel m = Ok (m', lows)
    /\ sorted_chains (MapMatrix_Base.num_rows m') (MapMatrix_Base.columns m')
    /\ length (MapMatrix_Base.columns m') = length (MapMatrix_Base.columns m)
    /\ forall j1 j2 l, MapMatrix.low j1 m' = Ok l -> MapMatrix.low j2 m' = Ok l ->
         l <> -1 -> j1 = j2.
Proof.
  intros Hsorted Hrows31 Hcols31 Hfuel.
  destruct (col_reduce_fold_spec (length (MapMatrix_Base.columns m))
              (MapMatrix_Base.num_rows m) fuel Hrows31 Hcols31 Hfuel
              (length (MapMatrix_Base.columns m)) 0 m
              (replicate (MapMatrix_Base.num_rows m) (-1)) ltac:(lia))
    as (m' & lows & Hrun & [Hr Hn Hsorted' Hll Hlows Hrec]).
  { split; try reflexivity; try assumption.
    - apply length_replicate.
    - intros l c Hl Hc. apply lookup_replicate in Hl as [-> _]. lia.
    - intros c l Hc. lia. }
  exists m', lows. split; [exact Hrun|]. split; [now rewrite Hr|]. split; [exact Hn|].
  assert (Hin : forall j l, MapMatrix.low j m' = Ok l ->
            (j < length (MapMatrix_Base.columns m))%nat).
  { intros j l Hl. unfold MapMatrix.low in Hl.
    destruct (decide (length (MapMatrix_Base.columns m') <= j)%nat); [discriminate|lia]. }
  assert (Hnonneg : forall j l, MapMatrix.low j m' = Ok l -> l <> -1 -> 0 <= l).
  { intros j l Hl Hne. pose proof (Hin j l Hl) as Hj.
    destruct (lookup_lt_is_Some_2 (MapMatrix_Base.columns m') j ltac:(lia)) as [col Hcol].
    rewrite (MapMatrix_low_head _ m' j col Hsorted' Hrows31 Hcol) in Hl.
    injection Hl as <-. destruct col; [contradiction|lia]. }
  intros j1 j2 l H1 H2 Hne.
  pose proof (Hrec j1 l (Hin _ _ H1) H1 (Hnonneg _ _ H1 Hne)) as E1.
  pose proof (Hrec j2 l (Hin _ _ H2) H2 (Hnonneg _ _ H2 Hne)) as E2.
  rewrite E1 in E2. injection E2. lia.
Qed.

Lemma col_reduce_leaves_reduced_matrix_witness :
  exists m' lows,
    MapMatrix_ops.col_reduce 5 example_store = Ok (m', lows)
    /\ sorted_chains (MapMatrix_Base.num_rows m') (MapMatrix_Base.columns m')
    /\ length (MapMatrix_Base.columns m') = length (MapMatrix_Base.columns example_store)
    /\ forall j1 j2 l, MapMatrix.low j1 m' = Ok l -> MapMatrix.low j2 m' = Ok l ->
         l <> -1 -> j1 = j2.
Proof.
  apply (col_reduce_leaves_reduced_matrix example_store 5).
  - exact example_store_sorted.
  - cbn. lia.
  - cbn. lia.
  - cbn. lia.
Defined.

(** ** [MapMatrix_Perm::find_low] and [swap_columns] *)

Lemma find_low_loop_spec (m : MapMatrix_Perm.t) (l : Z) (n : nat) :
  0 <= l < 2 ^ 32 - 1 ->
  (forall j, (j < n)%nat -> exists lj, MapMatrix_Perm.low j m = Ok lj /\ -1 <= lj < 2 ^ 31) ->
  forall k s, (s + k = n)%nat ->
    exists r, MapMatrix_Perm_ops.find_low_loop l (seq s k) m = Ok r
      /\ ((r = -1 /\ forall j, (s <= j < n)%nat -> MapMatrix_Perm.low j m <> Ok l)
          \/ (0 <= r /\ (s <= Z.to_nat r < n)%nat
              /\ MapMatrix_Perm.low (Z.to_nat r) m = Ok l
              /\ forall j, (s <= j < Z.to_nat r)%nat -> MapMatrix_Perm.low j m <> Ok l)).
Proof.
  intros Hl Hlow. induction k as [|k IH]; intros s Hsk.
  - exists (-1). split; [reflexivity|]. left. split; [reflexivity|]. intros j Hj. lia.
  - cbn [seq MapMatrix_Perm_ops.find_low_loop].
    destruct (Hlow s ltac:(lia)) as (ls & Hls & Hrange). rewrite Hls. cbn [bind].
    assert (Hmod : ls mod 2 ^ 32 = l <-> ls = l).
    { destruct (decide (ls = -1)) as [->|Hne].
      - change ((-1) mod 2 ^ 32) with (2 ^ 32 - 1). lia.
      - rewrite Z.mod_small by lia. reflexivity. }
    destruct (decide (ls mod 2 ^ 32 = l)) as [Heq|Hneq].
    + exists (Z.of_nat s). split; [reflexivity|]. right. rewrite Nat2Z.id.
      split; [lia|]. split; [lia|]. split; [now rewrite Hls, (proj1 Hmod Heq)|].
      intros j Hj. lia.
    + destruct (IH (S s) ltac:(lia)) as (r & Hrun & Hcases).
      exists r. split; [exact Hrun|].
      assert (Hs : MapMatrix_Perm.low s m <> Ok l).
      { rewrite Hls. intros [= ->]. apply Hneq. now apply Hmod. }
      destruct Hcases as [[-> Hnone]|(Hr & Hrn & Hlr & Hbefore)]; [left|right].
      * split; [reflexivity|]. intros j Hj.
        destruct (decide (j = s)) as [->|]; [exact Hs|]. apply Hnone. lia.
      * split; [exact Hr|]. split; [lia|]. split; [exact Hlr|].
        intros j Hj. destruct (decide (j = s)) as [->|]; [exact Hs|]. apply Hbefore. lia.
Qed.



(** X23. [MapMatrix_Perm::swap_columns] reads [col_perm], which the
    identity constructor [MapMatrix_Perm(size)] leaves empty: on a matrix
    made by that constructor every call of [swap_columns] indexes a
    vector out of its bounds. *)
Theorem swap_columns_after_identity_constructor (size j : nat) :
  MapMatrix_Perm_ops.swap_columns j (MapMatrix_Perm_identity size) = Fail OutOfBounds.
Proof.
  unfold MapMatrix_Perm_ops.swap_columns, MapMatrix_Perm_identity. cbn.
  unfold vget at 1. destruct (_ !! j) as [temp|] eqn:Ej; [|reflexivity]. cbn [bind].
  unfold vget at 1. destruct (_ !! (j + 1)%nat) as [next|] eqn:Ej1; [|reflexivity].
  cbn [bind]. apply lookup_lt_Some in Ej, Ej1.
  rewrite vset_lt by exact Ej. cbn [bind].
  rewrite vset_lt by (rewrite length_insert; exact Ej1). cbn [bind]. reflexivity.
Qed.

(** ** Row and column swaps of the permuted matrices *)

(** The exchange of [perm[a]] and [perm[b]] in [swap_rows] composes the
    permutation with the transposition of [i] and [i+1]. *)
Lemma swap_perm_lookup rows (perm mrep : list nat) i a b :
  perm_consistent rows perm mrep -> perm_consistent rows mrep perm ->
  (i + 1 < rows)%nat ->
  mrep !! i = Some a -> mrep !! (i + 1)%nat = Some b ->
  forall r p, perm !! r = Some p ->
    <[b:=i]> (<[a:=(i + 1)%nat]> perm) !! r = Some (transpose_rows i p).
Proof.
  intros (Hlp & Hlm & Hinv) (_ & _ & Hinv') Hi Ha Hb r p Hr.
  destruct (Hinv i ltac:(lia)) as (a' & Ha' & Hpa). rewrite Ha in Ha'. injection Ha' as <-.
  destruct (Hinv (i + 1)%nat Hi) as (b' & Hb' & Hpb). rewrite Hb in Hb'. injection Hb' as <-.
  pose proof (lookup_lt_Some _ _ _ Hpa) as Hla.
  pose proof (lookup_lt_Some _ _ _ Hpb) as Hlb.
  pose proof (lookup_lt_Some _ _ _ Hr) as Hlr.
  assert (Hab : a <> b) by (intros ->; rewrite Hpa in Hpb; injection Hpb; lia).
  assert (Hback : mrep !! p = Some r).
  { destruct (Hinv' r ltac:(lia)) as (p' & Hp' & Hm). rewrite Hr in Hp'.
    injection Hp' as <-. exact Hm. }
  unfold transpose_rows.
  destruct (decide (r = b)) as [->|Hrb].
  - rewrite list_lookup_insert_eq by (rewrite length_insert; lia).
    rewrite Hpb in Hr. injection Hr as <-.
    rewrite decide_False by lia. now rewrite decide_True.
  - rewrite list_lookup_insert_ne by congruence.
    destruct (decide (r = a)) as [->|Hra].
    + rewrite list_lookup_insert_eq by lia.
      rewrite Hpa in Hr. injection Hr as <-. now rewrite decide_True.
    + rewrite list_lookup_insert_ne by congruence. rewrite Hr.
      destruct (decide (p = i)) as [->|Hpi]; [rewrite Ha in Hback; congruence|].
      destruct (decide (p = (i + 1)%nat)) as [->|Hpi1]; [rewrite Hb in Hback; congruence|].
      reflexivity.
Qed.

Lemma MapMatrix_Perm_swap_rows_run rows (m : MapMatrix_Perm.t) i a b :
  perm_consistent rows (MapMatrix_Perm.perm m) (MapMatrix_Perm.mrep m) ->
  (i + 1 < rows)%nat ->
  MapMatrix_Perm.mrep m !! i = Some a ->
  MapMatrix_Perm.mrep m !! (i + 1)%nat = Some b ->
  MapMatrix_Perm.swap_rows i m
  = Ok {| MapMatrix_Perm.store := MapMatrix_Perm.store m;
          MapMatrix_Perm.perm := <[b:=i]> (<[a:=(i + 1)%nat]> (MapMatrix_Perm.perm m));
          MapMatrix_Perm.mrep := <[(i + 1)%nat:=a]> (<[i:=b]> (MapMatrix_Perm.mrep m));
          MapMatrix_Perm.low_col := MapMatrix_Perm.low_col m;
          MapMatrix_Perm.col_perm := MapMatrix_Perm.col_perm m |}.
Proof.
  intros (Hlp & Hlm & Hinv) Hi Ha Hb.
  destruct (Hinv i ltac:(lia)) as (a' & Ha' & Hpa). rewrite Ha in Ha'. injection Ha' as <-.
  destruct (Hinv (i + 1)%nat Hi) as (b' & Hb' & Hpb). rewrite Hb in Hb'. injection Hb' as <-.
  pose proof (lookup_lt_Some _ _ _ Hpa) as Hla.
  pose proof (lookup_lt_Some _ _ _ Hpb) as Hlb.
  unfold MapMatrix_Perm.swap_rows.
  rewrite (vget_Some _ _ _ Ha), (vget_Some _ _ _ Hb). cbn [bind].
  rewrite (vget_Some _ _ _ Hpa), (vget_Some _ _ _ Hpb). cbn [bind].
  rewrite (vset_lt (MapMatrix_Perm.perm m)) by exact Hla. cbn [bind].
  rewrite vset_lt by now rewrite length_insert. cbn [bind].
  rewrite (vset_lt (MapMatrix_Perm.mrep m)) by lia. cbn [bind].
  rewrite vset_lt by (rewrite length_insert; lia). cbn [bind].
  reflexivity.
Qed.

(** X24. [MapMatrix_Perm::swap_rows(i)] exchanges the rows [i] and [i+1]
    of the matrix as [entry] reads it and leaves every other row as it
    was; the chains themselves are not touched. *)
Theorem perm_swap_rows_exchanges_rows (rows : nat) (m : MapMatrix_Perm.t) (i : nat) :
  perm_consistent rows (MapMatrix_Perm.perm m) (MapMatrix_Perm.mrep m) ->
  (i + 1 < rows)%nat ->
  exists m',
    MapMatrix_Perm.swap_rows i m = Ok m'
    /\ MapMatrix_Perm.store m' = MapMatrix_Perm.store m
    /\ forall j,
         MapMatrix_Perm.entry i j m' = MapMatrix_Perm.entry (i + 1) j m
         /\ MapMatrix_Perm.entry (i + 1) j m' = MapMatrix_Perm.entry i j m
         /\ forall r, r <> i -> r <> (i + 1)%nat ->
              MapMatrix_Perm.entry r j m' = MapMatrix_Perm.entry r j m.
Proof.
  intros Hc Hi. pose proof Hc as (Hlp & Hlm & Hinv).
  destruct (Hinv i ltac:(lia)) as (a & Ha & Hpa).
  destruct (Hinv (i + 1)%nat Hi) as (b & Hb & Hpb).
  rewrite (MapMatrix_Perm_swap_rows_run rows m i a b Hc Hi Ha Hb).
  eexists. split; [reflexivity|]. split; [reflexivity|].
  intros j. unfold MapMatrix_Perm.entry. cbn.
  split; [|split].
  - rewrite (vget_Some _ _ b), (vget_Some _ _ _ Hb); [reflexivity|].
    rewrite list_lookup_insert_ne by lia. apply list_lookup_insert_eq. lia.
  - rewrite (vget_Some _ _ a), (vget_Some _ _ _ Ha); [reflexivity|].
    apply list_lookup_insert_eq. rewrite length_insert. lia.
  - intros r Hr1 Hr2. unfold vget. rewrite !list_lookup_insert_ne by lia. reflexivity.
Qed.

Lemma perm_swap_rows_exchanges_rows_witness :
  exists m',
    MapMatrix_Perm.swap_rows 0 RU_example_matrix = Ok m'
    /\ MapMatrix_Perm.store m' = MapMatrix_Perm.store RU_example_matrix
    /\ forall j,
         MapMatrix_Perm.entry 0 j m' = MapMatrix_Perm.entry (0 + 1) j RU_example_matrix
         /\ MapMatrix_Perm.entry (0 + 1) j m' = MapMatrix_Perm.entry 0 j RU_example_matrix
         /\ forall r, r <> 0%nat -> r <> (0 + 1)%nat ->
              MapMatrix_Perm.entry r j m' = MapMatrix_Perm.entry r j RU_example_matrix.
Proof.
  apply (perm_swap_rows_exchanges_rows 2 RU_example_matrix 0).
  - apply (perm_consistent_identity 2).
  - lia.
Defined.

(** With at most [2^31] rows the low is the largest permuted row itself. *)
Lemma low_spec_elim rows (perm mrep : list nat) col l :
  perm_consistent rows mrep perm -> Z.of_nat rows <= 2 ^ 31 ->
  low_spec perm col l ->
  (col = [] /\ l = -1)
  \/ (0 <= l /\ exists r, In r col /\ perm !! r = Some (Z.to_nat l)
      /\ forall r', In r' col -> exists p, perm !! r' = Some p /\ (p <= Z.to_nat l)%nat).
Proof.
  intros Hmp Hrows [H|(a & -> & r & Hr & Hp & Hmax)]; [now left|right].
  pose proof (perm_value_bound rows perm mrep r a Hmp Hp) as Ha.
  rewrite int_of_unsigned_small by lia. rewrite Nat2Z.id.
  split; [lia|]. exists r. split; [exact Hr|]. split; [exact Hp|exact Hmax].
Qed.

Lemma low_spec_intro (perm : list nat) col l :
  l < 2 ^ 31 ->
  (0 <= l /\ exists r, In r col /\ perm !! r = Some (Z.to_nat l)
    /\ forall r', In r' col -> exists p, perm !! r' = Some p /\ (p <= Z.to_nat l)%nat) ->
  low_spec perm col l.
Proof.
  intros Hlt (Hl & r & Hr & Hp & Hmax). right. exists (Z.to_nat l).
  split; [rewrite int_of_unsigned_small by lia; lia|].
  exists r. split; [exact Hr|]. split; [exact Hp|exact Hmax].
Qed.

(** X25. How [swap_rows(i)] moves the lows in a matrix with at most
    [2^31] rows (so that a row index fits the [int] that [low] returns),
    as the note in the source says: a column with low [i] gets low
    [i+1]; a column with low [i+1] gets low [i] unless its entry in row
    [i] is 1, in which case its low stays [i+1]; every other low is
    unchanged. *)
Theorem swap_rows_moves_the_lows (m : MapMatrix_Perm.t) (i j : nat) (l : Z) :
  sorted_chains (MapMatrix_Base.num_rows (MapMatrix_Perm.store m))
                (MapMatrix_Base.columns (MapMatrix_Perm.store m)) ->
  Z.of_nat (MapMatrix_Base.num_rows (MapMatrix_Perm.store m)) <= 2 ^ 31 ->
  perm_consistent (MapMatrix_Base.num_rows (MapMatrix_Perm.store m))
                  (MapMatrix_Perm.perm m) (MapMatrix_Perm.mrep m) ->
  perm_consistent (MapMatrix_Base.num_rows (MapMatrix_Perm.store m))
                  (MapMatrix_Perm.mrep m) (MapMatrix_Perm.perm m) ->
  (i + 1 < MapMatrix_Base.num_rows (MapMatrix_Perm.store m))%nat ->
  MapMatrix_Perm.low j m = Ok l ->
  exists m' e,
    MapMatrix_Perm.swap_rows i m = Ok m'
    /\ MapMatrix_Perm.entry i j m = Ok e
    /\ MapMatrix_Perm.low j m'
       = Ok (if decide (l = Z.of_nat i) then Z.of_nat i + 1
             else if decide (l = Z.of_nat i + 1)
                  then (if e then Z.of_nat i + 1 else Z.of_nat i)
                  else l).
Proof.
  intros Hsorted Hrows31 Hc Hc' Hi Hlow.
  set (rows := MapMatrix_Base.num_rows (MapMatrix_Perm.store m)) in *.
  pose proof Hc as (Hlp & Hlm & Hinv).
  destruct (Hinv i ltac:(lia)) as (a & Ha & Hpa).
  destruct (Hinv (i + 1)%nat Hi) as (b & Hb & Hpb).
  pose proof (lookup_lt_Some _ _ _ Hpa) as Hla.
  assert (Hj : (j < length (MapMatrix_Base.columns (MapMatrix_Perm.store m)))%nat).
  { unfold MapMatrix_Perm.low in Hlow.
    destruct (decide (length (MapMatrix_Base.columns (MapMatrix_Perm.store m)) <= j)%nat);
      [discriminate|lia]. }
  destruct (lookup_lt_is_Some_2 _ j Hj) as [col Hcol].
  pose proof (proj1 (Forall_forall _ _) Hsorted col (list_elem_of_lookup_2 _ _ _ Hcol))
    as [Hsd Hbound].
  destruct (low_Ok m j col Hcol) as (l0 & Hl0 & Hspec).
  { rewrite Hlp. exact Hbound. }
  rewrite Hlow in Hl0. injection Hl0 as <-.
  rewrite (MapMatrix_Perm_swap_rows_run rows m i a b Hc Hi Ha Hb).
  set (m' := {| MapMatrix_Perm.store := MapMatrix_Perm.store m;
                MapMatrix_Perm.perm := <[b:=i]> (<[a:=(i + 1)%nat]> (MapMatrix_Perm.perm m));
                MapMatrix_Perm.mrep := <[(i + 1)%nat:=a]> (<[i:=b]> (MapMatrix_Perm.mrep m));
                MapMatrix_Perm.low_col := MapMatrix_Perm.low_col m;
                MapMatrix_Perm.col_perm := MapMatrix_Perm.col_perm m |}).
  exists m', (MapMatrix_Base.entry_chain a col).
  split; [reflexivity|]. split.
  { unfold MapMatrix_Perm.entry. rewrite (vget_Some _ _ _ Ha). cbn [bind].
    apply base_entry_Ok; [exact Hcol|]. fold rows. lia. }
  destruct (low_Ok m' j col Hcol) as (l' & Hl' & Hspec').
  { cbn. rewrite !length_insert, Hlp. exact Hbound. }
  rewrite Hl'. f_equal.
  apply (low_spec_fun (MapMatrix_Perm.perm m') col); [exact Hspec'|].
  pose proof (swap_perm_lookup rows _ _ i a b Hc Hc' Hi Ha Hb) as Hswap.
  cbn [MapMatrix_Perm.perm m'].
  pose proof (low_spec_bound rows _ _ col l Hc' Hspec) as Hlr.
  destruct (low_spec_elim rows _ _ col l Hc' Hrows31 Hspec)
    as [[-> ->]|(Hl & r & Hr & Hpr & Hmax)].
  - rewrite !decide_False by lia. left. now split.
  - apply low_spec_intro.
    { destruct (decide (l = Z.of_nat i)); [lia|].
      destruct (decide (l = Z.of_nat i + 1)); [|lia].
      destruct (MapMatrix_Base.entry_chain a col); lia. }
    assert (Hmax' : forall r', In r' col -> forall E,
              (forall p, (p <= Z.to_nat l)%nat -> In r' col ->
                 MapMatrix_Perm.perm m !! r' = Some p -> (transpose_rows i p <= E)%nat) ->
              exists p', <[b:=i]> (<[a:=(i + 1)%nat]> (MapMatrix_Perm.perm m)) !! r' = Some p'
                         /\ (p' <= E)%nat).
    { intros r' Hr' E HE. destruct (Hmax r' Hr') as (p & Hp & Hle).
      exists (transpose_rows i p). split; [now apply Hswap|]. now apply (HE p). }
    destruct (decide (l = Z.of_nat i)) as [->|Hli].
    + split; [lia|]. exists r. split; [exact Hr|]. split.
      * rewrite (Hswap r _ Hpr). f_equal. unfold transpose_rows.
        rewrite decide_True by lia. lia.
      * intros r' Hr'. apply Hmax'; [exact Hr'|].
        intros p Hp _ _. unfold transpose_rows.
        destruct (decide (p = i)); [lia|]. destruct (decide (p = (i + 1)%nat)); lia.
    + destruct (decide (l = Z.of_nat i + 1)) as [->|Hli1].
      * destruct (MapMatrix_Base.entry_chain a col) eqn:Ee.
        -- split; [lia|]. exists a. split; [now apply (entry_chain_in a col Hsd)|]. split.
           ++ rewrite (Hswap a _ Hpa). f_equal. unfold transpose_rows.
              rewrite decide_True by lia. lia.
           ++ intros r' Hr'. apply Hmax'; [exact Hr'|].
              intros p Hp _ _. unfold transpose_rows.
              destruct (decide (p = i)); [lia|]. destruct (decide (p = (i + 1)%nat)); lia.
        -- split; [lia|]. exists r. split; [exact Hr|]. split.
           ++ rewrite (Hswap r _ Hpr). f_equal. unfold transpose_rows.
              rewrite decide_False by lia. rewrite decide_True by lia. lia.
           ++ intros r' Hr'. apply Hmax'; [exact Hr'|].
              intros p Hp Hin Hpp. unfold transpose_rows.
              destruct (decide (p = i)) as [->|].
              ** exfalso. destruct Hc' as (_ & _ & Hinv').
                 pose proof (lookup_lt_Some _ _ _ Hpp) as Hlr'.
                 destruct (Hinv' r' ltac:(lia)) as (p' & Hp' & Hm).
                 rewrite Hpp in Hp'. injection Hp' as <-.
                 rewrite Ha in Hm. injection Hm as ->.
                 apply (entry_chain_in r' col Hsd) in Hin. congruence.
              ** destruct (decide (p = (i + 1)%nat)); lia.
      * split; [lia|]. exists r. split; [exact Hr|]. split.
        -- rewrite (Hswap r _ Hpr). f_equal. unfold transpose_rows.
           rewrite !decide_False by lia. reflexivity.
        -- intros r' Hr'. apply Hmax'; [exact Hr'|].
           intros p Hp _ _. unfold transpose_rows.
           destruct (decide (p = i)); [lia|]. destruct (decide (p = (i + 1)%nat)); lia.
Qed.

Lemma swap_rows_moves_the_lows_witness :
  exists m' e,
    MapMatrix_Perm.swap_rows 0 RU_example_matrix = Ok m'
    /\ MapMatrix_Perm.entry 0 2 RU_example_matrix = Ok e
    /\ MapMatrix_Perm.low 2 m'
       = Ok (if decide (0 = Z.of_nat 0) then Z.of_nat 0 + 1
             else if decide (0 = Z.of_nat 0 + 1)
                  then (if e then Z.of_nat 0 + 1 else Z.of_nat 0)
                  else 0).
Proof.
  apply (swap_rows_moves_the_lows RU_example_matrix 0 2 0).
  - exact (proj1 RU_example_matrix_wf).
  - cbn. lia.
  - apply (perm_consistent_identity 2).
  - apply (perm_consistent_identity 2).
  - cbn. lia.
  - reflexivity.
Defined.

(** Decides the bound checks on column indices that are in range. *)
Ltac in_range_columns cols :=
  repeat match goal with
         | |- context [decide (length cols <= ?x)%nat] =>
           destruct (decide (length cols <= x)%nat); [lia|]
         end;
  reflexivity.

(** X26. On a matrix whose [col_perm] has one entry per column (as the
    constructor [MapMatrix_Perm(rows, cols)] makes it),
    [MapMatrix_Perm::swap_columns(j)] with columns [j] and [j+1] inside the
    matrix exchanges these two columns, with their entries and their
    lows, and leaves every other column as it was. *)
Theorem swap_columns_exchanges_columns (m : MapMatrix_Perm.t) (j : nat) :
  length (MapMatrix_Perm.col_perm m)
  = length (MapMatrix_Base.columns (MapMatrix_Perm.store m)) ->
  (j + 1 < length (MapMatrix_Base.columns (MapMatrix_Perm.store m)))%nat ->
  exists m',
    MapMatrix_Perm_ops.swap_columns j m = Ok m'
    /\ (forall i,
          MapMatrix_Perm.entry i j m' = MapMatrix_Perm.entry i (j + 1) m
          /\ MapMatrix_Perm.entry i (j + 1) m' = MapMatrix_Perm.entry i j m
          /\ forall k, k <> j -> k <> (j + 1)%nat ->
               MapMatrix_Perm.entry i k m' = MapMatrix_Perm.entry i k m)
    /\ MapMatrix_Perm.low j m' = MapMatrix_Perm.low (j + 1) m
    /\ MapMatrix_Perm.low (j + 1) m' = MapMatrix_Perm.low j m
    /\ forall k, k <> j -> k <> (j + 1)%nat ->
         MapMatrix_Perm.low k m' = MapMatrix_Perm.low k m.
Proof.
  intros Hcp Hj.
  set (cols := MapMatrix_Base.columns (MapMatrix_Perm.store m)) in *.
  destruct (lookup_lt_is_Some_2 cols j ltac:(lia)) as [temp Htemp].
  destruct (lookup_lt_is_Some_2 cols (j + 1) Hj) as [next Hnext].
  destruct (lookup_lt_is_Some_2 (MapMatrix_Perm.col_perm m) j ltac:(lia)) as [a Ha].
  destruct (lookup_lt_is_Some_2 (MapMatrix_Perm.col_perm m) (j + 1) ltac:(lia)) as [b Hb].
  unfold MapMatrix_Perm_ops.swap_columns. fold cols.
  rewrite (vget_Some _ _ _ Htemp), (vget_Some _ _ _ Hnext). cbn [bind].
  rewrite (vset_lt cols) by lia. cbn [bind].
  rewrite vset_lt by (rewrite length_insert; lia). cbn [bind].
  rewrite (vget_Some _ _ _ Ha), (vget_Some _ _ _ Hb). cbn [bind].
  rewrite (vset_lt (MapMatrix_Perm.col_perm m)) by lia. cbn [bind].
  rewrite vset_lt by (rewrite length_insert; lia). cbn [bind].
  eexists. split; [reflexivity|].
  assert (Hnew_j : <[(j + 1)%nat:=temp]> (<[j:=next]> cols) !! j = Some next).
  { rewrite list_lookup_insert_ne by lia. apply list_lookup_insert_eq. lia. }
  assert (Hnew_j1 : <[(j + 1)%nat:=temp]> (<[j:=next]> cols) !! (j + 1)%nat = Some temp).
  { apply list_lookup_insert_eq. rewrite length_insert. lia. }
  assert (Hnew_k : forall k, k <> j -> k <> (j + 1)%nat ->
            <[(j + 1)%nat:=temp]> (<[j:=next]> cols) !! k = cols !! k).
  { intros k Hk1 Hk2. now rewrite !list_lookup_insert_ne by congruence. }
  split; [|split; [|split]].
  - intros i. unfold MapMatrix_Perm.entry. cbn.
    destruct (vget (MapMatrix_Perm.mrep m) i) as [r|f]; cbn [bind];
      [|repeat split; reflexivity].
    unfold MapMatrix_Base.entry, vget. cbn. fold cols. rewrite !length_insert.
    rewrite Hnew_j, Hnew_j1, Htemp, Hnext.
    split; [|split].
    + in_range_columns cols.
    + in_range_columns cols.
    + intros k Hk1 Hk2. now rewrite Hnew_k.
  - unfold MapMatrix_Perm.low, vget. cbn. fold cols. rewrite !length_insert.
    rewrite Hnew_j, Hnext. in_range_columns cols.
  - unfold MapMatrix_Perm.low, vget. cbn. fold cols. rewrite !length_insert.
    rewrite Hnew_j1, Htemp. in_range_columns cols.
  - intros k Hk1 Hk2. unfold MapMatrix_Perm.low, vget. cbn. fold cols.
    rewrite !length_insert. now rewrite Hnew_k.
Qed.

Lemma swap_columns_exchanges_columns_witness :
  exists m',
    MapMatrix_Perm_ops.swap_columns 1 RU_example_matrix = Ok m'
    /\ (forall i,
          MapMatrix_Perm.entry i 1 m' = MapMatrix_Perm.entry i (1 + 1) RU_example_matrix
          /\ MapMatrix_Perm.entry i (1 + 1) m' = MapMatrix_Perm.entry i 1 RU_example_matrix
          /\ forall k, k <> 1%nat -> k <> (1 + 1)%nat ->
               MapMatrix_Perm.entry i k m' = MapMatrix_Perm.entry i k RU_example_matrix)
    /\ MapMatrix_Perm.low 1 m' = MapMatrix_Perm.low (1 + 1) RU_example_matrix
    /\ MapMatrix_Perm.low (1 + 1) m' = MapMatrix_Perm.low 1 RU_example_matrix
    /\ forall k, k <> 1%nat -> k <> (1 + 1)%nat ->
         MapMatrix_Perm.low k m' = MapMatrix_Perm.low k RU_example_matrix.
Proof.
  apply (swap_columns_exchanges_columns RU_example_matrix 1).
  - reflexivity.
  - cbn. lia.
Defined.

(** X27. In [MapMatrix_RowPriority_Perm], whose chains are the rows of
    the matrix, [swap_rows(i)] exchanges the rows [i] and [i+1] and
    [swap_columns(j)] exchanges the columns [j] and [j+1], both as [entry]
    reads the matrix; every other entry reads as before. *)
Theorem row_priority_swaps_exchange (n : nat) (m : MapMatrix_RowPriority_Perm.t)
    (i j : nat) :
  perm_consistent n (MapMatrix_RowPriority_Perm.perm m) (MapMatrix_RowPriority_Perm.mrep m) ->
  (i + 1 < length (MapMatrix_Base.columns (MapMatrix_RowPriority_Perm.store m)))%nat ->
  (j + 1 < n)%nat ->
  (exists m',
     MapMatrix_RowPriority_Perm_ops.swap_rows i m = Ok m'
     /\ forall c,
          MapMatrix_RowPriority_Perm.entry i c m'
          = MapMatrix_RowPriority_Perm.entry (i + 1) c m
          /\ MapMatrix_RowPriority_Perm.entry (i + 1) c m'
             = MapMatrix_RowPriority_Perm.entry i c m
          /\ forall r, r <> i -> r <> (i + 1)%nat ->
               MapMatrix_RowPriority_Perm.entry r c m'
               = MapMatrix_RowPriority_Perm.entry r c m)
  /\ (exists m',
     MapMatrix_RowPriority_Perm_ops.swap_columns j m = Ok m'
     /\ forall r,
          MapMatrix_RowPriority_Perm.entry r j m'
          = MapMatrix_RowPriority_Perm.entry r (j + 1) m
          /\ MapMatrix_RowPriority_Perm.entry r (j + 1) m'
             = MapMatrix_RowPriority_Perm.entry r j m
          /\ forall c, c <> j -> c <> (j + 1)%nat ->
               MapMatrix_RowPriority_Perm.entry r c m'
               = MapMatrix_RowPriority_Perm.entry r c m).
Proof.
  intros Hc Hi Hj. split.
  - set (cols := MapMatrix_Base.columns (MapMatrix_RowPriority_Perm.store m)) in *.
    destruct (lookup_lt_is_Some_2 cols i ltac:(lia)) as [temp Htemp].
    destruct (lookup_lt_is_Some_2 cols (i + 1) Hi) as [next Hnext].
    unfold MapMatrix_RowPriority_Perm_ops.swap_rows. fold cols.
    rewrite (vget_Some _ _ _ Htemp), (vget_Some _ _ _ Hnext). cbn [bind].
    rewrite (vset_lt cols) by lia. cbn [bind].
    rewrite vset_lt by (rewrite length_insert; lia). cbn [bind].
    eexists. split; [reflexivity|].
    intros c. unfold MapMatrix_RowPriority_Perm.entry. cbn.
    destruct (vget (MapMatrix_RowPriority_Perm.mrep m) c) as [k|f]; cbn [bind];
      [|repeat split; reflexivity].
    unfold MapMatrix_Base.entry, vget. cbn. fold cols. rewrite !length_insert.
    split; [|split].
    + rewrite list_lookup_insert_ne by lia.
      rewrite list_lookup_insert_eq by lia. rewrite Hnext.
      in_range_columns cols.
    + rewrite list_lookup_insert_eq by (rewrite length_insert; lia). rewrite Htemp.
      in_range_columns cols.
    + intros r Hr1 Hr2. now rewrite !list_lookup_insert_ne by congruence.
  - pose proof Hc as (Hlp & Hlm & Hinv).
    destruct (Hinv j ltac:(lia)) as (a & Ha & Hpa).
    destruct (Hinv (j + 1)%nat Hj) as (b & Hb & Hpb).
    pose proof (lookup_lt_Some _ _ _ Hpa) as Hla.
    pose proof (lookup_lt_Some _ _ _ Hpb) as Hlb.
    unfold MapMatrix_RowPriority_Perm_ops.swap_columns.
    rewrite (vget_Some _ _ _ Ha), (vget_Some _ _ _ Hb). cbn [bind].
    rewrite (vget_Some _ _ _ Hpa), (vget_Some _ _ _ Hpb). cbn [bind].
    rewrite (vset_lt (MapMatrix_RowPriority_Perm.perm m)) by exact Hla. cbn [bind].
    rewrite vset_lt by now rewrite length_insert. cbn [bind].
    rewrite (vset_lt (MapMatrix_RowPriority_Perm.mrep m)) by lia. cbn [bind].
    rewrite vset_lt by (rewrite length_insert; lia). cbn [bind].
    eexists. split; [reflexivity|].
    intros r. unfold MapMatrix_RowPriority_Perm.entry. cbn.
    split; [|split].
    + rewrite (vget_Some _ _ b), (vget_Some _ _ _ Hb); [reflexivity|].
      rewrite list_lookup_insert_ne by lia. apply list_lookup_insert_eq. lia.
    + rewrite (vget_Some _ _ a), (vget_Some _ _ _ Ha); [reflexivity|].
      apply list_lookup_insert_eq. rewrite length_insert. lia.
    + intros c Hc1 Hc2. unfold vget. rewrite !list_lookup_insert_ne by lia. reflexivity.
Qed.

Lemma row_priority_swaps_exchange_witness :
  let m := MapMatrix_RowPriority_Perm.identity 3 in
  (exists m',
     MapMatrix_RowPriority_Perm_ops.swap_rows 0 m = Ok m'
     /\ forall c,
          MapMatrix_RowPriority_Perm.entry 0 c m'
          = MapMatrix_RowPriority_Perm.entry (0 + 1) c m
          /\ MapMatrix_RowPriority_Perm.entry (0 + 1) c m'
             = MapMatrix_RowPriority_Perm.entry 0 c m
          /\ forall r, r <> 0%nat -> r <> (0 + 1)%nat ->
               MapMatrix_RowPriority_Perm.entry r c m'
               = MapMatrix_RowPriority_Perm.entry r c m)
  /\ (exists m',
     MapMatrix_RowPriority_Perm_ops.swap_columns 1 m = Ok m'
     /\ forall r,
          MapMatrix_RowPriority_Perm.entry r 1 m'
          = MapMatrix_RowPriority_Perm.entry r (1 + 1) m
          /\ MapMatrix_RowPriority_Perm.entry r (1 + 1) m'
             = MapMatrix_RowPriority_Perm.entry r 1 m
          /\ forall c, c <> 1%nat -> c <> (1 + 1)%nat ->
               MapMatrix_RowPriority_Perm.entry r c m'
               = MapMatrix_RowPriority_Perm.entry r c m).
Proof.
  intros m. apply (row_priority_swaps_exchange 3 m 0 1).
  - apply (perm_consistent_identity 3).
  - cbn. lia.
  - lia.
Defined.

(** ** [MapMatrix::add_column] from another matrix *)

(** X28. [MapMatrix::add_column(other, j, k)] with another matrix
    [other] of the same height adds column [j] of [other] to column [k]
    of this matrix mod 2, leaves the other columns as they were and keeps
    the chains sorted. *)
Theorem add_column_from_is_sum_mod_2 (other m : MapMatrix_Base.t) (j k : nat) :
  sorted_chains (MapMatrix_Base.num_rows m) (MapMatrix_Base.columns other) ->
  sorted_chains (MapMatrix_Base.num_rows m) (MapMatrix_Base.columns m) ->
  MapMatrix_Base.num_rows other = MapMatrix_Base.num_rows m ->
  (j < length (MapMatrix_Base.columns other))%nat ->
  (k < length (MapMatrix_Base.columns m))%nat ->
  exists m',
    MapMatrix_ops.add_column_from other j k m = Ok m'
    /\ sorted_chains (MapMatrix_Base.num_rows m') (MapMatrix_Base.columns m')
    /\ (forall i, (i < MapMatrix_Base.num_rows m)%nat ->
          exists bj bk,
            MapMatrix_Base.entry i j other = Ok bj /\ MapMatrix_Base.entry i k m = Ok bk
            /\ MapMatrix_Base.entry i k m' = Ok (xorb bj bk))
    /\ (forall i k', k' <> k ->
          MapMatrix_Base.entry i k' m' = MapMatrix_Base.entry i k' m).
Proof.
  intros Hso Hsm Hrows Hj Hk.
  destruct (lookup_lt_is_Some_2 _ j Hj) as [colj Hcolj].
  destruct (lookup_lt_is_Some_2 _ k Hk) as [colk Hcolk].
  destruct (sorted_chains_lookup _ _ _ _ Hso Hcolj) as [Hsj Hbj].
  destruct (sorted_chains_lookup _ _ _ _ Hsm Hcolk) as [Hsk Hbk].
  destruct (add_chain_spec colj colk Hsj Hsk) as [Hs' Hent].
  unfold MapMatrix_ops.add_column_from.
  rewrite decide_False by lia.
  rewrite (vget_Some _ _ _ Hcolj), (vget_Some _ _ _ Hcolk). cbn [bind].
  eexists. split; [reflexivity|]. split; [|split].
  - cbn. apply sorted_chains_insert; [exact Hsm|exact Hs'|].
    apply Forall_forall. intros x Hx.
    apply list_elem_of_In, (add_chain_in colj colk x Hsj Hsk) in Hx.
    rewrite Forall_forall in Hbj, Hbk.
    destruct Hx as [Hx|Hx]; [apply Hbj|apply Hbk]; now apply list_elem_of_In.
  - intros i Hi. eexists _, _.
    split; [apply (base_entry_Ok other i j colj Hcolj); lia|].
    split; [apply (base_entry_Ok m i k colk Hcolk Hi)|].
    rewrite (base_entry_Ok _ i k (MapMatrix_Base.add_chain colj colk)).
    + now rewrite Hent.
    + cbn. now apply list_lookup_insert_eq.
    + exact Hi.
  - intros i k' Hk'. now apply base_entry_other.
Qed.

Lemma add_column_from_is_sum_mod_2_witness :
  exists m',
    MapMatrix_ops.add_column_from example_store 0 1 example_store = Ok m'
    /\ sorted_chains (MapMatrix_Base.num_rows m') (MapMatrix_Base.columns m')
    /\ (forall i, (i < MapMatrix_Base.num_rows example_store)%nat ->
          exists bj bk,
            MapMatrix_Base.entry i 0 example_store = Ok bj
            /\ MapMatrix_Base.entry i 1 example_store = Ok bk
            /\ MapMatrix_Base.entry i 1 m' = Ok (xorb bj bk))
    /\ (forall i k', k' <> 1%nat ->
          MapMatrix_Base.entry i k' m' = MapMatrix_Base.entry i k' example_store).
Proof.
  apply (add_column_from_is_sum_mod_2 example_store example_store 0 1).
  - exact example_store_sorted.
  - exact example_store_sorted.
  - reflexivity.
  - cbn. lia.
  - cbn. lia.
Defined.

(** ** The constructor of a colex matrix from a lex matrix *)

(** A property kept by every step of a loop holds when the loop has run. *)
Lemma fold_left_result_preserves {S A : Type} (f : result S -> A -> result S)
    (P : S -> Prop) :
  (forall e a, f (Fail e) a = Fail e) ->
  (forall s a s', f (Ok s) a = Ok s' -> P s -> P s') ->
  forall l s s', fold_left f l (Ok s) = Ok s' -> P s -> P s'.
Proof.
  intros Hfail Hstep.
  assert (Hstuck : forall l e, fold_left f l (Fail e) = Fail e).
  { induction l as [|a l IH]; intros e; [reflexivity|]. cbn. now rewrite Hfail. }
  induction l as [|a l IH]; intros s s' Hrun HP.
  - cbn in Hrun. now injection Hrun as <-.
  - cbn in Hrun. destruct (f (Ok s) a) as [s1|e] eqn:E.
    + exact (IH s1 s' Hrun (Hstep s a s1 E HP)).
    + rewrite Hstuck in Hrun. discriminate.
Qed.

Lemma move_columns_num_rows first_col last_col src dst cur src' dst' cur' :
  LazyHeap.move_columns first_col last_col (src, dst, cur) = Ok (src', dst', cur') ->
  LazyHeap.MapMatrix.num_rows dst' = LazyHeap.MapMatrix.num_rows dst.
Proof.
  unfold LazyHeap.move_columns. intros Hrun.
  refine (fold_left_result_preserves _
            (fun st => LazyHeap.MapMatrix.num_rows (snd (fst st))
                       = LazyHeap.MapMatrix.num_rows dst)
            _ _ _ (src, dst, cur) (src', dst', cur') Hrun eq_refl).
  - reflexivity.
  - intros [[s d] c] j [[s1 d1] c1] H HP. cbn [bind] in H.
    destruct (LazyHeap.to_index j) as [ji|]; cbn [bind] in H; [|discriminate].
    destruct (LazyHeap.to_index c) as [ci|]; cbn [bind] in H; [|discriminate].
    unfold LazyHeap.MapMatrix.move_col in H.
    destruct (_move_col_from _ _ _ _) as [[o v]|]; cbn [bind] in H; [|discriminate].
    injection H as <- <- <-. exact HP.
Qed.

Lemma from_lex_fold_num_rows kind Q src dst dind cur src' dst' dind' cur' :
  fold_left (LazyHeap.from_lex_step kind) Q (Ok (src, dst, dind, cur))
  = Ok (src', dst', dind', cur') ->
  LazyHeap.MapMatrix.num_rows dst' = LazyHeap.MapMatrix.num_rows dst.
Proof.
  intros Hrun.
  refine (fold_left_result_preserves _
            (fun st => LazyHeap.MapMatrix.num_rows (snd (fst (fst st)))
                       = LazyHeap.MapMatrix.num_rows dst)
            _ _ _ (src, dst, dind, cur) (src', dst', dind', cur') Hrun eq_refl).
  - intros e [y x]. reflexivity.
  - intros [[[s d] di] c] [y x] [[[s1 d1] di1] c1] H HP.
    unfold LazyHeap.from_lex_step in H. cbn [bind] in H.
    destruct (LazyHeap.IndexMatrix.start_index_lex y x kind) as [lo|];
      cbn [bind] in H; [|discriminate].
    destruct (LazyHeap.IndexMatrix.get y x kind) as [hi|]; cbn [bind] in H; [|discriminate].
    destruct (LazyHeap.move_columns lo hi (s, d, c)) as [[[s2 d2] c2]|] eqn:E;
      cbn [bind] in H; [|discriminate].
    destruct (LazyHeap.IndexMatrix.set y x (c2 - 1) di) as [di2|];
      cbn [bind] in H; [|discriminate].
    injection H as <- <- <- <-. cbn [fst snd] in HP |- *.
    rewrite (move_columns_num_rows _ _ _ _ _ _ _ _ E). exact HP.
Qed.

Lemma from_lex_fold_index kc kind :
  index_shape kind ->
  forall Q done src dst dst_ind current_index,
    (forall y x, In (y, x) Q ->
       (y < LazyHeap.IndexMatrix.num_rows kind)%nat
       /\ (x < LazyHeap.IndexMatrix.num_cols kind)%nat) ->
    List.NoDup Q ->
    from_lex_inv kc done src dst current_index ->
    index_shape dst_ind ->
    LazyHeap.IndexMatrix.num_rows dst_ind = LazyHeap.IndexMatrix.num_rows kind ->
    LazyHeap.IndexMatrix.num_cols dst_ind = LazyHeap.IndexMatrix.num_cols kind ->
    List.NoDup (done ++ flat_map (bigrade_columns kind) Q) ->
    (forall j, In j (done ++ flat_map (bigrade_columns kind) Q) ->
       0 <= j < Z.of_nat (length kc)) ->
    exists src' dst' dst_ind' current_index',
      fold_left (LazyHeap.from_lex_step kind) Q (Ok (src, dst, dst_ind, current_index))
      = Ok (src', dst', dst_ind', current_index')
      /\ from_lex_inv kc (done ++ flat_map (bigrade_columns kind) Q)
           src' dst' current_index'
      /\ index_shape dst_ind'
      /\ LazyHeap.IndexMatrix.num_rows dst_ind' = LazyHeap.IndexMatrix.num_rows kind
      /\ LazyHeap.IndexMatrix.num_cols dst_ind' = LazyHeap.IndexMatrix.num_cols kind
      /\ (forall i y x, Q !! i = Some (y, x) ->
            LazyHeap.IndexMatrix.get y x dst_ind'
            = Ok (Z.of_nat (length (done ++ flat_map (bigrade_columns kind) (take (S i) Q)))
                  - 1))
      /\ (forall y x, ~ In (y, x) Q ->
            LazyHeap.IndexMatrix.get y x dst_ind' = LazyHeap.IndexMatrix.get y x dst_ind).
Proof.
  intros Hshape. induction Q as [|[y x] Q IH];
    intros done src dst dind cur HQ HndQ Hinv Hdshape Hdr Hdc Hnd Hrange.
  - exists src, dst, dind, cur. split; [reflexivity|]. cbn. rewrite app_nil_r.
    split; [exact Hinv|]. split; [exact Hdshape|]. split; [exact Hdr|].
    split; [exact Hdc|]. split; [intros i y x Hi; discriminate|reflexivity].
  - destruct (HQ y x ltac:(now left)) as [Hy Hx].
    destruct (start_index_lex_Ok kind y x Hshape Hy Hx) as [lo Hlo].
    destruct (index_get_Ok kind y x Hshape Hy Hx) as [hi Hhi].
    assert (Hbc : bigrade_columns kind (y, x) = seqZ lo (hi - lo + 1)).
    { unfold bigrade_columns. cbn [fst snd]. now rewrite Hlo, Hhi. }
    cbn [flat_map] in Hnd, Hrange |- *. rewrite app_assoc in Hnd, Hrange |- *.
    destruct (move_columns_fold kc (bigrade_columns kind (y, x)) done src dst cur Hinv)
      as (src1 & dst1 & cur1 & Hrun1 & Hinv1).
    { eapply NoDup_app_remove_r. exact Hnd. }
    { intros j Hj. apply Hrange. apply in_or_app. now left. }
    destruct (index_set_Ok dind y x (cur1 - 1) Hdshape ltac:(lia) ltac:(lia))
      as (dind1 & Hset & Hdshape1 & Hdr1 & Hdc1 & Hsame & Hother).
    assert (Hstep : LazyHeap.from_lex_step kind (Ok (src, dst, dind, cur)) (y, x)
                    = Ok (src1, dst1, dind1, cur1)).
    { unfold LazyHeap.from_lex_step. cbn [bind]. rewrite Hlo. cbn [bind].
      rewrite Hhi. cbn [bind]. unfold LazyHeap.move_columns. rewrite <- Hbc, Hrun1.
      cbn [bind]. rewrite Hset. reflexivity. }
    cbn [fold_left]. rewrite Hstep.
    apply List.NoDup_cons_iff in HndQ as [HnotIn HndQ'].
    destruct (IH (done ++ bigrade_columns kind (y, x)) src1 dst1 dind1 cur1)
      as (src' & dst' & dind' & cur' & Hrun & Hinv' & Hsh' & Hr' & Hc' & Hget' & Hkeep').
    + intros y' x' Hin. apply HQ. now right.
    + exact HndQ'.
    + exact Hinv1.
    + exact Hdshape1.
    + lia.
    + lia.
    + exact Hnd.
    + exact Hrange.
    + exists src', dst', dind', cur'. split; [exact Hrun|]. split; [exact Hinv'|].
      split; [exact Hsh'|]. split; [lia|]. split; [lia|]. split.
      * intros i y' x' Hi. destruct i as [|i].
        -- cbn in Hi. injection Hi as <- <-.
           rewrite (Hkeep' y x HnotIn), Hsame. f_equal.
           rewrite (fl_cur _ _ _ _ _ Hinv1).
           change (take 1 ((y, x) :: Q)) with [(y, x)]. cbn [flat_map].
           now rewrite app_nil_r.
        -- cbn in Hi. rewrite (Hget' i y' x' Hi).
           change (take (S (S i)) ((y, x) :: Q)) with ((y, x) :: take (S i) Q).
           cbn [flat_map]. now rewrite app_assoc.
      * intros y' x' Hnot. rewrite Hkeep' by (intros Hin; apply Hnot; now right).
        apply Hother. intros Heq. apply Hnot. left. now symmetry.
Qed.

Lemma colex_order_as_lex h w :
  LazyHeap.colex_order h w = map (fun p => (snd p, fst p)) (LazyHeap.lex_order w h).
Proof.
  unfold LazyHeap.colex_order, LazyHeap.lex_order.
  induction (seq 0 h) as [|y ys IH]; [reflexivity|].
  cbn [flat_map]. rewrite map_app, IH. f_equal.
  rewrite map_map. reflexivity.
Qed.

Lemma colex_order_lookup_inv h w i y x :
  LazyHeap.colex_order h w !! i = Some (y, x) ->
  i = (y * w + x)%nat /\ (y < h)%nat /\ (x < w)%nat.
Proof.
  rewrite colex_order_as_lex.
  change (map (fun p : nat * nat => (snd p, fst p)) (LazyHeap.lex_order w h))
    with ((fun p : nat * nat => (snd p, fst p)) <$> LazyHeap.lex_order w h).
  rewrite list_lookup_fmap.
  destruct (LazyHeap.lex_order w h !! i) as [[a b]|] eqn:E; [|discriminate].
  cbn. intros [= <- <-].
  apply lex_order_lookup_inv in E as (-> & Ha & Hb). repeat split; lia.
Qed.

Lemma colex_order_lookup h w y x :
  (y < h)%nat -> (x < w)%nat ->
  LazyHeap.colex_order h w !! (y * w + x)%nat = Some (y, x).
Proof.
  intros Hy Hx. rewrite colex_order_as_lex.
  change (map (fun p : nat * nat => (snd p, fst p)) (LazyHeap.lex_order w h))
    with ((fun p : nat * nat => (snd p, fst p)) <$> LazyHeap.lex_order w h).
  rewrite list_lookup_fmap, (lex_order_lookup w h x y Hx Hy). reflexivity.
Qed.

Lemma flat_map_take_length {A B : Type} (f : A -> list B) (l : list A) a b :
  (a <= b)%nat ->
  (length (flat_map f (take a l)) <= length (flat_map f (take b l)))%nat.
Proof.
  intros Hab. replace (take a l) with (take a (take b l)).
  - rewrite <- (take_drop a (take b l)) at 2.
    rewrite flat_map_app, length_app. lia.
  - rewrite take_take. f_equal. lia.
Qed.

(** What the constructor from a lex layout leaves: the columns regrouped
    by bigrade in colex order, and in the index matrix the index of the
    last column of the bigrades treated so far. *)
Lemma from_lex_layout (lex : LazyHeap.BigradedMatrixLex) :
  wf_index_lex (length (matrix (LazyHeap.MapMatrix.cols (LazyHeap.lex_mat lex))))
               (LazyHeap.lex_ind lex) ->
  exists K,
    LazyHeap.from_lex lex = Ok K
    /\ matrix (LazyHeap.MapMatrix.cols (LazyHeap.mat K))
       = moved_columns (matrix (LazyHeap.MapMatrix.cols (LazyHeap.lex_mat lex)))
           (flat_map (bigrade_columns (LazyHeap.lex_ind lex))
              (LazyHeap.colex_order (LazyHeap.IndexMatrix.num_rows (LazyHeap.lex_ind lex))
                                    (LazyHeap.IndexMatrix.num_cols (LazyHeap.lex_ind lex))))
    /\ Permutation (matrix (LazyHeap.MapMatrix.cols (LazyHeap.mat K)))
                   (matrix (LazyHeap.MapMatrix.cols (LazyHeap.lex_mat lex)))
    /\ LazyHeap.MapMatrix.num_rows (LazyHeap.mat K)
       = LazyHeap.MapMatrix.num_rows (LazyHeap.lex_mat lex)
    /\ wf_matrix (LazyHeap.MapMatrix.cols (LazyHeap.mat K))
    /\ index_shape (LazyHeap.ind K)
    /\ LazyHeap.IndexMatrix.num_rows (LazyHeap.ind K)
       = LazyHeap.IndexMatrix.num_rows (LazyHeap.lex_ind lex)
    /\ LazyHeap.IndexMatrix.num_cols (LazyHeap.ind K)
       = LazyHeap.IndexMatrix.num_cols (LazyHeap.lex_ind lex)
    /\ forall i y x,
         LazyHeap.colex_order (LazyHeap.IndexMatrix.num_rows (LazyHeap.lex_ind lex))
                              (LazyHeap.IndexMatrix.num_cols (LazyHeap.lex_ind lex)) !! i
         = Some (y, x) ->
         LazyHeap.IndexMatrix.get y x (LazyHeap.ind K)
         = Ok (Z.of_nat
                 (length (flat_map (bigrade_columns (LazyHeap.lex_ind lex))
                            (take (S i)
                               (LazyHeap.colex_order
                                  (LazyHeap.IndexMatrix.num_rows (LazyHeap.lex_ind lex))
                                  (LazyHeap.IndexMatrix.num_cols (LazyHeap.lex_ind lex))))))
               - 1).
Proof.
  intros (Hshape & ts & Hlen & Hlv).
  set (kind := LazyHeap.lex_ind lex) in *.
  set (kc := matrix (LazyHeap.MapMatrix.cols (LazyHeap.lex_mat lex))) in *.
  set (h := LazyHeap.IndexMatrix.num_rows kind) in *.
  set (w := LazyHeap.IndexMatrix.num_cols kind) in *.
  pose proof (bigrade_columns_all h w kind ts _ Hlv eq_refl Hlen) as Hall.
  assert (Hperm : Permutation (flat_map (bigrade_columns kind) (LazyHeap.colex_order h w))
                              (seqZ 0 (Z.of_nat (length kc)))).
  { rewrite <- Hall. apply Permutation_flat_map, colex_lex_permutation. }
  destruct (from_lex_fold_index kc kind Hshape (LazyHeap.colex_order h w) []
              (LazyHeap.lex_mat lex)
              (LazyHeap.MapMatrix.make (LazyHeap.MapMatrix.height (LazyHeap.lex_mat lex))
                                       (LazyHeap.MapMatrix.width (LazyHeap.lex_mat lex)))
              (LazyHeap.IndexMatrix.make h w) 0)
    as (src' & dst' & dind' & cur' & Hrun & Hinv & Hsh' & Hr' & Hc' & Hget & _).
  { intros y x Hin. now apply in_colex_order in Hin. }
  { apply NoDup_colex_order. }
  { split.
    - reflexivity.
    - reflexivity.
    - cbn. rewrite take_nil. cbn. unfold LazyHeap.MapMatrix.width. fold kc.
      now rewrite !Nat.sub_0_r.
    - unfold wf_matrix. cbn. rewrite take_nil. cbn.
      now rewrite !length_replicate, Nat.sub_0_r.
    - reflexivity. }
  { apply index_shape_make. }
  { reflexivity. }
  { reflexivity. }
  { cbn [app]. eapply Permutation_NoDup; [symmetry; exact Hperm|].
    apply NoDup_ListNoDup, NoDup_seqZ. }
  { cbn [app]. intros j Hj. eapply Permutation_in in Hj; [|exact Hperm].
    apply list_elem_of_In, elem_of_seqZ in Hj. lia. }
  unfold LazyHeap.from_lex, LazyHeap.IndexMatrix.height, LazyHeap.IndexMatrix.width.
  fold kind. fold h. fold w. rewrite Hrun. cbn [bind].
  eexists. split; [reflexivity|]. cbn [LazyHeap.mat LazyHeap.ind].
  pose proof (Permutation_length Hperm) as Hl. rewrite length_seqZ, Nat2Z.id in Hl.
  assert (Hcols : matrix (LazyHeap.MapMatrix.cols dst')
                  = moved_columns kc (flat_map (bigrade_columns kind)
                                        (LazyHeap.colex_order h w))).
  { rewrite (fl_dst _ _ _ _ _ Hinv). cbn [app].
    rewrite Hl, Nat.sub_diag. cbn [replicate]. now rewrite app_nil_r. }
  split; [exact Hcols|]. split; [|split; [|split; [|split; [|split; [|split]]]]].
  - rewrite Hcols. rewrite <- (moved_columns_all kc) at 2.
    unfold moved_columns. apply Permutation_map. exact Hperm.
  - exact (from_lex_fold_num_rows _ _ _ _ _ _ _ _ _ _ Hrun).
  - exact (fl_dst_wf _ _ _ _ _ Hinv).
  - exact Hsh'.
  - exact Hr'.
  - exact Hc'.
  - intros i y x Hi. exact (Hget i y x Hi).
Qed.


Lemma lex_example_wf :
  wf_index_lex (length (matrix (LazyHeap.MapMatrix.cols (LazyHeap.lex_mat lex_example))))
               (LazyHeap.lex_ind lex_example).
Proof.
  split; [split; cbn; [reflexivity|repeat constructor]|].
  exists [0; 1; 2; 3]. split; [reflexivity|]. split.
  - intros i y x v Hi Hv.
    destruct i as [|[|[|[|i]]]]; cbn in Hi, Hv; try discriminate;
      injection Hi as <- <-; injection Hv as <-; reflexivity.
  - intros i j vi vj Hij Hi Hj.
    destruct i as [|[|[|[|i]]]]; cbn in Hi; try discriminate; injection Hi as <-;
      destruct j as [|[|[|[|j]]]]; cbn in Hj; try discriminate; injection Hj as <-; lia.
  - intros i v Hi.
    destruct i as [|[|[|[|i]]]]; cbn in Hi; try discriminate; injection Hi as <-; cbn; lia.
  - reflexivity.
Qed.


(** ** [kernel] returns bigraded matrices of the data model *)

Section KernelShape.
Context {ops : HeapOps} {laws : HeapLaws ops}.

Lemma reduce_loop_num_rows fuel :
  forall j lows m slave l m' slave' l',
    LazyHeap.reduce_loop fuel j lows m slave l = Ok (m', slave', l') ->
    LazyHeap.MapMatrix.num_rows m' = LazyHeap.MapMatrix.num_rows m.
Proof.
  induction fuel as [|fuel IH]; intros j lows m slave l m' slave' l' H;
    cbn [LazyHeap.reduce_loop] in H;
    destruct (LazyHeap.low_is_taken lows l j) as [[|]|]; cbn [bind] in H;
    try discriminate; try (injection H as <- _ _; reflexivity).
  destruct (vgetZ lows l) as [c|]; cbn [bind] in H; [|discriminate].
  destruct (LazyHeap.to_index c) as [ci|]; cbn [bind] in H; [|discriminate].
  destruct (LazyHeap.to_index j) as [ji|]; cbn [bind] in H; [|discriminate].
  unfold LazyHeap.MapMatrix.add_column_popped in H.
  destruct (_add_to_popped ci ji _) as [v|]; cbn [bind] in H; [|discriminate].
  unfold LazyHeap.MapMatrix.add_column in H.
  destruct (_add_to ci ji _) as [v'|]; cbn [bind] in H; [|discriminate].
  unfold LazyHeap.MapMatrix.remove_low in H.
  destruct (_remove_max ji _) as [[l1 c1]|]; cbn [bind] in H; [|discriminate].
  apply IH in H. exact H.
Qed.

Lemma kernel_column_shape M0 hrows V st j fuel fcc :
  kernel_inv M0 hrows V st ->
  0 <= j < Z.of_nat (length M0) ->
  (j >= fcc -> ~ V j) ->
  (hrows <= fuel)%nat ->
  kernel_shape hrows (length M0) st ->
  forall st', LazyHeap.kernel_column fuel fcc (Ok st) j = Ok st' ->
    kernel_shape hrows (length M0) st'.
Proof.
  intros Hinv Hj HV Hfuel [HA HB HC].
  set (mat0 := matrix (LazyHeap.MapMatrix.cols (LazyHeap.ks_mat st))).
  set (slave0 := matrix (LazyHeap.MapMatrix.cols (LazyHeap.ks_slave st))).
  set (ji := Z.to_nat j).
  assert (Hjz : Z.of_nat ji = j) by (unfold ji; lia).
  destruct (lookup_lt_is_Some_2 mat0 ji) as [cm0 Hcm0].
  { unfold mat0. rewrite (ki_mat_len _ _ _ _ Hinv). unfold ji. lia. }
  destruct (lookup_lt_is_Some_2 slave0 ji) as [cs0 Hcs0].
  { unfold slave0. rewrite (ki_slave_len _ _ _ _ Hinv). unfold ji. lia. }
  destruct (ki_mat_cols _ _ _ _ Hinv _ _ Hcm0) as [Hfin0 Hb0].
  destruct (ki_slave_cols _ _ _ _ Hinv _ _ Hcs0) as (Hhs0 & Hbs0 & Hlead0).
  rewrite Hjz in Hbs0, Hlead0.
  pose proof (ki_product _ _ _ _ Hinv _ _ _ Hcm0 Hcs0) as Hprod0.
  pose proof (ki_mat_wf _ _ _ _ Hinv) as Hwfm. pose proof (ki_slave_wf _ _ _ _ Hinv) as Hwfs.
  unfold LazyHeap.kernel_column. cbn [bind].
  unfold LazyHeap.to_index. rewrite decide_False by lia. cbn [bind]. fold ji.
  rewrite (low_finalized_Ok ji _ cm0 Hcm0). cbn [bind].
  set (l := get_max_index_finalized_col cm0).
  pose proof (front_range hrows cm0 Hb0) as Hl. fold l in Hl.
  destruct (low_is_taken_total (LazyHeap.ks_lows st) l j hrows
              (ki_lows_len _ _ _ _ Hinv) Hl) as (changing & Htaken & Hch).
  rewrite Htaken. cbn [bind].
  assert (Hid_s : slave0 = <[ji:=cs0]> slave0) by (symmetry; now apply list_insert_id).
  destruct changing.
  - destruct (Hch eq_refl) as (Hl1 & c & Hc & Hc1 & Hcj).
    destruct Hfin0 as [Hh0 Hnd0].
    rewrite (remove_low_Ok ji _ cm0 Hcm0). cbn [bind fst snd].
    pose proof (_pop_max_index_spec cm0 Hh0) as Hpop.
    assert (Hl_pop : fst (_pop_max_index cm0) = l).
    { rewrite (_pop_max_index_largest_odd cm0 Hh0).
      symmetry. apply finalized_front. now split. }
    rewrite Hl_pop in Hpop. set (cm1 := snd (_pop_max_index cm0)) in *.
    destruct (pop_spec_entries cm0 l cm1 _ Hpop Hb0) as (Hb1 & Hh1 & _).
    assert (Hcs0_ne : odd_in j cs0 = true).
    { destruct Hlead0 as [->|H]; [|exact H]. exfalso.
      destruct (front_cons cm0 l eq_refl Hl1) as [rest Hrest].
      specialize (Hprod0 l). rewrite mat_vec_nil in Hprod0.
      assert (odd_in l cm0 = true); [|congruence].
      apply NoDup_odd_in; [exact Hnd0|]. rewrite Hrest. now left. }
    destruct (reduce_loop_spec M0 hrows V st j Hinv Hj fuel
                (LazyHeap.MapMatrix.with_cols
                   (with_column ji cm1 (LazyHeap.MapMatrix.cols (LazyHeap.ks_mat st)))
                   (LazyHeap.ks_mat st))
                (LazyHeap.ks_slave st) l)
      as (m1 & slave1 & l1 & Hrun & Hred1 & Hstop).
    { exists cm1, cs0. fold ji mat0 slave0.
      split; [reflexivity|]. split; [exact Hid_s|].
      split; [cbn; now apply wf_with_column|]. split; [exact Hwfs|].
      split; [exact Hh1|]. split; [exact Hb1|]. split; [exact Hl|].
      split; [exact Hhs0|]. split; [now rewrite Hjz|]. split; [now rewrite Hjz|].
      intros r. rewrite <- Hprod0. apply pop_spec_restore; [exact Hpop|].
      eapply entries_below_not_minus_one; eassumption. }
    { lia. }
    rewrite Hrun. cbn [bind].
    pose proof (reduce_loop_num_rows _ _ _ _ _ _ _ _ _ Hrun) as Hrows1.
    cbn in Hrows1.
    fold ji mat0 slave0 in Hred1.
    destruct Hred1 as (cmf & csf & Hm1 & Hs1 & Hwfm1 & Hwfs1 & Hhf & Hbf & Hl1r
                       & Hhsf & Hbsf & Hleadf & Hcontf).
    rewrite Hjz in Hbsf, Hleadf.
    assert (Hm1_j : matrix (LazyHeap.MapMatrix.cols m1) !! ji = Some cmf).
    { rewrite Hm1. apply list_lookup_insert_eq. eapply lookup_lt_Some; eassumption. }
    assert (Hs1_j : matrix (LazyHeap.MapMatrix.cols slave1) !! ji = Some csf).
    { rewrite Hs1. apply list_lookup_insert_eq. eapply lookup_lt_Some; eassumption. }
    destruct (decide (l1 <> -1)) as [Hl1ne|Hl1eq].
    + unfold vsetZ. rewrite decide_False by lia.
      rewrite vset_lt by (rewrite (ki_lows_len _ _ _ _ Hinv); lia). cbn [bind].
      rewrite (push_index_Ok ji l1 m1 cmf Hm1_j). cbn [bind].
      rewrite (finalize_Ok ji _ (push_back_push_heap cmf l1)).
      2:{ cbn. now apply wf_with_column. }
      2:{ cbn. apply list_lookup_insert_eq. eapply lookup_lt_Some; eassumption. }
      cbn [bind]. intros st' [= <-]. split; cbn.
      * now rewrite Hrows1.
      * exact HB.
      * exact HC.
    + rewrite (finalize_Ok ji slave1 csf Hwfs1 Hs1_j). cbn [bind].
      unfold LazyHeap.append_to_kernel.
      rewrite (append_col_Ok ji _ _ (prune_col csf)).
      2:{ cbn. apply list_lookup_insert_eq. eapply lookup_lt_Some; eassumption. }
      cbn [bind]. intros st' [= <-]. split; cbn.
      * now rewrite Hrows1.
      * exact HB.
      * assert (Hnis : ~ In (-1) csf).
        { intros Hin. rewrite Forall_forall in Hbsf. apply list_elem_of_In in Hin.
          specialize (Hbsf _ Hin). lia. }
        destruct (prune_col_spec csf Hhsf Hnis) as (Hhk & Hndk & _).
        intros col Hin. apply in_app_or in Hin as [Hin|[<-|[]]]; [now apply HC|].
        now split.
  - cbn [bind]. rewrite (reduce_loop_not_taken fuel j _ _ _ l Htaken). cbn [bind].
    destruct (decide (l <> -1)) as [Hlne|Hleq].
    + unfold vsetZ. rewrite decide_False by lia.
      rewrite vset_lt by (rewrite (ki_lows_len _ _ _ _ Hinv); lia). cbn [bind].
      intros st' [= <-]. split; cbn; [exact HA|exact HB|exact HC].
    + destruct (decide (j >= fcc)) as [Hge|Hlt].
      * assert (Hunt : slave0 !! ji = Some [j]).
        { pose proof (ki_untouched _ _ _ _ Hinv ji) as Hu. rewrite Hjz in Hu.
          apply Hu; [unfold ji; lia|]. now apply HV. }
        unfold LazyHeap.append_to_kernel.
        rewrite (append_col_Ok ji _ _ [j] Hunt). cbn [bind].
        intros st' [= <-]. split; cbn; [exact HA|exact HB|].
        intros col Hin. apply in_app_or in Hin as [Hin|[<-|[]]]; [now apply HC|].
        split; [apply is_heap_singleton|]. constructor; [intros []|constructor].
      * intros st' [= <-]. split; cbn; [exact HA|exact HB|exact HC].
Qed.

Lemma kernel_columns_fold_shape M0 hrows fuel fcc :
  (hrows <= fuel)%nat ->
  forall js V st,
    kernel_inv M0 hrows V st ->
    (forall j, In j js -> 0 <= j < Z.of_nat (length M0)) ->
    List.NoDup js ->
    (forall j, In j js -> j >= fcc -> ~ V j) ->
    kernel_shape hrows (length M0) st ->
    forall st', fold_left (LazyHeap.kernel_column fuel fcc) js (Ok st) = Ok st' ->
      kernel_shape hrows (length M0) st'.
Proof.
  intros Hfuel. induction js as [|j js IH]; intros V st Hinv Hrange Hnd HV Hsh st' Hrun.
  - cbn in Hrun. now injection Hrun as <-.
  - cbn [fold_left] in Hrun. apply NoDup_cons_iff in Hnd as [Hnj Hnd].
    destruct (kernel_column_spec M0 hrows V st j fuel fcc Hinv)
      as (st1 & Hrun1 & Hinv1 & _ & _).
    { apply Hrange. now left. }
    { apply HV. now left. }
    { exact Hfuel. }
    pose proof (kernel_column_shape M0 hrows V st j fuel fcc Hinv
                  (Hrange j ltac:(now left)) (HV j ltac:(now left)) Hfuel Hsh st1 Hrun1)
      as Hsh1.
    rewrite Hrun1 in Hrun.
    apply (IH (fun i => V i \/ i = j) st1 Hinv1); try assumption.
    + intros j' Hj'. apply Hrange. now right.
    + intros j' Hj' Hge [Hv|Heq]; [|subst j'; contradiction].
      eapply HV; [right; exact Hj'|exact Hge|exact Hv].
Qed.

Lemma kernel_one_bigrade_shape M0 hrows fuel idx P y x st :
  kernel_inv M0 hrows (visited idx P) st ->
  wf_index (length M0) idx ->
  (y < LazyHeap.IndexMatrix.num_rows idx)%nat ->
  (x < LazyHeap.IndexMatrix.num_cols idx)%nat ->
  (forall p, In p P -> lex_lt p (y, x)) ->
  (hrows <= fuel)%nat ->
  kernel_shape hrows (length M0) st ->
  forall st', LazyHeap.kernel_one_bigrade fuel idx (Ok st) (y, x) = Ok st' ->
    kernel_shape hrows (length M0) st'.
Proof.
  intros Hinv Hwf Hy Hx HP Hfuel Hsh st' Hrun.
  pose proof (wi_shape _ _ Hwf) as Hishape.
  destruct (start_index_spec _ idx y 0 Hwf Hy ltac:(lia)) as (s0 & Hs0 & Hs0pos & _ & _ & _).
  destruct (start_index_spec _ idx y x Hwf Hy Hx) as (s & Hs & Hspos & _ & _ & _).
  destruct (index_get_Ok idx y x Hishape Hy Hx) as [v Hv].
  pose proof (wi_range _ _ Hwf _ _ _ Hv) as Hvr.
  pose proof (start_index_row _ idx y x s0 s Hwf Hy Hx Hs0 Hs) as Hs0s.
  unfold LazyHeap.kernel_one_bigrade in Hrun. cbn [bind] in Hrun.
  rewrite Hs0 in Hrun. cbn [bind] in Hrun. rewrite Hs in Hrun. cbn [bind] in Hrun.
  rewrite Hv in Hrun. cbn [bind] in Hrun.
  destruct (fold_left (LazyHeap.kernel_column fuel s) (seqZ s0 (v - s0 + 1)) (Ok st))
    as [st1|] eqn:Hfold; cbn [bind] in Hrun; [|discriminate].
  assert (Hsh1 : kernel_shape hrows (length M0) st1).
  { apply (kernel_columns_fold_shape M0 hrows fuel s Hfuel (seqZ s0 (v - s0 + 1))
             (visited idx P) st Hinv); try assumption.
    - intros j Hj. apply list_elem_of_In, elem_of_seqZ in Hj. lia.
    - apply NoDup_ListNoDup, NoDup_seqZ.
    - intros j Hj Hge. apply list_elem_of_In, elem_of_seqZ in Hj.
      apply (not_visited _ idx P y x s v j Hwf Hy Hx HP Hs Hv). lia. }
  destruct (LazyHeap.IndexMatrix.set y x _ _) as [kind'|]; cbn [bind] in Hrun;
    [|discriminate].
  injection Hrun as <-. destruct Hsh1 as [HA HB HC]. split; cbn; assumption.
Qed.

Lemma kernel_bigrades_fold_shape M0 hrows fuel idx st0 :
  wf_index (length M0) idx ->
  (hrows <= fuel)%nat ->
  kernel_inv M0 hrows (visited idx []) st0 ->
  index_shape (LazyHeap.lex_ind (LazyHeap.ks_ker st0)) ->
  LazyHeap.IndexMatrix.num_rows (LazyHeap.lex_ind (LazyHeap.ks_ker st0))
  = LazyHeap.IndexMatrix.num_rows idx ->
  LazyHeap.IndexMatrix.num_cols (LazyHeap.lex_ind (LazyHeap.ks_ker st0))
  = LazyHeap.IndexMatrix.num_cols idx ->
  matrix (LazyHeap.MapMatrix.cols (LazyHeap.lex_mat (LazyHeap.ks_ker st0))) = [] ->
  kernel_shape hrows (length M0) st0 ->
  forall k st,
    (k <= length (LazyHeap.lex_order (LazyHeap.IndexMatrix.num_rows idx)
                                     (LazyHeap.IndexMatrix.num_cols idx)))%nat ->
    fold_left (LazyHeap.kernel_one_bigrade fuel idx)
              (take k (LazyHeap.lex_order (LazyHeap.IndexMatrix.num_rows idx)
                                          (LazyHeap.IndexMatrix.num_cols idx)))
              (Ok st0) = Ok st ->
    kernel_shape hrows (length M0) st.
Proof.
  intros Hwf Hfuel Hinv0 Hshape0 Hr0 Hc0 Hempty Hsh0.
  set (L := LazyHeap.lex_order (LazyHeap.IndexMatrix.num_rows idx)
                               (LazyHeap.IndexMatrix.num_cols idx)).
  induction k as [|k IH]; intros st Hk Hrun.
  - cbn in Hrun. now injection Hrun as <-.
  - destruct (kernel_bigrades_fold M0 hrows fuel idx st0 Hwf Hfuel Hinv0 Hshape0 Hr0 Hc0
                Hempty k ltac:(fold L; lia))
      as (stk & ts & Hrunk & Hinvk & Hshapek & Hrk & Hck & _ & _).
    fold L in Hrunk, Hinvk.
    destruct (lookup_lt_is_Some_2 L k ltac:(lia)) as [[y x] Hpos].
    rewrite (take_S_r _ _ _ Hpos), fold_left_app, Hrunk in Hrun. cbn [fold_left] in Hrun.
    pose proof (lex_order_lookup_inv _ _ _ _ _ Hpos) as (Hkeq & Hy & Hx).
    apply (kernel_one_bigrade_shape M0 hrows fuel idx (take k L) y x stk Hinvk Hwf Hy Hx);
      [|exact Hfuel|exact (IH stk ltac:(lia) Hrunk)|exact Hrun].
    intros p Hp. apply list_elem_of_In, elem_of_take in Hp as (i & Hi & Hlt).
    exact (lex_order_earlier _ _ _ _ _ _ Hlt Hi Hpos).
Qed.

End KernelShape.

(** An index matrix that holds, for each bigrade, the index of the last
    column of the bigrades up to it in colex order is the index matrix
    of a colex layout. *)
Lemma colex_layout_wf_index {B : Type} (f : nat * nat -> list B) h w idx :
  index_shape idx ->
  LazyHeap.IndexMatrix.num_rows idx = h ->
  LazyHeap.IndexMatrix.num_cols idx = w ->
  (forall i y x, LazyHeap.colex_order h w !! i = Some (y, x) ->
     LazyHeap.IndexMatrix.get y x idx
     = Ok (Z.of_nat (length (flat_map f (take (S i) (LazyHeap.colex_order h w)))) - 1)) ->
  wf_index (length (flat_map f (LazyHeap.colex_order h w))) idx.
Proof.
  intros Hshape Hr Hc Hget.
  assert (Hle : forall i, (length (flat_map f (take i (LazyHeap.colex_order h w)))
                           <= length (flat_map f (LazyHeap.colex_order h w)))%nat).
  { intros i. rewrite <- (take_drop i (LazyHeap.colex_order h w)) at 2.
    rewrite flat_map_app, length_app. lia. }
  split.
  - exact Hshape.
  - intros y x v Hg.
    destruct (index_get_bounds idx y x v Hshape Hg) as [Hy Hx]. rewrite Hr in Hy.
    rewrite Hc in Hx.
    rewrite (Hget _ y x (colex_order_lookup h w y x Hy Hx)) in Hg. injection Hg as <-.
    pose proof (Hle (S (y * w + x))) as Hle1.
    assert (0 < length (flat_map f (take (S (y * w + x)) (LazyHeap.colex_order h w)))
            \/ length (flat_map f (take (S (y * w + x)) (LazyHeap.colex_order h w))) = 0)%nat
      as [Hpos|Hzero] by lia; lia.
  - intros y x y' x' v v' Hg Hg' Hcl.
    destruct (index_get_bounds idx y x v Hshape Hg) as [Hy Hx]. rewrite Hr in Hy.
    rewrite Hc in Hx.
    destruct (index_get_bounds idx y' x' v' Hshape Hg') as [Hy' Hx']. rewrite Hr in Hy'.
    rewrite Hc in Hx'.
    rewrite (Hget _ y x (colex_order_lookup h w y x Hy Hx)) in Hg. injection Hg as <-.
    rewrite (Hget _ y' x' (colex_order_lookup h w y' x' Hy' Hx')) in Hg'.
    injection Hg' as <-.
    assert (Hpos : (S (y * w + x) <= S (y' * w + x'))%nat).
    { unfold colex_le in Hcl. cbn [fst snd] in Hcl. destruct Hcl as [Hlt|[-> Hle']]; nia. }
    pose proof (flat_map_take_length f (LazyHeap.colex_order h w) _ _ Hpos). lia.
Qed.

Section KernelResult.
Context {ops : HeapOps} {laws : HeapLaws ops}.


End KernelResult.

